(** * CustomTreeCtrl: item model, check/radio state machine, hit testing,
      selection ranges, deletion and freeze/thaw

    A shallow embedding of [wx/lib/agw/customtreectrl.py]
    (classes [GenericTreeItem] and [CustomTreeCtrl]) and the proofs of the
    properties stated about it.

    Conventions of the embedding.
    - Python integers are [Z]; a Python [bool] is the [Z] 0 or 1 where the
      source stores it in an integer slot ([_checked]), and a Rocq [bool]
      where the source only ever stores booleans.  A Python [str] is the
      list of its code points; the messages of exceptions are Rocq
      strings.
    - The items form a parent-owned tree.  An item reference is the path of
      child indices leading from the root to the item: the parent
      back-reference [_parent] is the path without its last index, and
      [==] on items (object identity in the source) is equality of paths.
    - Items never carry an embedded window ([_wnd] is [None]), attributes
      or user data; fonts and the device context are represented by the
      text-extent function the control is given.
    - Event handlers are an oracle: [ProcessEvent] answers from the list of
      events already sent and the event itself, and does not call back
      into the control.
    - Painting is not part of the embedding.  Two counters record what
      the control asks for: [layouts] counts the layout passes that
      [CalculatePositions] really performs, [refreshes] the calls of
      [Refresh()] on the whole window; the repainting of single lines and
      the scrollbars are left out.
    - The event loop of the toolkit is not part of the embedding, and
      with it [OnInternalIdle], which the loop calls and which selects an
      item through [SelectItem], [EnsureVisible] and [ScrollTo]
      ([Update()], [wx.YieldIfNeeded()]) before it redraws a dirty
      tree. *)

From Stdlib Require Import ZArith String Lia Bool Sorted.
From stdpp Require Import base list.

Local Open Scope Z_scope.

(** ** Constants of the module and of the toolkit *)

Definition _NO_IMAGE : Z := -1.
Definition _PIXELS_PER_UNIT : Z := 10.

Definition TreeItemIcon_Normal : nat := 0.
Definition TreeItemIcon_Selected : nat := 1.
Definition TreeItemIcon_Expanded : nat := 2.
Definition TreeItemIcon_SelectedExpanded : nat := 3.

Definition TreeItemIcon_Checked : nat := 0.
Definition TreeItemIcon_NotChecked : nat := 1.
Definition TreeItemIcon_Undetermined : nat := 2.
Definition TreeItemIcon_Flagged : nat := 3.
Definition TreeItemIcon_NotFlagged : nat := 4.

(** Window styles, with the values of the table in the module docstring. *)
Definition TR_HAS_BUTTONS : Z := 0x1.
Definition TR_MULTIPLE : Z := 0x20.
Definition TR_EXTENDED : Z := 0x40.
Definition TR_HAS_VARIABLE_ROW_HEIGHT : Z := 0x80.
Definition TR_HIDE_ROOT : Z := 0x800.
Definition TR_FULL_ROW_HIGHLIGHT : Z := 0x2000.
Definition TR_AUTO_CHECK_CHILD : Z := 0x4000.
Definition TR_AUTO_TOGGLE_CHILD : Z := 0x8000.
Definition TR_AUTO_CHECK_PARENT : Z := 0x10000.
Definition TR_ALIGN_WINDOWS : Z := 0x20000.
Definition TR_ALIGN_WINDOWS_RIGHT : Z := 0x40000.

(** Hit-test flags, with the values of the table in the docstring of
    [CustomTreeCtrl.HitTest]; [TREE_HITTEST_ONITEMCHECKICON] is defined by
    the module itself. *)
Definition TREE_HITTEST_ABOVE : Z := 0x1.
Definition TREE_HITTEST_BELOW : Z := 0x2.
Definition TREE_HITTEST_NOWHERE : Z := 0x4.
Definition TREE_HITTEST_ONITEMBUTTON : Z := 0x8.
Definition TREE_HITTEST_ONITEMICON : Z := 0x10.
Definition TREE_HITTEST_ONITEMINDENT : Z := 0x20.
Definition TREE_HITTEST_ONITEMLABEL : Z := 0x40.
Definition TREE_HITTEST_ONITEMRIGHT : Z := 0x80.
Definition TREE_HITTEST_TOLEFT : Z := 0x200.
Definition TREE_HITTEST_TORIGHT : Z := 0x400.
Definition TREE_HITTEST_ONITEMUPPERPART : Z := 0x800.
Definition TREE_HITTEST_ONITEMLOWERPART : Z := 0x1000.
Definition TREE_HITTEST_ONITEMCHECKICON : Z := 0x4000.
Definition TREE_HITTEST_ONITEM : Z :=
  Z.lor (Z.lor TREE_HITTEST_ONITEMICON TREE_HITTEST_ONITEMLABEL)
        TREE_HITTEST_ONITEMCHECKICON.

(** The three values of a 3-state checkbox ([wx.CHK_*]). *)
Definition CHK_UNCHECKED : Z := 0.
Definition CHK_CHECKED : Z := 1.
Definition CHK_UNDETERMINED : Z := 2.

(** Python truth value of an integer, and the integer of a boolean. *)
Definition truthy (z : Z) : bool := negb (z =? 0).
Definition of_bool (b : bool) : Z := if b then 1 else 0.

(** ** Exceptions and results *)

Inductive Exn : Type :=
| AssertionError
| AttributeError
| OverflowError
| Exception (msg : string)
| StaleItem.

(** A message that starts with a line break, as ["\nERROR: ..."]. *)
Definition nl (msg : string) : string := String (Ascii.ascii_of_nat 10) msg.

Inductive Result (A : Type) : Type :=
| Ok (a : A)
| Raise (e : Exn).
Arguments Ok {A} a.
Arguments Raise {A} e.

(** ** Events *)

Definition path : Type := list nat.

Inductive EventType : Type :=
| wxEVT_TREE_ITEM_CHECKING
| wxEVT_TREE_ITEM_CHECKED
| wxEVT_TREE_DELETE_ITEM
| wxEVT_TREE_ITEM_ACTIVATED.

Record TreeEvent : Type := mkTreeEvent {
  evtType : EventType;
  evtItem : path
}.

Global Instance EventType_eq_dec : EqDecision EventType.
Proof. solve_decision. Defined.

Global Instance TreeEvent_eq_dec : EqDecision TreeEvent.
Proof. solve_decision. Defined.

(** ** Text *)

(** A Python [str] is the sequence of its code points. *)
Definition str : Type := list N.

(** The [str] of an ASCII literal. *)
Definition str_of (s : string) : str :=
  Ascii.N_of_ascii <$> list_ascii_of_string s.

(** ** GenericTreeItem *)

Record ItemData : Type := mkItemData {
  _text : str;
  _separator : bool;
  _images : list Z;
  _checkedimages : list (option Z);
  _x : Z;
  _y : Z;
  _width : Z;
  _height : Z;
  _isCollapsed : bool;
  _hasHilight : bool;
  _hasPlus : bool;
  _isBold : bool;
  _isItalic : bool;
  _type : Z;
  _is3State : bool;
  _checked : Z;
  _enabled : bool;
  _hidden : bool
}.

Local Unset Elimination Schemes.
Inductive GenericTreeItem : Type :=
| Item (d : ItemData) (children : list GenericTreeItem).

Local Set Elimination Schemes.

Definition data (item : GenericTreeItem) : ItemData :=
  match item with Item d _ => d end.

Definition GetChildren (item : GenericTreeItem) : list GenericTreeItem :=
  match item with Item _ cs => cs end.

(** Field assignments. *)
Definition set_x (d : ItemData) (v : Z) : ItemData :=
  mkItemData (_text d) (_separator d) (_images d) (_checkedimages d)
    v (_y d) (_width d) (_height d) (_isCollapsed d) (_hasHilight d)
    (_hasPlus d) (_isBold d) (_isItalic d) (_type d) (_is3State d)
    (_checked d) (_enabled d) (_hidden d).
Definition set_y (d : ItemData) (v : Z) : ItemData :=
  mkItemData (_text d) (_separator d) (_images d) (_checkedimages d)
    (_x d) v (_width d) (_height d) (_isCollapsed d) (_hasHilight d)
    (_hasPlus d) (_isBold d) (_isItalic d) (_type d) (_is3State d)
    (_checked d) (_enabled d) (_hidden d).
Definition set_width (d : ItemData) (v : Z) : ItemData :=
  mkItemData (_text d) (_separator d) (_images d) (_checkedimages d)
    (_x d) (_y d) v (_height d) (_isCollapsed d) (_hasHilight d)
    (_hasPlus d) (_isBold d) (_isItalic d) (_type d) (_is3State d)
    (_checked d) (_enabled d) (_hidden d).
Definition set_height (d : ItemData) (v : Z) : ItemData :=
  mkItemData (_text d) (_separator d) (_images d) (_checkedimages d)
    (_x d) (_y d) (_width d) v (_isCollapsed d) (_hasHilight d)
    (_hasPlus d) (_isBold d) (_isItalic d) (_type d) (_is3State d)
    (_checked d) (_enabled d) (_hidden d).
Definition set_isCollapsed (d : ItemData) (v : bool) : ItemData :=
  mkItemData (_text d) (_separator d) (_images d) (_checkedimages d)
    (_x d) (_y d) (_width d) (_height d) v (_hasHilight d)
    (_hasPlus d) (_isBold d) (_isItalic d) (_type d) (_is3State d)
    (_checked d) (_enabled d) (_hidden d).
Definition set_hasHilight (d : ItemData) (v : bool) : ItemData :=
  mkItemData (_text d) (_separator d) (_images d) (_checkedimages d)
    (_x d) (_y d) (_width d) (_height d) (_isCollapsed d) v
    (_hasPlus d) (_isBold d) (_isItalic d) (_type d) (_is3State d)
    (_checked d) (_enabled d) (_hidden d).
Definition set_hasPlus (d : ItemData) (v : bool) : ItemData :=
  mkItemData (_text d) (_separator d) (_images d) (_checkedimages d)
    (_x d) (_y d) (_width d) (_height d) (_isCollapsed d) (_hasHilight d)
    v (_isBold d) (_isItalic d) (_type d) (_is3State d)
    (_checked d) (_enabled d) (_hidden d).
Definition set_type (d : ItemData) (v : Z) : ItemData :=
  mkItemData (_text d) (_separator d) (_images d) (_checkedimages d)
    (_x d) (_y d) (_width d) (_height d) (_isCollapsed d) (_hasHilight d)
    (_hasPlus d) (_isBold d) (_isItalic d) v (_is3State d)
    (_checked d) (_enabled d) (_hidden d).
Definition set_is3State (d : ItemData) (v : bool) : ItemData :=
  mkItemData (_text d) (_separator d) (_images d) (_checkedimages d)
    (_x d) (_y d) (_width d) (_height d) (_isCollapsed d) (_hasHilight d)
    (_hasPlus d) (_isBold d) (_isItalic d) (_type d) v
    (_checked d) (_enabled d) (_hidden d).
Definition set_checked (d : ItemData) (v : Z) : ItemData :=
  mkItemData (_text d) (_separator d) (_images d) (_checkedimages d)
    (_x d) (_y d) (_width d) (_height d) (_isCollapsed d) (_hasHilight d)
    (_hasPlus d) (_isBold d) (_isItalic d) (_type d) (_is3State d)
    v (_enabled d) (_hidden d).
Definition set_enabled (d : ItemData) (v : bool) : ItemData :=
  mkItemData (_text d) (_separator d) (_images d) (_checkedimages d)
    (_x d) (_y d) (_width d) (_height d) (_isCollapsed d) (_hasHilight d)
    (_hasPlus d) (_isBold d) (_isItalic d) (_type d) (_is3State d)
    (_checked d) v (_hidden d).
Definition set_hidden (d : ItemData) (v : bool) : ItemData :=
  mkItemData (_text d) (_separator d) (_images d) (_checkedimages d)
    (_x d) (_y d) (_width d) (_height d) (_isCollapsed d) (_hasHilight d)
    (_hasPlus d) (_isBold d) (_isItalic d) (_type d) (_is3State d)
    (_checked d) (_enabled d) v.

(** [GenericTreeItem.__init__]: [parent] is the data of the parent item,
    [None] for a root. *)
Definition GenericTreeItem_init (parent : option ItemData) (text : str)
    (ct_type : Z) (image selImage : Z) (separator : bool) : ItemData :=
  mkItemData text separator
    [image; selImage; _NO_IMAGE; _NO_IMAGE]
    (if 0 <? ct_type
     then [Some 0; Some 1; Some 2; Some 3; Some 4]
     else [None; None; None; None; None])
    0 0 0 0
    true false false false false
    ct_type false 0
    (match parent with
     | Some pd => if (_type pd =? 2) && negb (truthy (_checked pd)) then false else true
     | None => true
     end)
    false.

Definition GetImage (d : ItemData) (which : nat) : Z :=
  default _NO_IMAGE (_images d !! which).

Definition GetCheckedImage (d : ItemData) (which : nat) : option Z :=
  default None (_checkedimages d !! which).

Definition GetType (d : ItemData) : Z := _type d.
Definition SetType (d : ItemData) (ct_type : Z) : ItemData := set_type d ct_type.
Definition IsHidden (d : ItemData) : bool := _hidden d.
Definition Hide (d : ItemData) (hide : bool) : ItemData := set_hidden d hide.
Definition Expand (d : ItemData) : ItemData := set_isCollapsed d false.
Definition Collapse (d : ItemData) : ItemData := set_isCollapsed d true.
Definition SetHilight (d : ItemData) (set : bool) : ItemData := set_hasHilight d set.
Definition SetHasPlus (d : ItemData) (has : bool) : ItemData := set_hasPlus d has.
Definition HasChildren (item : GenericTreeItem) : bool :=
  (0 <? length (GetChildren item))%nat.
Definition IsSelected (d : ItemData) : bool := _hasHilight d.

Definition IsExpanded (d : ItemData) : bool :=
  if IsHidden d then false else negb (_isCollapsed d).

Definition Is3State (d : ItemData) : bool := _is3State d.

Definition Get3StateValue (d : ItemData) : Result Z :=
  if negb (Is3State d)
  then Raise (Exception "Get3StateValue can only be used with 3-state checkbox items.")
  else Ok (_checked d).

(** [GetValue]: for a 3-state item the value is read through
    [Get3StateValue], which does not raise there. *)
Definition GetValue (d : ItemData) : Z :=
  if Is3State d
  then match Get3StateValue d with Ok v => v | Raise _ => _checked d end
  else _checked d.

Definition IsChecked (d : ItemData) : Z := GetValue d.

Definition Set3StateValue (d : ItemData) (state : Z) : Result ItemData :=
  if negb ((state =? CHK_UNCHECKED) || (state =? CHK_CHECKED) || (state =? CHK_UNDETERMINED))
  then Raise AssertionError
  else if negb (_is3State d) && (state =? CHK_UNDETERMINED)
  then Raise (Exception "Set3StateValue can only be used with 3-state checkbox items.")
  else Ok (set_checked d state).

Definition Set3State (d : ItemData) (allow : bool) : ItemData * bool :=
  if negb (_type d =? 1) then (d, false) else (set_is3State d allow, true).

(** [Check]: [assert checked in [True, False]], that is [checked] equals
    1 or 0. *)
Definition Check (d : ItemData) (checked : Z) : Result ItemData :=
  if negb ((checked =? 1) || (checked =? 0))
  then Raise AssertionError
  else Ok (set_checked d checked).

Definition HasPlus (item : GenericTreeItem) : bool :=
  _hasPlus (data item) || HasChildren item.

Definition Enable (d : ItemData) (enable : bool) : ItemData := set_enabled d enable.

Definition IsEnabled (d : ItemData) : bool :=
  if IsHidden d then false else _enabled d.

Fixpoint GetChildrenCount (item : GenericTreeItem) : nat :=
  match item with
  | Item _ cs =>
      (length cs + foldr (fun c acc => GetChildrenCount c + acc) 0 cs)%nat
  end.

Definition GetCurrentImage (d : ItemData) : Z :=
  let image :=
    if IsExpanded d then
      let image := if IsSelected d then GetImage d TreeItemIcon_SelectedExpanded
                   else _NO_IMAGE in
      if image =? _NO_IMAGE then GetImage d TreeItemIcon_Expanded else image
    else
      if IsSelected d then GetImage d TreeItemIcon_Selected else _NO_IMAGE in
  if image =? _NO_IMAGE then GetImage d TreeItemIcon_Normal else image.

Definition GetCurrentCheckedImage (d : ItemData) : option Z :=
  if _type d =? 0 then None
  else
    let checked := IsChecked d in
    if truthy checked then
      if _type d =? 1 then
        if checked =? CHK_CHECKED then GetCheckedImage d TreeItemIcon_Checked
        else GetCheckedImage d TreeItemIcon_Undetermined
      else GetCheckedImage d TreeItemIcon_Flagged
    else
      if _type d =? 1 then GetCheckedImage d TreeItemIcon_NotChecked
      else GetCheckedImage d TreeItemIcon_NotFlagged.

(** ** The control: instance variables, item tree, environment *)

Record CtrlVars : Type := mkCtrlVars {
  _agwStyle : Z;
  _dirty : bool;
  _freezeCount : Z;
  _lineHeight : Z;
  _indent : Z;
  _spacing : Z;
  _current : option path;
  _key_current : option path;
  _select_me : option path;
  _imageListNormal : option (Z -> Z * Z);
  _imageListCheck : Z -> Z * Z;
  (** the toolkit: [GetSize()], [GetClientSize()], [GetViewStart()],
      [CalcUnscrolledPosition],
      [wx.Platform == "__WXMAC__"], the text extent measured by the device
      context for a (bold, italic, text) label *)
  GetSize : Z * Z;
  GetClientSize : Z * Z;
  GetViewStart : Z * Z;
  CalcUnscrolledPosition : Z -> Z -> Z * Z;
  platform_mac : bool;
  GetFullMultiLineTextExtent : bool -> bool -> str -> Z * Z;
  (** the event handler: [GetEventHandler().ProcessEvent(e)], given the
      events sent so far *)
  handler : list TreeEvent -> TreeEvent -> bool;
  (** observation of the run: events sent, layout passes performed and
      whole-window [Refresh()] requests, in order of occurrence *)
  sent : list TreeEvent;
  layouts : nat;
  refreshes : nat
}.

Definition set_agwStyle (v : CtrlVars) (x : Z) : CtrlVars :=
  mkCtrlVars x (_dirty v) (_freezeCount v) (_lineHeight v) (_indent v)
    (_spacing v) (_current v) (_key_current v) (_select_me v)
    (_imageListNormal v) (_imageListCheck v) (GetSize v) (GetClientSize v)
    (GetViewStart v) (CalcUnscrolledPosition v) (platform_mac v) (GetFullMultiLineTextExtent v)
    (handler v) (sent v) (layouts v) (refreshes v).
Definition set_dirty (v : CtrlVars) (x : bool) : CtrlVars :=
  mkCtrlVars (_agwStyle v) x (_freezeCount v) (_lineHeight v) (_indent v)
    (_spacing v) (_current v) (_key_current v) (_select_me v)
    (_imageListNormal v) (_imageListCheck v) (GetSize v) (GetClientSize v)
    (GetViewStart v) (CalcUnscrolledPosition v) (platform_mac v) (GetFullMultiLineTextExtent v)
    (handler v) (sent v) (layouts v) (refreshes v).
Definition set_freezeCount (v : CtrlVars) (x : Z) : CtrlVars :=
  mkCtrlVars (_agwStyle v) (_dirty v) x (_lineHeight v) (_indent v)
    (_spacing v) (_current v) (_key_current v) (_select_me v)
    (_imageListNormal v) (_imageListCheck v) (GetSize v) (GetClientSize v)
    (GetViewStart v) (CalcUnscrolledPosition v) (platform_mac v) (GetFullMultiLineTextExtent v)
    (handler v) (sent v) (layouts v) (refreshes v).
Definition set_lineHeight (v : CtrlVars) (x : Z) : CtrlVars :=
  mkCtrlVars (_agwStyle v) (_dirty v) (_freezeCount v) x (_indent v)
    (_spacing v) (_current v) (_key_current v) (_select_me v)
    (_imageListNormal v) (_imageListCheck v) (GetSize v) (GetClientSize v)
    (GetViewStart v) (CalcUnscrolledPosition v) (platform_mac v) (GetFullMultiLineTextExtent v)
    (handler v) (sent v) (layouts v) (refreshes v).
Definition set_current (v : CtrlVars) (x : option path) : CtrlVars :=
  mkCtrlVars (_agwStyle v) (_dirty v) (_freezeCount v) (_lineHeight v) (_indent v)
    (_spacing v) x (_key_current v) (_select_me v)
    (_imageListNormal v) (_imageListCheck v) (GetSize v) (GetClientSize v)
    (GetViewStart v) (CalcUnscrolledPosition v) (platform_mac v) (GetFullMultiLineTextExtent v)
    (handler v) (sent v) (layouts v) (refreshes v).
Definition set_key_current (v : CtrlVars) (x : option path) : CtrlVars :=
  mkCtrlVars (_agwStyle v) (_dirty v) (_freezeCount v) (_lineHeight v) (_indent v)
    (_spacing v) (_current v) x (_select_me v)
    (_imageListNormal v) (_imageListCheck v) (GetSize v) (GetClientSize v)
    (GetViewStart v) (CalcUnscrolledPosition v) (platform_mac v) (GetFullMultiLineTextExtent v)
    (handler v) (sent v) (layouts v) (refreshes v).
Definition set_select_me (v : CtrlVars) (x : option path) : CtrlVars :=
  mkCtrlVars (_agwStyle v) (_dirty v) (_freezeCount v) (_lineHeight v) (_indent v)
    (_spacing v) (_current v) (_key_current v) x
    (_imageListNormal v) (_imageListCheck v) (GetSize v) (GetClientSize v)
    (GetViewStart v) (CalcUnscrolledPosition v) (platform_mac v) (GetFullMultiLineTextExtent v)
    (handler v) (sent v) (layouts v) (refreshes v).
Definition set_sent (v : CtrlVars) (x : list TreeEvent) : CtrlVars :=
  mkCtrlVars (_agwStyle v) (_dirty v) (_freezeCount v) (_lineHeight v) (_indent v)
    (_spacing v) (_current v) (_key_current v) (_select_me v)
    (_imageListNormal v) (_imageListCheck v) (GetSize v) (GetClientSize v)
    (GetViewStart v) (CalcUnscrolledPosition v) (platform_mac v) (GetFullMultiLineTextExtent v)
    (handler v) x (layouts v) (refreshes v).
Definition set_layouts (v : CtrlVars) (x : nat) : CtrlVars :=
  mkCtrlVars (_agwStyle v) (_dirty v) (_freezeCount v) (_lineHeight v) (_indent v)
    (_spacing v) (_current v) (_key_current v) (_select_me v)
    (_imageListNormal v) (_imageListCheck v) (GetSize v) (GetClientSize v)
    (GetViewStart v) (CalcUnscrolledPosition v) (platform_mac v) (GetFullMultiLineTextExtent v)
    (handler v) (sent v) x (refreshes v).
Definition set_refreshes (v : CtrlVars) (x : nat) : CtrlVars :=
  mkCtrlVars (_agwStyle v) (_dirty v) (_freezeCount v) (_lineHeight v) (_indent v)
    (_spacing v) (_current v) (_key_current v) (_select_me v)
    (_imageListNormal v) (_imageListCheck v) (GetSize v) (GetClientSize v)
    (GetViewStart v) (CalcUnscrolledPosition v) (platform_mac v) (GetFullMultiLineTextExtent v)
    (handler v) (sent v) (layouts v) x.

Record CustomTreeCtrl : Type := mkCtrl {
  vars : CtrlVars;
  _anchor : option GenericTreeItem
}.

Definition HasAGWFlag (v : CtrlVars) (flag : Z) : bool :=
  negb (Z.land (_agwStyle v) flag =? 0).

Definition HasButtons (v : CtrlVars) : bool := HasAGWFlag v TR_HAS_BUTTONS.

(** [GetEventHandler().ProcessEvent(e)]: the event is recorded and the
    handler answers. *)
Definition ProcessEvent (v : CtrlVars) (e : TreeEvent) : CtrlVars * bool :=
  (set_sent v (sent v ++ [e]), handler v (sent v) e).

(** ** Item references *)

Fixpoint GetItem (t : GenericTreeItem) (p : path) : option GenericTreeItem :=
  match p with
  | [] => Some t
  | i :: p' =>
      match GetChildren t !! i with
      | Some c => GetItem c p'
      | None => None
      end
  end.

Fixpoint alter_item (f : GenericTreeItem -> GenericTreeItem) (p : path)
    (t : GenericTreeItem) : GenericTreeItem :=
  match p with
  | [] => f t
  | i :: p' => Item (data t) (alter (alter_item f p') i (GetChildren t))
  end.

(** [item.GetParent()] and [parent.GetChildren().index(item)]: the path
    without its last index, and that index; [None] for the root. *)
Definition GetParent (item : path) : option (path * nat) :=
  match reverse item with
  | [] => None
  | i :: rp => Some (reverse rp, i)
  end.

Definition with_data (f : ItemData -> ItemData) (item : GenericTreeItem) : GenericTreeItem :=
  Item (f (data item)) (GetChildren item).

(** ** A state and exception monad for the methods of the control *)

Definition Py (A : Type) : Type := CustomTreeCtrl -> CustomTreeCtrl * Result A.

Definition ret {A} (a : A) : Py A := fun s => (s, Ok a).
Definition raise {A} (e : Exn) : Py A := fun s => (s, Raise e).
Definition bind {A B} (m : Py A) (k : A -> Py B) : Py B :=
  fun s => match m s with
           | (s', Ok a) => k a s'
           | (s', Raise e) => (s', Raise e)
           end.

Declare Scope py_scope.
Delimit Scope py_scope with py.
Notation "x <- m ;; k" := (bind m (fun x => k))
  (at level 100, m at next level, right associativity) : py_scope.
Notation "m ;; k" := (bind m (fun _ => k))
  (at level 100, right associativity) : py_scope.
Local Open Scope py_scope.

Definition get_vars : Py CtrlVars := fun s => (s, Ok (vars s)).
Definition put_vars (v : CtrlVars) : Py unit := fun s => (mkCtrl v (_anchor s), Ok tt).
Definition lift {A} (r : Result A) : Py A := fun s => (s, r).

(** The item a reference denotes; a reference that denotes no item of the
    tree raises [StaleItem]. *)
Definition item_at (s : CustomTreeCtrl) (p : path) : option GenericTreeItem :=
  _anchor s ≫= (fun t => GetItem t p).

Definition data_at (s : CustomTreeCtrl) (p : path) : option ItemData :=
  data <$> item_at s p.

Definition the_item (p : path) : Py GenericTreeItem :=
  fun s => match item_at s p with
           | Some it => (s, Ok it)
           | None => (s, Raise StaleItem)
           end.

Definition put_item (p : path) (it : GenericTreeItem) : Py unit :=
  fun s => (mkCtrl (vars s) (alter_item (fun _ => it) p <$> _anchor s), Ok tt).

Definition put_data (p : path) (d : ItemData) : Py unit :=
  fun s => (mkCtrl (vars s) (alter_item (with_data (fun _ => d)) p <$> _anchor s), Ok tt).

(** Run a method working on the instance variables and on the subtree of
    one item; the subtree is stored back even when the method raises. *)
Definition on_item {A} (p : path)
    (f : CtrlVars -> GenericTreeItem -> CtrlVars * GenericTreeItem * Result A) : Py A :=
  it <- the_item p ;;
  v <- get_vars ;;
  let '(v', it', r) := f v it in
  put_vars v' ;; put_item p it' ;; lift r.

Definition process_event (e : TreeEvent) : Py bool :=
  v <- get_vars ;;
  let '(v', b) := ProcessEvent v e in
  put_vars v' ;; ret b.

(** The outcome of a call: the control afterwards, whether it raised or
    not. *)
Definition after {A} (m : Py A) (s : CustomTreeCtrl) : CustomTreeCtrl := fst (m s).
Definition outcome {A} (m : Py A) (s : CustomTreeCtrl) : Result A := snd (m s).

(** Loop over the children of an item, threading a state; the body may
    stop the loop with a value (an exception, or an early [return]). *)
Section ForChildren.
Context {St R : Type}.
Variable body : St -> nat -> GenericTreeItem -> St * GenericTreeItem * option R.

Fixpoint for_children (s : St) (n : nat) (cs : list GenericTreeItem)
    : St * list GenericTreeItem * option R :=
  match cs with
  | [] => (s, [], None)
  | c :: rest =>
      let '(s1, c1, stop) := body s n c in
      match stop with
      | Some r => (s1, c1 :: rest, Some r)
      | None =>
          let '(s2, rest', stop') := for_children s1 (S n) rest in
          (s2, c1 :: rest', stop')
      end
  end.
End ForChildren.

(** ** Layout of one item *)

(** [CalculateSize(item, dc)], for an item without a window. *)
Definition CalculateSize (v : CtrlVars) (d : ItemData) : CtrlVars * ItemData :=
  if truthy (_freezeCount v) then (set_dirty v true, d)
  else if IsHidden d then (v, set_height d 0)
  else
    let '(text_w, text_h) :=
      GetFullMultiLineTextExtent v (_isBold d) (_isItalic d) (_text d) in
    let text_h := text_h + 2 in
    let image := GetCurrentImage d in
    let '(image_w, image_h) :=
      if negb (image =? _NO_IMAGE) then
        match _imageListNormal v with
        | Some il => let '(w, h) := il image in (w + 4, h)
        | None => (0, 0)
        end
      else (0, 0) in
    let total_h := if text_h <? image_h then image_h else text_h in
    let wcheck :=
      match GetCurrentCheckedImage d with
      | Some checkimage => fst (_imageListCheck v checkimage) + 4
      | None => 0
      end in
    let total_h := if total_h <? 30 then total_h + 2 else total_h + total_h / 10 in
    let v := if _lineHeight v <? total_h then set_lineHeight v total_h else v in
    let totalWidth := image_w + text_w + wcheck + 2 in
    let totalWidth := if _separator d then fst (GetClientSize v) else totalWidth in
    (v, set_height (set_width d totalWidth) total_h).

Definition GetLineHeight (v : CtrlVars) (d : ItemData) : Z :=
  if negb (Z.land (_agwStyle v) TR_HAS_VARIABLE_ROW_HEIGHT =? 0)
  then _height d
  else _lineHeight v.

(** ** Enabling and disabling *)

(** [EnableItem(item, enable, torefresh)]; [SelectItem(item, False)] is
    [item.SetHilight(False)]. *)
Definition EnableItem (v : CtrlVars) (d : ItemData) (enable torefresh : bool)
    : CtrlVars * ItemData :=
  if Bool.eqb (IsEnabled d) enable then (v, d)
  else
    let d := if negb enable && IsSelected d then SetHilight d false else d in
    let d := Enable d enable in
    if torefresh then CalculateSize v d else (v, d).

(** [EnableChildren(item, enable)].  The loop first updates the child and
    then recurses into it, so the recursion takes the current data [d] of
    the item next to the item itself.  The guard of the recursive call,
    [child.GetType != 2 or ...], compares the bound method [GetType] with
    2 and always holds. *)
Fixpoint EnableChildren_from (v : CtrlVars) (d : ItemData)
    (item : GenericTreeItem) (enable : bool) {struct item}
    : CtrlVars * GenericTreeItem :=
  match item with
  | Item _ cs =>
      let torefresh := IsExpanded d in
      if (GetType d =? 2) && enable && negb (truthy (IsChecked d))
      then (v, Item d cs)
      else
        let '(v', cs', _) :=
          for_children (R := Empty_set)
            (fun v _ child =>
               let '(v1, cd) := EnableItem v (data child) enable torefresh in
               if true || ((GetType cd =? 2) && truthy (IsChecked d))
               then let '(v2, child') := EnableChildren_from v1 cd child enable in
                    (v2, child', None)
               else (v1, Item cd (GetChildren child), None))
            v 0%nat cs in
        (v', Item d cs')
  end.

Definition EnableChildren (v : CtrlVars) (item : GenericTreeItem) (enable : bool)
    : CtrlVars * GenericTreeItem :=
  EnableChildren_from v (data item) item enable.

Definition IsItemEnabled (d : ItemData) : bool := IsEnabled d.
Definition IsItemChecked (d : ItemData) : Z := IsChecked d.

(** ** Checking *)

(** [CheckItem2(item, checked, torefresh)]. *)
Definition CheckItem2 (v : CtrlVars) (d : ItemData) (checked : Z) (torefresh : bool)
    : CtrlVars * ItemData * option Exn :=
  if GetType d =? 0 then (v, d, None)
  else
    match Check d checked with
    | Raise e => (v, d, Some e)
    | Ok d' =>
        if torefresh
        then let '(v', d'') := CalculateSize v d' in (v', d'', None)
        else (v, d', None)
    end.

(** [UnCheckRadioParent(item, checked)]. *)
Definition UnCheckRadioParent (item : path) (checked : Z) : Py bool :=
  blocked <- process_event (mkTreeEvent wxEVT_TREE_ITEM_CHECKING item) ;;
  if blocked then ret false
  else
    it <- the_item item ;;
    d <- lift (Check (data it) checked) ;;
    put_data item d ;;
    on_item item (fun v it =>
      let '(v', it') := EnableChildren v it (truthy checked) in (v', it', Ok tt)) ;;
    process_event (mkTreeEvent wxEVT_TREE_ITEM_CHECKED item) ;;
    ret true.

(** [AutoToggleChild(item)], with the current data of the item as in
    [EnableChildren_from]. *)
Fixpoint AutoToggleChild_from (v : CtrlVars) (d : ItemData)
    (item : GenericTreeItem) {struct item}
    : CtrlVars * GenericTreeItem * option Exn :=
  match item with
  | Item _ cs =>
      let torefresh := IsExpanded d in
      let '(v', cs', e) :=
        for_children
          (fun v _ child =>
             let cd0 := data child in
             let '(v1, cd, e) :=
               if (GetType cd0 =? 1) && IsEnabled cd0
               then CheckItem2 v cd0 (of_bool (negb (truthy (IsChecked cd0)))) torefresh
               else (v, cd0, None) in
             match e with
             | Some _ => (v1, Item cd (GetChildren child), e)
             | None => AutoToggleChild_from v1 cd child
             end)
          v 0%nat cs in
      (v', Item d cs', e)
  end.

Definition AutoToggleChild (v : CtrlVars) (item : GenericTreeItem)
    : CtrlVars * GenericTreeItem * option Exn :=
  AutoToggleChild_from v (data item) item.

(** [AutoCheckChild(item, checked)]. *)
Fixpoint AutoCheckChild_from (v : CtrlVars) (d : ItemData)
    (item : GenericTreeItem) (checked : Z) {struct item}
    : CtrlVars * GenericTreeItem * option Exn :=
  match item with
  | Item _ cs =>
      let torefresh := IsExpanded d in
      let '(v', cs', e) :=
        for_children
          (fun v _ child =>
             let cd0 := data child in
             let '(v1, cd, e) :=
               if (GetType cd0 =? 1) && IsEnabled cd0
               then CheckItem2 v cd0 checked torefresh
               else (v, cd0, None) in
             match e with
             | Some _ => (v1, Item cd (GetChildren child), e)
             | None => AutoCheckChild_from v1 cd child checked
             end)
          v 0%nat cs in
      (v', Item d cs', e)
  end.

Definition AutoCheckChild (v : CtrlVars) (item : GenericTreeItem) (checked : Z)
    : CtrlVars * GenericTreeItem * option Exn :=
  AutoCheckChild_from v (data item) item checked.

Definition as_result (e : option Exn) : Result unit :=
  match e with Some e => Raise e | None => Ok tt end.

(** [AutoCheckParent(item, checked)]: the recursion climbs to the parent,
    that is, it removes the last index of the reference; [ritem] is the
    reference read from the item up to the root. *)
Fixpoint AutoCheckParent_up (ritem : list nat) (checked : Z) : Py unit :=
  match ritem with
  | [] => ret tt
  | _ :: rparent =>
      let parent := reverse rparent in
      pit <- the_item parent ;;
      if negb (GetType (data pit) =? 1) then ret tt
      else if existsb
                (fun child =>
                   (GetType (data child) =? 1) && IsEnabled (data child)
                   && negb (checked =? IsChecked (data child)))
                (GetChildren pit)
      then ret tt
      else
        on_item parent (fun v it =>
          let '(v', d', e) := CheckItem2 v (data it) checked true in
          (v', Item d' (GetChildren it), as_result e)) ;;
        AutoCheckParent_up rparent checked
  end.

Definition AutoCheckParent (item : path) (checked : Z) : Py unit :=
  AutoCheckParent_up (reverse item) checked.

(** [CheckSameLevel(item, checked)]: the body of the loop over the
    children of the parent, [index] being the position of [item] among
    them; here too the guard [child.GetType != 2 or ...] always holds. *)
Definition CheckSameLevel_child (index : nat) (checked : Z) (torefresh : bool)
    (v : CtrlVars) (n : nat) (child : GenericTreeItem)
    : CtrlVars * GenericTreeItem * option Exn :=
  if (GetType (data child) =? 2) && negb (n =? index)%nat then
    let '(v1, cd, e) := CheckItem2 v (data child) checked torefresh in
    match e with
    | Some _ => (v1, Item cd (GetChildren child), e)
    | None =>
        if true || ((GetType cd =? 2) && truthy (IsChecked cd))
        then let '(v2, child') :=
               EnableChildren_from v1 cd child (truthy checked) in
             (v2, child', None)
        else (v1, Item cd (GetChildren child), None)
    end
  else (v, child, None).

Definition CheckSameLevel (item : path) (checked : Z) : Py unit :=
  match GetParent item with
  | None => ret tt
  | Some (parent, index) =>
      on_item parent (fun v pit =>
        let torefresh := IsExpanded (data pit) in
        let '(v', cs', e) :=
          for_children (CheckSameLevel_child index checked torefresh)
            v 0%nat (GetChildren pit) in
        (v', Item (data pit) cs', as_result e))
  end.

(** [CheckItem(item, checked)]. *)
Definition CheckItem (item : path) (checked : Z) : Py unit :=
  it <- the_item item ;;
  if GetType (data it) =? 0 then ret tt
  else if GetType (data it) =? 2 then
    if negb (truthy checked) && truthy (IsChecked (data it)) then ret tt
    else
      ok <- UnCheckRadioParent item checked ;;
      if negb ok then ret tt
      else CheckSameLevel item 0
  else
    blocked <- process_event (mkTreeEvent wxEVT_TREE_ITEM_CHECKING item) ;;
    if blocked then ret tt
    else
      d <- lift (if Is3State (data it)
                 then Set3StateValue (data it) checked
                 else Check (data it) checked) ;;
      put_data item d ;;
      v <- get_vars ;;
      (if HasAGWFlag v TR_AUTO_CHECK_CHILD then
         on_item item (fun v it =>
           let ischeck := IsItemChecked (data it) in
           let '(v', it', e) := AutoCheckChild v it ischeck in
           (v', it', as_result e))
       else ret tt) ;;
      (if HasAGWFlag v TR_AUTO_CHECK_PARENT then
         it <- the_item item ;;
         AutoCheckParent item (IsItemChecked (data it))
       else if HasAGWFlag v TR_AUTO_TOGGLE_CHILD then
         on_item item (fun v it =>
           let '(v', it', e) := AutoToggleChild v it in
           (v', it', as_result e))
       else ret tt) ;;
      process_event (mkTreeEvent wxEVT_TREE_ITEM_CHECKED item) ;;
      ret tt.

(** [OnKeyDown], the toggle of a checkable current item by the space bar:
    the statements guarded by
    [keyCode == wx.WXK_SPACE and self.GetItemType(self._current) > 0]. *)
Definition OnKeyDown_toggle (current : path) : Py unit :=
  it <- the_item current ;;
  if 0 <? GetType (data it) then
    checked <- (if Is3State (data it)
                then checked <- lift (Get3StateValue (data it)) ;;
                     ret ((checked + 1) mod 3)
                else ret (of_bool (negb (truthy (IsItemChecked (data it)))))) ;;
    CheckItem current checked
  else ret tt.

(** [OnKeyDown] for the space bar without modifiers
    ([keyCode == wx.WXK_SPACE], [not event.HasModifiers()]): the current
    item, when there is one and it is enabled, is activated and toggled. *)
Definition OnKeyDown_SPACE : Py unit :=
  v <- get_vars ;;
  match _current v with
  | None => ret tt
  | Some current =>
      it <- the_item current ;;
      if negb (IsItemEnabled (data it)) then ret tt
      else
        process_event (mkTreeEvent wxEVT_TREE_ITEM_ACTIVATED current) ;;
        OnKeyDown_toggle current
  end.

(** ** Small trees used in the examples *)

Definition new_item (ct_type : Z) (children : list GenericTreeItem) : GenericTreeItem :=
  Item (GenericTreeItem_init None [] ct_type (-1) (-1) false) children.

Definition new_vars (style : Z) (h : list TreeEvent -> TreeEvent -> bool) : CtrlVars :=
  mkCtrlVars style false 0 10 15 18 None None None None (fun _ => (16, 16))
    (400, 300) (400, 300) (0, 0) (fun x y => (x, y)) false (fun _ _ _ => (40, 14))
    h [] 0 0.

Definition allow_all : list TreeEvent -> TreeEvent -> bool := fun _ _ => false.

(** ** Hit testing *)

(** [GenericTreeItem.HitTest], the classification of a point whose
    ordinate lies within the line of the item: the flags returned with the
    item. *)
Definition HitTest_flags (v : CtrlVars) (pointX pointY : Z) (item : GenericTreeItem)
    (flags : Z) : Z :=
  let d := data item in
  let h := GetLineHeight v d in
  let y_mid := _y d + h / 2 in
  let flags :=
    if pointY <? y_mid
    then Z.lor flags TREE_HITTEST_ONITEMUPPERPART
    else Z.lor flags TREE_HITTEST_ONITEMLOWERPART in
  let xCross := _x d - _spacing v in
  let on_button :=
    if platform_mac v
    then (xCross - 4 <? pointX) && (pointX <? xCross + 10)
         && (y_mid - 4 <? pointY) && (pointY <? y_mid + 10)
         && HasPlus item && HasButtons v
    else (xCross - 6 <? pointX) && (pointX <? xCross + 6)
         && (y_mid - 6 <? pointY) && (pointY <? y_mid + 6)
         && HasPlus item && HasButtons v in
  if on_button then Z.lor flags TREE_HITTEST_ONITEMBUTTON
  else if (_x d <=? pointX) && (pointX <=? _x d + _width d) then
    let image_w :=
      match _imageListNormal v with
      | Some il =>
          if negb (GetImage d TreeItemIcon_Normal =? _NO_IMAGE)
          then fst (il (GetImage d TreeItemIcon_Normal))
          else -1
      | None => -1
      end in
    let wcheck :=
      match GetCheckedImage d TreeItemIcon_Checked with
      | Some checkimage => fst (_imageListCheck v checkimage)
      | None => 0
      end in
    if truthy wcheck && (pointX <=? _x d + wcheck + 1)
    then Z.lor flags TREE_HITTEST_ONITEMCHECKICON
    else if negb (image_w =? -1) && (pointX <=? _x d + wcheck + image_w + 1)
    then Z.lor flags TREE_HITTEST_ONITEMICON
    else Z.lor flags TREE_HITTEST_ONITEMLABEL
  else
    let flags :=
      if pointX <? _x d then
        if HasAGWFlag v TR_FULL_ROW_HIGHLIGHT
        then Z.lor flags TREE_HITTEST_ONITEM
        else Z.lor flags TREE_HITTEST_ONITEMINDENT
      else flags in
    if _x d + _width d <? pointX then
      if HasAGWFlag v TR_FULL_ROW_HIGHLIGHT
      then Z.lor flags TREE_HITTEST_ONITEM
      else Z.lor flags TREE_HITTEST_ONITEMRIGHT
    else flags.

(** The loop of [GenericTreeItem.HitTest] over the children: the first
    child that reports an item ends it; [flags] is what the previous child
    returned. *)
Section HitTestChildren.
Variable child_HitTest : nat -> GenericTreeItem -> Z -> option (path * GenericTreeItem) * Z.

Fixpoint HitTest_children (n : nat) (cs : list GenericTreeItem) (flags : Z)
    : option (path * GenericTreeItem) * Z :=
  match cs with
  | [] => (None, 0)
  | child :: rest =>
      let '(res, flags) := child_HitTest n child flags in
      match res with
      | Some _ => (res, flags)
      | None => HitTest_children (S n) rest flags
      end
  end.
End HitTestChildren.

(** [GenericTreeItem.HitTest(point, theCtrl, flags, level)]; [here] is the
    reference of the item, and the item returned comes with its
    reference. *)
Fixpoint GenericTreeItem_HitTest (v : CtrlVars) (point : Z * Z) (here : path)
    (item : GenericTreeItem) (flags : Z) (level : nat) {struct item}
    : option (path * GenericTreeItem) * Z :=
  match item with
  | Item d cs =>
      if IsHidden d then (None, flags)
      else
        let children :=
          HitTest_children
            (fun n child flags =>
               GenericTreeItem_HitTest v point (here ++ [n]) child flags (S level))
            0%nat cs in
        if negb ((level =? 0)%nat && HasAGWFlag v TR_HIDE_ROOT) then
          let h := GetLineHeight v d in
          if (_y d <? point.2) && (point.2 <? _y d + h)
          then (Some (here, item), HitTest_flags v point.1 point.2 item flags)
          else if negb (IsExpanded d) then (None, 0)
          else children flags
        else children flags
  end.

(** [CustomTreeCtrl.HitTest(point)]. *)
Definition HitTest (s : CustomTreeCtrl) (point : Z * Z) : option path * Z :=
  let v := vars s in
  let '(w, h) := GetSize v in
  let flags := 0 in
  let flags := if point.1 <? 0 then Z.lor flags TREE_HITTEST_TOLEFT else flags in
  let flags := if w <? point.1 then Z.lor flags TREE_HITTEST_TORIGHT else flags in
  let flags := if point.2 <? 0 then Z.lor flags TREE_HITTEST_ABOVE else flags in
  let flags := if h <? point.2 then Z.lor flags TREE_HITTEST_BELOW else flags in
  if truthy flags then (None, flags)
  else
    match _anchor s with
    | None => (None, TREE_HITTEST_NOWHERE)
    | Some anchor =>
        let point := CalcUnscrolledPosition v point.1 point.2 in
        let '(hit, flags) := GenericTreeItem_HitTest v point [] anchor flags 0%nat in
        match hit with
        | None => (None, TREE_HITTEST_NOWHERE)
        | Some (p, it) =>
            if negb (IsItemEnabled (data it)) then (None, flags)
            else (Some p, flags)
        end
    end.

(** [GetBoundingRect(item)]: [(x, y, width, height)]. *)
Definition GetBoundingRect (v : CtrlVars) (d : ItemData) : Z * Z * Z * Z :=
  let '(startX, startY) := GetViewStart v in
  (_x d - startX * _PIXELS_PER_UNIT, _y d - startY * _PIXELS_PER_UNIT,
   _width d, GetLineHeight v d).

(** The loop of [IsVisible] over the ancestors of the item, from its
    parent up to the root; [ritem] is the reference read from the item up
    to the root. *)
Fixpoint ancestors_expanded (t : GenericTreeItem) (ritem : list nat) : bool :=
  match ritem with
  | [] => true
  | _ :: rparent =>
      match GetItem t (reverse rparent) with
      | Some parent =>
          if negb (IsExpanded (data parent)) then false
          else ancestors_expanded t rparent
      | None => false
      end
  end.

(** [IsVisible(item)]; a [wx.Rect] is false when it is [(0, 0, 0, 0)], its
    bottom and right are [y + height - 1] and [x + width - 1].  [None]
    when the reference denotes no item. *)
Definition IsVisible (s : CustomTreeCtrl) (item : path) : option bool :=
  match _anchor s with
  | None => None
  | Some t =>
      match GetItem t item with
      | None => None
      | Some it =>
          let d := data it in
          if IsHidden d then Some false
          else if negb (ancestors_expanded t (reverse item)) then Some false
          else
            let v := vars s in
            let '(x, y, width, height) := GetBoundingRect v d in
            let '(clientX, clientY) := GetClientSize v in
            if (x =? 0) && (y =? 0) && (width =? 0) && (height =? 0) then Some false
            else if (width =? 0) || (height =? 0) then Some false
            else if (y + height - 1 <? 0) || (clientY <? y) then Some false
            else if (x + width - 1 <? 0) || (clientX <? x) then Some false
            else Some true
      end
  end.

(** ** Layout of the tree, freezing and thawing *)

(** [CalculateLevel(item, dc, level, y)]: returns the new [y]. *)
Fixpoint CalculateLevel (v : CtrlVars) (item : GenericTreeItem) (level : Z) (y : Z)
    {struct item} : CtrlVars * GenericTreeItem * Z :=
  match item with
  | Item d cs =>
      let children (v : CtrlVars) (d : ItemData) (y : Z) :=
        let '(vy, cs', _) :=
          for_children (R := Empty_set)
            (fun (vy : CtrlVars * Z) _ child =>
               let '(v1, child1, y1) := CalculateLevel vy.1 child (level + 1) vy.2 in
               ((v1, y1), child1, None))
            (v, y) 0%nat cs in
        (vy.1, Item d cs', vy.2) in
      let x := level * _indent v in
      if negb (HasAGWFlag v TR_HIDE_ROOT) || negb (level =? 0) then
        let x := if negb (HasAGWFlag v TR_HIDE_ROOT) then x + _indent v else x in
        let '(v, d) := CalculateSize v d in
        let d := set_y (set_x d (x + _spacing v)) y in
        if IsHidden d then (v, Item d cs, y)
        else
          let height := GetLineHeight v d in
          let y := y + height in
          if negb (IsExpanded d) then (v, Item d cs, y)
          else children v d y
      else children v d y
  end.

(** [CalculatePositions()]; a call that really computes the layout is
    counted once in [layouts], also when a second traversal aligns the
    windows. *)
Definition CalculatePositions : Py unit :=
  fun s =>
    match _anchor s with
    | None => (s, Ok tt)
    | Some anchor =>
        let v := vars s in
        if truthy (_freezeCount v)
        then (mkCtrl (set_dirty v true) (_anchor s), Ok tt)
        else
          let v := set_layouts v (S (layouts v)) in
          let '(v, anchor, y) := CalculateLevel v anchor 0 2 in
          if HasAGWFlag v TR_ALIGN_WINDOWS || HasAGWFlag v TR_ALIGN_WINDOWS_RIGHT
          then let '(v, anchor, y) := CalculateLevel v anchor 0 2 in
               (mkCtrl v (Some anchor), Ok tt)
          else (mkCtrl v (Some anchor), Ok tt)
    end.

(** [Refresh()] of the whole window: a repaint request, counted. *)
Definition Refresh : Py unit :=
  v <- get_vars ;; put_vars (set_refreshes v (S (refreshes v))).

(** [AdjustMyScrollbars()]: the scrollbars belong to the toolkit; what is
    left is the dirty flag set when the control is frozen. *)
Definition AdjustMyScrollbars : Py unit :=
  v <- get_vars ;;
  if truthy (_freezeCount v) then put_vars (set_dirty v true) else ret tt.

Definition Freeze : Py unit :=
  v <- get_vars ;; put_vars (set_freezeCount v (_freezeCount v + 1)).

Definition Thaw : Py unit :=
  v <- get_vars ;;
  if _freezeCount v =? 0
  then raise (Exception (nl "ERROR: Thawing Unfrozen Tree Control?"))
  else
    put_vars (set_freezeCount v (_freezeCount v - 1)) ;;
    v <- get_vars ;;
    if negb (truthy (_freezeCount v)) then Refresh else ret tt.

(** ** Insertion *)

(** [text.find("\n") >= 0]. *)
Fixpoint has_newline (text : str) : bool :=
  match text with
  | [] => false
  | c :: rest => (c =? 10)%N || has_newline rest
  end.

(** The white space of [str.strip()]: the code points for which
    [str.isspace()] holds. *)
Definition is_space (c : N) : bool :=
  ((9 <=? c) && (c <=? 13) || (28 <=? c) && (c <=? 32) || (c =? 0x85) || (c =? 0xA0)
   || (c =? 0x1680) || (0x2000 <=? c) && (c <=? 0x200A) || (c =? 0x2028) || (c =? 0x2029)
   || (c =? 0x202F) || (c =? 0x205F) || (c =? 0x3000))%N.

(** [text.strip()] is a non-empty string. *)
Fixpoint strip_nonempty (text : str) : bool :=
  match text with
  | [] => false
  | c :: rest => negb (is_space c) || strip_nonempty rest
  end.

(** [list.insert(index, x)] takes its index as a C [ssize_t], and raises
    [OverflowError] for a Python integer that does not fit: the bound is
    that of a 64-bit build.  A Python list has no more than
    [PY_SSIZE_T_MAX] elements, so that the length of a list always fits;
    the lists of this embedding are not bounded, and an index up to the
    length of the list is taken to fit too. *)
Definition PY_SSIZE_T_MAX : Z := 2 ^ 63 - 1.
Definition PY_SSIZE_T_MIN : Z := - PY_SSIZE_T_MAX - 1.

Definition fits_ssize_t (index : Z) (len : nat) : bool :=
  (PY_SSIZE_T_MIN <=? index) && (index <=? Z.max PY_SSIZE_T_MAX (Z.of_nat len)).

(** The position at which [list.insert(index, x)] puts [x] in a list of
    [len] elements. *)
Definition insert_position (index : Z) (len : nat) : nat :=
  Z.to_nat (if index <? 0 then Z.max 0 (index + Z.of_nat len)
            else Z.min index (Z.of_nat len)).

Definition list_insert_at {A} (k : nat) (x : A) (l : list A) : list A :=
  take k l ++ x :: drop k l.

(** References are paths: when a child is inserted into or removed from
    the children of [parent], the items after it change position, and the
    references kept by the control are renumbered to denote the same
    items. *)
Fixpoint renumber (f : nat -> nat) (parent q : path) : path :=
  match parent, q with
  | [], j :: rest => f j :: rest
  | i :: parent', j :: rest =>
      if (i =? j)%nat then j :: renumber f parent' rest else q
  | _, [] => q
  end.

Definition renumber_refs (f : nat -> nat) (parent : path) (v : CtrlVars) : CtrlVars :=
  set_current
    (set_key_current
       (set_select_me v (renumber f parent <$> _select_me v))
       (renumber f parent <$> _key_current v))
    (renumber f parent <$> _current v).

(** [parent.Insert(child, index)], that is
    [self._children.insert(index, child)]; returns the position the child
    has got. *)
Definition Insert (parent : path) (index : Z) (child : GenericTreeItem) : Py nat :=
  pit <- the_item parent ;;
  let len := length (GetChildren pit) in
  if negb (fits_ssize_t index len) then raise OverflowError
  else
    let k := insert_position index len in
    fun s =>
      (mkCtrl (renumber_refs (fun j => if (k <=? j)%nat then S j else j) parent (vars s))
         (alter_item
            (fun pit => Item (data pit) (list_insert_at k child (GetChildren pit)))
            parent <$> _anchor s),
       Ok k).

(** [AddRoot(text, ct_type, image, selImage)]. *)
Definition AddRoot (text : str) (ct_type image selImage : Z) : Py path :=
  fun s =>
    let v := vars s in
    match _anchor s with
    | Some _ => (s, Raise (Exception (nl "ERROR: Tree Can Have Only One Root")))
    | None =>
        if has_newline text && negb (HasAGWFlag v TR_HAS_VARIABLE_ROW_HEIGHT)
        then (s, Raise (Exception (nl "ERROR: In Order To Append/Insert A MultiLine Text You Have To Use The Style TR_HAS_VARIABLE_ROW_HEIGHT")))
        else if (ct_type <? 0) || (2 <? ct_type)
        then (s, Raise (Exception (nl "ERROR: Item Type Should Be 0 (Normal), 1 (CheckBox) or 2 (RadioButton). ")))
        else
          let v := set_dirty v true in
          let d := GenericTreeItem_init None text ct_type image selImage false in
          let s := mkCtrl v (Some (Item d [])) in
          let s :=
            if HasAGWFlag v TR_HIDE_ROOT
            then after CalculatePositions
                   (mkCtrl v (Some (Item (Expand (SetHasPlus d true)) [])))
            else s in
          let s :=
            if negb (HasAGWFlag v TR_MULTIPLE)
            then mkCtrl (set_key_current (set_current (vars s) (Some [])) (Some []))
                   (with_data (fun d => SetHilight d true) <$> _anchor s)
            else s in
          (s, Ok [])
    end.

(** [DoInsertItem(parentId, previous, text, ct_type, image, selImage,
    separator)]; returns the reference of the new item. *)
Definition DoInsertItem (parentId : option path) (previous : Z) (text : str)
    (ct_type image selImage : Z) (separator : bool) : Py path :=
  v <- get_vars ;;
  if has_newline text && negb (HasAGWFlag v TR_HAS_VARIABLE_ROW_HEIGHT)
  then raise (Exception (nl "ERROR: In Order To Append/Insert A MultiLine Text You Have To Use The Style TR_HAS_VARIABLE_ROW_HEIGHT"))
  else if (ct_type <? 0) || (2 <? ct_type)
  then raise (Exception (nl "ERROR: Item Type Should Be 0 (Normal), 1 (CheckBox) or 2 (RadioButton). "))
  else if separator && strip_nonempty text
  then raise (Exception "Separator items can not text labels")
  else
    match parentId with
    | None => AddRoot text ct_type image selImage
    | Some parent =>
        put_vars (set_dirty v true) ;;
        pit <- the_item parent ;;
        let item :=
          Item (GenericTreeItem_init (Some (data pit)) text ct_type image selImage separator)
               [] in
        k <- Insert parent previous item ;;
        ret (parent ++ [k])
    end.

(** [AppendItem(parentId, text, ct_type, image, selImage)]. *)
Definition AppendItem (parentId : option path) (text : str)
    (ct_type image selImage : Z) : Py path :=
  match parentId with
  | None => AddRoot text ct_type image selImage
  | Some parent =>
      pit <- the_item parent ;;
      DoInsertItem (Some parent) (Z.of_nat (length (GetChildren pit)))
        text ct_type image selImage false
  end.

(** [PrependItem] and [InsertItemByIndex]. *)
Definition PrependItem (parent : option path) (text : str)
    (ct_type image selImage : Z) (separator : bool) : Py path :=
  DoInsertItem parent 0 text ct_type image selImage separator.

Definition InsertItemByIndex (parentId : option path) (idPrevious : Z) (text : str)
    (ct_type image selImage : Z) (separator : bool) : Py path :=
  match parentId with
  | None => AddRoot text ct_type image selImage
  | Some _ => DoInsertItem parentId idPrevious text ct_type image selImage separator
  end.

(** ** Deletion *)

(** [GetCount()]. *)
Definition GetCount (s : CustomTreeCtrl) : nat :=
  match _anchor s with
  | None => 0
  | Some anchor =>
      let count := GetChildrenCount anchor in
      if negb (HasAGWFlag (vars s) TR_HIDE_ROOT) then (count + 1)%nat else count
  end.

(** [SendDeleteEvent(item)]. *)
Definition SendDeleteEvent (v : CtrlVars) (item : path) : CtrlVars :=
  (ProcessEvent v (mkTreeEvent wxEVT_TREE_DELETE_ITEM item)).1.

Fixpoint path_eqb (p q : path) : bool :=
  match p, q with
  | [], [] => true
  | i :: p', j :: q' => (i =? j)%nat && path_eqb p' q'
  | _, _ => false
  end.

Definition ref_eqb (item : path) (r : option path) : bool :=
  match r with Some q => path_eqb item q | None => false end.

(** [GenericTreeItem.DeleteChildren(tree)], on the item of reference
    [here]: the events sent and the reference [_select_me]; afterwards
    the item has no children. *)
Fixpoint GenericTreeItem_DeleteChildren (v : CtrlVars) (here : path)
    (item : GenericTreeItem) {struct item} : CtrlVars :=
  match item with
  | Item _ cs =>
      (fix loop (v : CtrlVars) (n : nat) (cs : list GenericTreeItem) : CtrlVars :=
         match cs with
         | [] => v
         | child :: rest =>
             let v := SendDeleteEvent v (here ++ [n]) in
             let v := GenericTreeItem_DeleteChildren v (here ++ [n]) child in
             let v := if ref_eqb (here ++ [n]) (_select_me v)
                      then set_select_me v None else v in
             loop v (S n) rest
         end) v 0%nat cs
  end.

(** [IsDescendantOf(parent, item)]: [parent] is [item] or one of its
    ancestors. *)
Fixpoint path_prefix (p q : path) : bool :=
  match p, q with
  | [], _ => true
  | i :: p', j :: q' => (i =? j)%nat && path_prefix p' q'
  | _ :: _, [] => false
  end.

Definition IsDescendantOf (parent : path) (item : option path) : bool :=
  match item with Some q => path_prefix parent q | None => false end.

(** [parent.GetChildren().remove(item)], or [self._anchor = None] for the
    root, with the renumbering of the references. *)
Definition remove_item (item : path) : Py unit :=
  fun s =>
    match GetParent item with
    | None => (mkCtrl (vars s) None, Ok tt)
    | Some (parent, k) =>
        (mkCtrl (renumber_refs (fun j => if (k <? j)%nat then pred j else j) parent (vars s))
           (alter_item (fun pit => Item (data pit) (delete k (GetChildren pit)))
              parent <$> _anchor s),
         Ok tt)
    end.

(** [Delete(item)].  The source unlinks the item before it sends the
    events; here the item is unlinked last, so that the references in the
    events and in the control are those of the tree before the call. *)
Definition Delete (item : path) : Py unit :=
  it <- the_item item ;;
  v <- get_vars ;;
  let v := set_dirty v true in
  let parent := fst <$> GetParent item in
  let v := if IsDescendantOf item (_key_current v) then set_key_current v None else v in
  let v := if IsDescendantOf item (_select_me v) then set_select_me v parent else v in
  let v := if IsDescendantOf item (_current v)
           then set_select_me (set_current v None) parent else v in
  let v := GenericTreeItem_DeleteChildren v item it in
  let v := SendDeleteEvent v item in
  let v := if ref_eqb item (_select_me v) then set_select_me v None else v in
  put_vars v ;;
  remove_item item.

(** [CustomTreeCtrl.DeleteChildren(item)], with [ChildrenClosing]; the
    current item that [ChildrenClosing] deselects is below [item], and
    goes away with the children. *)
Definition DeleteChildren (item : path) : Py unit :=
  it <- the_item item ;;
  v <- get_vars ;;
  let v := set_dirty v true in
  let strictly_below (r : option path) := negb (ref_eqb item r) && IsDescendantOf item r in
  let v := if strictly_below (_key_current v) then set_key_current v None else v in
  let v := if IsDescendantOf item (_select_me v) then set_select_me v (Some item) else v in
  let v := if strictly_below (_current v)
           then set_select_me (set_current v None) (Some item) else v in
  let v := GenericTreeItem_DeleteChildren v item it in
  put_vars v ;;
  put_item item (Item (data it) []).

(** [DeleteAllItems()]. *)
Definition DeleteAllItems : Py unit :=
  fun s =>
    match _anchor s with
    | Some _ => Delete [] s
    | None => (s, Ok tt)
    end.

(** ** Selection of a range of items *)

(** [TagAllChildrenUntilLast(crt_item, last_item, select)], on the item
    of reference [here]; the repainting of the line is left out. *)
Fixpoint TagAllChildrenUntilLast (here : path) (crt_item : GenericTreeItem)
    (last_item : path) (select : bool) {struct crt_item} : GenericTreeItem * bool :=
  match crt_item with
  | Item d cs =>
      let d := SetHilight d select in
      if path_eqb here last_item then (Item d cs, true)
      else
        let '(_, cs', stop) :=
          for_children (St := unit) (R := unit)
            (fun _ n child =>
               let '(child', found) :=
                 TagAllChildrenUntilLast (here ++ [n]) child last_item select in
               (tt, child', if found then Some tt else None))
            tt 0%nat cs in
        (Item d cs', match stop with Some _ => true | None => false end)
  end.

(** The loop of [TagNextChildren] over the children of the parent that
    come after the child [index]. *)
Definition TagNextChildren_loop (parent : path) (index : nat) (last_item : path)
    (select : bool) (v : CtrlVars) (pit : GenericTreeItem)
    : CtrlVars * GenericTreeItem * Result bool :=
  let children := GetChildren pit in
  let '(_, cs', stop) :=
    for_children (St := unit) (R := unit)
      (fun _ n child =>
         let '(child', found) :=
           TagAllChildrenUntilLast (parent ++ [n]) child last_item select in
         (tt, child', if found then Some tt else None))
      tt (S index) (drop (S index) children) in
  (v, Item (data pit) (take (S index) children ++ cs'),
   Ok (match stop with Some _ => true | None => false end)).

(** [TagNextChildren(crt_item, last_item, select)]; [rcrt] is the
    reference of [crt_item] read from the item up to the root. *)
Fixpoint TagNextChildren_up (rcrt : list nat) (last_item : path) (select : bool)
    : Py bool :=
  match rcrt with
  | [] =>
      on_item [] (fun v it =>
        let '(it', found) := TagAllChildrenUntilLast [] it last_item select in
        (v, it', Ok found))
  | index :: rparent =>
      let parent := reverse rparent in
      found <- on_item parent (TagNextChildren_loop parent index last_item select) ;;
      if found then ret true else TagNextChildren_up rparent last_item select
  end.

Definition TagNextChildren (crt_item last_item : path) (select : bool) : Py bool :=
  TagNextChildren_up (reverse crt_item) last_item select.

(** [SelectItemRange(item1, item2)]. *)
Definition SelectItemRange (item1 item2 : path) : Py unit :=
  v <- get_vars ;;
  if negb (HasAGWFlag v TR_MULTIPLE) && negb (HasAGWFlag v TR_EXTENDED)
  then raise (Exception "SelectItemRange can be used only with multiple selection enabled.")
  else
    put_vars (set_select_me v None) ;;
    it1 <- the_item item1 ;;
    it2 <- the_item item2 ;;
    let first := if _y (data it1) <? _y (data it2) then item1 else item2 in
    let last := if _y (data it1) <? _y (data it2) then item2 else item1 in
    match _current v with
    | None => raise AttributeError
    | Some current =>
        cit <- the_item current ;;
        let select := IsSelected (data cit) in
        found <- on_item first (fun v it =>
          let '(it', found) := TagAllChildrenUntilLast first it last select in
          (v, it', Ok found)) ;;
        if found then ret tt
        else (_ <- TagNextChildren first last select ;; ret tt)
    end.

(** ** Insertion after an item *)

(** [InsertItemByItem(parentId, idPrevious, ...)];
    [parent.GetChildren().index(idPrevious)] is the last index of the
    reference of [idPrevious] when that item is a child of the parent. *)
Definition InsertItemByItem (parentId : option path) (idPrevious : option path)
    (text : str) (ct_type image selImage : Z) (separator : bool) : Py path :=
  match parentId with
  | None => AddRoot text ct_type image selImage
  | Some parent =>
      pit <- the_item parent ;;
      index <- match idPrevious with
               | None => ret (-1)
               | Some previous =>
                   match GetParent previous with
                   | Some (p, k) =>
                       if path_eqb p parent && (k <? length (GetChildren pit))%nat
                       then ret (Z.of_nat k)
                       else raise (Exception "ERROR: Previous Item In CustomTreeCtrl.InsertItem() Is Not A Sibling")
                   | None =>
                       raise (Exception "ERROR: Previous Item In CustomTreeCtrl.InsertItem() Is Not A Sibling")
                   end
               end ;;
      DoInsertItem parentId (index + 1) text ct_type image selImage separator
  end.

(** ** Navigation *)

(** [GetItemParent(item)]. *)
Definition GetItemParent (item : path) : option path := fst <$> GetParent item.

(** [GetNextChild(item, cookie)] and [GetFirstChild(item)], for a cookie
    that is not negative. *)
Definition GetNextChild (s : CustomTreeCtrl) (item : path) (cookie : nat) : option path * nat :=
  match item_at s item with
  | Some it =>
      if (cookie <? length (GetChildren it))%nat then (Some (item ++ [cookie]), S cookie)
      else (None, cookie)
  | None => (None, cookie)
  end.

Definition GetFirstChild (s : CustomTreeCtrl) (item : path) : option path * nat :=
  GetNextChild s item 0.

(** [GetLastChild(item)]. *)
Definition GetLastChild (s : CustomTreeCtrl) (item : path) : option path :=
  match item_at s item with
  | Some it =>
      if (length (GetChildren it) =? 0)%nat then None
      else Some (item ++ [pred (length (GetChildren it))])
  | None => None
  end.

(** [GetNextSibling(item)] and [GetPrevSibling(item)]; an item that is not
    among the children of its parent has no siblings. *)
Definition GetNextSibling (s : CustomTreeCtrl) (item : path) : option path :=
  match GetParent item with
  | None => None
  | Some (parent, index) =>
      match item_at s parent with
      | Some pit =>
          let siblings := GetChildren pit in
          if negb (index <? length siblings)%nat then None
          else
            let n := S index in
            if (n =? length siblings)%nat then None else Some (parent ++ [n])
      | None => None
      end
  end.

Definition GetPrevSibling (s : CustomTreeCtrl) (item : path) : option path :=
  match GetParent item with
  | None => None
  | Some (parent, index) =>
      match item_at s parent with
      | Some pit =>
          let siblings := GetChildren pit in
          if negb (index <? length siblings)%nat then None
          else if (index =? 0)%nat then None else Some (parent ++ [pred index])
      | None => None
      end
  end.

(** [GetNext(item)]: the first child or, in the loop over the item and
    its ancestors, the first next sibling found.  The loop runs on the
    reversed reference, whose tail is the reversed reference of the
    parent. *)
Fixpoint GetNext_up (s : CustomTreeCtrl) (rp : list nat) : option path :=
  match GetNextSibling s (reverse rp) with
  | Some toFind => Some toFind
  | None =>
      match rp with
      | [] => None
      | _ :: rp' => GetNext_up s rp'
      end
  end.

Definition GetNext (s : CustomTreeCtrl) (item : path) : option path :=
  match item_at s item with
  | Some i =>
      if (0 <? length (GetChildren i))%nat then Some (item ++ [0%nat])
      else GetNext_up s (reverse item)
  | None => None
  end.

(** [GetPrev(item)]. *)
Definition GetPrev (s : CustomTreeCtrl) (item : path) : option path :=
  match GetPrevSibling s item with
  | Some prevSibling =>
      match item_at s prevSibling with
      | Some it =>
          if (0 <? length (GetChildren it))%nat then GetLastChild s prevSibling
          else Some prevSibling
      | None => None
      end
  | None => GetItemParent item
  end.

(** ** Selection of all items, and the list of the selected items *)

(** [UnselectAllChildren(item)] and [SelectAllChildren(item)] on the
    subtree [item]; the repainting of the lines is left out. *)
Fixpoint UnselectAllChildren_sub (item : GenericTreeItem) : GenericTreeItem :=
  match item with
  | Item d cs =>
      let d := if IsSelected d then SetHilight d false else d in
      Item d (if (0 <? length cs)%nat then List.map UnselectAllChildren_sub cs else cs)
  end.

Fixpoint SelectAllChildren_sub (item : GenericTreeItem) : GenericTreeItem :=
  match item with
  | Item d cs =>
      let d := if negb (IsSelected d) then SetHilight d true else d in
      Item d (if (0 <? length cs)%nat then List.map SelectAllChildren_sub cs else cs)
  end.

Definition UnselectAllChildren (item : path) : Py unit :=
  on_item item (fun v it => (v, UnselectAllChildren_sub it, Ok tt)).

(** The recursive calls of [SelectAllChildren] test the style again, with
    the result of the first test. *)
Definition SelectAllChildren (item : path) : Py unit :=
  v <- get_vars ;;
  if negb (HasAGWFlag v TR_MULTIPLE) && negb (HasAGWFlag v TR_EXTENDED)
  then raise (Exception "SelectAllChildren can be used only with multiple selection enabled.")
  else on_item item (fun v it => (v, SelectAllChildren_sub it, Ok tt)).

(** [Unselect()]. *)
Definition Unselect : Py unit :=
  v <- get_vars ;;
  match _current v with
  | Some current =>
      on_item current (fun v it => (v, with_data (fun d => SetHilight d false) it, Ok tt))
  | None => ret tt
  end ;;
  v <- get_vars ;;
  put_vars (set_select_me (set_current v None) None).

(** [GetRootItem()], [UnselectAll()] and [SelectAll()]. *)
Definition GetRootItem : Py (option path) :=
  fun s => (s, Ok (match _anchor s with Some _ => Some [] | None => None end)).

Definition UnselectAll : Py unit :=
  rootItem <- GetRootItem ;;
  match rootItem with
  | Some root => UnselectAllChildren root
  | None => ret tt
  end ;;
  Unselect.

Definition SelectAll : Py unit :=
  v <- get_vars ;;
  if negb (HasAGWFlag v TR_MULTIPLE) && negb (HasAGWFlag v TR_EXTENDED)
  then raise (Exception "SelectAll can be used only with multiple selection enabled.")
  else
    rootItem <- GetRootItem ;;
    match rootItem with
    | Some root => SelectAllChildren root
    | None => ret tt
    end.

(** [FillArray(item, array)] on the item of reference [here]: the list
    with the selected items appended; [if not array: array = []] gives the
    same list. *)
Section FillArrayFrom.
Variable child_FillArray : path -> GenericTreeItem -> list path -> list path.

Fixpoint FillArray_from (here : path) (n : nat) (cs : list GenericTreeItem)
    (array : list path) : list path :=
  match cs with
  | [] => array
  | child :: rest =>
      FillArray_from here (S n) rest (child_FillArray (here ++ [n]) child array)
  end.
End FillArrayFrom.

Fixpoint FillArray (here : path) (item : GenericTreeItem) (array : list path) : list path :=
  match item with
  | Item d cs =>
      let array := if IsSelected d then array ++ [here] else array in
      if (0 <? length cs)%nat && IsExpanded d
      then FillArray_from FillArray here 0%nat cs array
      else array
  end.

(** [GetSelections()]. *)
Definition GetSelections (s : CustomTreeCtrl) : list path :=
  match _anchor s with
  | Some idRoot => FillArray [] idRoot []
  | None => []
  end.

(** ** Hiding an item *)

(** [HideItem(item, hide)], for a control whose items have no windows. *)
Definition HideItem (item : path) (hide : bool) : Py unit :=
  it <- the_item item ;;
  if Bool.eqb hide (IsHidden (data it)) then ret tt
  else
    put_data item (Hide (data it) hide) ;;
    CalculatePositions ;;
    Refresh ;;
    AdjustMyScrollbars.

(** ** Checking the items below an item *)

(** [CheckChilds(item, checked)]; [checked] is [None], or a Boolean given
    as 1 or 0. *)
Definition CheckChilds (item : path) (checked : option Z) : Py unit :=
  on_item item (fun v it =>
    let '(v', it', e) :=
      match checked with
      | None => AutoToggleChild v it
      | Some checked => AutoCheckChild v it checked
      end in
    (v', it', as_result e)).

(** ** The type of an item *)

(** [SetItemType(item, ct_type)]. *)
Definition SetItemType (item : path) (ct_type : Z) : Py unit :=
  it <- the_item item ;;
  put_data item (SetType (data it) ct_type) ;;
  CalculatePositions ;;
  Refresh.

(** ** Visible items *)

(** [self.IsVisible(id)] as the condition of an [if]. *)
Definition is_visible (s : CustomTreeCtrl) (id : path) : bool :=
  match IsVisible s id with Some b => b | None => false end.

(** [GetNextVisible(item)]: the loop runs at most [fuel] times; the
    result is [None] when that is not enough. *)
Fixpoint GetNextVisible (fuel : nat) (s : CustomTreeCtrl) (id : path)
    : option (option path) :=
  match fuel with
  | O => None
  | S fuel' =>
      match GetNext s id with
      | Some id' => if is_visible s id' then Some (Some id') else GetNextVisible fuel' s id'
      | None => Some None
      end
  end.

(** [GetFirstVisibleItem()], with the same bound. *)
Fixpoint GetFirstVisibleItem_loop (fuel : nat) (s : CustomTreeCtrl) (id : option path)
    : option (option path) :=
  match id with
  | None => Some None
  | Some id =>
      if is_visible s id then Some (Some id)
      else match fuel with
           | O => None
           | S fuel' => GetFirstVisibleItem_loop fuel' s (GetNext s id)
           end
  end.

Definition GetFirstVisibleItem (fuel : nat) (s : CustomTreeCtrl) : option (option path) :=
  GetFirstVisibleItem_loop fuel s (match _anchor s with Some _ => Some [] | None => None end).

(** * Specification predicates and example controls *)

Section GenericTreeItem_ind.
Variable P : GenericTreeItem -> Prop.
Hypothesis HItem : forall d cs, Forall P cs -> P (Item d cs).

Fixpoint GenericTreeItem_ind (t : GenericTreeItem) : P t :=
  match t with
  | Item d cs =>
      HItem d cs
        ((fix go (l : list GenericTreeItem) : Forall P l :=
            match l with
            | [] => List.Forall_nil P
            | c :: r => List.Forall_cons P c r (GenericTreeItem_ind c) (go r)
            end) cs)
  end.
End GenericTreeItem_ind.

(** The instance variables two states agree on when only the dirty flag
    and the line height may differ. *)
Definition env_eq (v v' : CtrlVars) : Prop :=
  _agwStyle v' = _agwStyle v /\ _freezeCount v' = _freezeCount v /\
  _indent v' = _indent v /\ _spacing v' = _spacing v /\
  _current v' = _current v /\ _key_current v' = _key_current v /\
  _select_me v' = _select_me v /\
  _imageListNormal v' = _imageListNormal v /\
  _imageListCheck v' = _imageListCheck v /\
  GetSize v' = GetSize v /\ GetClientSize v' = GetClientSize v /\
  GetViewStart v' = GetViewStart v /\
  CalcUnscrolledPosition v' = CalcUnscrolledPosition v /\
  platform_mac v' = platform_mac v /\
  GetFullMultiLineTextExtent v' = GetFullMultiLineTextExtent v /\
  handler v' = handler v /\ layouts v' = layouts v /\ refreshes v' = refreshes v /\
  sent v' = sent v.

(** The same, up to the record of sent events. *)
Definition env_eq_mod_sent (v v' : CtrlVars) : Prop :=
  env_eq (set_sent v []) (set_sent v' []).

(** The fields of an item that layout, enabling and selection never
    write. *)
Definition check_eq (d d' : ItemData) : Prop :=
  _type d' = _type d /\ _is3State d' = _is3State d /\ _checked d' = _checked d /\
  _hidden d' = _hidden d /\ _isCollapsed d' = _isCollapsed d.

(** Two trees of the same shape whose items are related one by one. *)
Local Unset Elimination Schemes.
Inductive tree_rel (P : ItemData -> ItemData -> Prop)
    : GenericTreeItem -> GenericTreeItem -> Prop :=
| tree_rel_item d d' cs cs' :
    P d d' -> Forall2 (tree_rel P) cs cs' -> tree_rel P (Item d cs) (Item d' cs').

Local Set Elimination Schemes.

(** The fields the check methods never write, and what silent checking
    ([CheckItem2] on checkbox items) may change. *)
Definition keep_eq (d d' : ItemData) : Prop :=
  _type d' = _type d /\ _is3State d' = _is3State d /\ _hidden d' = _hidden d /\
  _isCollapsed d' = _isCollapsed d /\ _enabled d' = _enabled d /\
  _hasHilight d' = _hasHilight d.

Definition auto_eq (d d' : ItemData) : Prop :=
  keep_eq d d' /\ (_type d <> 1 -> _checked d' = _checked d).

(** A method keeps a property of the control, whether it returns or
    raises. *)
Definition keeps {A} (I : CustomTreeCtrl -> Prop) (m : Py A) : Prop :=
  forall s, I s -> I (m s).1.

(** The data of the item [p] and the environment of the control, as an
    invariant. *)
Definition data_inv (p : path) (d : ItemData) (v0 : CtrlVars) (s : CustomTreeCtrl) : Prop :=
  data_at s p = Some d /\ env_eq_mod_sent v0 (vars s).

Definition three_state_example : CustomTreeCtrl :=
  mkCtrl (new_vars (Z.lor TR_AUTO_CHECK_CHILD TR_AUTO_CHECK_PARENT) allow_all)
    (Some (new_item 1
       [Item (set_is3State (data (new_item 1 [])) true) [new_item 1 []]])).

(** A radio item in the checked state shows the ``flagged'' image. *)
Definition Flagged (d : ItemData) : bool := (_type d =? 2) && truthy (IsChecked d).

Definition flagged_count (cs : list GenericTreeItem) : nat :=
  foldr (fun c n => if Flagged (data c) then S n else n) 0%nat cs.

(** At most one flagged radio item among the children of every item. *)
Fixpoint radio_exclusive (t : GenericTreeItem) : bool :=
  match t with
  | Item _ cs => (flagged_count cs <=? 1)%nat && forallb radio_exclusive cs
  end.

Definition at_most_one_flagged (s : CustomTreeCtrl) : Prop :=
  forall parent pit, item_at s parent = Some pit ->
    (flagged_count (GetChildren pit) <= 1)%nat.

(** Related trees whose items show the same images are exclusive
    together. *)
Definition flag_eq (d d' : ItemData) : Prop := Flagged d' = Flagged d.

Definition radio_inv (s : CustomTreeCtrl) : Prop :=
  match _anchor s with Some t => radio_exclusive t = true | None => True end.

Definition radio_example : CustomTreeCtrl :=
  mkCtrl (new_vars 0 allow_all)
    (Some (new_item 0
       [Item (set_checked (data (new_item 2 [])) 1) [new_item 0 []];
        new_item 2 [new_item 0 []];
        new_item 1 []])).

Definition unchecked_radio (d : ItemData) : bool :=
  (GetType d =? 2) && negb (truthy (IsChecked d)).

(** [under_unchecked_radio item r]: on the way from [item] down to its
    descendant [r], strictly between the two, there is a radio button
    that is not checked. *)
Fixpoint under_unchecked_radio (item : GenericTreeItem) (r : path) : bool :=
  match r with
  | [] => false
  | i :: r' =>
      match GetChildren item !! i with
      | None => false
      | Some c =>
          match r' with
          | [] => false
          | _ => unchecked_radio (data c) || under_unchecked_radio c r'
          end
      end
  end.

(** A radio button with a hidden child, both below a plain root. *)
Definition radio_with_hidden_child : GenericTreeItem :=
  Item (data (new_item 2 []))
    [Item (set_hidden
             (GenericTreeItem_init (Some (data (new_item 2 []))) [] 0 (-1) (-1) false)
             true) []].

Definition hidden_child_example : CustomTreeCtrl :=
  mkCtrl (new_vars 0 allow_all) (Some (new_item 0 [radio_with_hidden_child])).

Definition radio_example_root : GenericTreeItem :=
  new_item 0
    [Item (set_checked (data (new_item 2 [])) 1) [new_item 0 []];
     new_item 2 [new_item 0 []];
     new_item 1 []].

(** A handler that blocks every event about the item [[1]], and a tree in
    which [[1]] is the checked radio sibling of the radio button [[0]]. *)
Definition block_item_1 : list TreeEvent -> TreeEvent -> bool :=
  fun _ e => match evtItem e with [1%nat] => true | _ => false end.

Definition veto_example : CustomTreeCtrl :=
  mkCtrl (new_vars 0 block_item_1)
    (Some (new_item 0
       [new_item 2 [];
        Item (set_checked (data (new_item 2 [])) 1) []])).

(** [path_shown item r]: no item on the way from [item] down to its
    descendant [r], both included, is hidden. *)
Fixpoint path_shown (item : GenericTreeItem) (r : path) : bool :=
  negb (IsHidden (data item)) &&
  match r with
  | [] => true
  | i :: r' =>
      match GetChildren item !! i with
      | Some c => path_shown c r'
      | None => false
      end
  end.

(** The test [HitTest] makes first: the point is left of 0, right of the
    width, above 0 or below the height of [GetSize()], the size of the
    whole window. *)
Definition beyond_size (v : CtrlVars) (point : Z * Z) : Prop :=
  point.1 < 0 \/ (GetSize v).1 < point.1 \/ point.2 < 0 \/ (GetSize v).2 < point.2.

Definition direction_flags (v : CtrlVars) (point : Z * Z) : Z :=
  Z.lor (Z.lor (Z.lor (if point.1 <? 0 then TREE_HITTEST_TOLEFT else 0)
                      (if (GetSize v).1 <? point.1 then TREE_HITTEST_TORIGHT else 0))
               (if point.2 <? 0 then TREE_HITTEST_ABOVE else 0))
        (if (GetSize v).2 <? point.2 then TREE_HITTEST_BELOW else 0).

(** A control whose root item is disabled and has one child. *)
Definition disabled_root_example : CustomTreeCtrl :=
  mkCtrl (new_vars 0 allow_all)
    (Some (Item (Enable (data (new_item 0 [])) false) [new_item 0 []])).

(** ** Bulk insertion *)



(** What a layout pass leaves of the instance variables: everything but
    the line height, and the dirty flag when the control is frozen. *)
Definition layout_frame (v v' : CtrlVars) : Prop :=
  env_eq v v' /\ (truthy (_freezeCount v) = false -> _dirty v' = _dirty v).


(** ** Insertion followed by deletion *)

(** The references of the items strictly below [item], whose reference
    is [here], in the order in which [DeleteChildren] visits them: each
    child before its own descendants, the children from first to last. *)
Section DescendantsFrom.
Variable child_descendants : path -> GenericTreeItem -> list path.

Fixpoint descendants_from (here : path) (n : nat) (cs : list GenericTreeItem)
    : list path :=
  match cs with
  | [] => []
  | c :: rest =>
      (here ++ [n]) :: child_descendants (here ++ [n]) c
        ++ descendants_from here (S n) rest
  end.
End DescendantsFrom.

Fixpoint descendants (here : path) (item : GenericTreeItem) : list path :=
  match item with
  | Item _ cs => descendants_from descendants here 0%nat cs
  end.

Definition delete_event (item : path) : TreeEvent :=
  mkTreeEvent wxEVT_TREE_DELETE_ITEM item.

(** A tree of items to insert: the arguments of [AppendItem] for the
    item, and the trees to append below it. *)
Local Unset Elimination Schemes.
Inductive NodeSpec :=
| Node (text : str) (ct_type image selImage : Z) (subnodes : list NodeSpec).

Local Set Elimination Schemes.

Fixpoint node_count (n : NodeSpec) : nat :=
  match n with
  | Node _ _ _ _ subs => S (foldr (fun c acc => node_count c + acc)%nat 0%nat subs)
  end.

Definition forest_count (ns : list NodeSpec) : nat :=
  foldr (fun c acc => node_count c + acc)%nat 0%nat ns.

(** The arguments [DoInsertItem] accepts, in a control that has the style
    [TR_HAS_VARIABLE_ROW_HEIGHT] or not. *)
Fixpoint valid_node (variable_row_height : bool) (n : NodeSpec) : bool :=
  match n with
  | Node text ct_type _ _ subs =>
      negb (has_newline text && negb variable_row_height) &&
      negb ((ct_type <? 0) || (2 <? ct_type)) &&
      forallb (valid_node variable_row_height) subs
  end.

(** Calls made one after the other, up to the first that raises. *)
Fixpoint run_all {A} (calls : list (Py A)) : Py unit :=
  match calls with
  | [] => ret tt
  | m :: rest => (_ <- m ;; run_all rest)%py
  end.

(** Append the item, then the trees below it, each with [AppendItem]. *)
Fixpoint append_tree (parent : path) (n : NodeSpec) : Py path :=
  match n with
  | Node text ct_type image selImage subs =>
      (q <- AppendItem (Some parent) text ct_type image selImage ;;
       run_all (List.map (append_tree q) subs) ;;
       ret q)%py
  end.

Definition append_forest (parent : path) (ns : list NodeSpec) : Py unit :=
  run_all (List.map (append_tree parent) ns).

(** The subtree these calls build below an item of data [pd]. *)
Fixpoint realize (pd : ItemData) (n : NodeSpec) : GenericTreeItem :=
  match n with
  | Node text ct_type image selImage subs =>
      let d := GenericTreeItem_init (Some pd) text ct_type image selImage false in
      Item d (List.map (realize d) subs)
  end.

(** [Delete] called [k] times on the same reference: the item it denotes,
    then the sibling that took its place, and so on. *)
Fixpoint delete_times (item : path) (k : nat) : Py unit :=
  match k with
  | O => ret tt
  | S k' => (Delete item ;; delete_times item k')%py
  end.

(** What insertions and deletions leave of the instance variables that
    matter here, and the events they add. *)
Definition sent_frame (v v' : CtrlVars) (evs : list TreeEvent) : Prop :=
  _agwStyle v' = _agwStyle v /\ handler v' = handler v /\ sent v' = sent v ++ evs.

Section NodeSpec_ind.
Variable P : NodeSpec -> Prop.
Hypothesis HNode : forall text ct_type image selImage subs,
  Forall P subs -> P (Node text ct_type image selImage subs).

Fixpoint NodeSpec_ind (n : NodeSpec) : P n :=
  match n with
  | Node text ct_type image selImage subs =>
      HNode text ct_type image selImage subs
        ((fix go (l : list NodeSpec) : Forall P l :=
            match l with
            | [] => List.Forall_nil P
            | c :: r => List.Forall_cons P c r (NodeSpec_ind c) (go r)
            end) subs)
  end.
End NodeSpec_ind.

(** The tree after [Delete(item)]. *)
Definition without_item (item : path) (anchor : option GenericTreeItem)
    : option GenericTreeItem :=
  match GetParent item with
  | None => None
  | Some (parent, k) =>
      alter_item (fun pit => Item (data pit) (delete k (GetChildren pit))) parent <$> anchor
  end.

(** The effect of [append_tree] on a control in which the parent exists. *)
Definition append_tree_spec (n : NodeSpec) : Prop :=
  forall (s : CustomTreeCtrl) (parent : path) (pit : GenericTreeItem),
    item_at s parent = Some pit ->
    valid_node (HasAGWFlag (vars s) TR_HAS_VARIABLE_ROW_HEIGHT) n = true ->
    exists v',
      append_tree parent n s =
        (mkCtrl v'
           (alter_item
              (fun _ => Item (data pit) (GetChildren pit ++ [realize (data pit) n]))
              parent <$> _anchor s),
         Ok (parent ++ [length (GetChildren pit)])) /\
      sent_frame (vars s) v' [].

(** The number of items of a list of subtrees. *)
Definition subtrees_count (cs : list GenericTreeItem) : nat :=
  foldr (fun c acc => S (GetChildrenCount c) + acc)%nat 0%nat cs.

(** A root with one child, and a forest of four items to append below
    that child. *)
Definition small_tree : CustomTreeCtrl :=
  mkCtrl (new_vars 0 allow_all) (Some (new_item 0 [new_item 1 []; new_item 0 []])).

Definition small_forest : list NodeSpec :=
  [Node (str_of "a") 0 (-1) (-1)
     [Node (str_of "a1") 1 (-1) (-1) []; Node (str_of "a2") 2 (-1) (-1) []];
   Node (str_of "b") 0 (-1) (-1) []].

(** ** Ranges of items *)

(** The depth-first order of the items, on their references: an item
    comes before the items below it, and the subtree of a child before
    the subtrees of the children after it. *)
Fixpoint path_le (p q : path) : bool :=
  match p, q with
  | [], _ => true
  | _ :: _, [] => false
  | i :: p', j :: q' => (i <? j)%nat || ((i =? j)%nat && path_le p' q')
  end.

(** [q] comes after [crt] and all the items below [crt]. *)
Definition path_after (crt q : path) : bool :=
  path_le crt q && negb (path_prefix crt q).

(** [q] is in the span from [first] to [last], both included. *)
Definition in_span (first last q : path) : bool :=
  path_le first q && path_le q last.

Fixpoint imap_from {A B} (f : nat -> A -> B) (n : nat) (l : list A) : list B :=
  match l with
  | [] => []
  | x :: rest => f n x :: imap_from f (S n) rest
  end.

(** The subtree [item], of reference [here], in which the items whose
    reference satisfies [P] have been given the selection state
    [select]. *)
Fixpoint tag_where (P : path -> bool) (select : bool) (here : path)
    (item : GenericTreeItem) : GenericTreeItem :=
  match item with
  | Item d cs =>
      Item (if P here then SetHilight d select else d)
        (imap_from (fun n c => tag_where P select (here ++ [n]) c) 0%nat cs)
  end.

(** The items of a tree in depth-first order. *)
Definition preorder (anchor : GenericTreeItem) : list path :=
  [] :: descendants [] anchor.

Definition path_lt (p q : path) : Prop := path_le p q = true /\ p <> q.

(** A control with multiple selection: a root and two children laid out
    at [y = 10] and [y = 20], both selected; the current item is given. *)
Definition laid_out (y : Z) (selected : bool) : GenericTreeItem :=
  Item (SetHilight (set_y (data (new_item 0 [])) y) selected) [].

Definition range_example (current : option path) : CustomTreeCtrl :=
  mkCtrl (set_current (new_vars TR_MULTIPLE allow_all) current)
    (Some (Item (Expand (set_y (data (new_item 0 [])) 2))
             [laid_out 10 true; laid_out 20 true; laid_out 30 false])).

(** The same, the first child selected and current, the others not
    selected. *)
Definition range_example_selected : CustomTreeCtrl :=
  mkCtrl (set_current (new_vars TR_MULTIPLE allow_all) (Some [0%nat]))
    (Some (Item (Expand (set_y (data (new_item 0 [])) 2))
             [laid_out 10 true; laid_out 20 false; laid_out 30 false])).

(** * Further properties: definitions *)

(** A call made [k] times, up to the first that raises. *)
Fixpoint repeat_call (k : nat) (m : Py unit) : Py unit :=
  match k with
  | O => ret tt
  | S k' => (m ;; repeat_call k' m)%py
  end.

(** The arguments [DoInsertItem] rejects. *)
Definition rejected (v : CtrlVars) (text : str) (ct_type : Z) (separator : bool) : bool :=
  (has_newline text && negb (HasAGWFlag v TR_HAS_VARIABLE_ROW_HEIGHT))
  || (ct_type <? 0) || (2 <? ct_type)
  || (separator && strip_nonempty text).

(** The reference of an item after the child [k] of [parent] has been
    removed. *)
Definition after_removal (parent : path) (k : nat) (q : path) : path :=
  renumber (fun j => if (k <? j)%nat then pred j else j) parent q.

(** The instance variables [Delete(item)] has computed when it unlinks the
    item [it] of reference [item]. *)
Definition Delete_vars (v : CtrlVars) (item : path) (it : GenericTreeItem) : CtrlVars :=
  let v := set_dirty v true in
  let parent := fst <$> GetParent item in
  let v := if IsDescendantOf item (_key_current v) then set_key_current v None else v in
  let v := if IsDescendantOf item (_select_me v) then set_select_me v parent else v in
  let v := if IsDescendantOf item (_current v)
           then set_select_me (set_current v None) parent else v in
  let v := GenericTreeItem_DeleteChildren v item it in
  let v := SendDeleteEvent v item in
  if ref_eqb item (_select_me v) then set_select_me v None else v.

(** A reference the control keeps denotes an item of the tree. *)
Definition ref_valid (s : CustomTreeCtrl) (r : option path) : Prop :=
  forall q, r = Some q -> is_Some (item_at s q).

(** The item of reference [r] below [item] is selected, and the items
    above it, from [item] on, are expanded. *)
Fixpoint listed (item : GenericTreeItem) (r : path) : bool :=
  match r with
  | [] => IsSelected (data item)
  | k :: r' =>
      IsExpanded (data item)
      && match GetChildren item !! k with
         | Some c => listed c r'
         | None => false
         end
  end.

(** The subtree [item] with the selection state of all its items set to
    [select]. *)
Fixpoint set_all (select : bool) (item : GenericTreeItem) : GenericTreeItem :=
  match item with
  | Item d cs => Item (SetHilight d select) (List.map (set_all select) cs)
  end.

(** Multiple selection is enabled. *)
Definition multiple_selection (v : CtrlVars) : bool :=
  HasAGWFlag v TR_MULTIPLE || HasAGWFlag v TR_EXTENDED.

(** [d'] is [d] but for the cached position and size. *)
Definition geometry_only (d d' : ItemData) : Prop :=
  d' = set_height (set_width (set_y (set_x d (_x d')) (_y d')) (_width d')) (_height d').

(** The items of [s'] are those of [s], item by item related by [P]. *)
Definition items_related (P : path -> ItemData -> ItemData -> Prop)
    (s s' : CustomTreeCtrl) : Prop :=
  forall q,
    match data_at s q with
    | Some d => exists d', data_at s' q = Some d' /\ P q d d'
    | None => data_at s' q = None
    end.

(** The data of a check box that is enabled, with the value [f] computes
    from it; the data of any other item as it is. *)
Definition check_data (f : ItemData -> Z) (d : ItemData) : ItemData :=
  if (GetType d =? 1) && IsEnabled d then set_checked d (f d) else d.

(** The subtree [item], with [d] for the data of [item] itself, in which
    the check boxes below [item] have been given their values by
    [check_data]. *)
Fixpoint checked_from (f : ItemData -> Z) (d : ItemData) (item : GenericTreeItem)
    : GenericTreeItem :=
  match item with
  | Item _ cs =>
      Item d (List.map (fun child => checked_from f (check_data f (data child)) child) cs)
  end.

(** The value [CheckChilds] gives to a check box. *)
Definition CheckChilds_value (checked : option Z) (d : ItemData) : Z :=
  match checked with
  | Some checked => checked
  | None => of_bool (negb (truthy (IsChecked d)))
  end.

(** The point lies within the row of the item. *)
Definition in_row (v : CtrlVars) (point : Z * Z) (d : ItemData) : bool :=
  (_y d <? point.2) && (point.2 <? _y d + GetLineHeight v d).

(** At this level the row of the item is tested: it is not the root of a
    control with [TR_HIDE_ROOT]. *)
Definition row_tested (v : CtrlVars) (level : nat) : bool :=
  negb ((level =? 0)%nat && HasAGWFlag v TR_HIDE_ROOT).

(** [searched v level item r]: the item of reference [r] below [item],
    itself at depth [level], is one whose row the search may test: it is
    not hidden, and every item above it is neither hidden nor collapsed,
    but for a root that is not shown, whose children are searched
    anyway. *)
Fixpoint searched (v : CtrlVars) (level : nat) (item : GenericTreeItem) (r : path) : bool :=
  negb (IsHidden (data item)) &&
  match r with
  | [] => row_tested v level
  | k :: r' =>
      (negb (row_tested v level) || IsExpanded (data item)) &&
      match GetChildren item !! k with
      | Some c => searched v (S level) c r'
      | None => false
      end
  end.

(** A control with the style [TR_AUTO_CHECK_CHILD]: a check box with a
    check box and a normal item below it. *)
Definition auto_check_example : CustomTreeCtrl :=
  mkCtrl (new_vars TR_AUTO_CHECK_CHILD allow_all)
    (Some (new_item 1 [new_item 1 []; new_item 0 []])).

(** Every enabled check box among the children of [parent] has the value
    [checked]. *)
Definition children_agree (s : CustomTreeCtrl) (parent : path) (checked : Z) : Prop :=
  forall k c, data_at s (parent ++ [k]) = Some c ->
              GetType c = 1 -> IsEnabled c = true -> IsChecked c = checked.

(** [q] is an item above [item]. *)
Definition strictly_above (q item : path) : bool :=
  path_prefix q item && negb (path_eqb q item).

(** What [AutoCheckParent(item, checked)] does to an item: it leaves it
    alone, or the item is a check box above [item] that gets the value,
    and all its enabled check box children have that value. *)
Definition AutoCheckParent_effect (s' : CustomTreeCtrl) (item : path) (checked : Z)
    (q : path) (d d' : ItemData) : Prop :=
  geometry_only d d' \/
  (strictly_above q item = true /\ GetType d = 1 /\
   geometry_only (set_checked d checked) d' /\ children_agree s' q checked).

(** The measure of a text is never of negative height. *)
Definition extent_ok (v : CtrlVars) : Prop :=
  forall bold italic text, 0 <= (GetFullMultiLineTextExtent v bold italic text).2.

(** The control lays out rows of their own height: it is not frozen, has
    the style [TR_HAS_VARIABLE_ROW_HEIGHT], and measures texts properly. *)
Definition stacking (v : CtrlVars) : Prop :=
  truthy (_freezeCount v) = false /\
  HasAGWFlag v TR_HAS_VARIABLE_ROW_HEIGHT = true /\ extent_ok v.

(** The rows of the items of [item] that hit testing may test lie between
    [lo] and [hi], have a positive height, and follow each other in
    depth-first order without overlap. *)
Definition rows_stacked (v : CtrlVars) (level : nat) (item : GenericTreeItem)
    (lo hi : Z) : Prop :=
  (forall r x, searched v level item r = true -> GetItem item r = Some x ->
     lo <= _y (data x) /\ 0 < _height (data x) /\ _y (data x) + _height (data x) <= hi) /\
  (forall r1 r2 x1 x2,
     searched v level item r1 = true -> searched v level item r2 = true ->
     GetItem item r1 = Some x1 -> GetItem item r2 = Some x2 -> path_lt r1 r2 ->
     _y (data x1) + _height (data x1) <= _y (data x2)).

(** The same for the children of an item at [level]. *)
Definition kids_stacked (v : CtrlVars) (level : nat) (cs : list GenericTreeItem)
    (lo hi : Z) : Prop :=
  (forall k c r x, cs !! k = Some c -> searched v (S level) c r = true ->
     GetItem c r = Some x ->
     lo <= _y (data x) /\ 0 < _height (data x) /\ _y (data x) + _height (data x) <= hi) /\
  (forall k1 k2 c1 c2 r1 r2 x1 x2,
     cs !! k1 = Some c1 -> cs !! k2 = Some c2 ->
     searched v (S level) c1 r1 = true -> searched v (S level) c2 r2 = true ->
     GetItem c1 r1 = Some x1 -> GetItem c2 r2 = Some x2 ->
     path_lt (k1 :: r1) (k2 :: r2) ->
     _y (data x1) + _height (data x1) <= _y (data x2)).

(** A control with rows of variable height: a root with two children. *)
Definition variable_rows_example : CustomTreeCtrl :=
  mkCtrl (new_vars TR_HAS_VARIABLE_ROW_HEIGHT allow_all)
    (Some (Item (Expand (data (new_item 0 []))) [new_item 0 []; new_item 1 []])).

(** The client rectangle: the points of the client area, whose size is
    [GetClientSize()]. *)
Definition in_client_rect (v : CtrlVars) (point : Z * Z) : bool :=
  (0 <=? point.1) && (point.1 <? (GetClientSize v).1) &&
  (0 <=? point.2) && (point.2 <? (GetClientSize v).2).

(** The tree of [radio_example] in a window of 400 by 300 with scroll
    bars, which leave a client area of 383 by 283. *)
Definition scrollbar_example : CustomTreeCtrl :=
  mkCtrl
    (mkCtrlVars 0 false 0 10 15 18 None None None None (fun _ => (16, 16))
       (400, 300) (383, 283) (0, 0) (fun x y => (x, y)) false (fun _ _ _ => (40, 14))
       allow_all [] 0 0)
    (Some radio_example_root).




(** * Properties *)


(** ** Induction on items *)

Lemma item_eta (t : GenericTreeItem) : Item (data t) (GetChildren t) = t.
Proof. by destruct t. Qed.

(** ** The loop over children *)

Section ForChildrenFacts.
Context {St R : Type}.
Variable body : St -> nat -> GenericTreeItem -> St * GenericTreeItem * option R.

Lemma for_children_length (cs : list GenericTreeItem) (s : St) (n : nat) :
  length (for_children body s n cs).1.2 = length cs.
Proof.
  revert s n. induction cs as [|c cs IH]; intros s n; simpl; [done|].
  destruct (body s n c) as [[s1 c1] [r|]]; simpl; [done|].
  specialize (IH s1 (S n)).
  destruct (for_children body s1 (S n) cs) as [[s2 rest'] stop']; simpl in *.
  by rewrite IH.
Qed.

(** Every child of the result is the child of the same index, either
    untouched (the loop stopped before it) or as the body left it. *)
Lemma for_children_rel (Q : nat -> GenericTreeItem -> GenericTreeItem -> Prop)
    (cs : list GenericTreeItem) (s : St) (n : nat) :
  (forall i c, cs !! i = Some c ->
     Q (n + i)%nat c c /\ forall s', Q (n + i)%nat c (body s' (n + i)%nat c).1.2) ->
  forall i c c',
    cs !! i = Some c -> (for_children body s n cs).1.2 !! i = Some c' ->
    Q (n + i)%nat c c'.
Proof.
  revert s n. induction cs as [|c0 cs IH]; intros s n HQ i c c' Hc Hc'; [done|].
  simpl in Hc'.
  destruct (body s n c0) as [[s1 c1] stop] eqn:Hb.
  destruct i as [|i].
  - simpl in Hc. injection Hc as <-.
    assert (c' = c1) as ->.
    { destruct stop; simpl in Hc'; [congruence|].
      destruct (for_children body s1 (S n) cs) as [[? ?] ?]; simpl in Hc'. congruence. }
    destruct (HQ 0%nat c0 eq_refl) as [_ H]. specialize (H s).
    rewrite Nat.add_0_r in *. by rewrite Hb in H.
  - simpl in Hc. destruct stop.
    + simpl in Hc'. assert (c' = c) as -> by congruence.
      by apply (HQ (S i) c).
    + specialize (IH s1 (S n)).
      destruct (for_children body s1 (S n) cs) as [[s2 rest'] stop'] eqn:Hf.
      simpl in Hc'. replace (n + S i)%nat with (S n + i)%nat by lia.
      apply IH; [|done|done].
      intros j cj Hj. replace (S n + j)%nat with (n + S j)%nat by lia.
      by apply (HQ (S j) cj).
Qed.

(** Without a stop every child went through the body. *)
Lemma for_children_ran (Q : nat -> GenericTreeItem -> GenericTreeItem -> Prop)
    (cs : list GenericTreeItem) (s : St) (n : nat) :
  (forall s' k c, (body s' k c).2 = None) ->
  (forall i c s', cs !! i = Some c -> Q (n + i)%nat c (body s' (n + i)%nat c).1.2) ->
  forall i c c',
    cs !! i = Some c -> (for_children body s n cs).1.2 !! i = Some c' ->
    Q (n + i)%nat c c'.
Proof.
  intros Hnone.
  revert s n. induction cs as [|c0 cs IH]; intros s n HQ i c c' Hc Hc'; [done|].
  simpl in Hc'. pose proof (Hnone s n c0) as Hs.
  destruct (body s n c0) as [[s1 c1] stop] eqn:Hb. simpl in Hs. subst stop.
  specialize (IH s1 (S n)).
  destruct (for_children body s1 (S n) cs) as [[s2 rest'] stop'] eqn:Hf.
  destruct i as [|i]; simpl in Hc, Hc'.
  - injection Hc as <-. injection Hc' as <-.
    specialize (HQ 0%nat c0 s eq_refl). rewrite Nat.add_0_r in *. by rewrite Hb in HQ.
  - replace (n + S i)%nat with (S n + i)%nat by lia.
    apply IH; [|done|done].
    intros j cj s' Hj. replace (S n + j)%nat with (n + S j)%nat by lia.
    by apply (HQ (S j) cj).
Qed.

(** A property of the threaded state that every step keeps. *)
Lemma for_children_state (I : St -> Prop) (cs : list GenericTreeItem) (s : St) (n : nat) :
  Forall (fun c => forall s' k, I s' -> I (body s' k c).1.1) cs ->
  I s -> I (for_children body s n cs).1.1.
Proof.
  intros Hstep. revert s n. induction Hstep as [|c cs Hc _ IH]; intros s n Hs; simpl; [done|].
  pose proof (Hc s n Hs) as H1.
  destruct (body s n c) as [[s1 c1] [r|]]; simpl in *; [done|].
  specialize (IH s1 (S n) H1).
  by destruct (for_children body s1 (S n) cs) as [[s2 rest'] stop'].
Qed.
End ForChildrenFacts.

(** ** Item references *)

Lemma GetItem_app (t : GenericTreeItem) (q r : path) :
  GetItem t (q ++ r) = GetItem t q ≫= (fun it => GetItem it r).
Proof.
  revert t. induction q as [|i q IH]; intros t; simpl; [done|].
  destruct (GetChildren t !! i); simpl; [apply IH|done].
Qed.

Lemma alter_item_app (f : GenericTreeItem -> GenericTreeItem) (q r : path) (t : GenericTreeItem) :
  alter_item f (q ++ r) t = alter_item (alter_item f r) q t.
Proof.
  revert t. induction q as [|i q IH]; intros t; simpl; [done|].
  f_equal. apply list_alter_ext; [|done]. intros c _. apply IH.
Qed.

Lemma alter_item_compose (f g : GenericTreeItem -> GenericTreeItem) (q : path) (t : GenericTreeItem) :
  alter_item g q (alter_item f q t) = alter_item (fun it => g (f it)) q t.
Proof.
  revert t. induction q as [|i q IH]; intros t; simpl; [done|].
  f_equal. rewrite list_alter_alter_eq.
  apply list_alter_ext; [|done]. intros c _. apply IH.
Qed.

Lemma alter_item_ext_at (f g : GenericTreeItem -> GenericTreeItem) (q : path)
    (t it : GenericTreeItem) :
  GetItem t q = Some it -> f it = g it -> alter_item f q t = alter_item g q t.
Proof.
  revert t. induction q as [|i q IH]; intros t Hq Hfg; simpl in *.
  - by injection Hq as ->.
  - f_equal. destruct (GetChildren t !! i) as [c|] eqn:Hc; [|done].
    apply list_eq. intros j. rewrite !list_lookup_alter.
    destruct (decide (i = j)) as [<-|]; [|done].
    rewrite Hc. simpl. f_equal. by apply IH.
Qed.

Lemma alter_item_stale (f : GenericTreeItem -> GenericTreeItem) (q : path) (t : GenericTreeItem) :
  GetItem t q = None -> alter_item f q t = t.
Proof.
  revert t. induction q as [|i q IH]; intros [d cs] Hq; simpl in *; [done|].
  f_equal. apply list_eq. intros j. rewrite list_lookup_alter.
  destruct (decide (i = j)) as [<-|]; [|done].
  destruct (cs !! i) as [c|] eqn:Hc; [|done].
  simpl. f_equal. by apply IH.
Qed.

Lemma GetItem_alter_item (f : GenericTreeItem -> GenericTreeItem) (q : path) (t : GenericTreeItem) :
  GetItem (alter_item f q t) q = f <$> GetItem t q.
Proof.
  revert t. induction q as [|i q IH]; intros t; simpl; [done|].
  rewrite list_lookup_alter. destruct (decide (i = i)); [|done].
  destruct (GetChildren t !! i); simpl; [apply IH|done].
Qed.

Lemma alter_item_id (q : path) (t it : GenericTreeItem) :
  GetItem t q = Some it -> alter_item (fun _ => it) q t = t.
Proof.
  revert t. induction q as [|i q IH]; intros [d cs] Hq; simpl in *.
  - by injection Hq as ->.
  - f_equal. destruct (cs !! i) as [c|] eqn:Hc; [|done].
    apply list_eq. intros j. rewrite list_lookup_alter.
    destruct (decide (i = j)) as [<-|]; [|done].
    rewrite Hc. simpl. f_equal. by apply IH.
Qed.

(** ** What the methods leave alone *)

Lemma env_eq_refl (v : CtrlVars) : env_eq v v.
Proof. by repeat split. Qed.

Lemma env_eq_trans (v1 v2 v3 : CtrlVars) : env_eq v1 v2 -> env_eq v2 v3 -> env_eq v1 v3.
Proof. unfold env_eq. intros H1 H2. destruct_and!. repeat split; congruence. Qed.

Lemma env_eq_handler (v v' : CtrlVars) : env_eq v v' -> handler v' = handler v.
Proof. unfold env_eq. intros H. by destruct_and!. Qed.

Lemma env_eq_agwStyle (v v' : CtrlVars) : env_eq v v' -> _agwStyle v' = _agwStyle v.
Proof. unfold env_eq. intros H. by destruct_and!. Qed.

Lemma env_eq_freezeCount (v v' : CtrlVars) : env_eq v v' -> _freezeCount v' = _freezeCount v.
Proof. unfold env_eq. intros H. by destruct_and!. Qed.

Lemma env_eq_set_dirty (v : CtrlVars) (b : bool) : env_eq v (set_dirty v b).
Proof. by repeat split. Qed.

Lemma env_eq_set_lineHeight (v : CtrlVars) (h : Z) : env_eq v (set_lineHeight v h).
Proof. by repeat split. Qed.

Lemma env_eq_sent (v v' : CtrlVars) : env_eq v v' -> sent v' = sent v.
Proof. unfold env_eq. intros H. by destruct_and!. Qed.

Lemma env_eq_mod_sent_refl (v : CtrlVars) : env_eq_mod_sent v v.
Proof. apply env_eq_refl. Qed.

Lemma env_eq_mod_sent_trans (v1 v2 v3 : CtrlVars) :
  env_eq_mod_sent v1 v2 -> env_eq_mod_sent v2 v3 -> env_eq_mod_sent v1 v3.
Proof. apply env_eq_trans. Qed.

Lemma env_eq_weaken (v v' : CtrlVars) : env_eq v v' -> env_eq_mod_sent v v'.
Proof. unfold env_eq_mod_sent, env_eq. simpl. intros H. destruct_and!. by repeat split. Qed.

Lemma env_eq_mod_sent_set_sent (v : CtrlVars) (l : list TreeEvent) :
  env_eq_mod_sent v (set_sent v l).
Proof. by repeat split. Qed.

Lemma env_eq_mod_sent_handler (v v' : CtrlVars) :
  env_eq_mod_sent v v' -> handler v' = handler v.
Proof. intros H. apply (env_eq_handler _ _ H). Qed.

Lemma check_eq_refl (d : ItemData) : check_eq d d.
Proof. by repeat split. Qed.

Lemma check_eq_trans (d1 d2 d3 : ItemData) : check_eq d1 d2 -> check_eq d2 d3 -> check_eq d1 d3.
Proof. unfold check_eq. intros H1 H2. destruct_and!. repeat split; congruence. Qed.

Lemma GetValue_checked (d : ItemData) : GetValue d = _checked d.
Proof. unfold GetValue, Get3StateValue, Is3State. by destruct (_is3State d). Qed.

Lemma IsChecked_checked (d : ItemData) : IsChecked d = _checked d.
Proof. apply GetValue_checked. Qed.

Lemma CalculateSize_env (v : CtrlVars) (d : ItemData) : env_eq v (CalculateSize v d).1.
Proof.
  unfold CalculateSize.
  destruct (truthy (_freezeCount v)); [apply env_eq_set_dirty|].
  destruct (IsHidden d); [apply env_eq_refl|].
  destruct (GetFullMultiLineTextExtent v _ _ _) as [text_w text_h].
  destruct (if negb (GetCurrentImage d =? _NO_IMAGE) then _ else _) as [image_w image_h].
  simpl. case_match; [apply env_eq_set_lineHeight|apply env_eq_refl].
Qed.

Lemma CalculateSize_check (v : CtrlVars) (d : ItemData) : check_eq d (CalculateSize v d).2.
Proof.
  unfold CalculateSize.
  destruct (truthy (_freezeCount v)); [apply check_eq_refl|].
  destruct (IsHidden d); [by repeat split|].
  destruct (GetFullMultiLineTextExtent v _ _ _) as [text_w text_h].
  destruct (if negb (GetCurrentImage d =? _NO_IMAGE) then _ else _) as [image_w image_h].
  by repeat split.
Qed.

Lemma CalculateSize_enabled (v : CtrlVars) (d : ItemData) :
  _enabled (CalculateSize v d).2 = _enabled d /\
  _hasHilight (CalculateSize v d).2 = _hasHilight d.
Proof.
  unfold CalculateSize.
  destruct (truthy (_freezeCount v)); [done|].
  destruct (IsHidden d); [done|].
  destruct (GetFullMultiLineTextExtent v _ _ _) as [text_w text_h].
  destruct (if negb (GetCurrentImage d =? _NO_IMAGE) then _ else _) as [image_w image_h].
  done.
Qed.

Lemma EnableItem_env (v : CtrlVars) (d : ItemData) (enable torefresh : bool) :
  env_eq v (EnableItem v d enable torefresh).1.
Proof.
  unfold EnableItem. destruct (eqb _ _); [apply env_eq_refl|].
  destruct torefresh; [apply CalculateSize_env|apply env_eq_refl].
Qed.

Lemma EnableItem_check (v : CtrlVars) (d : ItemData) (enable torefresh : bool) :
  check_eq d (EnableItem v d enable torefresh).2.
Proof.
  unfold EnableItem. destruct (eqb _ _); [apply check_eq_refl|].
  destruct torefresh; simpl.
  - eapply check_eq_trans; [|apply CalculateSize_check].
    destruct (negb enable && IsSelected d); by repeat split.
  - destruct (negb enable && IsSelected d); by repeat split.
Qed.

Lemma tree_rel_intro (P : ItemData -> ItemData -> Prop) (t t' : GenericTreeItem) :
  P (data t) (data t') ->
  Forall2 (tree_rel P) (GetChildren t) (GetChildren t') ->
  tree_rel P t t'.
Proof. destruct t, t'. by constructor. Qed.

Lemma tree_rel_data (P : ItemData -> ItemData -> Prop) (t t' : GenericTreeItem) :
  tree_rel P t t' -> P (data t) (data t').
Proof. by intros []. Qed.

Lemma tree_rel_children (P : ItemData -> ItemData -> Prop) (t t' : GenericTreeItem) :
  tree_rel P t t' -> Forall2 (tree_rel P) (GetChildren t) (GetChildren t').
Proof. by intros []. Qed.

Lemma tree_rel_refl (P : ItemData -> ItemData -> Prop) (t : GenericTreeItem) :
  (forall d, P d d) -> tree_rel P t t.
Proof.
  intros HP. induction t as [d cs IH] using GenericTreeItem_ind.
  constructor; [done|]. induction IH; by constructor.
Qed.

Lemma tree_rel_mono (P Q : ItemData -> ItemData -> Prop) (t t' : GenericTreeItem) :
  (forall d d', P d d' -> Q d d') -> tree_rel P t t' -> tree_rel Q t t'.
Proof.
  intros HPQ. revert t'. induction t as [d cs IH] using GenericTreeItem_ind.
  intros t' Ht. inversion Ht as [? d' ? cs' Hd Hcs]; subst.
  constructor; [by apply HPQ|].
  clear Ht Hd. revert cs' Hcs. induction IH as [|c cs Hc _ IHcs]; intros cs' Hcs.
  - inversion Hcs. constructor.
  - inversion Hcs; subst. constructor; [by apply Hc|by apply IHcs].
Qed.

Lemma tree_rel_trans (P : ItemData -> ItemData -> Prop) (t1 t2 t3 : GenericTreeItem) :
  (forall d1 d2 d3, P d1 d2 -> P d2 d3 -> P d1 d3) ->
  tree_rel P t1 t2 -> tree_rel P t2 t3 -> tree_rel P t1 t3.
Proof.
  intros HP. revert t2 t3. induction t1 as [d cs IH] using GenericTreeItem_ind.
  intros t2 t3 H12 H23.
  inversion H12 as [? d2 ? cs2 Hd Hcs]; subst.
  inversion H23 as [? d3 ? cs3 Hd' Hcs']; subst.
  constructor; [by eapply HP|].
  clear H12 H23 Hd Hd'. revert cs2 cs3 Hcs Hcs'.
  induction IH as [|c cs Hc _ IHcs]; intros cs2 cs3 Hcs Hcs'.
  - inversion Hcs; subst. inversion Hcs'. constructor.
  - inversion Hcs; subst. inversion Hcs'; subst.
    constructor; [by eapply Hc|by eapply IHcs].
Qed.

(** Related trees have related items at every reference. *)
Lemma tree_rel_GetItem (P : ItemData -> ItemData -> Prop) (p : path) (t t' it : GenericTreeItem) :
  tree_rel P t t' -> GetItem t p = Some it ->
  exists it', GetItem t' p = Some it' /\ tree_rel P it it'.
Proof.
  revert t t'. induction p as [|i p IH]; intros t t' Ht Hp; simpl in *.
  - injection Hp as <-. by exists t'.
  - destruct (GetChildren t !! i) as [c|] eqn:Hc; [|done].
    apply tree_rel_children in Ht.
    destruct (Forall2_lookup_l _ _ _ _ _ Ht Hc) as (c' & Hc' & Hcc).
    rewrite Hc'. by eapply IH.
Qed.

Lemma tree_rel_GetItem_None (P : ItemData -> ItemData -> Prop) (p : path) (t t' : GenericTreeItem) :
  tree_rel P t t' -> GetItem t p = None -> GetItem t' p = None.
Proof.
  revert t t'. induction p as [|i p IH]; intros t t' Ht Hp; simpl in *; [done|].
  apply tree_rel_children in Ht.
  destruct (GetChildren t' !! i) as [c'|] eqn:Hc'; [|done].
  destruct (Forall2_lookup_r _ _ _ _ _ Ht Hc') as (c & Hc & Hcc).
  rewrite Hc in Hp. by eapply IH.
Qed.

(** [EnableChildren] writes neither the check state nor the instance
    variables other than the dirty flag and the line height. *)
Lemma EnableChildren_from_frame (item : GenericTreeItem) :
  forall (v : CtrlVars) (d : ItemData) (enable : bool),
    env_eq v (EnableChildren_from v d item enable).1 /\
    data (EnableChildren_from v d item enable).2 = d /\
    Forall2 (tree_rel check_eq) (GetChildren item)
      (GetChildren (EnableChildren_from v d item enable).2).
Proof.
  induction item as [d0 cs IH] using GenericTreeItem_ind. intros v d enable. simpl.
  destruct ((GetType d =? 2) && enable && negb (truthy (IsChecked d))).
  { simpl. split; [apply env_eq_refl|]. split; [done|].
    apply Forall2_same_length_lookup. split; [done|].
    intros i x y Hx Hy. assert (x = y) as -> by congruence.
    apply tree_rel_refl, check_eq_refl. }
  set (body := fun (v : CtrlVars) (_ : nat) (child : GenericTreeItem) => _).
  pose proof (for_children_length body cs v 0%nat) as Hlen.
  assert (Hnone : forall s' k c, (body s' k c).2 = None).
  { intros s' k c. unfold body.
    destruct (EnableItem s' (data c) enable (IsExpanded d)) as [v1 cd]. simpl.
    by destruct (EnableChildren_from v1 cd c enable). }
  pose proof (for_children_state body (env_eq v) cs v 0%nat) as Henv.
  pose proof (for_children_ran body (fun _ c c' => tree_rel check_eq c c') cs v 0%nat Hnone) as Hrel.
  destruct (for_children body v 0%nat cs) as [[v' cs'] stop]. simpl in *.
  split; [|split; [done|]].
  - apply Henv; [|apply env_eq_refl].
    eapply Forall_impl; [exact IH|]. intros c Hc s' k Hs'. unfold body.
    pose proof (EnableItem_env s' (data c) enable (IsExpanded d)) as He.
    destruct (EnableItem s' (data c) enable (IsExpanded d)) as [v1 cd]. simpl in *.
    destruct (Hc v1 cd enable) as (He' & _).
    destruct (EnableChildren_from v1 cd c enable) as [v2 c']. simpl in *.
    eapply env_eq_trans; [exact Hs'|]. by eapply env_eq_trans.
  - apply Forall2_same_length_lookup. split; [done|].
    intros i c c' Hc Hc'. apply (Hrel) with (i := i); [|done|done].
    intros j cj s' Hj. unfold body.
    pose proof (EnableItem_check s' (data cj) enable (IsExpanded d)) as Hk.
    destruct (EnableItem s' (data cj) enable (IsExpanded d)) as [v1 cd]. simpl in *.
    rewrite Forall_lookup in IH. destruct (IH j cj Hj v1 cd enable) as (_ & Hd & Hch).
    destruct (EnableChildren_from v1 cd cj enable) as [v2 cj']. simpl in *.
    apply tree_rel_intro; [by rewrite Hd|done].
Qed.

Lemma keep_eq_refl (d : ItemData) : keep_eq d d.
Proof. by repeat split. Qed.

Lemma keep_eq_trans (d1 d2 d3 : ItemData) : keep_eq d1 d2 -> keep_eq d2 d3 -> keep_eq d1 d3.
Proof. unfold keep_eq. intros H1 H2. destruct_and!. repeat split; congruence. Qed.

Lemma auto_eq_refl (d : ItemData) : auto_eq d d.
Proof. split; [apply keep_eq_refl|done]. Qed.

Lemma CalculateSize_keep (v : CtrlVars) (d : ItemData) :
  keep_eq d (CalculateSize v d).2 /\ _checked (CalculateSize v d).2 = _checked d.
Proof.
  destruct (CalculateSize_check v d) as (? & ? & ? & ? & ?).
  destruct (CalculateSize_enabled v d) as (? & ?). by repeat split.
Qed.

Lemma CheckItem2_frame (v : CtrlVars) (d : ItemData) (checked : Z) (torefresh : bool) :
  env_eq v (CheckItem2 v d checked torefresh).1.1 /\
  keep_eq d (CheckItem2 v d checked torefresh).1.2 /\
  match (CheckItem2 v d checked torefresh).2 with
  | Some _ => (CheckItem2 v d checked torefresh).1.2 = d
  | None =>
      _checked (CheckItem2 v d checked torefresh).1.2
      = if _type d =? 0 then _checked d else checked
  end.
Proof.
  unfold CheckItem2, GetType, Check.
  destruct (_type d =? 0) eqn:Hty; simpl.
  { split; [apply env_eq_refl|]. split; [apply keep_eq_refl|done]. }
  destruct (negb _); simpl.
  { split; [apply env_eq_refl|]. split; [apply keep_eq_refl|done]. }
  destruct torefresh.
  - pose proof (CalculateSize_env v (set_checked d checked)) as He.
    destruct (CalculateSize_keep v (set_checked d checked)) as [Hk Hc].
    destruct (CalculateSize v (set_checked d checked)) as [v' d']. simpl in *.
    split; [done|]. split; [|done].
    eapply keep_eq_trans; [|exact Hk]. by repeat split.
  - simpl. split; [apply env_eq_refl|]. by repeat split.
Qed.

Lemma CheckItem2_auto (v : CtrlVars) (d : ItemData) (checked : Z) (torefresh : bool) :
  _type d = 1 -> auto_eq d (CheckItem2 v d checked torefresh).1.2.
Proof.
  intros Hty. destruct (CheckItem2_frame v d checked torefresh) as (_ & Hk & _).
  split; [done|]. by rewrite Hty.
Qed.

Ltac auto_child_frame IH body :=
  match goal with
  | |- context [for_children body ?v 0%nat ?cs] =>
      pose proof (for_children_length body cs v 0%nat) as Hlen;
      pose proof (for_children_state body (env_eq v) cs v 0%nat) as Henv;
      pose proof (for_children_rel body (fun _ c c' => tree_rel auto_eq c c') cs v 0%nat) as Hrel;
      destruct (for_children body v 0%nat cs) as [[v' cs'] stop]; simpl in *;
      split; [|split; [done|]];
      [ apply Henv; [|apply env_eq_refl];
        eapply Forall_impl; [exact IH|]; intros c Hc s' k Hs'; unfold body;
        destruct ((GetType (data c) =? 1) && IsEnabled (data c));
        [ match goal with
          | |- context [CheckItem2 ?a ?b ?x ?y] =>
              destruct (CheckItem2_frame a b x y) as (He & _ & _);
              destruct (CheckItem2 a b x y) as [[v1 cd] [e|]]; simpl in *;
              [ by eapply env_eq_trans
              | eapply env_eq_trans; [exact Hs'|];
                eapply env_eq_trans; [exact He|]; apply Hc ]
          end
        | simpl; eapply env_eq_trans; [exact Hs'|]; apply Hc ]
      | apply Forall2_same_length_lookup; split; [done|];
        intros i c c' Hc Hc'; apply Hrel with (i := i); [|done|done];
        intros j cj Hj; split; [apply tree_rel_refl, auto_eq_refl|];
        intros s'; unfold body;
        rewrite Forall_lookup in IH; specialize (IH j cj Hj);
        destruct ((GetType (data cj) =? 1) && IsEnabled (data cj)) eqn:Hg;
        [ apply andb_prop in Hg as [Hty%Z.eqb_eq _];
          match goal with
          | |- context [CheckItem2 ?a ?b ?x ?y] =>
              pose proof (CheckItem2_auto a b x y Hty) as Ha;
              destruct (CheckItem2 a b x y) as [[v1 cd] [e|]]; simpl in *;
              [ apply tree_rel_intro; simpl;
                [ done | apply Forall2_same_length_lookup; split; [done|];
                         intros ? x' y' Hx Hy; assert (x' = y') as -> by congruence;
                         apply tree_rel_refl, auto_eq_refl ]
              | apply tree_rel_intro;
                [ by rewrite (proj1 (proj2 (IH v1 cd))) | apply IH ] ]
          end
        | simpl; apply tree_rel_intro;
          [ rewrite (proj1 (proj2 (IH s' (data cj)))); apply auto_eq_refl | apply IH ] ] ]
  end.

Lemma AutoCheckChild_from_frame (item : GenericTreeItem) (checked : Z) :
  forall (v : CtrlVars) (d : ItemData),
    env_eq v (AutoCheckChild_from v d item checked).1.1 /\
    data (AutoCheckChild_from v d item checked).1.2 = d /\
    Forall2 (tree_rel auto_eq) (GetChildren item)
      (GetChildren (AutoCheckChild_from v d item checked).1.2).
Proof.
  induction item as [d0 cs IH] using GenericTreeItem_ind. intros v d. simpl.
  set (body := fun (v : CtrlVars) (_ : nat) (child : GenericTreeItem) => _).
  auto_child_frame IH body.
Qed.

Lemma AutoToggleChild_from_frame (item : GenericTreeItem) :
  forall (v : CtrlVars) (d : ItemData),
    env_eq v (AutoToggleChild_from v d item).1.1 /\
    data (AutoToggleChild_from v d item).1.2 = d /\
    Forall2 (tree_rel auto_eq) (GetChildren item)
      (GetChildren (AutoToggleChild_from v d item).1.2).
Proof.
  induction item as [d0 cs IH] using GenericTreeItem_ind. intros v d. simpl.
  set (body := fun (v : CtrlVars) (_ : nat) (child : GenericTreeItem) => _).
  auto_child_frame IH body.
Qed.

(** ** Reasoning about the methods of the control *)

Lemma keeps_ret {A} (I : CustomTreeCtrl -> Prop) (a : A) : keeps I (ret a).
Proof. by intros s. Qed.

Lemma keeps_lift {A} (I : CustomTreeCtrl -> Prop) (r : Result A) : keeps I (lift r).
Proof. by intros s. Qed.

Lemma keeps_get_vars (I : CustomTreeCtrl -> Prop) : keeps I get_vars.
Proof. by intros s. Qed.

Lemma keeps_the_item (I : CustomTreeCtrl -> Prop) (p : path) : keeps I (the_item p).
Proof. intros s Hs. unfold the_item. by destruct (item_at s p). Qed.

Lemma keeps_bind {A B} (I : CustomTreeCtrl -> Prop) (m : Py A) (k : A -> Py B) :
  keeps I m -> (forall a, keeps I (k a)) -> keeps I (bind m k).
Proof.
  intros Hm Hk s Hs. unfold bind. specialize (Hm s Hs).
  destruct (m s) as [s' [a|e]]; simpl in *; [by apply Hk|done].
Qed.

Lemma keeps_if {A} (I : CustomTreeCtrl -> Prop) (b : bool) (m1 m2 : Py A) :
  keeps I m1 -> keeps I m2 -> keeps I (if b then m1 else m2).
Proof. by destruct b. Qed.

Lemma on_item_run {A} (p : path)
    (f : CtrlVars -> GenericTreeItem -> CtrlVars * GenericTreeItem * Result A)
    (s : CustomTreeCtrl) (it : GenericTreeItem) :
  item_at s p = Some it ->
  on_item p f s =
    (mkCtrl (f (vars s) it).1.1
       (alter_item (fun _ => (f (vars s) it).1.2) p <$> _anchor s),
     (f (vars s) it).2).
Proof.
  intros Hit. unfold on_item, bind, the_item, get_vars. rewrite Hit.
  by destruct (f (vars s) it) as [[v' it'] r].
Qed.

Lemma on_item_stale {A} (p : path)
    (f : CtrlVars -> GenericTreeItem -> CtrlVars * GenericTreeItem * Result A)
    (s : CustomTreeCtrl) :
  item_at s p = None -> on_item p f s = (s, Raise StaleItem).
Proof. intros Hit. unfold on_item, bind, the_item. by rewrite Hit. Qed.

Lemma process_event_run (e : TreeEvent) (s : CustomTreeCtrl) :
  process_event e s =
    (mkCtrl (set_sent (vars s) (sent (vars s) ++ [e])) (_anchor s),
     Ok (handler (vars s) (sent (vars s)) e)).
Proof. done. Qed.

Lemma item_at_alter_same (f : GenericTreeItem -> GenericTreeItem) (p : path)
    (v v' : CtrlVars) (a : option GenericTreeItem) :
  item_at (mkCtrl v' (alter_item f p <$> a)) p = f <$> item_at (mkCtrl v a) p.
Proof.
  unfold item_at. destruct a as [t|]; simpl; [|done]. apply GetItem_alter_item.
Qed.

(** Replacing an item by one with the same children does not move the
    items below it. *)
Lemma GetItem_alter_above (f : GenericTreeItem -> GenericTreeItem) (q r : path)
    (t : GenericTreeItem) :
  r <> [] ->
  (forall it, GetItem t q = Some it -> GetChildren (f it) = GetChildren it) ->
  GetItem (alter_item f q t) (q ++ r) = GetItem t (q ++ r).
Proof.
  intros Hr Hf. rewrite !GetItem_app, GetItem_alter_item.
  destruct (GetItem t q) as [it|] eqn:Hq; simpl; [|done].
  destruct r as [|i r]; [done|]. simpl. by rewrite (Hf it).
Qed.

Lemma keeps_process_event (p : path) (d : ItemData) (v0 : CtrlVars) (e : TreeEvent) :
  keeps (data_inv p d v0) (process_event e).
Proof.
  intros s [Hd He]. rewrite process_event_run. split; [done|].
  eapply env_eq_mod_sent_trans; [exact He|apply env_eq_mod_sent_set_sent].
Qed.

Lemma keeps_on_item_same {A} (p : path) (d : ItemData) (v0 : CtrlVars)
    (f : CtrlVars -> GenericTreeItem -> CtrlVars * GenericTreeItem * Result A) :
  (forall v it, env_eq v (f v it).1.1 /\ data (f v it).1.2 = data it) ->
  keeps (data_inv p d v0) (on_item p f).
Proof.
  intros Hf [v a] [Hd He]. unfold data_at in Hd.
  destruct (item_at (mkCtrl v a) p) as [it|] eqn:Hit; [|done].
  rewrite (on_item_run p f _ it Hit). cbn [fst snd vars _anchor] in *.
  destruct (Hf v it) as [He' Hd']. split.
  - unfold data_at. rewrite (item_at_alter_same _ p v). rewrite Hit.
    simpl in *. congruence.
  - eapply env_eq_mod_sent_trans; [exact He|by apply env_eq_weaken].
Qed.

Lemma keeps_on_item_above {A} (q r : path) (d : ItemData) (v0 : CtrlVars)
    (f : CtrlVars -> GenericTreeItem -> CtrlVars * GenericTreeItem * Result A) :
  r <> [] ->
  (forall v it, env_eq v (f v it).1.1 /\ GetChildren (f v it).1.2 = GetChildren it) ->
  keeps (data_inv (q ++ r) d v0) (on_item q f).
Proof.
  intros Hr Hf s [Hd He].
  destruct (item_at s q) as [it|] eqn:Hit.
  - rewrite (on_item_run q f s it Hit). simpl.
    destruct (Hf (vars s) it) as [He' Hc].
    split; [|eapply env_eq_mod_sent_trans; [exact He|by apply env_eq_weaken]].
    unfold data_at, item_at in *. destruct s as [v [t|]]; simpl in *; [|done].
    rewrite GetItem_alter_above; [done|done|].
    intros it' Hit'. assert (it' = it) as -> by congruence. done.
  - by rewrite (on_item_stale q f s Hit).
Qed.

Lemma keeps_AutoCheckParent_up (p : path) (d : ItemData) (v0 : CtrlVars) (checked : Z)
    (ritem : list nat) (r : path) :
  p = reverse ritem ++ r ->
  keeps (data_inv p d v0) (AutoCheckParent_up ritem checked).
Proof.
  revert r. induction ritem as [|i rparent IH]; intros r Hp; simpl.
  { apply keeps_ret. }
  apply keeps_bind; [apply keeps_the_item|]. intros pit.
  apply keeps_if; [apply keeps_ret|]. apply keeps_if; [apply keeps_ret|].
  rewrite reverse_cons, <- app_assoc in Hp.
  apply keeps_bind; [|intros _; by eapply IH].
  subst p. apply keeps_on_item_above; [done|].
  intros v it. destruct (CheckItem2_frame v (data it) checked true) as (He & _ & _).
  by destruct (CheckItem2 v (data it) checked true) as [[v' d'] e].
Qed.

Lemma keeps_AutoCheckChild (p : path) (d : ItemData) (v0 : CtrlVars) :
  keeps (data_inv p d v0)
    (on_item p (fun v it =>
       let ischeck := IsItemChecked (data it) in
       let '(v', it', e) := AutoCheckChild v it ischeck in
       (v', it', as_result e))).
Proof.
  apply keeps_on_item_same. intros v it. unfold AutoCheckChild.
  destruct (AutoCheckChild_from_frame it (IsItemChecked (data it)) v (data it)) as (He & Hd & _).
  by destruct (AutoCheckChild_from v (data it) it _) as [[v' it'] e].
Qed.

Lemma keeps_AutoToggleChild (p : path) (d : ItemData) (v0 : CtrlVars) :
  keeps (data_inv p d v0)
    (on_item p (fun v it =>
       let '(v', it', e) := AutoToggleChild v it in
       (v', it', as_result e))).
Proof.
  apply keeps_on_item_same. intros v it. unfold AutoToggleChild.
  destruct (AutoToggleChild_from_frame it v (data it)) as (He & Hd & _).
  by destruct (AutoToggleChild_from v (data it) it) as [[v' it'] e].
Qed.

(** A check box whose ``checking'' event is not blocked takes the state it
    is given, whatever the automatic propagation to children and parents
    does afterwards. *)
Lemma CheckItem_checkbox (s : CustomTreeCtrl) (p : path) (it : GenericTreeItem)
    (checked : Z) (d' : ItemData) :
  item_at s p = Some it ->
  _type (data it) <> 0 -> _type (data it) <> 2 ->
  handler (vars s) (sent (vars s)) (mkTreeEvent wxEVT_TREE_ITEM_CHECKING p) = false ->
  (if Is3State (data it) then Set3StateValue (data it) checked
   else Check (data it) checked) = Ok d' ->
  data_inv p d' (vars s) (after (CheckItem p checked) s).
Proof.
  intros Hit Hn0 Hn2 Hh Hd. unfold after, CheckItem.
  unfold bind at 1. unfold the_item. rewrite Hit.
  unfold GetType. rewrite (proj2 (Z.eqb_neq _ _) Hn0), (proj2 (Z.eqb_neq _ _) Hn2).
  unfold bind at 1. rewrite process_event_run, Hh.
  unfold bind at 1. unfold lift. rewrite Hd.
  unfold bind at 1. unfold put_data. cbn [vars _anchor].
  apply keeps_bind; [apply keeps_get_vars|intros v| ].
  - apply keeps_bind.
    { apply keeps_if; [apply keeps_AutoCheckChild|apply keeps_ret]. }
    intros _. apply keeps_bind.
    { apply keeps_if.
      - apply keeps_bind; [apply keeps_the_item|]. intros it'.
        apply (keeps_AutoCheckParent_up p d' (vars s) _ (reverse p) []).
        by rewrite reverse_involutive, app_nil_r.
      - apply keeps_if; [apply keeps_AutoToggleChild|apply keeps_ret]. }
    intros _. apply keeps_bind; [apply keeps_process_event|]. intros _. apply keeps_ret.
  - split; [|apply env_eq_mod_sent_set_sent].
    unfold data_at. destruct s as [v a]. cbn [vars _anchor] in *.
    rewrite (item_at_alter_same _ p v). by rewrite Hit.
Qed.

(** ** The 3-state check box *)

Lemma OnKeyDown_toggle_3state (s : CustomTreeCtrl) (p : path) (d : ItemData) :
  data_at s p = Some d -> _type d = 1 -> _is3State d = true ->
  0 <= _checked d <= 2 ->
  handler (vars s) (sent (vars s)) (mkTreeEvent wxEVT_TREE_ITEM_CHECKING p) = false ->
  data_inv p (set_checked d ((_checked d + 1) mod 3)) (vars s)
    (after (OnKeyDown_toggle p) s).
Proof.
  intros Hd Hty H3 Hc Hh. unfold data_at in Hd.
  destruct (item_at s p) as [it|] eqn:Hit; [|done]. injection Hd as Hd.
  unfold after, OnKeyDown_toggle. unfold bind at 1. unfold the_item. rewrite Hit.
  unfold GetType, Is3State, Get3StateValue, Is3State. rewrite Hd, Hty, H3. simpl.
  unfold bind at 1. unfold bind at 1. unfold lift, ret.
  apply (CheckItem_checkbox s p it); [done|rewrite Hd; lia|rewrite Hd; lia|done|].
  unfold Is3State, Set3StateValue. rewrite Hd, H3.
  unfold CHK_UNCHECKED, CHK_CHECKED, CHK_UNDETERMINED.
  assert (_checked d = 0 \/ _checked d = 1 \/ _checked d = 2) as [->| [->| ->]] by lia;
    reflexivity.
Qed.

(** C7.  A 3-state check box that is unchecked goes through checked,
    undetermined and unchecked again under three successive toggles of the
    space bar (each computes [(state + 1) mod 3] and applies it with
    [CheckItem]), when the handler blocks no ``checking'' event. *)
Theorem three_state_toggle_cycle (s : CustomTreeCtrl) (p : path) (d : ItemData) :
  data_at s p = Some d ->
  _type d = 1 -> _is3State d = true -> _checked d = CHK_UNCHECKED ->
  (forall log e, evtType e = wxEVT_TREE_ITEM_CHECKING -> handler (vars s) log e = false) ->
  let s1 := after (OnKeyDown_toggle p) s in
  let s2 := after (OnKeyDown_toggle p) s1 in
  let s3 := after (OnKeyDown_toggle p) s2 in
  _checked <$> data_at s1 p = Some CHK_CHECKED /\
  _checked <$> data_at s2 p = Some CHK_UNDETERMINED /\
  _checked <$> data_at s3 p = Some CHK_UNCHECKED.
Proof.
  intros Hd Hty H3 Hc Hh s1 s2 s3.
  destruct (OnKeyDown_toggle_3state s p d Hd Hty H3) as [Hd1 He1];
    [rewrite Hc; unfold CHK_UNCHECKED; lia|by apply Hh|].
  fold s1 in Hd1, He1. rewrite Hc in Hd1. change ((CHK_UNCHECKED + 1) mod 3) with 1 in Hd1.
  destruct (OnKeyDown_toggle_3state s1 p _ Hd1 Hty H3) as [Hd2 He2];
    [simpl; lia|rewrite (env_eq_mod_sent_handler _ _ He1); by apply Hh|].
  fold s2 in Hd2, He2. simpl in Hd2. change ((1 + 1) mod 3) with 2 in Hd2.
  destruct (OnKeyDown_toggle_3state s2 p _ Hd2 Hty H3) as [Hd3 He3];
    [simpl; lia| |].
  { rewrite (env_eq_mod_sent_handler _ _ He2), (env_eq_mod_sent_handler _ _ He1).
    by apply Hh. }
  fold s3 in Hd3, He3. simpl in Hd3. change ((2 + 1) mod 3) with 0 in Hd3.
  rewrite Hd1, Hd2, Hd3. done.
Qed.

Lemma three_state_toggle_cycle_witness :
  let s := three_state_example in
  let s1 := after (OnKeyDown_toggle [0%nat]) s in
  let s2 := after (OnKeyDown_toggle [0%nat]) s1 in
  let s3 := after (OnKeyDown_toggle [0%nat]) s2 in
  _checked <$> data_at s1 [0%nat] = Some CHK_CHECKED /\
  _checked <$> data_at s2 [0%nat] = Some CHK_UNDETERMINED /\
  _checked <$> data_at s3 [0%nat] = Some CHK_UNCHECKED.
Proof.
  apply (three_state_toggle_cycle three_state_example [0%nat]
           (set_is3State (data (new_item 1 [])) true));
    reflexivity.
Defined.

(** ** Radio buttons *)

Lemma radio_exclusive_GetItem (t : GenericTreeItem) :
  radio_exclusive t = true <->
  forall q pit, GetItem t q = Some pit -> (flagged_count (GetChildren pit) <= 1)%nat.
Proof.
  induction t as [d cs IH] using GenericTreeItem_ind. simpl.
  rewrite andb_true_iff, Nat.leb_le, forallb_forall. split.
  - intros [Hc Hcs] q pit Hq. destruct q as [|i q]; simpl in Hq.
    + by injection Hq as <-.
    + destruct (cs !! i) as [c|] eqn:Hi; [|done].
      rewrite Forall_lookup in IH. apply (proj1 (IH i c Hi)) with (q := q); [|done].
      apply Hcs. apply list_elem_of_In. by eapply list_elem_of_lookup_2.
  - intros H. split; [by apply (H [] (Item d cs))|].
    intros c Hc%list_elem_of_In. apply list_elem_of_lookup in Hc as [i Hi].
    rewrite Forall_lookup in IH. apply (IH i c Hi).
    intros q pit Hq. apply (H (i :: q)). simpl. by rewrite Hi.
Qed.

Lemma at_most_one_flagged_iff (s : CustomTreeCtrl) :
  at_most_one_flagged s <->
  match _anchor s with Some t => radio_exclusive t = true | None => True end.
Proof.
  unfold at_most_one_flagged, item_at. destruct (_anchor s) as [t|]; simpl.
  - by rewrite radio_exclusive_GetItem.
  - done.
Qed.

Lemma flagged_count_alter (g : GenericTreeItem -> GenericTreeItem) (i : nat)
    (cs : list GenericTreeItem) :
  (forall c, cs !! i = Some c -> Flagged (data (g c)) = Flagged (data c)) ->
  flagged_count (alter g i cs) = flagged_count cs.
Proof.
  revert i. induction cs as [|c cs IH]; intros i Hg; [done|].
  destruct i as [|i]; simpl.
  - by rewrite (Hg c).
  - specialize (IH i). unfold alter in IH. rewrite IH; [done|].
    intros c' Hc'. by apply Hg.
Qed.

Lemma flagged_count_single (index : nat) (cs : list GenericTreeItem) :
  (forall n c, cs !! n = Some c -> n <> index -> Flagged (data c) = false) ->
  (flagged_count cs <= 1)%nat.
Proof.
  revert index. induction cs as [|c cs IH]; intros index H; simpl; [lia|].
  destruct index as [|index].
  - assert (flagged_count cs = 0)%nat as ->.
    { clear IH. induction cs as [|c' cs IH']; [done|]. simpl.
      rewrite (H 1%nat c'); [|done|done]. apply IH'.
      intros [|n] c'' Hn Hne; [done|]. destruct n; simpl in Hn.
      - by apply (H 2%nat c'').
      - by apply (H (S (S (S n))) c''). }
    destruct (Flagged (data c)); lia.
  - rewrite (H 0%nat c); [|done|done]. apply (IH index).
    intros n c' Hn Hne. apply (H (S n) c'); [done|lia].
Qed.

Lemma data_alter_item_cons (f : GenericTreeItem -> GenericTreeItem) (i : nat) (q : path)
    (t : GenericTreeItem) :
  data (alter_item f (i :: q) t) = data t.
Proof. done. Qed.

(** Replacing one item keeps the exclusion when the new item satisfies it
    and shows the same image as the old one. *)
Lemma radio_exclusive_alter (f : GenericTreeItem -> GenericTreeItem) (q : path)
    (t it : GenericTreeItem) :
  GetItem t q = Some it ->
  radio_exclusive t = true ->
  radio_exclusive (f it) = true ->
  (q <> [] -> Flagged (data (f it)) = Flagged (data it)) ->
  radio_exclusive (alter_item f q t) = true.
Proof.
  revert t. induction q as [|i q IH]; intros [d cs] Hq Ht Hf Hfl; simpl in *.
  { by injection Hq as ->. }
  destruct (cs !! i) as [c|] eqn:Hc; [|done].
  apply andb_true_iff in Ht as [Hcount Hall].
  apply andb_true_iff. split.
  - rewrite flagged_count_alter; [done|].
    intros c' Hc'. assert (c' = c) as -> by congruence.
    destruct q as [|j q]; simpl in *.
    + injection Hq as ->. by apply Hfl.
    + done.
  - rewrite forallb_forall in Hall. apply forallb_forall.
    intros c' Hc'%list_elem_of_In. apply list_elem_of_lookup in Hc' as [j Hj].
    rewrite list_lookup_alter in Hj. destruct (decide (i = j)) as [<-|Hne].
    + rewrite Hc in Hj. injection Hj as <-.
      apply IH; [done| |done|].
      * apply Hall, list_elem_of_In. by eapply list_elem_of_lookup_2.
      * intros Hq'. by apply Hfl.
    + apply Hall, list_elem_of_In. by eapply list_elem_of_lookup_2.
Qed.

Lemma flagged_count_rel (cs cs' : list GenericTreeItem) :
  Forall2 (tree_rel flag_eq) cs cs' -> flagged_count cs' = flagged_count cs.
Proof.
  induction 1 as [|c c' cs cs' Hc _ IH]; [done|]. simpl.
  apply tree_rel_data in Hc. unfold flag_eq in Hc. by rewrite Hc, IH.
Qed.

Lemma radio_exclusive_rel (t t' : GenericTreeItem) :
  tree_rel flag_eq t t' -> radio_exclusive t = true -> radio_exclusive t' = true.
Proof.
  revert t'. induction t as [d cs IH] using GenericTreeItem_ind.
  intros t' Ht. inversion Ht as [? d' ? cs' Hd Hcs]; subst. simpl.
  rewrite !andb_true_iff. intros [Hcount Hall]. split.
  - by rewrite (flagged_count_rel cs cs').
  - rewrite forallb_forall in Hall. apply forallb_forall.
    intros c' Hc'%list_elem_of_In. apply list_elem_of_lookup in Hc' as [j Hj].
    destruct (Forall2_lookup_r _ _ _ _ _ Hcs Hj) as (c & Hc & Hcc).
    rewrite Forall_lookup in IH. apply (IH j c Hc c' Hcc).
    apply Hall, list_elem_of_In. by eapply list_elem_of_lookup_2.
Qed.

Lemma check_eq_flag (d d' : ItemData) : check_eq d d' -> flag_eq d d'.
Proof.
  unfold check_eq, flag_eq, Flagged. rewrite !IsChecked_checked.
  intros (-> & _ & -> & _). done.
Qed.

Lemma auto_eq_flag (d d' : ItemData) : auto_eq d d' -> flag_eq d d'.
Proof.
  unfold auto_eq, keep_eq, flag_eq, Flagged. rewrite !IsChecked_checked.
  intros ((-> & _) & Hc). destruct (_type d =? 2) eqn:Hty; [|done].
  apply Z.eqb_eq in Hty. rewrite Hc; [done|lia].
Qed.

Lemma GetParent_snoc (q : path) (i : nat) : GetParent (q ++ [i]) = Some (q, i).
Proof. unfold GetParent. by rewrite reverse_snoc, reverse_involutive. Qed.

Lemma GetParent_Some (p q : path) (i : nat) : GetParent p = Some (q, i) -> p = q ++ [i].
Proof.
  unfold GetParent. destruct (reverse p) as [|j rp] eqn:Hr; [done|].
  intros [= <- <-]. by rewrite <- (reverse_involutive p), Hr, reverse_cons.
Qed.

Lemma GetParent_None (p : path) : GetParent p = None -> p = [].
Proof.
  unfold GetParent. destruct (reverse p) as [|j rp] eqn:Hr; [|done].
  intros _. by rewrite <- (reverse_involutive p), Hr.
Qed.

Lemma GetItem_sub (t pit : GenericTreeItem) (q : path) :
  GetItem t q = Some pit -> radio_exclusive t = true -> radio_exclusive pit = true.
Proof.
  rewrite !radio_exclusive_GetItem. intros Hq Ht q' pit' Hq'.
  apply (Ht (q ++ q')). by rewrite GetItem_app, Hq.
Qed.

(** [UnCheckRadioParent], step by step. *)
Lemma UnCheckRadioParent_run (s : CustomTreeCtrl) (p : path) (it : GenericTreeItem)
    (checked : Z) :
  item_at s p = Some it ->
  let e1 := mkTreeEvent wxEVT_TREE_ITEM_CHECKING p in
  let v1 := set_sent (vars s) (sent (vars s) ++ [e1]) in
  UnCheckRadioParent p checked s =
    if handler (vars s) (sent (vars s)) e1 then (mkCtrl v1 (_anchor s), Ok false)
    else match Check (data it) checked with
         | Raise e => (mkCtrl v1 (_anchor s), Raise e)
         | Ok d =>
             let r := EnableChildren v1 (Item d (GetChildren it)) (truthy checked) in
             (mkCtrl (set_sent r.1 (sent r.1 ++ [mkTreeEvent wxEVT_TREE_ITEM_CHECKED p]))
                (alter_item (fun _ => r.2) p <$> _anchor s),
              Ok true)
         end.
Proof.
  intros Hit e1 v1. unfold UnCheckRadioParent.
  unfold bind at 1. rewrite process_event_run. fold e1. fold v1.
  destruct (handler (vars s) (sent (vars s)) e1); [done|].
  unfold bind at 1. unfold the_item.
  assert (item_at (mkCtrl v1 (_anchor s)) p = Some it) as -> by done.
  unfold bind at 1. unfold lift.
  destruct (Check (data it) checked) as [d|e]; [|done].
  unfold bind at 1. unfold put_data. cbn [vars _anchor].
  unfold bind at 1.
  assert (item_at (mkCtrl v1 (alter_item (with_data (fun _ => d)) p <$> _anchor s)) p
          = Some (Item d (GetChildren it))) as Hit2.
  { destruct s as [v a]. rewrite (item_at_alter_same _ p v).
    cbn [vars _anchor] in *. by rewrite Hit. }
  rewrite (on_item_run p _ _ _ Hit2). cbn [fst snd vars _anchor].
  destruct (EnableChildren v1 (Item d (GetChildren it)) (truthy checked)) as [v3 it3] eqn:HE.
  cbn [fst snd]. unfold bind at 1. rewrite process_event_run. cbn [vars _anchor].
  unfold ret. f_equal. f_equal.
  destruct (_anchor s) as [t|]; [|done]. simpl.
  f_equal. apply alter_item_compose.
Qed.

Lemma CheckSameLevel_run (s : CustomTreeCtrl) (parent : path) (index : nat)
    (pit : GenericTreeItem) (checked : Z) :
  item_at s parent = Some pit ->
  let r := for_children (CheckSameLevel_child index checked (IsExpanded (data pit)))
             (vars s) 0%nat (GetChildren pit) in
  CheckSameLevel (parent ++ [index]) checked s =
    (mkCtrl r.1.1 (alter_item (fun _ => Item (data pit) r.1.2) parent <$> _anchor s),
     as_result r.2).
Proof.
  intros Hit r. unfold CheckSameLevel. rewrite GetParent_snoc.
  rewrite (on_item_run parent _ s pit Hit). fold r.
  by destruct r as [[v' cs'] e].
Qed.

(** What [CheckSameLevel(item, False)] does to one child of the parent. *)
Lemma CheckSameLevel_child_uncheck (index : nat) (torefresh : bool) (v : CtrlVars)
    (n : nat) (c : GenericTreeItem) :
  (CheckSameLevel_child index 0 torefresh v n c).2 = None /\
  env_eq v (CheckSameLevel_child index 0 torefresh v n c).1.1 /\
  if (_type (data c) =? 2) && negb (n =? index)%nat
  then exists v1 cd,
      (CheckSameLevel_child index 0 torefresh v n c).1.2
      = (EnableChildren_from v1 cd c false).2 /\
      keep_eq (data c) cd /\ _checked cd = 0
  else (CheckSameLevel_child index 0 torefresh v n c).1.2 = c.
Proof.
  unfold CheckSameLevel_child, GetType.
  destruct ((_type (data c) =? 2) && negb (n =? index)%nat) eqn:Hg.
  2: { split; [done|]. split; [apply env_eq_refl|done]. }
  apply andb_true_iff in Hg as [Hty%Z.eqb_eq _].
  pose proof (CheckItem2_frame v (data c) 0 torefresh) as (He & Hk & Hc).
  assert ((CheckItem2 v (data c) 0 torefresh).2 = None) as Hnone.
  { unfold CheckItem2, GetType, Check. rewrite Hty. simpl.
    by destruct torefresh; [destruct (CalculateSize _ _)|]. }
  destruct (CheckItem2 v (data c) 0 torefresh) as [[v1 cd] e]. simpl in *. subst e.
  rewrite Hty in Hc. simpl in Hc. change (truthy 0) with false.
  destruct (EnableChildren_from_frame c v1 cd false) as (He' & _ & _).
  destruct (EnableChildren_from v1 cd c false) as [v2 c'] eqn:HE. simpl in *.
  split; [done|]. split; [by eapply env_eq_trans|].
  exists v1, cd. by rewrite HE.
Qed.

Lemma for_children_nostop {St R : Type}
    (body : St -> nat -> GenericTreeItem -> St * GenericTreeItem * option R)
    (cs : list GenericTreeItem) (s : St) (n : nat) :
  (forall s' k c, (body s' k c).2 = None) -> (for_children body s n cs).2 = None.
Proof.
  intros Hnone. revert s n. induction cs as [|c cs IH]; intros s n; simpl; [done|].
  pose proof (Hnone s n c) as Hs.
  destruct (body s n c) as [[s1 c1] stop]. simpl in Hs. subst stop.
  specialize (IH s1 (S n)). by destruct (for_children body s1 (S n) cs) as [[s2 rest'] stop'].
Qed.

Lemma radio_exclusive_children (d d' : ItemData) (cs cs' : list GenericTreeItem) :
  Forall2 (tree_rel flag_eq) cs cs' ->
  radio_exclusive (Item d cs) = true -> radio_exclusive (Item d' cs') = true.
Proof.
  intros Hcs Ht. apply (radio_exclusive_rel (Item d' cs)); [|done].
  by constructor.
Qed.

Lemma Forall2_tree_rel_mono (P Q : ItemData -> ItemData -> Prop)
    (cs cs' : list GenericTreeItem) :
  (forall d d', P d d' -> Q d d') ->
  Forall2 (tree_rel P) cs cs' -> Forall2 (tree_rel Q) cs cs'.
Proof.
  intros HPQ H. eapply Forall2_impl; [exact H|]. intros c c'. by apply tree_rel_mono.
Qed.

Lemma Forall2_tree_rel_refl (P : ItemData -> ItemData -> Prop) (cs : list GenericTreeItem) :
  (forall d, P d d) -> Forall2 (tree_rel P) cs cs.
Proof.
  intros HP. apply Forall2_same_length_lookup. split; [done|].
  intros i x y Hx Hy. assert (x = y) as -> by congruence. by apply tree_rel_refl.
Qed.

Lemma EnableChildren_from_exclusive (v : CtrlVars) (d : ItemData) (item : GenericTreeItem)
    (enable : bool) :
  radio_exclusive item = true ->
  radio_exclusive (EnableChildren_from v d item enable).2 = true.
Proof.
  intros Ht. destruct (EnableChildren_from_frame item v d enable) as (_ & Hd & Hcs).
  destruct (EnableChildren_from v d item enable) as [v' [d' cs']]. simpl in *.
  destruct item as [d0 cs]. apply (radio_exclusive_children d0 d' cs cs'); [|exact Ht].
  eapply Forall2_tree_rel_mono; [apply check_eq_flag|done].
Qed.

(** The loop of [CheckSameLevel(item, False)] never stops early: every
    radio sibling of the item is unchecked and goes through
    [EnableChildren(child, False)], every other child is left as it is. *)
Lemma CheckSameLevel_loop_uncheck (index : nat) (torefresh : bool) (v : CtrlVars)
    (cs : list GenericTreeItem) :
  let r := for_children (CheckSameLevel_child index 0 torefresh) v 0%nat cs in
  r.2 = None /\ env_eq v r.1.1 /\ length r.1.2 = length cs /\
  forall n c c', cs !! n = Some c -> r.1.2 !! n = Some c' ->
    if (_type (data c) =? 2) && negb (n =? index)%nat
    then exists v1 cd,
        c' = (EnableChildren_from v1 cd c false).2 /\
        keep_eq (data c) cd /\ _checked cd = 0
    else c' = c.
Proof.
  intros r. unfold r.
  assert (Hnone : forall s' k c, (CheckSameLevel_child index 0 torefresh s' k c).2 = None).
  { intros s' k c. apply CheckSameLevel_child_uncheck. }
  split; [by apply for_children_nostop|].
  split.
  { apply for_children_state; [|apply env_eq_refl].
    apply Forall_forall. intros c _ s' k Hs'.
    eapply env_eq_trans; [exact Hs'|]. apply CheckSameLevel_child_uncheck. }
  split; [apply for_children_length|].
  intros n c c' Hc Hc'.
  apply (for_children_ran (CheckSameLevel_child index 0 torefresh)
           (fun n c c' =>
              if (_type (data c) =? 2) && negb (n =? index)%nat
              then exists v1 cd,
                  c' = (EnableChildren_from v1 cd c false).2 /\
                  keep_eq (data c) cd /\ _checked cd = 0
              else c' = c) cs v 0%nat Hnone) with (i := n); [|done|done].
  intros i ci s' Hi. simpl. apply CheckSameLevel_child_uncheck.
Qed.

Lemma keeps_radio_process_event (e : TreeEvent) : keeps radio_inv (process_event e).
Proof. by intros s Hs. Qed.

(** A method that rewrites one subtree into a tree showing the same
    images keeps the exclusion. *)
Lemma keeps_radio_on_item {A} (p : path)
    (f : CtrlVars -> GenericTreeItem -> CtrlVars * GenericTreeItem * Result A) :
  (forall v it, tree_rel flag_eq it (f v it).1.2) ->
  keeps radio_inv (on_item p f).
Proof.
  intros Hf s Hs. destruct (item_at s p) as [it|] eqn:Hit.
  - rewrite (on_item_run p f s it Hit). unfold radio_inv, item_at in *.
    destruct (_anchor s) as [t|]; simpl in *; [|done].
    apply (radio_exclusive_alter _ p t it); [done|done| |].
    + eapply radio_exclusive_rel; [apply Hf|]. by eapply GetItem_sub.
    + intros _. apply (tree_rel_data _ _ _ (Hf (vars s) it)).
  - by rewrite (on_item_stale p f s Hit).
Qed.

Lemma AutoCheckParent_up_exclusive (ritem : list nat) (checked : Z) :
  keeps radio_inv (AutoCheckParent_up ritem checked).
Proof.
  induction ritem as [|i rparent IH]; intros s Hs; simpl; [done|].
  unfold bind at 1. unfold the_item.
  destruct (item_at s (reverse rparent)) as [pit|] eqn:Hit; [|done].
  destruct (negb (GetType (data pit) =? 1)) eqn:Hty; [done|].
  destruct (existsb _ _); [done|].
  unfold bind. rewrite (on_item_run _ _ s pit Hit).
  apply negb_false_iff, Z.eqb_eq in Hty. unfold GetType in Hty.
  pose proof (CheckItem2_auto (vars s) (data pit) checked true Hty) as Ha.
  destruct (CheckItem2 (vars s) (data pit) checked true) as [[v' d'] e]. simpl in *.
  assert (radio_inv (mkCtrl v'
            (alter_item (fun _ => Item d' (GetChildren pit)) (reverse rparent)
               <$> _anchor s))) as Hs'.
  { unfold radio_inv, item_at in *. destruct (_anchor s) as [t|]; simpl in *; [|done].
    apply (radio_exclusive_alter _ _ t pit); [done|done| |].
    - destruct pit as [d0 cs].
      apply (radio_exclusive_children d0 d' cs cs); [|by eapply GetItem_sub].
      apply Forall2_tree_rel_refl. by intros ?.
    - intros _. simpl. by apply auto_eq_flag. }
  destruct e as [e|]; simpl; [done|]. by apply IH.
Qed.

(** [CheckItem] on a radio button, step by step. *)
Lemma CheckItem_radio_run (s : CustomTreeCtrl) (p : path) (it : GenericTreeItem)
    (checked : Z) :
  item_at s p = Some it -> _type (data it) = 2 ->
  let e1 := mkTreeEvent wxEVT_TREE_ITEM_CHECKING p in
  let v1 := set_sent (vars s) (sent (vars s) ++ [e1]) in
  CheckItem p checked s =
    if negb (truthy checked) && truthy (_checked (data it)) then (s, Ok tt)
    else if handler (vars s) (sent (vars s)) e1 then (mkCtrl v1 (_anchor s), Ok tt)
    else match Check (data it) checked with
         | Raise e => (mkCtrl v1 (_anchor s), Raise e)
         | Ok d =>
             let r := EnableChildren v1 (Item d (GetChildren it)) (truthy checked) in
             CheckSameLevel p 0
               (mkCtrl (set_sent r.1 (sent r.1 ++ [mkTreeEvent wxEVT_TREE_ITEM_CHECKED p]))
                  (alter_item (fun _ => r.2) p <$> _anchor s))
         end.
Proof.
  intros Hit Hty e1 v1. unfold CheckItem. unfold bind at 1. unfold the_item. rewrite Hit.
  unfold GetType. rewrite Hty. simpl. rewrite IsChecked_checked.
  destruct (negb (truthy checked) && truthy (_checked (data it))); [done|].
  unfold bind. rewrite (UnCheckRadioParent_run s p it checked Hit). fold e1. fold v1.
  destruct (handler (vars s) (sent (vars s)) e1); [done|].
  by destruct (Check (data it) checked).
Qed.

Lemma Check_Ok (d d' : ItemData) (checked : Z) :
  Check d checked = Ok d' ->
  d' = set_checked d checked /\ (checked = 0 \/ checked = 1).
Proof.
  unfold Check. destruct (checked =? 1) eqn:H1; simpl.
  - apply Z.eqb_eq in H1. intros [= <-]. split; [done|by right].
  - destruct (checked =? 0) eqn:H0; simpl; [|done].
    apply Z.eqb_eq in H0. intros [= <-]. split; [done|by left].
Qed.

(** The effect of checking or unchecking a radio button that has a
    parent: the item takes the state, its subtree goes through
    [EnableChildren], every radio sibling is unchecked and its subtree
    goes through [EnableChildren(sibling, False)]; two events are sent,
    both for the item itself. *)
Lemma CheckItem_radio_effect (s : CustomTreeCtrl) (parent : path) (index : nat)
    (pit it : GenericTreeItem) (checked : Z) (d : ItemData) :
  item_at s parent = Some pit -> GetChildren pit !! index = Some it ->
  _type (data it) = 2 ->
  negb (truthy checked) && truthy (_checked (data it)) = false ->
  handler (vars s) (sent (vars s))
    (mkTreeEvent wxEVT_TREE_ITEM_CHECKING (parent ++ [index])) = false ->
  Check (data it) checked = Ok d ->
  let p := parent ++ [index] in
  let v1 := set_sent (vars s) (sent (vars s) ++ [mkTreeEvent wxEVT_TREE_ITEM_CHECKING p]) in
  let it1 := (EnableChildren v1 (Item d (GetChildren it)) (truthy checked)).2 in
  exists v' cs',
    CheckItem p checked s =
      (mkCtrl v' (alter_item (fun _ => Item (data pit) cs') parent <$> _anchor s), Ok tt) /\
    env_eq_mod_sent (vars s) v' /\
    sent v' = sent (vars s) ++ [mkTreeEvent wxEVT_TREE_ITEM_CHECKING p;
                                mkTreeEvent wxEVT_TREE_ITEM_CHECKED p] /\
    length cs' = length (GetChildren pit) /\
    cs' !! index = Some it1 /\
    forall n c c', n <> index -> GetChildren pit !! n = Some c -> cs' !! n = Some c' ->
      if _type (data c) =? 2
      then exists v2 cd, c' = (EnableChildren_from v2 cd c false).2 /\
                         keep_eq (data c) cd /\ _checked cd = 0
      else c' = c.
Proof.
  intros Hpit Hit Hty Hearly Hh HC p v1 it1.
  assert (item_at s p = Some it) as Hitp.
  { unfold item_at, p in *. destruct (_anchor s) as [t|]; simpl in *; [|done].
    rewrite GetItem_app. destruct (GetItem t parent); simpl in *; [|done].
    injection Hpit as ->. by rewrite Hit. }
  fold p in Hh.
  rewrite (CheckItem_radio_run s p it checked Hitp Hty), Hearly. cbv zeta. rewrite Hh, HC.
  fold v1. fold it1.
  pose proof (EnableChildren_from_frame (Item d (GetChildren it)) v1 d (truthy checked))
    as (He1 & Hd1 & _).
  change (EnableChildren_from v1 d (Item d (GetChildren it)) (truthy checked))
    with (EnableChildren v1 (Item d (GetChildren it)) (truthy checked)) in He1, Hd1.
  fold it1 in Hd1.
  set (v2 := (EnableChildren v1 (Item d (GetChildren it)) (truthy checked)).1) in *.
  set (s1 := mkCtrl _ _).
  assert (item_at s1 parent
          = Some (Item (data pit) (alter (fun _ => it1) index (GetChildren pit)))) as Hpit1.
  { unfold s1, item_at, p in *. destruct (_anchor s) as [t|]; simpl in *; [|done].
    by rewrite alter_item_app, GetItem_alter_item, Hpit. }
  unfold p at 1. rewrite (CheckSameLevel_run s1 parent index _ 0 Hpit1).
  cbn [data GetChildren].
  destruct (CheckSameLevel_loop_uncheck index (IsExpanded (data pit)) (vars s1)
              (alter (fun _ => it1) index (GetChildren pit))) as (Hnone & He & Hlen & Hrel).
  destruct (for_children _ (vars s1) 0%nat _) as [[v' cs'] e]. cbn [fst snd] in *. subst e.
  exists v', cs'. split; [|split; [|split; [|split; [|split]]]].
  - unfold s1. cbn [_anchor as_result]. f_equal. destruct (_anchor s) as [t|]; [|done].
    simpl. f_equal. unfold p. rewrite alter_item_app. f_equal. apply alter_item_compose.
  - eapply env_eq_mod_sent_trans; [|apply env_eq_weaken, He].
    unfold s1. cbn [vars].
    eapply env_eq_mod_sent_trans; [|apply env_eq_mod_sent_set_sent].
    eapply env_eq_mod_sent_trans; [apply (env_eq_mod_sent_set_sent (vars s))|].
    apply env_eq_weaken, He1.
  - rewrite (env_eq_sent _ _ He). unfold s1. cbn [vars sent set_sent].
    rewrite (env_eq_sent _ _ He1). unfold v1. cbn [sent set_sent].
    by rewrite <- app_assoc.
  - by rewrite Hlen, length_alter.
  - destruct (cs' !! index) as [c'|] eqn:Hc'.
    + specialize (Hrel index it1 c'). rewrite list_lookup_alter_eq, Hit in Hrel.
      specialize (Hrel eq_refl Hc'). rewrite Nat.eqb_refl, andb_false_r in Hrel.
      by rewrite Hrel.
    + apply lookup_ge_None in Hc'. apply lookup_lt_Some in Hit.
      rewrite Hlen, length_alter in Hc'. lia.
  - intros n c c' Hne Hc Hc'. specialize (Hrel n c c').
    rewrite list_lookup_alter_ne in Hrel by done. specialize (Hrel Hc Hc').
    apply Nat.eqb_neq in Hne. rewrite Hne, andb_true_r in Hrel. exact Hrel.
Qed.

Lemma radio_exclusive_data (d d' : ItemData) (cs : list GenericTreeItem) :
  radio_exclusive (Item d cs) = radio_exclusive (Item d' cs).
Proof. done. Qed.

Lemma forallb_lookup {A} (f : A -> bool) (l : list A) :
  forallb f l = true <-> forall i x, l !! i = Some x -> f x = true.
Proof.
  rewrite forallb_forall. split.
  - intros H i x Hi. apply H, list_elem_of_In. by eapply list_elem_of_lookup_2.
  - intros H x Hx%list_elem_of_In. apply list_elem_of_lookup in Hx as [i Hi]. by eapply H.
Qed.

(** C1.  After [CheckItem] returns (or raises), every item still has at
    most one radio child in the checked state, provided this held
    before the call; the handler may block any event. *)
Theorem CheckItem_at_most_one_flagged (s : CustomTreeCtrl) (p : path) (checked : Z) :
  at_most_one_flagged s -> at_most_one_flagged (after (CheckItem p checked) s).
Proof.
  rewrite !at_most_one_flagged_iff. fold (radio_inv s).
  fold (radio_inv (after (CheckItem p checked) s)).
  intros Hs. unfold after.
  destruct (item_at s p) as [it|] eqn:Hit.
  2: { unfold CheckItem. unfold bind at 1. unfold the_item. by rewrite Hit. }
  destruct (_type (data it) =? 0) eqn:Hn0.
  { unfold CheckItem. unfold bind at 1. unfold the_item. rewrite Hit.
    unfold GetType. by rewrite Hn0. }
  destruct (_type (data it) =? 2) eqn:Hn2.
  - (* a radio button *)
    apply Z.eqb_eq in Hn2.
    assert (Hsub : forall t, _anchor s = Some t -> radio_exclusive t = true).
    { intros t Ht. unfold radio_inv in Hs. by rewrite Ht in Hs. }
    destruct (negb (truthy checked) && truthy (_checked (data it))) eqn:Hearly.
    { by rewrite (CheckItem_radio_run s p it checked Hit Hn2), Hearly. }
    destruct (handler (vars s) (sent (vars s)) (mkTreeEvent wxEVT_TREE_ITEM_CHECKING p)) eqn:Hh.
    { by rewrite (CheckItem_radio_run s p it checked Hit Hn2), Hearly, Hh. }
    destruct (Check (data it) checked) as [d|e] eqn:HC.
    2: { by rewrite (CheckItem_radio_run s p it checked Hit Hn2), Hearly, Hh, HC. }
    assert (Hex1 : forall v, radio_exclusive it = true ->
              radio_exclusive (EnableChildren v (Item d (GetChildren it)) (truthy checked)).2 = true).
    { intros v Hex. apply EnableChildren_from_exclusive.
      by rewrite (radio_exclusive_data d (data it)), item_eta. }
    destruct (GetParent p) as [[parent index]|] eqn:Hp.
    + apply GetParent_Some in Hp. subst p.
      unfold item_at in Hit. destruct (_anchor s) as [t|] eqn:Ha; [|done]. simpl in Hit.
      rewrite GetItem_app in Hit.
      destruct (GetItem t parent) as [pit|] eqn:Hpit; [|done]. simpl in Hit.
      assert (GetChildren pit !! index = Some it) as Hit'
        by (by destruct (GetChildren pit !! index)).
      clear Hit. rename Hit' into Hit.
      assert (item_at s parent = Some pit) as Hpit' by (unfold item_at; by rewrite Ha).
      destruct (CheckItem_radio_effect s parent index pit it checked d
                  Hpit' Hit Hn2 Hearly Hh HC)
        as (v' & cs' & Hrun & _ & _ & Hlen & Hidx & Hsib).
      rewrite Hrun, Ha. unfold radio_inv. simpl.
      pose proof (GetItem_sub _ _ _ Hpit (Hsub t eq_refl)) as Hpex.
      assert (Hchild : forall n c, GetChildren pit !! n = Some c -> radio_exclusive c = true).
      { intros n c Hc. destruct pit as [dp csp]. simpl in *.
        apply andb_true_iff in Hpex as [_ Hall]. by apply (proj1 (forallb_lookup _ _) Hall n). }
      apply (radio_exclusive_alter _ parent t pit); [done|by apply Hsub| |done].
      simpl. apply andb_true_iff. split.
      * apply Nat.leb_le. apply (flagged_count_single index).
        intros n c' Hc' Hne.
        destruct (GetChildren pit !! n) as [c|] eqn:Hc.
        2: { apply lookup_ge_None in Hc. apply lookup_lt_Some in Hc'. lia. }
        specialize (Hsib n c c' Hne Hc Hc'). unfold Flagged.
        destruct (_type (data c) =? 2) eqn:Htc.
        -- destruct Hsib as (v2 & cd & -> & Hk & Hck).
           destruct (EnableChildren_from_frame c v2 cd false) as (_ & -> & _).
           rewrite IsChecked_checked, Hck. apply andb_false_r.
        -- subst c'. by rewrite Htc.
      * apply forallb_lookup. intros n c' Hc'.
        destruct (decide (n = index)) as [->|Hne].
        -- rewrite Hidx in Hc'. injection Hc' as <-. apply Hex1. by apply (Hchild index).
        -- destruct (GetChildren pit !! n) as [c|] eqn:Hc.
           2: { apply lookup_ge_None in Hc. apply lookup_lt_Some in Hc'. lia. }
           specialize (Hsib n c c' Hne Hc Hc').
           destruct (_type (data c) =? 2).
           ++ destruct Hsib as (v2 & cd & -> & _).
              apply EnableChildren_from_exclusive. by apply (Hchild n).
           ++ subst c'. by apply (Hchild n).
    + apply GetParent_None in Hp. subst p.
      rewrite (CheckItem_radio_run s [] it checked Hit Hn2), Hearly, Hh, HC.
      unfold CheckSameLevel. simpl. unfold radio_inv, item_at in *. simpl.
      destruct (_anchor s) as [t|]; [|done]. simpl in *. injection Hit as ->.
      by apply Hex1.
  - (* a check box *)
    apply Z.eqb_neq in Hn0, Hn2.
    unfold CheckItem. unfold bind at 1. unfold the_item. rewrite Hit.
    unfold GetType. rewrite (proj2 (Z.eqb_neq _ _) Hn0), (proj2 (Z.eqb_neq _ _) Hn2).
    unfold bind at 1. rewrite process_event_run.
    destruct (handler _ _ _); [done|].
    unfold bind at 1. unfold lift.
    destruct (if Is3State (data it) then _ else _) as [d|e] eqn:Hd; [|done].
    unfold bind at 1. unfold put_data. cbn [vars _anchor].
    assert (_type d = _type (data it)) as Htd.
    { unfold Set3StateValue, Check in Hd.
      destruct (Is3State (data it)); repeat case_match; by simplify_eq. }
    apply keeps_bind; [apply keeps_get_vars|intros v| ].
    + apply keeps_bind.
      { apply keeps_if; [|apply keeps_ret]. apply keeps_radio_on_item.
        intros v0 it0. unfold AutoCheckChild.
        destruct (AutoCheckChild_from_frame it0 (IsItemChecked (data it0)) v0 (data it0))
          as (_ & Hd0 & Hcs0).
        destruct (AutoCheckChild_from v0 (data it0) it0 _) as [[v' it'] e']. simpl in *.
        apply tree_rel_intro; [by rewrite Hd0|].
        eapply Forall2_tree_rel_mono; [apply auto_eq_flag|done]. }
      intros _. apply keeps_bind.
      { apply keeps_if.
        - apply keeps_bind; [apply keeps_the_item|]. intros it'.
          apply AutoCheckParent_up_exclusive.
        - apply keeps_if; [|apply keeps_ret]. apply keeps_radio_on_item.
          intros v0 it0. unfold AutoToggleChild.
          destruct (AutoToggleChild_from_frame it0 v0 (data it0)) as (_ & Hd0 & Hcs0).
          destruct (AutoToggleChild_from v0 (data it0) it0) as [[v' it'] e']. simpl in *.
          apply tree_rel_intro; [by rewrite Hd0|].
          eapply Forall2_tree_rel_mono; [apply auto_eq_flag|done]. }
      intros _. apply keeps_bind; [apply keeps_radio_process_event|]. intros _.
      apply keeps_ret.
    + unfold radio_inv, item_at in *. destruct (_anchor s) as [t|]; [|done]. simpl in *.
      apply (radio_exclusive_alter _ p t it); [done|done| |].
      * destruct it as [d0 cs0]. simpl. by apply (GetItem_sub t (Item d0 cs0) p).
      * intros _. unfold with_data, Flagged. simpl. rewrite Htd.
        by rewrite (proj2 (Z.eqb_neq _ _) Hn2).
Qed.

Lemma CheckItem_at_most_one_flagged_witness :
  at_most_one_flagged radio_example /\
  at_most_one_flagged (after (CheckItem [1%nat] 1) radio_example).
Proof.
  assert (H : at_most_one_flagged radio_example)
    by (apply at_most_one_flagged_iff; reflexivity).
  split; [exact H|].
  apply (CheckItem_at_most_one_flagged radio_example [1%nat] 1 H).
Defined.

(** The scenario of two radio siblings [A] and [B]: checking [B] while
    [A] is checked leaves [B] flagged and [A] not. *)
Example check_B_unchecks_A :
  (Flagged <$> data_at (after (CheckItem [1%nat] 1) radio_example) [0%nat],
   Flagged <$> data_at (after (CheckItem [1%nat] 1) radio_example) [1%nat])
  = (Some false, Some true).
Proof. reflexivity. Qed.

(** ** Enabling and disabling the subtree of a radio button *)

Lemma EnableItem_disable (v : CtrlVars) (d : ItemData) (torefresh : bool) :
  IsEnabled (EnableItem v d false torefresh).2 = false.
Proof.
  unfold EnableItem. destruct (eqb (IsEnabled d) false) eqn:He.
  { by apply eqb_prop in He. }
  destruct (EnableItem_check v d false torefresh) as (_ & _ & _ & Hh & _).
  unfold EnableItem in Hh. rewrite He in Hh.
  set (d1 := Enable _ false) in *.
  assert (_enabled d1 = false) as Hd1 by (unfold d1; by destruct (negb false && IsSelected d)).
  destruct torefresh.
  - destruct (CalculateSize_enabled v d1) as [Hen _]. unfold IsEnabled, IsHidden.
    rewrite Hen, Hd1. by destruct (_hidden _).
  - simpl. unfold IsEnabled. rewrite Hd1. by destruct (IsHidden d1).
Qed.

Lemma EnableItem_enable (v : CtrlVars) (d : ItemData) (torefresh : bool) :
  _enabled (EnableItem v d true torefresh).2 = true.
Proof.
  unfold EnableItem. destruct (eqb (IsEnabled d) true) eqn:He.
  { apply eqb_prop in He. unfold IsEnabled in He. simpl. by destruct (IsHidden d). }
  set (d1 := Enable _ true) in *.
  assert (_enabled d1 = true) as Hd1 by (unfold d1; by destruct (negb true && IsSelected d)).
  destruct torefresh; [|done].
  destruct (CalculateSize_enabled v d1) as [Hen _]. by rewrite Hen.
Qed.

(** The children of the result of [EnableChildren], one by one. *)
Lemma EnableChildren_from_child (v : CtrlVars) (d d0 : ItemData)
    (cs : list GenericTreeItem) (enable : bool) (i : nat) (c c' : GenericTreeItem) :
  ((GetType d =? 2) && enable && negb (truthy (IsChecked d))) = false ->
  cs !! i = Some c ->
  GetChildren (EnableChildren_from v d (Item d0 cs) enable).2 !! i = Some c' ->
  exists v1 v2,
    c' = (EnableChildren_from v2 (EnableItem v1 (data c) enable (IsExpanded d)).2 c enable).2.
Proof.
  intros Hgo Hc Hc'. simpl in Hc'. rewrite Hgo in Hc'.
  set (body := fun (v : CtrlVars) (_ : nat) (child : GenericTreeItem) => _) in Hc'.
  pose proof (for_children_ran body
    (fun _ c c' => exists v1 v2,
       c' = (EnableChildren_from v2 (EnableItem v1 (data c) enable (IsExpanded d)).2 c enable).2)
    cs v 0%nat) as Hran.
  destruct (for_children body v 0%nat cs) as [[v' cs'] stop]. simpl in Hc'.
  apply Hran with (i := i); [| |done|done].
  - intros s' k c0. unfold body.
    destruct (EnableItem s' (data c0) enable (IsExpanded d)) as [v1 cd]. simpl.
    by destruct (EnableChildren_from v1 cd c0 enable).
  - intros j cj s' Hj. unfold body. exists s'.
    destruct (EnableItem s' (data cj) enable (IsExpanded d)) as [v1 cd]. simpl.
    exists v1. by destruct (EnableChildren_from v1 cd cj enable).
Qed.

(** [EnableChildren(item, False)]: every item below reports that it is
    disabled. *)
Lemma EnableChildren_from_disables (item : GenericTreeItem) :
  forall (v : CtrlVars) (d : ItemData) (r : path) (it' : GenericTreeItem),
    r <> [] ->
    GetItem (EnableChildren_from v d item false).2 r = Some it' ->
    IsEnabled (data it') = false.
Proof.
  induction item as [d0 cs IH] using GenericTreeItem_ind.
  intros v d r it' Hr Hit'. destruct r as [|i r]; [done|]. cbn [GetItem] in Hit'.
  destruct (GetChildren (EnableChildren_from v d (Item d0 cs) false).2 !! i) as [c'|] eqn:Hc';
    [|done].
  destruct (EnableChildren_from_frame (Item d0 cs) v d false) as (_ & _ & Hcs).
  destruct (Forall2_lookup_r _ _ _ _ _ Hcs Hc') as (c & Hc & _). simpl in Hc.
  destruct (EnableChildren_from_child v d d0 cs false i c c') as (v1 & v2 & ->);
    [by rewrite andb_false_r|done|done|].
  destruct r as [|j r].
  - simpl in Hit'. injection Hit' as <-.
    destruct (EnableChildren_from_frame c v2 (EnableItem v1 (data c) false (IsExpanded d)).2 false)
      as (_ & -> & _).
    apply EnableItem_disable.
  - rewrite Forall_lookup in IH.
    exact (IH i c Hc v2 _ (j :: r) it' ltac:(done) Hit').
Qed.

(** [EnableChildren(item, True)] on an item that is not an unchecked radio
    button: every item below has its enabled flag set, except below an
    unchecked radio button, where nothing changes. *)
Lemma EnableChildren_from_enables (item : GenericTreeItem) :
  forall (v : CtrlVars) (d : ItemData) (r : path) (it0 it' : GenericTreeItem),
    r <> [] ->
    GetItem item r = Some it0 ->
    GetItem (EnableChildren_from v d item true).2 r = Some it' ->
    if unchecked_radio d then it' = it0
    else if under_unchecked_radio item r then it' = it0
    else _enabled (data it') = true.
Proof.
  induction item as [d0 cs IH] using GenericTreeItem_ind.
  intros v d r it0 it' Hr Hit0 Hit'. destruct r as [|i r]; [done|].
  unfold unchecked_radio.
  destruct ((GetType d =? 2) && negb (truthy (IsChecked d))) eqn:Hroot.
  { simpl in Hit'. rewrite andb_true_r in Hit'. rewrite Hroot in Hit'. simpl in *.
    congruence. }
  cbn [GetItem GetChildren] in Hit0, Hit'. cbn [under_unchecked_radio GetChildren].
  destruct (cs !! i) as [c|] eqn:Hc; [|done].
  destruct (GetChildren (EnableChildren_from v d (Item d0 cs) true).2 !! i) as [c'|] eqn:Hc';
    [|done].
  destruct (EnableChildren_from_child v d d0 cs true i c c') as (v1 & v2 & ->);
    [by rewrite andb_true_r|done|done|].
  set (cd := (EnableItem v1 (data c) true (IsExpanded d)).2) in *.
  destruct r as [|j r].
  - simpl in Hit0, Hit'. injection Hit' as <-.
    destruct (EnableChildren_from_frame c v2 cd true) as (_ & -> & _).
    apply EnableItem_enable.
  - rewrite Forall_lookup in IH.
    specialize (IH i c Hc v2 cd (j :: r) it0 it' ltac:(done) Hit0 Hit').
    assert (unchecked_radio cd = unchecked_radio (data c)) as Hu.
    { destruct (EnableItem_check v1 (data c) true (IsExpanded d)) as (Ht & _ & Hk & _).
      unfold unchecked_radio, GetType. rewrite !IsChecked_checked. fold cd in Ht, Hk.
      by rewrite Ht, Hk. }
    rewrite Hu in IH. by destruct (unchecked_radio (data c)).
Qed.

Lemma item_at_alter_below (s : CustomTreeCtrl) (v' : CtrlVars) (parent q : path)
    (pit X : GenericTreeItem) :
  item_at s parent = Some pit ->
  item_at (mkCtrl v' (alter_item (fun _ => X) parent <$> _anchor s)) (parent ++ q)
  = GetItem X q.
Proof.
  unfold item_at. destruct (_anchor s) as [t|]; simpl; [|done]. intros Hp.
  by rewrite GetItem_app, GetItem_alter_item, Hp.
Qed.

Lemma GetItem_children (d : ItemData) (it : GenericTreeItem) (r : path) :
  r <> [] -> GetItem (Item d (GetChildren it)) r = GetItem it r.
Proof. by destruct r. Qed.

Lemma under_unchecked_radio_children (d : ItemData) (it : GenericTreeItem) (r : path) :
  under_unchecked_radio (Item d (GetChildren it)) r = under_unchecked_radio it r.
Proof. by destruct r. Qed.

Lemma IsEnabled_flag (d : ItemData) :
  _enabled d = true -> IsItemEnabled d = negb (IsHidden d).
Proof. unfold IsItemEnabled, IsEnabled. intros ->. by destruct (IsHidden d). Qed.

(** The subtrees of a radio button and of its radio siblings after
    [CheckItem], when the ``checking'' event is not blocked. *)
Lemma CheckItem_radio_subtrees (s : CustomTreeCtrl) (parent : path) (index : nat)
    (pit it : GenericTreeItem) :
  item_at s parent = Some pit -> GetChildren pit !! index = Some it ->
  _type (data it) = 2 ->
  handler (vars s) (sent (vars s))
    (mkTreeEvent wxEVT_TREE_ITEM_CHECKING (parent ++ [index])) = false ->
  (forall n c r d',
      n <> index -> GetChildren pit !! n = Some c -> _type (data c) = 2 -> r <> [] ->
      data_at (after (CheckItem (parent ++ [index]) 1) s) (parent ++ [n] ++ r) = Some d' ->
      IsItemEnabled d' = false) /\
  (forall r it0 it',
      r <> [] -> GetItem it r = Some it0 ->
      item_at (after (CheckItem (parent ++ [index]) 1) s) ((parent ++ [index]) ++ r) = Some it' ->
      if under_unchecked_radio it r then it' = it0
      else IsItemEnabled (data it') = negb (IsHidden (data it'))) /\
  (forall r d',
      _checked (data it) = 0 -> r <> [] ->
      data_at (after (CheckItem (parent ++ [index]) 0) s) ((parent ++ [index]) ++ r) = Some d' ->
      IsItemEnabled d' = false).
Proof.
  intros Hpit Hit Hty Hh.
  destruct (CheckItem_radio_effect s parent index pit it 1 (set_checked (data it) 1)
              Hpit Hit Hty eq_refl Hh eq_refl)
    as (v' & cs' & Hrun & _ & _ & Hlen & Hidx & Hsib).
  split; [|split].
  - intros n c r d' Hne Hc Htc Hr Hd'. unfold after, data_at in Hd'.
    rewrite Hrun in Hd'. cbn [fst] in Hd'.
    rewrite (item_at_alter_below s v' parent ([n] ++ r) pit _ Hpit) in Hd'.
    cbn [app GetItem GetChildren] in Hd'.
    destruct (cs' !! n) as [c'|] eqn:Hc'; [|done].
    specialize (Hsib n c c' Hne Hc Hc'). rewrite Htc in Hsib. simpl in Hsib.
    destruct Hsib as (v2 & cd & -> & _).
    destruct (GetItem _ r) as [it'|] eqn:Hit'; [|done]. injection Hd' as <-.
    by apply (EnableChildren_from_disables c v2 cd r it').
  - intros r it0 it' Hr Hit0 Hit'. unfold after in Hit'. rewrite Hrun in Hit'.
    cbn [fst] in Hit'. rewrite <- app_assoc in Hit'.
    rewrite (item_at_alter_below s v' parent ([index] ++ r) pit _ Hpit) in Hit'.
    cbn [app GetItem GetChildren] in Hit'. rewrite Hidx in Hit'.
    unfold EnableChildren in Hit'. cbn [data] in Hit'. change (truthy 1) with true in Hit'.
    match type of Hit' with
    | GetItem (EnableChildren_from ?v1 _ _ _).2 _ = _ =>
        pose proof (EnableChildren_from_enables
                      (Item (set_checked (data it) 1) (GetChildren it))
                      v1 (set_checked (data it) 1) r it0 it' Hr) as He
    end.
    rewrite GetItem_children in He by done. specialize (He Hit0 Hit').
    rewrite under_unchecked_radio_children in He.
    assert (unchecked_radio (set_checked (data it) 1) = false) as Hu.
    { unfold unchecked_radio. rewrite IsChecked_checked. simpl. apply andb_false_r. }
    rewrite Hu in He. destruct (under_unchecked_radio it r); [done|].
    by apply IsEnabled_flag.
  - intros r d' Hck Hr Hd'.
    destruct (CheckItem_radio_effect s parent index pit it 0 (set_checked (data it) 0)
                Hpit Hit Hty) as (v0 & cs0 & Hrun0 & _ & _ & _ & Hidx0 & _);
      [by rewrite Hck|done|done|].
    unfold after, data_at in Hd'. rewrite Hrun0 in Hd'. cbn [fst] in Hd'.
    rewrite <- app_assoc in Hd'.
    rewrite (item_at_alter_below s v0 parent ([index] ++ r) pit _ Hpit) in Hd'.
    cbn [app GetItem GetChildren] in Hd'. rewrite Hidx0 in Hd'.
    destruct (GetItem _ r) as [it'|] eqn:Hit'; [|done]. injection Hd' as <-.
    unfold EnableChildren in Hit'. change (truthy 0) with false in Hit'.
    by eapply EnableChildren_from_disables.
Qed.

(** C4 (as amended).  When the ``checking'' event of a radio button [p]
    is not blocked:
    - checking [p] leaves every item below each radio sibling of [p]
      (these siblings are now unchecked) reporting that it is disabled;
    - checking [p] enables every item below [p], a hidden item still
      reporting that it is disabled, except below a radio button that is
      not checked, where nothing changes;
    - [CheckItem(p, False)] on an unchecked [p] leaves every item below
      [p] reporting that it is disabled. *)
Theorem radio_subtree_enabling (s : CustomTreeCtrl) (parent : path) (index : nat)
    (pit it : GenericTreeItem) :
  item_at s parent = Some pit -> GetChildren pit !! index = Some it ->
  _type (data it) = 2 ->
  handler (vars s) (sent (vars s))
    (mkTreeEvent wxEVT_TREE_ITEM_CHECKING (parent ++ [index])) = false ->
  (forall n c r d',
      n <> index -> GetChildren pit !! n = Some c -> _type (data c) = 2 -> r <> [] ->
      data_at (after (CheckItem (parent ++ [index]) 1) s) (parent ++ [n] ++ r) = Some d' ->
      IsItemEnabled d' = false) /\
  (forall r it0 it',
      r <> [] -> GetItem it r = Some it0 ->
      item_at (after (CheckItem (parent ++ [index]) 1) s) ((parent ++ [index]) ++ r) = Some it' ->
      if under_unchecked_radio it r then it' = it0
      else IsItemEnabled (data it') = negb (IsHidden (data it'))) /\
  (forall r d',
      _checked (data it) = 0 -> r <> [] ->
      data_at (after (CheckItem (parent ++ [index]) 0) s) ((parent ++ [index]) ++ r) = Some d' ->
      IsItemEnabled d' = false).
Proof. apply CheckItem_radio_subtrees. Qed.

Lemma radio_subtree_enabling_witness :
  (_type <$> data_at radio_example [1%nat] = Some 2 /\
   handler (vars radio_example) (sent (vars radio_example))
     (mkTreeEvent wxEVT_TREE_ITEM_CHECKING [1%nat]) = false) /\
  IsItemEnabled <$> data_at (after (CheckItem [1%nat] 1) radio_example) [0%nat; 0%nat]
  = Some false /\
  IsItemEnabled <$> data_at (after (CheckItem [1%nat] 1) radio_example) [1%nat; 0%nat]
  = Some true.
Proof.
  split; [split; reflexivity|].
  destruct (radio_subtree_enabling radio_example [] 1%nat
              (new_item 0
                 [Item (set_checked (data (new_item 2 [])) 1) [new_item 0 []];
                  new_item 2 [new_item 0 []];
                  new_item 1 []])
              (new_item 2 [new_item 0 []])
              eq_refl eq_refl eq_refl eq_refl) as (H1 & H2 & _).
  split.
  - destruct (data_at (after (CheckItem [1%nat] 1) radio_example) [0%nat; 0%nat])
      as [d'|] eqn:Hd; [|vm_compute in Hd; discriminate].
    simpl. f_equal.
    exact (H1 0%nat _ [0%nat] d' ltac:(lia) eq_refl eq_refl ltac:(discriminate) Hd).
  - destruct (item_at (after (CheckItem [1%nat] 1) radio_example) ([1%nat] ++ [0%nat]))
      as [it'|] eqn:Hit; [|vm_compute in Hit; discriminate].
    pose proof (H2 [0%nat] _ it' ltac:(discriminate) eq_refl Hit) as H.
    simpl in H. unfold data_at. simpl app in Hit. rewrite Hit. simpl. f_equal.
    rewrite H. vm_compute in Hit. by injection Hit as <-.
Defined.

(** A hidden child of a radio button still reports that it is disabled
    after the radio button has been checked, although no unchecked radio
    button lies between the two. *)
Lemma recheck_hidden_child_reports_disabled :
  _checked <$> data_at (after (CheckItem [0%nat] 1) hidden_child_example) [0%nat] = Some 1 /\
  under_unchecked_radio radio_with_hidden_child [0%nat] = false /\
  IsItemEnabled <$> data_at (after (CheckItem [0%nat] 1) hidden_child_example) [0%nat; 0%nat]
  = Some false /\
  _enabled <$> data_at (after (CheckItem [0%nat] 1) hidden_child_example) [0%nat; 0%nat]
  = Some true.
Proof. repeat split; reflexivity. Qed.

(** ** The order of a radio check *)

Lemma item_at_child (s : CustomTreeCtrl) (parent : path) (index : nat)
    (pit it : GenericTreeItem) :
  item_at s parent = Some pit -> GetChildren pit !! index = Some it ->
  item_at s (parent ++ [index]) = Some it.
Proof.
  unfold item_at. destruct (_anchor s) as [t|]; simpl; [|done]. intros Hp Hi.
  rewrite GetItem_app, Hp. simpl. by rewrite Hi.
Qed.

Lemma item_at_alter_sibling (s : CustomTreeCtrl) (v' : CtrlVars) (parent : path)
    (index n : nat) (X : GenericTreeItem) :
  n <> index ->
  item_at (mkCtrl v' (alter_item (fun _ => X) (parent ++ [index]) <$> _anchor s))
    (parent ++ [n])
  = item_at s (parent ++ [n]).
Proof.
  intros Hne. unfold item_at. destruct (_anchor s) as [t|]; simpl; [|done].
  rewrite alter_item_app, !GetItem_app, GetItem_alter_item.
  destruct (GetItem t parent) as [pit|]; simpl; [|done].
  by rewrite list_lookup_alter_ne.
Qed.

Lemma item_at_alter_item (f : GenericTreeItem -> GenericTreeItem) (p : path)
    (v' : CtrlVars) (s : CustomTreeCtrl) :
  item_at (mkCtrl v' (alter_item f p <$> _anchor s)) p = f <$> item_at s p.
Proof.
  unfold item_at. destruct (_anchor s) as [t|]; simpl; [|done]. apply GetItem_alter_item.
Qed.

(** C2 (as amended).  [CheckItem(p, True)] on a radio button [p] sends one
    ``checking'' event, for [p] itself.  When the handler blocks it, the
    tree is unchanged.  Otherwise [p] is checked first, its siblings being
    still untouched, and a ``checked'' event for [p] is sent; only then
    every radio sibling is unchecked, without any event and whatever the
    handler would answer; the items below the siblings then report that
    they are disabled, the items below [p] are enabled (a hidden item
    still reporting that it is disabled) except below an unchecked radio
    button. *)
Theorem radio_check_order (s : CustomTreeCtrl) (parent : path) (index : nat)
    (pit it : GenericTreeItem) :
  item_at s parent = Some pit -> GetChildren pit !! index = Some it ->
  _type (data it) = 2 ->
  let p := parent ++ [index] in
  let checking := mkTreeEvent wxEVT_TREE_ITEM_CHECKING p in
  let checked := mkTreeEvent wxEVT_TREE_ITEM_CHECKED p in
  let s1 := after (UnCheckRadioParent p 1) s in
  let s' := after (CheckItem p 1) s in
  if handler (vars s) (sent (vars s)) checking
  then _anchor s' = _anchor s /\ sent (vars s') = sent (vars s) ++ [checking]
  else
    CheckItem p 1 s = CheckSameLevel p 0 s1 /\
    _checked <$> data_at s1 p = Some 1 /\
    (forall n, n <> index -> item_at s1 (parent ++ [n]) = item_at s (parent ++ [n])) /\
    sent (vars s1) = sent (vars s) ++ [checking; checked] /\
    sent (vars s') = sent (vars s1) /\
    _checked <$> data_at s' p = Some 1 /\
    (forall n c, n <> index -> GetChildren pit !! n = Some c ->
       _checked <$> data_at s' (parent ++ [n])
       = Some (if _type (data c) =? 2 then 0 else _checked (data c))) /\
    (forall n c r d',
       n <> index -> GetChildren pit !! n = Some c -> _type (data c) = 2 -> r <> [] ->
       data_at s' (parent ++ [n] ++ r) = Some d' -> IsItemEnabled d' = false) /\
    (forall r it0 it',
       r <> [] -> GetItem it r = Some it0 -> item_at s' (p ++ r) = Some it' ->
       if under_unchecked_radio it r then it' = it0
       else IsItemEnabled (data it') = negb (IsHidden (data it'))).
Proof.
  intros Hpit Hit Hty p checking checked s1 s'.
  pose proof (item_at_child s parent index pit it Hpit Hit) as Hitp. fold p in Hitp.
  destruct (handler (vars s) (sent (vars s)) checking) eqn:Hh.
  { unfold s', after. rewrite (CheckItem_radio_run s p it 1 Hitp Hty).
    cbv zeta. fold checking. rewrite Hh. by simpl. }
  assert (Hs1 : UnCheckRadioParent p 1 s =
     let v1 := set_sent (vars s) (sent (vars s) ++ [checking]) in
     let r := EnableChildren v1 (Item (set_checked (data it) 1) (GetChildren it)) true in
     (mkCtrl (set_sent r.1 (sent r.1 ++ [checked]))
        (alter_item (fun _ => r.2) p <$> _anchor s), Ok true)).
  { rewrite (UnCheckRadioParent_run s p it 1 Hitp). cbv zeta. fold checking. by rewrite Hh. }
  cbv zeta in Hs1.
  destruct (CheckItem_radio_effect s parent index pit it 1 (set_checked (data it) 1)
              Hpit Hit Hty eq_refl Hh eq_refl)
    as (v' & cs' & Hrun & _ & Hsent & Hlen & Hidx & Hsib).
  fold p in Hrun, Hsent, Hidx. fold checking in Hsent, Hidx. fold checked in Hsent.
  change (truthy 1) with true in Hidx.
  destruct (CheckItem_radio_subtrees s parent index pit it Hpit Hit Hty Hh)
    as (Hsub1 & Hsub2 & _).
  pose proof (EnableChildren_from_frame (Item (set_checked (data it) 1) (GetChildren it))
                (set_sent (vars s) (sent (vars s) ++ [checking]))
                (set_checked (data it) 1) true) as (He1 & Hd1 & _).
  change (EnableChildren_from ?v (set_checked (data it) 1) ?i true)
    with (EnableChildren v i true) in He1, Hd1.
  assert (Hsent1 : sent (vars s1) = sent (vars s) ++ [checking; checked]).
  { unfold s1, after. rewrite Hs1. cbn [fst vars sent set_sent].
    rewrite (env_eq_sent _ _ He1). cbn [sent set_sent]. by rewrite <- app_assoc. }
  split; [|split; [|split; [|split; [|split; [|split; [|split; [|split]]]]]]].
  - unfold s1, after. rewrite Hs1. cbn [fst].
    rewrite (CheckItem_radio_run s p it 1 Hitp Hty). cbv zeta. fold checking.
    rewrite Hh. by simpl.
  - unfold s1, after, data_at. rewrite Hs1. cbn [fst].
    rewrite item_at_alter_item, Hitp. simpl. by rewrite Hd1.
  - intros n Hne. unfold s1, after. rewrite Hs1. cbn [fst].
    by apply item_at_alter_sibling.
  - exact Hsent1.
  - unfold s', after. rewrite Hrun. cbn [fst vars]. by rewrite Hsent, Hsent1.
  - unfold s', after, data_at. rewrite Hrun. cbn [fst]. unfold p.
    rewrite (item_at_alter_below s v' parent [index] pit _ Hpit).
    cbn [GetItem GetChildren]. rewrite Hidx. cbn [fmap option_fmap option_map].
    by rewrite Hd1.
  - intros n c Hne Hc. unfold s', after, data_at. rewrite Hrun. cbn [fst].
    rewrite (item_at_alter_below s v' parent [n] pit _ Hpit).
    cbn [GetItem GetChildren].
    destruct (cs' !! n) as [c'|] eqn:Hc'.
    2: { apply lookup_ge_None in Hc'. apply lookup_lt_Some in Hc. lia. }
    specialize (Hsib n c c' Hne Hc Hc'). simpl.
    destruct (_type (data c) =? 2).
    + destruct Hsib as (v2 & cd & -> & _ & Hck).
      destruct (EnableChildren_from_frame c v2 cd false) as (_ & -> & _). by rewrite Hck.
    + by subst c'.
  - exact Hsub1.
  - exact Hsub2.
Qed.

Lemma radio_check_order_witness :
  (item_at radio_example [] = Some radio_example_root /\
   GetChildren radio_example_root !! 1%nat = Some (new_item 2 [new_item 0 []])) /\
  sent (vars (after (CheckItem [1%nat] 1) radio_example))
  = [mkTreeEvent wxEVT_TREE_ITEM_CHECKING [1%nat];
     mkTreeEvent wxEVT_TREE_ITEM_CHECKED [1%nat]] /\
  _checked <$> data_at (after (CheckItem [1%nat] 1) radio_example) [1%nat] = Some 1 /\
  _checked <$> data_at (after (CheckItem [1%nat] 1) radio_example) [0%nat] = Some 0.
Proof.
  split; [split; reflexivity|].
  pose proof (radio_check_order radio_example [] 1%nat radio_example_root
                (new_item 2 [new_item 0 []]) eq_refl eq_refl eq_refl) as H.
  destruct H as (_ & _ & _ & H4 & H5 & H6 & H7 & _).
  split; [|split].
  - exact (eq_trans H5 H4).
  - exact H6.
  - exact (H7 0%nat _ ltac:(lia) eq_refl).
Defined.

(** The sibling [[1]] is unchecked although the handler blocks each of its
    events: no event about it is sent at all. *)
Lemma peer_uncheck_not_cancelable :
  handler (vars veto_example) (sent (vars veto_example))
    (mkTreeEvent wxEVT_TREE_ITEM_CHECKING [1%nat]) = true /\
  handler (vars veto_example) [mkTreeEvent wxEVT_TREE_ITEM_CHECKING [0%nat]]
    (mkTreeEvent wxEVT_TREE_ITEM_CHECKING [1%nat]) = true /\
  _checked <$> data_at veto_example [1%nat] = Some 1 /\
  _checked <$> data_at (after (CheckItem [0%nat] 1) veto_example) [1%nat] = Some 0 /\
  sent (vars (after (CheckItem [0%nat] 1) veto_example))
  = [mkTreeEvent wxEVT_TREE_ITEM_CHECKING [0%nat];
     mkTreeEvent wxEVT_TREE_ITEM_CHECKED [0%nat]].
Proof. repeat split; reflexivity. Qed.

(** ** Hit testing *)

Lemma GenericTreeItem_HitTest_shown (item : GenericTreeItem) :
  forall (v : CtrlVars) (point : Z * Z) (here : path) (flags : Z) (level : nat)
         (q : path) (it : GenericTreeItem) (f : Z),
    GenericTreeItem_HitTest v point here item flags level = (Some (q, it), f) ->
    exists r, q = here ++ r /\ GetItem item r = Some it /\ path_shown item r = true.
Proof.
  induction item as [d cs IH] using GenericTreeItem_ind.
  intros v point here flags level q it f H. simpl in H.
  destruct (IsHidden d) eqn:Hh; [done|].
  set (loop := HitTest_children _) in H.
  assert (Hloop : forall k n fl,
            (forall i c, k !! i = Some c -> cs !! (n + i)%nat = Some c) ->
            loop n k fl = (Some (q, it), f) ->
            exists r, q = here ++ r /\ GetItem (Item d cs) r = Some it /\
                      path_shown (Item d cs) r = true).
  { induction k as [|c k IHk]; intros n fl Hk Hl; [done|]. simpl in Hl.
    destruct (GenericTreeItem_HitTest v point (here ++ [n]) c fl (S level))
      as [[[q' it']|] fl'] eqn:Hc.
    - injection Hl as -> -> ->.
      pose proof (Hk 0%nat c eq_refl) as Hn. rewrite Nat.add_0_r in Hn.
      rewrite Forall_lookup in IH.
      destruct (IH n c Hn _ _ _ _ _ _ _ _ Hc) as (r & -> & Hr & Hs).
      exists (n :: r). rewrite <- app_assoc. split; [done|]. simpl.
      rewrite Hn, Hh. by split.
    - apply (IHk (S n) fl'); [|done].
      intros i c' Hi. replace (S n + i)%nat with (n + S i)%nat by lia. by apply Hk. }
  assert (Hall : forall fl, loop 0%nat cs fl = (Some (q, it), f) ->
            exists r, q = here ++ r /\ GetItem (Item d cs) r = Some it /\
                      path_shown (Item d cs) r = true).
  { intros fl. by apply Hloop. }
  destruct (negb ((level =? 0)%nat && HasAGWFlag v TR_HIDE_ROOT)); [|by eapply Hall].
  destruct ((_y d <? point.2) && (point.2 <? _y d + GetLineHeight v d)).
  - injection H as <- <- <-. exists []. rewrite app_nil_r. simpl. by rewrite Hh.
  - destruct (negb (IsExpanded d)); [done|]. by eapply Hall.
Qed.

Lemma path_shown_prefix (t it : GenericTreeItem) (p k : path) :
  path_shown t (p ++ k) = true -> GetItem t p = Some it -> IsHidden (data it) = false.
Proof.
  revert t. induction p as [|i p IH]; intros t Hs Hp; simpl in *.
  - injection Hp as <-. destruct k; simpl in Hs;
      apply andb_true_iff in Hs as [Hs _]; by apply negb_true_iff.
  - apply andb_true_iff in Hs as [_ Hs].
    destruct (GetChildren t !! i) as [c|]; [|done]. by eapply IH.
Qed.

(** The item [HitTest] returns is in the tree, enabled, and neither it
    nor any of its ancestors is hidden. *)
Lemma HitTest_Some (s : CustomTreeCtrl) (point : Z * Z) (q : path) (flags : Z) :
  HitTest s point = (Some q, flags) ->
  exists anchor it,
    _anchor s = Some anchor /\ GetItem anchor q = Some it /\
    path_shown anchor q = true /\ IsItemEnabled (data it) = true.
Proof.
  unfold HitTest. destruct (GetSize (vars s)) as [w h].
  destruct (truthy _); [done|].
  destruct (_anchor s) as [anchor|]; [|done].
  destruct (GenericTreeItem_HitTest _ _ [] anchor _ 0%nat) as [[[p it]|] fl] eqn:Hhit; [|done].
  destruct (negb (IsItemEnabled (data it))) eqn:He; [done|].
  intros [= <- <-].
  destruct (GenericTreeItem_HitTest_shown _ _ _ _ _ _ _ _ _ Hhit) as (r & -> & Hr & Hs).
  exists anchor, it. simpl. by apply negb_false_iff in He.
Qed.

(** For a point beyond the size of the window, [HitTest] returns no
    item, together with flags that are not zero and are made of the
    directional flags of the sides the point lies beyond. *)
Theorem HitTest_outside (s : CustomTreeCtrl) (point : Z * Z) :
  beyond_size (vars s) point ->
  HitTest s point = (None, direction_flags (vars s) point) /\
  direction_flags (vars s) point <> 0.
Proof.
  unfold beyond_size, HitTest, direction_flags.
  destruct (GetSize (vars s)) as [w h]. simpl. intros Hout.
  destruct (point.1 <? 0) eqn:H1; destruct (w <? point.1) eqn:H2;
    destruct (point.2 <? 0) eqn:H3; destruct (h <? point.2) eqn:H4;
    try (split; [reflexivity|discriminate]).
  apply Z.ltb_ge in H1, H2, H3, H4. lia.
Qed.

Lemma HitTest_outside_witness :
  beyond_size (vars radio_example) (-1, 500) /\
  HitTest radio_example (-1, 500)
  = (None, Z.lor TREE_HITTEST_TOLEFT TREE_HITTEST_BELOW).
Proof.
  assert (H : beyond_size (vars radio_example) (-1, 500)) by (left; reflexivity).
  split; [exact H|].
  exact (proj1 (HitTest_outside radio_example (-1, 500) H)).
Defined.

(** C5.  The claim fails on the code.  [HitTest] tests the point against
    [GetSize()], the size of the whole window, not against the client
    area, and with strict comparisons.  For a point right of the client
    area but within the window (on the vertical scroll bar), and for a
    point on the right edge of a window without scroll bars, both outside
    the client rectangle, it returns the root item, whose row the point
    is in, and flags that hold no directional flag. *)
Lemma HitTest_outside_client_rect :
  let directional :=
    Z.lor (Z.lor TREE_HITTEST_TOLEFT TREE_HITTEST_TORIGHT)
          (Z.lor TREE_HITTEST_ABOVE TREE_HITTEST_BELOW) in
  let found := Z.lor TREE_HITTEST_ONITEMRIGHT TREE_HITTEST_ONITEMLOWERPART in
  in_client_rect (vars scrollbar_example) (390, 5) = false /\
  HitTest scrollbar_example (390, 5) = (Some [], found) /\
  in_client_rect (vars radio_example) (400, 5) = false /\
  HitTest radio_example (400, 5) = (Some [], found) /\
  Z.land found directional = 0.
Proof. vm_compute. repeat split; reflexivity. Qed.

(** C10.  When the item found under the point is disabled, [HitTest]
    returns no item and the flags computed for that item; an item that
    [HitTest] returns is never disabled. *)
Theorem HitTest_disabled (s : CustomTreeCtrl) (point : Z * Z) :
  (forall anchor q it flags,
     ~ beyond_size (vars s) point ->
     _anchor s = Some anchor ->
     GenericTreeItem_HitTest (vars s)
       (CalcUnscrolledPosition (vars s) point.1 point.2) [] anchor 0 0%nat
     = (Some (q, it), flags) ->
     IsItemEnabled (data it) = false ->
     HitTest s point = (None, flags)) /\
  (forall q flags,
     HitTest s point = (Some q, flags) ->
     IsItemEnabled <$> data_at s q = Some true).
Proof.
  split.
  - intros anchor q it flags Hin Ha Hhit Hdis. unfold beyond_size in Hin.
    unfold HitTest. destruct (GetSize (vars s)) as [w h]. simpl in Hin.
    assert ((point.1 <? 0) = false) as -> by (apply Z.ltb_ge; lia).
    assert ((w <? point.1) = false) as -> by (apply Z.ltb_ge; lia).
    assert ((point.2 <? 0) = false) as -> by (apply Z.ltb_ge; lia).
    assert ((h <? point.2) = false) as -> by (apply Z.ltb_ge; lia).
    simpl. rewrite Ha, Hhit, Hdis. done.
  - intros q flags H. destruct (HitTest_Some s point q flags H) as (anchor & it & Ha & Hq & _ & He).
    unfold data_at, item_at. rewrite Ha. simpl. rewrite Hq. simpl. by rewrite He.
Qed.

Lemma HitTest_disabled_witness :
  HitTest disabled_root_example (5, 5) = (None, 4224).
Proof.
  refine (proj1 (HitTest_disabled disabled_root_example (5, 5)) _ [] _ 4224 _ eq_refl _ _).
  - unfold beyond_size; vm_compute; intros [H|[H|[H|H]]]; discriminate H.
  - vm_compute; reflexivity.
  - vm_compute; reflexivity.
Defined.

(** ** Layout, freezing and thawing *)

Lemma layout_frame_refl (v : CtrlVars) : layout_frame v v.
Proof. split; [apply env_eq_refl|done]. Qed.

Lemma layout_frame_trans (v1 v2 v3 : CtrlVars) :
  layout_frame v1 v2 -> layout_frame v2 v3 -> layout_frame v1 v3.
Proof.
  intros [H1 D1] [H2 D2]. split; [by eapply env_eq_trans|].
  intros Hf. rewrite D2, D1; [done|done|].
  by rewrite (env_eq_freezeCount _ _ H1).
Qed.

Lemma CalculateSize_frame (v : CtrlVars) (d : ItemData) :
  layout_frame v (CalculateSize v d).1.
Proof.
  split; [apply CalculateSize_env|]. intros Hf. unfold CalculateSize. rewrite Hf.
  destruct (IsHidden d); [done|].
  destruct (GetFullMultiLineTextExtent v _ _ _) as [text_w text_h].
  destruct (if negb (GetCurrentImage d =? _NO_IMAGE) then _ else _) as [image_w image_h].
  simpl. by case_match.
Qed.

Lemma CalculateLevel_frame (item : GenericTreeItem) :
  forall (v : CtrlVars) (level y : Z),
    layout_frame v (CalculateLevel v item level y).1.1.
Proof.
  induction item as [d cs IH] using GenericTreeItem_ind. intros v level y.
  assert (Hch : forall v1 d1 y1,
    layout_frame v1
      (let '(vy, cs', _) :=
         for_children (R := Empty_set)
           (fun (vy : CtrlVars * Z) (_ : nat) (child : GenericTreeItem) =>
              let '(v2, child1, y2) := CalculateLevel vy.1 child (level + 1) vy.2 in
              ((v2, y2), child1, None))
           (v1, y1) 0%nat cs in
       (vy.1, Item d1 cs', vy.2)).1.1).
  { intros v1 d1 y1.
    set (body := fun (vy : CtrlVars * Z) (_ : nat) (child : GenericTreeItem) => _).
    pose proof (for_children_state body (fun vy => layout_frame v1 vy.1) cs (v1, y1) 0%nat) as H.
    destruct (for_children body (v1, y1) 0%nat cs) as [[vy cs'] stop]. simpl in *.
    apply H; [|apply layout_frame_refl].
    eapply Forall_impl; [exact IH|]. intros c Hc [v2 y2] k Hs. unfold body. simpl in *.
    specialize (Hc v2 (level + 1) y2).
    destruct (CalculateLevel v2 c (level + 1) y2) as [[v3 c3] y3]. simpl in *.
    by eapply layout_frame_trans. }
  simpl. destruct (negb (HasAGWFlag v TR_HIDE_ROOT) || negb (level =? 0)); [|apply Hch].
  pose proof (CalculateSize_frame v d) as Hs.
  destruct (CalculateSize v d) as [v1 d1]. simpl in Hs.
  case_match; [done|]. case_match; [done|].
  eapply layout_frame_trans; [exact Hs|apply Hch].
Qed.

Lemma env_eq_counters (v v' : CtrlVars) :
  env_eq v v' ->
  _freezeCount v' = _freezeCount v /\ layouts v' = layouts v /\
  refreshes v' = refreshes v /\ _agwStyle v' = _agwStyle v /\ sent v' = sent v.
Proof. unfold env_eq. intros H. repeat split; apply H. Qed.

Lemma CalculatePositions_Ok (s : CustomTreeCtrl) : outcome CalculatePositions s = Ok tt.
Proof.
  unfold outcome, CalculatePositions. destruct (_anchor s) as [anchor|]; [|done].
  destruct (truthy _); [done|].
  destruct (CalculateLevel _ anchor 0 2) as [[v1 a1] y1].
  destruct (_ || _); [|done]. by destruct (CalculateLevel v1 a1 0 2) as [[v2 a2] y2].
Qed.

(** While the control is frozen, [CalculatePositions] only sets the dirty
    flag. *)
Lemma CalculatePositions_frozen (s : CustomTreeCtrl) :
  truthy (_freezeCount (vars s)) = true ->
  after CalculatePositions s =
    match _anchor s with
    | Some _ => mkCtrl (set_dirty (vars s) true) (_anchor s)
    | None => s
    end.
Proof.
  intros Hf. unfold after, CalculatePositions.
  destruct (_anchor s) as [anchor|]; [|done]. by rewrite Hf.
Qed.

(** When it is not frozen and has a root, it performs one layout pass. *)
Lemma CalculatePositions_unfrozen (s : CustomTreeCtrl) :
  truthy (_freezeCount (vars s)) = false -> _anchor s <> None ->
  let s' := after CalculatePositions s in
  _anchor s' <> None /\ layouts (vars s') = S (layouts (vars s)) /\
  _freezeCount (vars s') = _freezeCount (vars s) /\
  refreshes (vars s') = refreshes (vars s) /\ _dirty (vars s') = _dirty (vars s) /\
  _agwStyle (vars s') = _agwStyle (vars s) /\ sent (vars s') = sent (vars s).
Proof.
  intros Hf Ha. unfold after, CalculatePositions.
  destruct (_anchor s) as [anchor|]; [|done]. rewrite Hf.
  set (v0 := set_layouts (vars s) (S (layouts (vars s)))).
  assert (Hf0 : truthy (_freezeCount v0) = false) by (by destruct (vars s)).
  pose proof (CalculateLevel_frame anchor v0 0 2) as [H1 D1].
  destruct (CalculateLevel v0 anchor 0 2) as [[v1 a1] y1]. simpl in H1, D1.
  specialize (D1 Hf0). apply env_eq_counters in H1 as (F1 & L1 & R1 & S1 & E1).
  assert (Hgoal : forall v2 a2,
    layout_frame v1 v2 ->
    let s' := mkCtrl v2 (Some a2) in
    _anchor s' <> None /\ layouts (vars s') = S (layouts (vars s)) /\
    _freezeCount (vars s') = _freezeCount (vars s) /\
    refreshes (vars s') = refreshes (vars s) /\ _dirty (vars s') = _dirty (vars s) /\
    _agwStyle (vars s') = _agwStyle (vars s) /\ sent (vars s') = sent (vars s)).
  { intros v2 a2 [H2 D2]. simpl.
    assert (Hf1 : truthy (_freezeCount v1) = false) by (by rewrite F1).
    specialize (D2 Hf1). apply env_eq_counters in H2 as (F2 & L2 & R2 & S2 & E2).
    rewrite F2, L2, R2, D2, S2, E2, F1, L1, R1, D1, S1, E1.
    subst v0. by destruct (vars s). }
  destruct (_ || _).
  - pose proof (CalculateLevel_frame a1 v1 0 2) as H2.
    destruct (CalculateLevel v1 a1 0 2) as [[v2 a2] y2]. simpl in *. by apply Hgoal.
  - simpl. apply Hgoal, layout_frame_refl.
Qed.

Lemma insert_position_end (n : nat) : insert_position (Z.of_nat n) n = n.
Proof.
  unfold insert_position. assert ((Z.of_nat n <? 0) = false) as -> by (apply Z.ltb_ge; lia).
  rewrite Z.min_id. apply Nat2Z.id.
Qed.

Lemma list_insert_at_end {A} (x : A) (l : list A) : list_insert_at (length l) x l = l ++ [x].
Proof. unfold list_insert_at. by rewrite firstn_all, drop_all. Qed.

(** An index within the bounds of [ssize_t], and an index that is a
    position of the list or its length, fit. *)
Lemma fits_ssize_t_range (index : Z) (len : nat) :
  PY_SSIZE_T_MIN <= index <= PY_SSIZE_T_MAX -> fits_ssize_t index len = true.
Proof.
  intros H. unfold fits_ssize_t. apply andb_true_iff. split; apply Z.leb_le; lia.
Qed.

Lemma fits_ssize_t_position (index : Z) (len : nat) :
  0 <= index <= Z.of_nat len -> fits_ssize_t index len = true.
Proof.
  intros H. unfold fits_ssize_t. apply andb_true_iff.
  split; apply Z.leb_le; [unfold PY_SSIZE_T_MIN, PY_SSIZE_T_MAX|]; lia.
Qed.

Lemma Insert_run (s : CustomTreeCtrl) (parent : path) (pit child : GenericTreeItem)
    (index : Z) :
  item_at s parent = Some pit ->
  fits_ssize_t index (length (GetChildren pit)) = true ->
  let k := insert_position index (length (GetChildren pit)) in
  Insert parent index child s =
    (mkCtrl (renumber_refs (fun j => if (k <=? j)%nat then S j else j) parent (vars s))
       (alter_item
          (fun pit => Item (data pit) (list_insert_at k child (GetChildren pit)))
          parent <$> _anchor s),
     Ok k).
Proof.
  intros Hit Hfit k. unfold Insert, bind, the_item. rewrite Hit, Hfit. reflexivity.
Qed.

Lemma Insert_overflow (s : CustomTreeCtrl) (parent : path) (pit child : GenericTreeItem)
    (index : Z) :
  item_at s parent = Some pit ->
  fits_ssize_t index (length (GetChildren pit)) = false ->
  Insert parent index child s = (s, Raise OverflowError).
Proof.
  intros Hit Hfit. unfold Insert, bind, the_item. rewrite Hit, Hfit. reflexivity.
Qed.

(** The text and the type an insertion accepts. *)
Lemma AppendItem_run (s : CustomTreeCtrl) (parent : path) (pit : GenericTreeItem)
    (text : str) (ct_type image selImage : Z) :
  item_at s parent = Some pit ->
  has_newline text && negb (HasAGWFlag (vars s) TR_HAS_VARIABLE_ROW_HEIGHT) = false ->
  (ct_type <? 0) || (2 <? ct_type) = false ->
  AppendItem (Some parent) text ct_type image selImage s =
    (mkCtrl
       (renumber_refs (fun j => if (length (GetChildren pit) <=? j)%nat then S j else j)
          parent (set_dirty (vars s) true))
       (alter_item
          (fun _ =>
             Item (data pit)
               (GetChildren pit ++
                [Item (GenericTreeItem_init (Some (data pit)) text ct_type image selImage false)
                   []]))
          parent <$> _anchor s),
     Ok (parent ++ [length (GetChildren pit)])).
Proof.
  intros Hit Ht Hc. unfold AppendItem, bind, the_item. rewrite Hit.
  unfold DoInsertItem, bind, get_vars. rewrite Ht, Hc. cbn [andb].
  unfold put_vars, the_item.
  assert (Hit' : item_at {| vars := set_dirty (vars s) true; _anchor := _anchor s |} parent
                 = Some pit) by exact Hit.
  rewrite Hit'.
  rewrite (Insert_run _ parent pit _ _ Hit')
    by (apply fits_ssize_t_position; lia).
  unfold ret. cbn [vars _anchor]. rewrite insert_position_end. f_equal. f_equal.
  unfold item_at in Hit. destruct (_anchor s) as [anchor|]; [|done]. simpl in Hit. simpl.
  f_equal. apply (alter_item_ext_at _ _ _ _ pit Hit). by rewrite list_insert_at_end.
Qed.




Lemma Thaw_run (s : CustomTreeCtrl) :
  _freezeCount (vars s) <> 0 ->
  Thaw s =
    (mkCtrl
       (let v := set_freezeCount (vars s) (_freezeCount (vars s) - 1) in
        if negb (truthy (_freezeCount (vars s) - 1))
        then set_refreshes v (S (refreshes v)) else v)
       (_anchor s),
     Ok tt).
Proof.
  intros Hn. unfold Thaw, bind, get_vars, put_vars. apply Z.eqb_neq in Hn. rewrite Hn.
  cbn [vars _anchor].
  assert (_freezeCount (set_freezeCount (vars s) (_freezeCount (vars s) - 1))
          = _freezeCount (vars s) - 1) as -> by (by destruct (vars s)).
  by destruct (negb _).
Qed.




(** ** Insertion and deletion *)

Lemma sent_frame_refl (v : CtrlVars) : sent_frame v v [].
Proof. unfold sent_frame. by rewrite app_nil_r. Qed.

Lemma sent_frame_trans (v1 v2 v3 : CtrlVars) (e1 e2 : list TreeEvent) :
  sent_frame v1 v2 e1 -> sent_frame v2 v3 e2 -> sent_frame v1 v3 (e1 ++ e2).
Proof.
  intros (A1 & H1 & S1) (A2 & H2 & S2). unfold sent_frame.
  rewrite A2, H2, S2, A1, H1, S1. by rewrite app_assoc.
Qed.

Lemma SendDeleteEvent_frame (v : CtrlVars) (item : path) :
  sent_frame v (SendDeleteEvent v item) [delete_event item].
Proof. unfold SendDeleteEvent, ProcessEvent, sent_frame. by destruct v. Qed.

Lemma set_select_me_frame (v : CtrlVars) (r : option path) :
  sent_frame v (set_select_me v r) [].
Proof. unfold sent_frame. destruct v; simpl. by rewrite app_nil_r. Qed.

Lemma sent_frame_if (b : bool) (v v' : CtrlVars) :
  sent_frame v v' [] -> sent_frame v (if b then v' else v) [].
Proof. destruct b; [done|]. intros _. apply sent_frame_refl. Qed.

(** [DeleteChildren] sends one deletion event for each item below the
    item, and nothing else. *)
Lemma GenericTreeItem_DeleteChildren_events (item : GenericTreeItem) :
  forall (v : CtrlVars) (here : path),
    sent_frame v (GenericTreeItem_DeleteChildren v here item)
      (delete_event <$> descendants here item).
Proof.
  induction item as [d cs IH] using GenericTreeItem_ind. intros v here.
  cbn [GenericTreeItem_DeleteChildren descendants].
  generalize 0%nat as n. revert v.
  induction IH as [|c rest Hc _ IHrest]; intros v n; [apply sent_frame_refl|].
  cbn [descendants_from]. rewrite fmap_cons, fmap_app.
  change (delete_event (here ++ [n]) :: ?l) with ([delete_event (here ++ [n])] ++ l).
  eapply sent_frame_trans; [apply SendDeleteEvent_frame|].
  set (v1 := SendDeleteEvent v (here ++ [n])).
  eapply sent_frame_trans; [|apply IHrest].
  rewrite <- (app_nil_r (delete_event <$> descendants (here ++ [n]) c)).
  eapply sent_frame_trans; [apply Hc|].
  destruct (ref_eqb _ _); [apply set_select_me_frame|apply sent_frame_refl].
Qed.

Lemma GetChildrenCount_unfold (d : ItemData) (cs : list GenericTreeItem) :
  GetChildrenCount (Item d cs) = subtrees_count cs.
Proof.
  cbn [GetChildrenCount]. unfold subtrees_count.
  induction cs as [|c cs IH]; [done|]. cbn [length foldr]. lia.
Qed.

Lemma descendants_length (item : GenericTreeItem) (here : path) :
  length (descendants here item) = GetChildrenCount item.
Proof.
  revert here. induction item as [d cs IH] using GenericTreeItem_ind. intros here.
  rewrite GetChildrenCount_unfold. cbn [descendants]. unfold subtrees_count.
  generalize 0%nat at 1 as n.
  induction IH as [|c rest Hc _ IHrest]; intros n; [done|].
  cbn [descendants_from foldr length]. rewrite length_app, Hc, IHrest. lia.
Qed.


(** [Delete] of an item of the tree returns; it unlinks the item and
    sends one deletion event for each item of its subtree, the item
    itself last. *)
Lemma Delete_run (s : CustomTreeCtrl) (item : path) (it : GenericTreeItem) :
  item_at s item = Some it ->
  exists v',
    Delete item s = (mkCtrl v' (without_item item (_anchor s)), Ok tt) /\
    sent_frame (vars s) v' (delete_event <$> (descendants item it ++ [item])).
Proof.
  intros Hit. unfold Delete, bind, the_item. rewrite Hit.
  unfold get_vars, put_vars, remove_item. cbn [vars _anchor].
  set (v0 := set_dirty (vars s) true).
  set (v1 := if IsDescendantOf item (_key_current v0) then _ else v0).
  set (v2 := if IsDescendantOf item (_select_me v1) then _ else v1).
  set (v3 := if IsDescendantOf item (_current v2) then _ else v2).
  set (v4 := GenericTreeItem_DeleteChildren v3 item it).
  set (v5 := SendDeleteEvent v4 item).
  set (v6 := if ref_eqb item (_select_me v5) then _ else v5).
  assert (H03 : sent_frame (vars s) v3 []).
  { assert (H0 : sent_frame (vars s) v0 [])
      by (unfold sent_frame; subst v0; destruct (vars s); simpl; by rewrite app_nil_r).
    assert (H1 : sent_frame v0 v1 []).
    { apply sent_frame_if. unfold sent_frame. destruct v0; simpl. by rewrite app_nil_r. }
    assert (H2 : sent_frame v1 v2 []) by apply sent_frame_if, set_select_me_frame.
    assert (H3 : sent_frame v2 v3 []).
    { apply sent_frame_if. unfold sent_frame. destruct v2; simpl. by rewrite app_nil_r. }
    exact (sent_frame_trans _ _ _ _ _ (sent_frame_trans _ _ _ _ _ H0 H1)
             (sent_frame_trans _ _ _ _ _ H2 H3)). }
  assert (H36 : sent_frame v3 v6 (delete_event <$> (descendants item it ++ [item]))).
  { rewrite fmap_app.
    eapply sent_frame_trans; [apply GenericTreeItem_DeleteChildren_events|].
    fold v4. rewrite <- (app_nil_r (delete_event <$> [item])).
    eapply sent_frame_trans; [apply SendDeleteEvent_frame|].
    apply sent_frame_if, set_select_me_frame. }
  pose proof (sent_frame_trans _ _ _ _ _ H03 H36) as H06. simpl app in H06.
  unfold without_item. destruct (GetParent item) as [[parent k]|].
  - eexists. split; [reflexivity|].
    destruct H06 as (A & H & S). unfold sent_frame, renumber_refs.
    destruct v6; simpl in *. done.
  - eexists. split; [reflexivity|done].
Qed.

Lemma alter_anchor_compose (f g : GenericTreeItem -> GenericTreeItem) (q : path)
    (a : option GenericTreeItem) :
  alter_item g q <$> (alter_item f q <$> a) = alter_item (fun it => g (f it)) q <$> a.
Proof. destruct a; simpl; [|done]. f_equal. apply alter_item_compose. Qed.

Lemma alter_anchor_ext (f g : GenericTreeItem -> GenericTreeItem) (q : path)
    (a : option GenericTreeItem) (it : GenericTreeItem) :
  a ≫= (fun t => GetItem t q) = Some it -> f it = g it ->
  alter_item f q <$> a = alter_item g q <$> a.
Proof.
  destruct a as [t|]; simpl; [|done]. intros Hit Hfg. f_equal.
  by apply (alter_item_ext_at f g q t it).
Qed.

Lemma alter_anchor_id (q : path) (a : option GenericTreeItem) (it : GenericTreeItem) :
  a ≫= (fun t => GetItem t q) = Some it -> alter_item (fun _ => it) q <$> a = a.
Proof. destruct a as [t|]; simpl; [|done]. intros Hit. f_equal. by apply alter_item_id. Qed.

Lemma alter_length_app {A} (f : A -> A) (l : list A) (x : A) :
  alter f (length l) (l ++ [x]) = l ++ [f x].
Proof. induction l as [|y l IH]; simpl; [done|]. f_equal. exact IH. Qed.

Lemma delete_length_app {A} (l r : list A) (x : A) :
  delete (length l) (l ++ x :: r) = l ++ r.
Proof. induction l as [|y l IH]; simpl; [done|]. f_equal. exact IH. Qed.

(** Replacing the last child of an item that has just been replaced. *)
Lemma alter_last_child (a : option GenericTreeItem) (parent : path)
    (pit Y Z : GenericTreeItem) (pd : ItemData) (cs : list GenericTreeItem) :
  a ≫= (fun t => GetItem t parent) = Some pit ->
  alter_item (fun _ => Y) (parent ++ [length cs]) <$>
    (alter_item (fun _ => Item pd (cs ++ [Z])) parent <$> a)
  = alter_item (fun _ => Item pd (cs ++ [Y])) parent <$> a.
Proof.
  intros Hit. destruct a as [t|]; simpl in *; [|done]. f_equal.
  rewrite alter_item_app, alter_item_compose.
  apply (alter_item_ext_at _ _ _ _ pit Hit). simpl. f_equal. apply alter_length_app.
Qed.

Lemma HasAGWFlag_style (v v' : CtrlVars) (flag : Z) :
  _agwStyle v' = _agwStyle v -> HasAGWFlag v' flag = HasAGWFlag v flag.
Proof. unfold HasAGWFlag. by intros ->. Qed.


Lemma append_trees_run (ns : list NodeSpec) :
  Forall append_tree_spec ns ->
  forall (s : CustomTreeCtrl) (parent : path) (pit : GenericTreeItem),
    item_at s parent = Some pit ->
    forallb (valid_node (HasAGWFlag (vars s) TR_HAS_VARIABLE_ROW_HEIGHT)) ns = true ->
    exists v',
      run_all (List.map (append_tree parent) ns) s =
        (mkCtrl v'
           (alter_item
              (fun _ => Item (data pit)
                          (GetChildren pit ++ List.map (realize (data pit)) ns))
              parent <$> _anchor s),
         Ok tt) /\
      sent_frame (vars s) v' [].
Proof.
  induction 1 as [|n rest Hn _ IH]; intros s parent pit Hit Hvalid.
  - exists (vars s). split; [|apply sent_frame_refl].
    simpl. unfold ret. rewrite app_nil_r.
    rewrite (alter_anchor_ext _ (fun _ => pit) parent _ pit Hit) by (by destruct pit).
    rewrite (alter_anchor_id parent _ pit Hit). by destruct s.
  - cbn [forallb] in Hvalid. apply andb_true_iff in Hvalid as [Hvn Hvrest].
    destruct (Hn s parent pit Hit Hvn) as (v1 & Hrun & Hv1).
    cbn [List.map run_all]. unfold bind at 1. rewrite Hrun.
    set (pit1 := Item (data pit) (GetChildren pit ++ [realize (data pit) n])).
    set (s1 := mkCtrl v1 _).
    assert (Hit1 : item_at s1 parent = Some pit1).
    { subst s1. rewrite item_at_alter_item. by rewrite Hit. }
    destruct (IH s1 parent pit1 Hit1) as (v2 & Hrun2 & Hv2).
    { subst s1. cbn [vars]. destruct Hv1 as (A & _). by rewrite (HasAGWFlag_style _ _ _ A). }
    exists v2. split; [|exact (sent_frame_trans _ _ _ _ _ Hv1 Hv2)].
    rewrite Hrun2. subst s1 pit1. cbn [vars _anchor data GetChildren].
    rewrite alter_anchor_compose. by rewrite <- app_assoc.
Qed.

(** [append_tree] returns; it adds the subtree as the last child of the
    parent and sends no event. *)
Lemma append_tree_run (n : NodeSpec) : append_tree_spec n.
Proof.
  induction n as [text ct_type image selImage subs IH] using NodeSpec_ind.
  intros s parent pit Hit Hvalid. cbn [valid_node] in Hvalid.
  apply andb_true_iff in Hvalid as [Hvalid Hsubs].
  apply andb_true_iff in Hvalid as [Ht Hc].
  apply negb_true_iff in Ht, Hc.
  cbn [append_tree realize]. unfold bind at 1.
  rewrite (AppendItem_run s parent pit) by done.
  set (d := GenericTreeItem_init (Some (data pit)) text ct_type image selImage false).
  set (q := parent ++ [length (GetChildren pit)]).
  set (v1 := renumber_refs _ parent _).
  assert (Hv1 : sent_frame (vars s) v1 []).
  { subst v1. unfold sent_frame, renumber_refs. destruct (vars s); simpl. by rewrite app_nil_r. }
  set (s1 := mkCtrl v1 _).
  assert (Hq : item_at s1 q = Some (Item d [])).
  { subst s1 q. rewrite (item_at_alter_below s v1 parent _ pit) by done.
    simpl. rewrite lookup_app_r by done. by rewrite Nat.sub_diag. }
  destruct (append_trees_run subs IH s1 q _ Hq) as (v2 & Hrun & Hv2).
  { subst s1. cbn [vars]. destruct Hv1 as (A & _). by rewrite (HasAGWFlag_style _ _ _ A). }
  exists v2. split; [|exact (sent_frame_trans _ _ _ _ _ Hv1 Hv2)].
  unfold bind. rewrite Hrun. unfold ret. subst s1. cbn [vars _anchor data GetChildren].
  unfold q at 1. by rewrite (alter_last_child _ parent pit) by exact Hit.
Qed.


Lemma subtrees_count_app (l r : list GenericTreeItem) :
  subtrees_count (l ++ r) = (subtrees_count l + subtrees_count r)%nat.
Proof.
  unfold subtrees_count. induction l as [|c l IH]; [done|].
  cbn [app foldr]. rewrite IH. lia.
Qed.

Lemma subtrees_count_alter (f : GenericTreeItem -> GenericTreeItem) (i k : nat)
    (cs : list GenericTreeItem) (c : GenericTreeItem) :
  cs !! i = Some c -> GetChildrenCount (f c) = (GetChildrenCount c + k)%nat ->
  subtrees_count (alter f i cs) = (subtrees_count cs + k)%nat.
Proof.
  revert i. induction cs as [|x cs IH]; intros i Hi Hf; [done|].
  destruct i as [|i]; cbn [lookup list_lookup] in Hi.
  - injection Hi as ->. unfold subtrees_count. cbn [alter list_alter foldr].
    rewrite Hf. lia.
  - specialize (IH i Hi Hf). unfold subtrees_count in *. cbn [alter list_alter foldr].
    rewrite IH. lia.
Qed.

(** Replacing an item by one with [k] more items below it adds [k] items
    to the tree. *)
Lemma GetChildrenCount_alter_item (p : path) :
  forall (t pit X : GenericTreeItem) (k : nat),
    GetItem t p = Some pit ->
    GetChildrenCount X = (GetChildrenCount pit + k)%nat ->
    GetChildrenCount (alter_item (fun _ => X) p t) = (GetChildrenCount t + k)%nat.
Proof.
  induction p as [|i p IH]; intros t pit X k Hp HX; simpl in *.
  - by injection Hp as ->.
  - destruct t as [d cs]. simpl in *.
    destruct (cs !! i) as [c|] eqn:Hc; [|done].
    change (GetChildrenCount (Item d (alter (alter_item (fun _ => X) p) i cs))
            = (GetChildrenCount (Item d cs) + k)%nat).
    rewrite !GetChildrenCount_unfold.
    apply (subtrees_count_alter _ _ _ _ c Hc). by apply (IH c pit).
Qed.

Lemma realize_count (pd : ItemData) (n : NodeSpec) :
  S (GetChildrenCount (realize pd n)) = node_count n.
Proof.
  revert pd. induction n as [text ct_type image selImage subs IH] using NodeSpec_ind.
  intros pd. cbn [realize node_count]. f_equal. rewrite GetChildrenCount_unfold.
  set (d := GenericTreeItem_init _ _ _ _ _ _). clearbody d.
  induction IH as [|c rest Hc _ IHrest]; [done|].
  unfold subtrees_count in *. cbn [List.map foldr]. by rewrite IHrest, Hc.
Qed.

Lemma realize_forest_count (pd : ItemData) (ns : list NodeSpec) :
  subtrees_count (List.map (realize pd) ns) = forest_count ns.
Proof.
  unfold subtrees_count, forest_count. induction ns as [|n ns IH]; [done|].
  cbn [List.map foldr]. by rewrite IH, realize_count.
Qed.

(** [Delete] called once for each of the last children of an item: they
    are removed with all that is below them, and one deletion event is
    sent for each removed item. *)
Lemma delete_times_run (new : list GenericTreeItem) :
  forall (s : CustomTreeCtrl) (parent : path) (pd : ItemData) (cs : list GenericTreeItem),
    item_at s parent = Some (Item pd (cs ++ new)) ->
    exists v' evs,
      delete_times (parent ++ [length cs]) (length new) s =
        (mkCtrl v' (alter_item (fun _ => Item pd cs) parent <$> _anchor s), Ok tt) /\
      sent_frame (vars s) v' evs /\ length evs = subtrees_count new /\
      Forall (fun e => evtType e = wxEVT_TREE_DELETE_ITEM) evs.
Proof.
  induction new as [|c rest IH]; intros s parent pd cs Hit.
  - exists (vars s), []. split; [|split; [apply sent_frame_refl|done]].
    simpl. unfold ret. rewrite app_nil_r in Hit.
    rewrite (alter_anchor_id parent _ _ Hit). by destruct s.
  - assert (Hc : item_at s (parent ++ [length cs]) = Some c).
    { apply (item_at_child s parent _ _ c Hit). simpl.
      rewrite lookup_app_r by done. by rewrite Nat.sub_diag. }
    destruct (Delete_run s _ c Hc) as (v1 & Hrun & Hv1).
    cbn [length delete_times]. unfold bind at 1. rewrite Hrun.
    unfold without_item. rewrite GetParent_snoc.
    set (s1 := mkCtrl v1 _).
    assert (Hit1 : item_at s1 parent = Some (Item pd (cs ++ rest))).
    { subst s1. rewrite item_at_alter_item, Hit. simpl. by rewrite delete_length_app. }
    destruct (IH s1 parent pd cs Hit1) as (v2 & evs & Hrun2 & Hv2 & Hlen & Hall).
    exists v2, ((delete_event <$> (descendants (parent ++ [length cs]) c
                                  ++ [parent ++ [length cs]])) ++ evs).
    split; [|split; [exact (sent_frame_trans _ _ _ _ _ Hv1 Hv2)|split]].
    + rewrite Hrun2. subst s1. cbn [vars _anchor]. by rewrite alter_anchor_compose.
    + rewrite length_app, length_fmap, length_app, descendants_length, Hlen.
      unfold subtrees_count. cbn [foldr length]. lia.
    + apply Forall_app. split; [|done]. apply Forall_fmap, Forall_forall. done.
Qed.

Lemma GetCount_style (v v' : CtrlVars) (a : option GenericTreeItem) :
  _agwStyle v' = _agwStyle v -> GetCount (mkCtrl v' a) = GetCount (mkCtrl v a).
Proof. intros H. unfold GetCount. cbn [vars _anchor]. by rewrite (HasAGWFlag_style _ _ _ H). Qed.

(** ** Selection of a range *)

Lemma path_le_app (here r r' : path) : path_le (here ++ r) (here ++ r') = path_le r r'.
Proof.
  induction here as [|i here IH]; [done|]. cbn [app path_le].
  by rewrite Nat.ltb_irrefl, Nat.eqb_refl, IH.
Qed.

Lemma path_prefix_app (here r r' : path) :
  path_prefix (here ++ r) (here ++ r') = path_prefix r r'.
Proof. induction here as [|i here IH]; [done|]. cbn [app path_prefix]. by rewrite Nat.eqb_refl. Qed.

Lemma path_eqb_app (here r r' : path) : path_eqb (here ++ r) (here ++ r') = path_eqb r r'.
Proof. induction here as [|i here IH]; [done|]. cbn [app path_eqb]. by rewrite Nat.eqb_refl. Qed.

Lemma path_eqb_prefix (p q : path) : path_eqb p q = true -> path_prefix p q = true.
Proof.
  revert q. induction p as [|i p IH]; intros [|j q]; simpl; try done.
  intros [H1 H2]%andb_true_iff. rewrite H1. by apply IH.
Qed.

Lemma path_prefix_le (p q : path) : path_prefix p q = true -> path_le p q = true.
Proof.
  revert q. induction p as [|i p IH]; intros [|j q]; simpl; try done.
  intros [H1 H2]%andb_true_iff. rewrite H1, (IH q H2). apply orb_true_r.
Qed.

Lemma path_prefix_spec (p q : path) : path_prefix p q = true -> exists r, q = p ++ r.
Proof.
  revert q. induction p as [|i p IH]; intros q; [by exists q|].
  destruct q as [|j q]; simpl; [done|]. intros [H1 H2]%andb_true_iff.
  apply Nat.eqb_eq in H1 as ->. destruct (IH q H2) as [r ->]. by exists r.
Qed.

(** Extending a reference that is not above [q] does not bring it above
    [q], nor change its place with respect to [q]. *)
Lemma path_prefix_app_false (p a q : path) :
  path_prefix p q = false -> path_prefix (p ++ a) q = false.
Proof.
  revert q. induction p as [|i p IH]; intros q; [done|].
  destruct q as [|j q]; simpl; [done|].
  destruct (i =? j)%nat; simpl; [apply IH|done].
Qed.

Lemma path_le_app_not_prefix (p a q : path) :
  path_prefix p q = false -> path_le (p ++ a) q = path_le p q.
Proof.
  revert q. induction p as [|i p IH]; intros q; [done|].
  destruct q as [|j q]; simpl; [done|].
  destruct (i =? j)%nat; simpl; [|done]. intros H. by rewrite IH.
Qed.

Lemma path_le_below (p r q : path) :
  path_prefix p q = false -> path_le p q = true -> path_le (p ++ r) q = true.
Proof. intros H1 H2. by rewrite path_le_app_not_prefix. Qed.

(** Between two items below [p] there are only items below [p]. *)
Lemma path_le_sandwich (p a b q : path) :
  path_le (p ++ a) q = true -> path_le q (p ++ b) = true -> path_prefix p q = true.
Proof.
  revert q. induction p as [|i p IH]; intros q; [done|].
  destruct q as [|j q]; simpl; [done|].
  intros H1 H2.
  destruct (Nat.ltb_spec i j), (Nat.ltb_spec j i), (Nat.eqb_spec i j), (Nat.eqb_spec j i);
    simpl in *; try lia; try done. by apply IH.
Qed.

Lemma imap_from_ext {A B} (f g : nat -> A -> B) (n : nat) (l : list A) :
  (forall k x, l !! k = Some x -> f (n + k)%nat x = g (n + k)%nat x) ->
  imap_from f n l = imap_from g n l.
Proof.
  revert n. induction l as [|x l IH]; intros n H; [done|]. simpl. f_equal.
  - specialize (H 0%nat x eq_refl). by rewrite Nat.add_0_r in H.
  - apply IH. intros k y Hk. specialize (H (S k) y Hk).
    by replace (S n + k)%nat with (n + S k)%nat by lia.
Qed.

Lemma imap_from_id {A} (f : nat -> A -> A) (n : nat) (l : list A) :
  (forall k x, l !! k = Some x -> f (n + k)%nat x = x) -> imap_from f n l = l.
Proof.
  revert n. induction l as [|x l IH]; intros n H; [done|]. simpl. f_equal.
  - specialize (H 0%nat x eq_refl). by rewrite Nat.add_0_r in H.
  - apply IH. intros k y Hk. specialize (H (S k) y Hk).
    by replace (S n + k)%nat with (n + S k)%nat by lia.
Qed.

Lemma imap_from_lookup {A B} (f : nat -> A -> B) (n k : nat) (l : list A) :
  imap_from f n l !! k = f (n + k)%nat <$> l !! k.
Proof.
  revert n k. induction l as [|x l IH]; intros n k; [done|].
  destruct k as [|k]; simpl; [by rewrite Nat.add_0_r|].
  rewrite IH. by replace (S n + k)%nat with (n + S k)%nat by lia.
Qed.

Lemma imap_from_app {A B} (f : nat -> A -> B) (n : nat) (l1 l2 : list A) :
  imap_from f n (l1 ++ l2) = imap_from f n l1 ++ imap_from f (n + length l1) l2.
Proof.
  revert n. induction l1 as [|x l1 IH]; intros n; simpl; [by rewrite Nat.add_0_r|].
  f_equal. rewrite IH. by replace (S n + length l1)%nat with (n + S (length l1))%nat by lia.
Qed.

Lemma imap_from_compose {A} (f g : nat -> A -> A) (n : nat) (l : list A) :
  imap_from f n (imap_from g n l) = imap_from (fun k x => f k (g k x)) n l.
Proof. revert n. induction l as [|x l IH]; intros n; simpl; [done|]. by rewrite IH. Qed.

Lemma tag_where_ext (P Q : path -> bool) (select : bool) (item : GenericTreeItem) :
  forall here : path,
    (forall r, P (here ++ r) = Q (here ++ r)) ->
    tag_where P select here item = tag_where Q select here item.
Proof.
  induction item as [d cs IH] using GenericTreeItem_ind. intros here H. cbn [tag_where].
  pose proof (H []) as H0. rewrite app_nil_r in H0. rewrite H0. f_equal.
  apply imap_from_ext. intros k c Hk. rewrite Forall_lookup in IH.
  apply (IH k c Hk). intros r. rewrite <- !app_assoc. apply H.
Qed.

Lemma tag_where_none (P : path -> bool) (select : bool) (item : GenericTreeItem) :
  forall here : path,
    (forall r, P (here ++ r) = false) -> tag_where P select here item = item.
Proof.
  induction item as [d cs IH] using GenericTreeItem_ind. intros here H. cbn [tag_where].
  pose proof (H []) as H0. rewrite app_nil_r in H0. rewrite H0. f_equal.
  apply imap_from_id. intros k c Hk. rewrite Forall_lookup in IH.
  apply (IH k c Hk). intros r. rewrite <- !app_assoc. apply H.
Qed.

Lemma SetHilight_twice (d : ItemData) (select : bool) :
  SetHilight (SetHilight d select) select = SetHilight d select.
Proof. by destruct d. Qed.

Lemma tag_where_twice (P Q : path -> bool) (select : bool) (item : GenericTreeItem) :
  forall here : path,
    tag_where P select here (tag_where Q select here item)
    = tag_where (fun q => P q || Q q) select here item.
Proof.
  induction item as [d cs IH] using GenericTreeItem_ind. intros here. cbn [tag_where].
  f_equal.
  - destruct (P here), (Q here); simpl; try done; by destruct d.
  - rewrite imap_from_compose. apply imap_from_ext. intros k c Hk.
    rewrite Forall_lookup in IH. apply (IH k c Hk).
Qed.

Lemma tag_where_data (P : path -> bool) (select : bool) (here : path)
    (item : GenericTreeItem) :
  data (tag_where P select here item)
  = if P here then SetHilight (data item) select else data item.
Proof. by destruct item. Qed.

Lemma GetItem_tag_where (P : path -> bool) (select : bool) (r : path) :
  forall (here : path) (item : GenericTreeItem),
    GetItem (tag_where P select here item) r
    = tag_where P select (here ++ r) <$> GetItem item r.
Proof.
  induction r as [|i r IH]; intros here item.
  - simpl. by rewrite app_nil_r.
  - destruct item as [d cs]. cbn [tag_where GetItem GetChildren].
    rewrite imap_from_lookup. destruct (cs !! i) as [c|]; simpl; [|done].
    rewrite IH. by rewrite <- app_assoc.
Qed.

Lemma path_prefix_app_r (here r : path) : path_prefix here (here ++ r) = true.
Proof. induction here as [|i here IH]; [done|]. simpl. by rewrite Nat.eqb_refl. Qed.

Lemma path_prefix_app_cons (here r : path) (i : nat) :
  path_prefix (here ++ i :: r) here = false.
Proof. induction here as [|j here IH]; [done|]. simpl. by rewrite Nat.eqb_refl. Qed.

(** Tagging below one item, seen from the root of the subtree. *)
Lemma alter_item_tag_where (P : path -> bool) (select : bool) (p : path) :
  forall (here : path) (t : GenericTreeItem),
    alter_item (tag_where P select (here ++ p)) p t
    = tag_where (fun q => path_prefix (here ++ p) q && P q) select here t.
Proof.
  induction p as [|i p IH]; intros here t.
  - cbn [alter_item]. rewrite app_nil_r. apply tag_where_ext. intros r.
    by rewrite path_prefix_app_r.
  - destruct t as [d cs]. cbn [alter_item tag_where data GetChildren].
    rewrite path_prefix_app_cons.
    cbn [andb]. f_equal.
    apply list_eq. intros k. rewrite imap_from_lookup. cbn [Nat.add].
    destruct (decide (k = i)) as [->|Hne].
    + rewrite list_lookup_alter_eq. destruct (cs !! i) as [c|]; simpl; [|done]. f_equal.
      replace (here ++ i :: p) with ((here ++ [i]) ++ p) by (by rewrite <- app_assoc).
      apply IH.
    + rewrite list_lookup_alter_ne by done. destruct (cs !! k) as [c|]; simpl; [|done].
      f_equal. symmetry. apply tag_where_none. intros r.
      rewrite <- app_assoc. rewrite path_prefix_app. cbn [app path_prefix].
      assert ((i =? k)%nat = false) as -> by (apply Nat.eqb_neq; congruence). done.
Qed.

Lemma path_eqb_refl (p : path) : path_eqb p p = true.
Proof. induction p as [|i p IH]; [done|]. simpl. by rewrite Nat.eqb_refl. Qed.

Lemma path_eqb_eq (p q : path) : path_eqb p q = true -> p = q.
Proof.
  revert q. induction p as [|i p IH]; intros [|j q]; simpl; try done.
  intros [H1 H2]%andb_true_iff. apply Nat.eqb_eq in H1 as ->. by rewrite (IH q H2).
Qed.

Lemma path_eqb_app_cons (here r : path) (i : nat) : path_eqb here (here ++ i :: r) = false.
Proof. induction here as [|j here IH]; [done|]. simpl. by rewrite Nat.eqb_refl. Qed.

Lemma path_le_refl (p : path) : path_le p p = true.
Proof. apply path_prefix_le. rewrite <- (app_nil_r p) at 2. apply path_prefix_app_r. Qed.

Lemma path_le_app_cons (here r : path) (i : nat) : path_le (here ++ i :: r) here = false.
Proof.
  induction here as [|j here IH]; [done|]. simpl.
  by rewrite Nat.ltb_irrefl, Nat.eqb_refl, IH.
Qed.

(** The loop of [TagAllChildrenUntilLast] over children none of which is
    the last item or above it: all their items are tagged. *)
Lemma TagAll_loop_none (here last : path) (select : bool) (cs : list GenericTreeItem) :
  Forall (fun c => forall here',
            path_prefix here' last = false ->
            TagAllChildrenUntilLast here' c last select
            = (tag_where (fun _ => true) select here' c, false)) cs ->
  forall n : nat,
    (forall m, path_prefix (here ++ [m]) last = false) ->
    for_children (St := unit) (R := unit)
      (fun _ m child =>
         let '(child', found) := TagAllChildrenUntilLast (here ++ [m]) child last select in
         (tt, child', if found then Some tt else None))
      tt n cs
    = (tt, imap_from (fun m c => tag_where (fun _ => true) select (here ++ [m]) c) n cs, None).
Proof.
  induction 1 as [|c rest Hc _ IH]; intros n Hm; [done|].
  cbn [for_children imap_from]. rewrite (Hc _ (Hm n)). by rewrite (IH (S n) Hm).
Qed.

Lemma TagAll_not_below (last : path) (select : bool) (item : GenericTreeItem) :
  forall here : path,
    path_prefix here last = false ->
    TagAllChildrenUntilLast here item last select
    = (tag_where (fun _ => true) select here item, false).
Proof.
  induction item as [d cs IH] using GenericTreeItem_ind. intros here Hp.
  cbn [TagAllChildrenUntilLast tag_where].
  destruct (path_eqb here last) eqn:He.
  { apply path_eqb_prefix in He. congruence. }
  rewrite (TagAll_loop_none here last select cs IH 0%nat); [done|].
  intros m. by apply path_prefix_app_false.
Qed.

(** The loop over children one of which, the child [k], has the last
    item below it. *)
Lemma TagAll_loop_found (here r : path) (select : bool) (k : nat) (c : GenericTreeItem)
    (cs : list GenericTreeItem) :
  TagAllChildrenUntilLast (here ++ [k]) c (here ++ k :: r) select
  = (tag_where (fun q => path_le q (here ++ k :: r)) select (here ++ [k]) c, true) ->
  forall n : nat,
    (n <= k)%nat -> cs !! (k - n)%nat = Some c ->
    for_children (St := unit) (R := unit)
      (fun _ m child =>
         let '(child', found) :=
           TagAllChildrenUntilLast (here ++ [m]) child (here ++ k :: r) select in
         (tt, child', if found then Some tt else None))
      tt n cs
    = (tt,
       imap_from (fun m c => tag_where (fun q => path_le q (here ++ k :: r)) select
                               (here ++ [m]) c) n cs,
       Some tt).
Proof.
  intros Hk. induction cs as [|x rest IH]; intros n Hn Hc; [done|].
  cbn [for_children imap_from].
  destruct (decide (n = k)) as [->|Hne].
  - rewrite Nat.sub_diag in Hc. injection Hc as ->. rewrite Hk.
    f_equal. f_equal. f_equal. symmetry. apply imap_from_id. intros j y Hy.
    apply tag_where_none. intros r'. rewrite <- app_assoc, path_le_app. cbn [app path_le].
    destruct (Nat.ltb_spec (S k + j) k), (Nat.eqb_spec (S k + j) k); try lia; done.
  - assert (Hlt : (n < k)%nat) by lia.
    rewrite TagAll_not_below.
    2:{ rewrite path_prefix_app. cbn [app path_prefix].
        destruct (Nat.eqb_spec n k); [lia|done]. }
    rewrite (IH (S n)); [|lia|].
    2:{ replace (k - n)%nat with (S (k - S n)) in Hc by lia. exact Hc. }
    f_equal. f_equal. f_equal. apply tag_where_ext. intros r'.
    rewrite <- app_assoc, path_le_app. cbn [app path_le].
    destruct (Nat.ltb_spec n k); [done|lia].
Qed.

Lemma TagAll_below (select : bool) (item : GenericTreeItem) :
  forall (here r : path) (x : GenericTreeItem),
    GetItem item r = Some x ->
    TagAllChildrenUntilLast here item (here ++ r) select
    = (tag_where (fun q => path_le q (here ++ r)) select here item, true).
Proof.
  induction item as [d cs IH] using GenericTreeItem_ind. intros here r x Hx.
  cbn [TagAllChildrenUntilLast tag_where]. destruct r as [|k r].
  - rewrite app_nil_r, path_eqb_refl, path_le_refl. f_equal. f_equal.
    symmetry. apply imap_from_id. intros j y Hy. apply tag_where_none. intros r'.
    rewrite <- app_assoc. apply path_le_app_cons.
  - rewrite path_eqb_app_cons.
    cbn [GetItem GetChildren] in Hx. destruct (cs !! k) as [c|] eqn:Hc; [|done].
    rewrite Forall_lookup in IH. pose proof (IH k c Hc (here ++ [k]) r x Hx) as Hk.
    rewrite <- app_assoc in Hk. cbn [app] in Hk.
    rewrite (TagAll_loop_found here r select k c cs Hk 0%nat);
      [|lia|by rewrite Nat.sub_0_r].
    rewrite (path_prefix_le here (here ++ k :: r)) by apply path_prefix_app_r. done.
Qed.

(** The children of an item from the one after the child [i] on, all
    tagged by a predicate that holds of none of the children up to [i]. *)
Lemma tag_where_later_children (P Q : path -> bool) (select : bool) (p : path) (i : nat)
    (d : ItemData) (cs : list GenericTreeItem) :
  (i < length cs)%nat -> P p = false ->
  (forall k r, (k <= i)%nat -> P (p ++ k :: r) = false) ->
  (forall k r, (i < k)%nat -> P (p ++ k :: r) = Q (p ++ k :: r)) ->
  Item d (take (S i) cs ++
          imap_from (fun m c => tag_where Q select (p ++ [m]) c) (S i) (drop (S i) cs))
  = tag_where P select p (Item d cs).
Proof.
  intros Hi Hp Hbefore Hafter. cbn [tag_where]. rewrite Hp. f_equal.
  rewrite <- (take_drop (S i) cs) at 3. rewrite imap_from_app.
  rewrite length_take, Nat.min_l by lia. cbn [Nat.add]. f_equal.
  - symmetry. apply imap_from_id. intros k x Hk. cbn [Nat.add].
    apply lookup_lt_Some in Hk as Hlt. rewrite length_take in Hlt.
    apply tag_where_none. intros r. rewrite <- app_assoc. apply Hbefore. lia.
  - apply imap_from_ext. intros k x Hk. apply tag_where_ext. intros r.
    rewrite <- app_assoc. symmetry. apply Hafter. lia.
Qed.

Lemma path_after_sibling (p r : path) (i k : nat) :
  path_after (p ++ [i]) (p ++ k :: r) = (i <? k)%nat.
Proof.
  unfold path_after. rewrite path_le_app, path_prefix_app. cbn [app path_le path_prefix].
  destruct (Nat.ltb_spec i k), (Nat.eqb_spec i k); simpl; try lia; done.
Qed.

Lemma path_after_above (p : path) (i : nat) : path_after (p ++ [i]) p = false.
Proof. unfold path_after. by rewrite path_le_app_cons. Qed.

(** The items after [p ++ [i]] up to [last] are the items below [p] that
    come after [p ++ [i]], and the items after [p] up to [last], when
    [last] is not below [p]. *)
Lemma path_after_step (p last q : path) (i : nat) :
  path_prefix p last = false -> path_le p last = true ->
  (path_after p q && path_le q last) || (path_prefix p q && path_after (p ++ [i]) q)
  = path_after (p ++ [i]) q && path_le q last.
Proof.
  intros Hp Hle. unfold path_after. destruct (path_prefix p q) eqn:Hq.
  - apply path_prefix_spec in Hq as [r ->].
    rewrite (path_le_below p r last Hp Hle). cbn [negb andb orb].
    by rewrite !andb_true_r, andb_false_r.
  - rewrite (path_le_app_not_prefix p [i] q Hq), (path_prefix_app_false p [i] q Hq).
    cbn [negb andb]. by rewrite orb_false_r.
Qed.

(** One step of [TagNextChildren] when the last item is below the
    parent: the later children are tagged up to the last item. *)
Lemma TagNextChildren_loop_found (select : bool) (p l : path) (i : nat) (v : CtrlVars)
    (d : ItemData) (cs : list GenericTreeItem) (x y : GenericTreeItem) :
  cs !! i = Some x -> GetItem (Item d cs) l = Some y ->
  path_le (p ++ [i]) (p ++ l) = true -> path_prefix (p ++ [i]) (p ++ l) = false ->
  TagNextChildren_loop p i (p ++ l) select v (Item d cs)
  = (v,
     tag_where (fun q => path_after (p ++ [i]) q && path_le q (p ++ l)) select p (Item d cs),
     Ok true).
Proof.
  intros Hci Hy Hle Hpre. apply lookup_lt_Some in Hci as Hi.
  rewrite path_le_app in Hle. rewrite path_prefix_app in Hpre.
  destruct l as [|j r]; [done|]. cbn [app path_le path_prefix] in Hle, Hpre.
  assert (Hij : (i < j)%nat)
    by (destruct (Nat.ltb_spec i j), (Nat.eqb_spec i j); simpl in *; try lia; done).
  cbn [GetItem GetChildren] in Hy. destruct (cs !! j) as [cj|] eqn:Hcj; [|done].
  pose proof (TagAll_below select cj (p ++ [j]) r y Hy) as Hk.
  rewrite <- app_assoc in Hk. cbn [app] in Hk.
  unfold TagNextChildren_loop. cbn [data GetChildren].
  rewrite (TagAll_loop_found p r select j cj (drop (S i) cs) Hk (S i));
    [|lia|rewrite lookup_drop; by replace (S i + (j - S i))%nat with j by lia].
  f_equal. f_equal.
  apply (tag_where_later_children
           (fun q => path_after (p ++ [i]) q && path_le q (p ++ j :: r))
           (fun q => path_le q (p ++ j :: r)) select p i d cs Hi).
  - by rewrite path_after_above.
  - intros k r' Hk'. rewrite path_after_sibling. by destruct (Nat.ltb_spec i k); [lia|].
  - intros k r' Hk'. rewrite path_after_sibling. by destruct (Nat.ltb_spec i k); [|lia].
Qed.

(** One step when the last item is not below the parent: all the later
    children are tagged. *)
Lemma TagNextChildren_loop_none (select : bool) (p last : path) (i : nat) (v : CtrlVars)
    (d : ItemData) (cs : list GenericTreeItem) (x : GenericTreeItem) :
  cs !! i = Some x -> path_prefix p last = false ->
  TagNextChildren_loop p i last select v (Item d cs)
  = (v, tag_where (fun q => path_after (p ++ [i]) q) select p (Item d cs), Ok false).
Proof.
  intros Hci Hp. apply lookup_lt_Some in Hci as Hi.
  unfold TagNextChildren_loop. cbn [data GetChildren].
  rewrite (TagAll_loop_none p last select (drop (S i) cs)).
  2:{ apply Forall_forall. intros c _ here' Hh. by apply TagAll_not_below. }
  2:{ intros m. by apply path_prefix_app_false. }
  f_equal. f_equal.
  apply (tag_where_later_children (fun q => path_after (p ++ [i]) q)
           (fun _ => true) select p i d cs Hi).
  - apply path_after_above.
  - intros k r' Hk'. rewrite path_after_sibling. by destruct (Nat.ltb_spec i k); [lia|].
  - intros k r' Hk'. rewrite path_after_sibling. by destruct (Nat.ltb_spec i k); [|lia].
Qed.

Lemma TagNextChildren_up_cons (index : nat) (rparent : list nat) (last : path)
    (select : bool) :
  TagNextChildren_up (index :: rparent) last select
  = (found <- on_item (reverse rparent)
                (TagNextChildren_loop (reverse rparent) index last select) ;;
     if found then ret true else TagNextChildren_up rparent last select).
Proof. reflexivity. Qed.

Lemma TagNextChildren_step_found (select : bool) (p l : path) (i : nat) (v : CtrlVars)
    (anchor x y : GenericTreeItem) :
  GetItem anchor (p ++ [i]) = Some x -> GetItem anchor (p ++ l) = Some y ->
  path_le (p ++ [i]) (p ++ l) = true -> path_prefix (p ++ [i]) (p ++ l) = false ->
  on_item p (TagNextChildren_loop p i (p ++ l) select) (mkCtrl v (Some anchor))
  = (mkCtrl v
       (Some (tag_where (fun q => path_after (p ++ [i]) q && path_le q (p ++ l))
                select [] anchor)),
     Ok true).
Proof.
  intros Hx Hy Hle Hpre. rewrite GetItem_app in Hx, Hy.
  destruct (GetItem anchor p) as [[d cs]|] eqn:Hpit; [|done].
  cbn [mbind option_bind GetItem GetChildren] in Hx, Hy.
  destruct (cs !! i) as [ci|] eqn:Hci; [|done].
  rewrite (on_item_run p _ (mkCtrl v (Some anchor)) (Item d cs)) by exact Hpit.
  cbn [vars _anchor].
  rewrite (TagNextChildren_loop_found select p l i v d cs ci y Hci Hy Hle Hpre).
  cbn [fst snd fmap option_fmap option_map].
  rewrite (alter_item_ext_at _
             (tag_where (fun q => path_after (p ++ [i]) q && path_le q (p ++ l))
                select ([] ++ p)) p anchor (Item d cs) Hpit) by done.
  rewrite (alter_item_tag_where _ select p [] anchor).
  f_equal. f_equal. f_equal. apply tag_where_ext. intros q. cbn [app].
  destruct (path_after (p ++ [i]) q && path_le q (p ++ l)) eqn:HP; [|apply andb_false_r].
  apply andb_true_iff in HP as [[HP1 _]%andb_true_iff HP2].
  by rewrite (path_le_sandwich p [i] l q HP1 HP2).
Qed.

Lemma TagNextChildren_step_none (select : bool) (p last : path) (i : nat) (v : CtrlVars)
    (anchor x : GenericTreeItem) :
  GetItem anchor (p ++ [i]) = Some x -> path_prefix p last = false ->
  on_item p (TagNextChildren_loop p i last select) (mkCtrl v (Some anchor))
  = (mkCtrl v
       (Some (tag_where (fun q => path_prefix p q && path_after (p ++ [i]) q)
                select [] anchor)),
     Ok false).
Proof.
  intros Hx Hp. rewrite GetItem_app in Hx.
  destruct (GetItem anchor p) as [[d cs]|] eqn:Hpit; [|done].
  cbn [mbind option_bind GetItem GetChildren] in Hx.
  destruct (cs !! i) as [ci|] eqn:Hci; [|done].
  rewrite (on_item_run p _ (mkCtrl v (Some anchor)) (Item d cs)) by exact Hpit.
  cbn [vars _anchor].
  rewrite (TagNextChildren_loop_none select p last i v d cs ci Hci Hp).
  cbn [fst snd fmap option_fmap option_map].
  rewrite (alter_item_ext_at _ (tag_where (fun q => path_after (p ++ [i]) q) select ([] ++ p))
             p anchor (Item d cs) Hpit) by done.
  by rewrite (alter_item_tag_where _ select p [] anchor).
Qed.

(** [TagNextChildren] from an item that comes before the last item and is
    not above it: it tags the items after the subtree of the item, up to
    the last item, and finds the last item. *)
Lemma TagNextChildren_up_run (select : bool) (last : path) (rp : list nat) :
  forall (i : nat) (v : CtrlVars) (anchor x y : GenericTreeItem),
    GetItem anchor (reverse rp ++ [i]) = Some x -> GetItem anchor last = Some y ->
    path_le (reverse rp ++ [i]) last = true ->
    path_prefix (reverse rp ++ [i]) last = false ->
    TagNextChildren_up (i :: rp) last select (mkCtrl v (Some anchor))
    = (mkCtrl v
         (Some (tag_where
                  (fun q => path_after (reverse rp ++ [i]) q && path_le q last)
                  select [] anchor)),
       Ok true).
Proof.
  induction rp as [|i' rp' IH]; intros i v anchor x y Hx Hy Hle Hpre;
    rewrite TagNextChildren_up_cons; unfold bind at 1.
  { change (reverse []) with (@nil nat) in *.
    pose proof (TagNextChildren_step_found select [] last i v anchor x y Hx Hy Hle Hpre) as H.
    cbn [app] in H. by rewrite H. }
  rewrite reverse_cons in *.
  destruct (path_prefix (reverse rp' ++ [i']) last) eqn:Hp.
  - apply path_prefix_spec in Hp as [l ->].
    by rewrite (TagNextChildren_step_found select _ l i v anchor x y Hx Hy Hle Hpre).
  - rewrite (TagNextChildren_step_none select _ last i v anchor x Hx Hp).
    set (p := reverse rp' ++ [i']) in *.
    assert (Hlep : path_le p last = true) by (by rewrite <- (path_le_app_not_prefix p [i])).
    set (anchor1 := tag_where _ select [] anchor).
    assert (Hpv : exists pit, GetItem anchor p = Some pit).
    { rewrite GetItem_app in Hx. destruct (GetItem anchor p); [by eexists|done]. }
    destruct Hpv as [pit Hpit].
    assert (Hx1 : GetItem anchor1 p = Some (tag_where
              (fun q => path_prefix p q && path_after (p ++ [i]) q) select ([] ++ p) pit))
      by (subst anchor1; by rewrite GetItem_tag_where, Hpit).
    assert (Hy1 : GetItem anchor1 last = Some (tag_where
              (fun q => path_prefix p q && path_after (p ++ [i]) q) select ([] ++ last) y))
      by (subst anchor1; by rewrite GetItem_tag_where, Hy).
    rewrite (IH i' v anchor1 _ _ Hx1 Hy1 Hlep Hp).
    f_equal. f_equal. f_equal. subst anchor1. rewrite tag_where_twice.
    apply tag_where_ext. intros q. cbn [app]. by apply path_after_step.
Qed.

(** The two calls at the end of [SelectItemRange], when the first item
    comes before the last one: the items of the span are tagged. *)
Lemma tag_range_run (select : bool) (v : CtrlVars) (anchor fit lit : GenericTreeItem)
    (first last : path) :
  GetItem anchor first = Some fit -> GetItem anchor last = Some lit ->
  path_le first last = true ->
  (found <- on_item first (fun v it =>
              let '(it', found) := TagAllChildrenUntilLast first it last select in
              (v, it', Ok found)) ;;
   if found then ret tt else (_ <- TagNextChildren first last select ;; ret tt))
    (mkCtrl v (Some anchor))
  = (mkCtrl v (Some (tag_where (in_span first last) select [] anchor)), Ok tt).
Proof.
  intros Hf Hl Hle. unfold bind at 1.
  rewrite (on_item_run first _ (mkCtrl v (Some anchor)) fit) by exact Hf.
  cbn [vars _anchor]. destruct (path_prefix first last) eqn:Hp.
  - apply path_prefix_spec in Hp as [r ->].
    rewrite GetItem_app, Hf in Hl. cbn [mbind option_bind] in Hl.
    rewrite (TagAll_below select fit first r lit Hl).
    cbn [fst snd fmap option_fmap option_map ret].
    rewrite (alter_item_ext_at _
               (tag_where (fun q => path_le q (first ++ r)) select ([] ++ first))
               first anchor fit Hf) by done.
    rewrite (alter_item_tag_where _ select first [] anchor).
    unfold ret. f_equal. f_equal. f_equal. apply tag_where_ext. intros q. cbn [app].
    unfold in_span.
    destruct (path_prefix first q) eqn:Hq.
    + by rewrite (path_prefix_le _ _ Hq).
    + destruct (path_le first q) eqn:H1; [|done].
      destruct (path_le q (first ++ r)) eqn:H2; [|done].
      rewrite <- (app_nil_r first) in H1.
      pose proof (path_le_sandwich first [] r q H1 H2). congruence.
  - rewrite (TagAll_not_below last select fit first Hp).
    cbn [fst snd fmap option_fmap option_map].
    rewrite (alter_item_ext_at _ (tag_where (fun _ => true) select ([] ++ first))
               first anchor fit Hf) by done.
    rewrite (alter_item_tag_where _ select first [] anchor).
    set (anchor1 := tag_where _ select [] anchor).
    destruct first as [|i0 first0] using rev_ind; [done|]. clear IHfirst0.
    unfold bind, TagNextChildren. rewrite reverse_snoc.
    assert (Hf1 : GetItem anchor1 (first0 ++ [i0])
                  = Some (tag_where
                            (fun q => path_prefix (first0 ++ [i0]) q && true) select
                            ([] ++ (first0 ++ [i0])) fit))
      by (subst anchor1; by rewrite GetItem_tag_where, Hf).
    assert (Hl1 : GetItem anchor1 last
                  = Some (tag_where
                            (fun q => path_prefix (first0 ++ [i0]) q && true) select
                            ([] ++ last) lit))
      by (subst anchor1; by rewrite GetItem_tag_where, Hl).
    pose proof (TagNextChildren_up_run select last (reverse first0) i0 v anchor1) as Hrun.
    rewrite reverse_involutive in Hrun.
    rewrite (Hrun _ _ Hf1 Hl1 Hle Hp). unfold ret.
    f_equal. f_equal. f_equal. subst anchor1. rewrite tag_where_twice.
    apply tag_where_ext. intros q. cbn [app]. unfold in_span, path_after.
    destruct (path_prefix (first0 ++ [i0]) q) eqn:Hq.
    + rewrite (path_prefix_le _ _ Hq). apply path_prefix_spec in Hq as [r ->].
      rewrite (path_le_below _ r last Hp Hle). done.
    + cbn [negb andb]. by rewrite andb_true_r, orb_false_r.
Qed.

(** [SelectItemRange] in a control with multiple selection and a current
    item, when the item chosen as the first one comes before the other. *)
Lemma SelectItemRange_run (s : CustomTreeCtrl) (anchor it1 it2 cit : GenericTreeItem)
    (item1 item2 current : path) :
  negb (HasAGWFlag (vars s) TR_MULTIPLE) && negb (HasAGWFlag (vars s) TR_EXTENDED) = false ->
  _anchor s = Some anchor ->
  GetItem anchor item1 = Some it1 -> GetItem anchor item2 = Some it2 ->
  _current (vars s) = Some current -> GetItem anchor current = Some cit ->
  let first := if _y (data it1) <? _y (data it2) then item1 else item2 in
  let last := if _y (data it1) <? _y (data it2) then item2 else item1 in
  path_le first last = true ->
  SelectItemRange item1 item2 s
  = (mkCtrl (set_select_me (vars s) None)
       (Some (tag_where (in_span first last) (IsSelected (data cit)) [] anchor)),
     Ok tt).
Proof.
  intros Hflag Ha H1 H2 Hc Hcit first last Hle.
  unfold SelectItemRange. unfold bind at 1. unfold get_vars at 1. rewrite Hflag.
  unfold bind at 1. unfold put_vars at 1. rewrite Ha.
  unfold bind at 1. unfold the_item at 1, item_at. cbn [_anchor mbind option_bind]. rewrite H1.
  unfold bind at 1. unfold the_item at 1, item_at. cbn [_anchor mbind option_bind]. rewrite H2.
  rewrite Hc.
  unfold bind at 1. unfold the_item at 1, item_at. cbn [_anchor mbind option_bind]. rewrite Hcit.
  fold first. fold last.
  assert (Hv : exists fit lit, GetItem anchor first = Some fit /\ GetItem anchor last = Some lit).
  { subst first last. destruct (_ <? _); eauto. }
  destruct Hv as (fit & lit & Hf & Hl).
  exact (tag_range_run _ _ anchor fit lit first last Hf Hl Hle).
Qed.

Lemma data_at_tag_where (P : path -> bool) (select : bool) (v v0 : CtrlVars)
    (anchor : GenericTreeItem) (q : path) :
  data_at (mkCtrl v (Some (tag_where P select [] anchor))) q
  = (fun d => if P q then SetHilight d select else d) <$> data_at (mkCtrl v0 (Some anchor)) q.
Proof.
  unfold data_at, item_at. cbn [_anchor mbind option_bind].
  rewrite GetItem_tag_where. cbn [app].
  destruct (GetItem anchor q) as [it|]; [|done]. cbn [fmap option_fmap option_map].
  by rewrite tag_where_data.
Qed.

(** The references listed by [descendants] are below the item, each
    under the child it belongs to. *)
Lemma descendants_below (item : GenericTreeItem) :
  forall (here q : path),
    q ∈ descendants here item -> exists k r, q = here ++ k :: r.
Proof.
  induction item as [d cs IH] using GenericTreeItem_ind. intros here q. cbn [descendants].
  generalize 0%nat as n.
  induction IH as [|c rest Hc _ IHrest]; intros n Hq; [by apply elem_of_nil in Hq|].
  cbn [descendants_from] in Hq.
  apply elem_of_cons in Hq as [->|Hq]; [by exists n, []|].
  apply elem_of_app in Hq as [Hq|Hq]; [|by apply (IHrest (S n))].
  destruct (Hc _ _ Hq) as (k & r & ->). exists n, (k :: r). by rewrite <- app_assoc.
Qed.

Lemma path_lt_below (here r : path) (k : nat) : path_lt here (here ++ k :: r).
Proof.
  split; [apply path_prefix_le, path_prefix_app_r|].
  intros H. rewrite <- (app_nil_r here) in H at 1. by apply app_inv_head in H.
Qed.

Lemma path_lt_siblings (here r r' : path) (n m : nat) :
  (n < m)%nat -> path_lt (here ++ n :: r) (here ++ m :: r').
Proof.
  intros Hnm. split.
  - rewrite path_le_app. cbn [path_le]. by destruct (Nat.ltb_spec n m); [|lia].
  - intros H. apply app_inv_head in H. injection H as H _. lia.
Qed.

Lemma StronglySorted_append {A} (R : A -> A -> Prop) (l1 l2 : list A) :
  StronglySorted R l1 -> StronglySorted R l2 ->
  (forall x y, x ∈ l1 -> y ∈ l2 -> R x y) ->
  StronglySorted R (l1 ++ l2).
Proof.
  induction 1 as [|x l1 Hl1 IH Hx]; intros H2 Hcross; [done|].
  cbn [app]. constructor.
  - apply IH; [done|]. intros a b Ha Hb. apply Hcross; [by right|done].
  - apply Forall_app. split; [done|].
    apply Forall_forall. intros y Hy. apply Hcross; [by left|done].
Qed.

(** The depth-first list of the items is strictly increasing for the
    order on references. *)
Lemma descendants_sorted (item : GenericTreeItem) :
  forall here : path, StronglySorted path_lt (here :: descendants here item).
Proof.
  induction item as [d cs IH] using GenericTreeItem_ind. intros here.
  constructor.
  2:{ apply Forall_forall. intros q Hq.
      destruct (descendants_below (Item d cs) here q Hq) as (k & r & ->).
      apply path_lt_below. }
  cbn [descendants].
  assert (Hgo : forall n,
    StronglySorted path_lt (descendants_from descendants here n cs) /\
    forall q, q ∈ descendants_from descendants here n cs ->
              exists k r, (n <= k)%nat /\ q = here ++ k :: r).
  { induction IH as [|c rest Hc _ IHrest]; intros n.
    { split; [constructor|]. intros q Hq. by apply elem_of_nil in Hq. }
    destruct (IHrest (S n)) as [Hs Hall]. specialize (Hc (here ++ [n])).
    assert (Hblock : forall q, q ∈ (here ++ [n]) :: descendants (here ++ [n]) c ->
                               exists r, q = here ++ n :: r).
    { intros q [->|Hq]%elem_of_cons; [by exists []|].
      destruct (descendants_below c _ q Hq) as (k & r & ->).
      exists (k :: r). by rewrite <- app_assoc. }
    cbn [descendants_from].
    change ((here ++ [n]) :: descendants (here ++ [n]) c
              ++ descendants_from descendants here (S n) rest)
      with (((here ++ [n]) :: descendants (here ++ [n]) c)
              ++ descendants_from descendants here (S n) rest).
    split.
    - apply StronglySorted_append; [exact Hc|exact Hs|].
      intros x y Hx Hy. destruct (Hblock x Hx) as [r ->].
      destruct (Hall y Hy) as (k & r' & Hk & ->). apply path_lt_siblings. lia.
    - intros q Hq. apply elem_of_app in Hq as [Hq|Hq].
      + destruct (Hblock q Hq) as [r ->]. by exists n, r.
      + destruct (Hall q Hq) as (k & r & Hk & ->). exists k, r. split; [lia|done]. }
  apply Hgo.
Qed.

(** Every item of the tree is in the depth-first list. *)
Lemma descendants_complete (item : GenericTreeItem) :
  forall (here r : path) (x : GenericTreeItem),
    r <> [] -> GetItem item r = Some x -> here ++ r ∈ descendants here item.
Proof.
  induction item as [d cs IH] using GenericTreeItem_ind. intros here r x Hr Hx.
  destruct r as [|k r]; [done|]. cbn [GetItem GetChildren] in Hx. cbn [descendants].
  destruct (cs !! k) as [c|] eqn:Hc; [|done].
  rewrite Forall_lookup in IH. pose proof (IH k c Hc) as IHc. clear IH.
  assert (Hgo : forall k' n cs', cs' !! k' = Some c ->
    here ++ (n + k')%nat :: r ∈ descendants_from descendants here n cs').
  { clear Hc. induction k' as [|k' IHk]; intros n cs' Hc';
      destruct cs' as [|c0 rest]; try done; cbn [descendants_from].
    - cbn [lookup list_lookup] in Hc'. injection Hc' as ->. rewrite Nat.add_0_r.
      destruct r as [|j r].
      + by left.
      + right. apply elem_of_app. left.
        replace (here ++ n :: j :: r) with ((here ++ [n]) ++ j :: r)
          by (by rewrite <- app_assoc).
        by apply (IHc _ _ x).
    - cbn [lookup list_lookup] in Hc'. right. apply elem_of_app. right.
      replace (n + S k')%nat with (S n + k')%nat by lia. by apply IHk. }
  exact (Hgo k 0%nat cs Hc).
Qed.

(** The depth-first list holds references of items of the tree only. *)
Lemma descendants_sound (item : GenericTreeItem) :
  forall (here q : path),
    q ∈ descendants here item -> exists r x, q = here ++ r /\ GetItem item r = Some x.
Proof.
  induction item as [d cs IH] using GenericTreeItem_ind. intros here q. cbn [descendants].
  assert (Hgo : forall n cs', (forall k c, cs' !! k = Some c -> cs !! (n + k)%nat = Some c) ->
    Forall (fun c => forall here q, q ∈ descendants here c ->
                       exists r x, q = here ++ r /\ GetItem c r = Some x) cs' ->
    q ∈ descendants_from descendants here n cs' ->
    exists r x, q = here ++ r /\ GetItem (Item d cs) r = Some x).
  { intros n cs' Hsub Hall. revert n Hsub.
    induction Hall as [|c rest Hc _ IHrest]; intros n Hsub Hq; [by apply elem_of_nil in Hq|].
    cbn [descendants_from] in Hq.
    pose proof (Hsub 0%nat c eq_refl) as Hn. rewrite Nat.add_0_r in Hn.
    apply elem_of_cons in Hq as [->|Hq].
    { exists [n], c. split; [done|]. cbn [GetItem GetChildren]. by rewrite Hn. }
    apply elem_of_app in Hq as [Hq|Hq].
    - destruct (Hc _ _ Hq) as (r & x & -> & Hx). exists (n :: r), x.
      split; [by rewrite <- app_assoc|]. cbn [GetItem GetChildren]. by rewrite Hn.
    - apply (IHrest (S n)); [|done]. intros k c' Hk.
      replace (S n + k)%nat with (n + S k)%nat by lia. by apply Hsub. }
  apply (Hgo 0%nat cs); [by intros k c Hk|exact IH].
Qed.

(** In a control with the style [TR_MULTIPLE] or
    [TR_EXTENDED] that has a current item, let [first] be [item1] when its
    cached [y] is smaller than that of [item2], and [item2] otherwise,
    [last] being the other one.  When [first] comes before [last] in the
    depth-first order of the tree, or is [last], [SelectItemRange]
    returns, and it gives the selection state of the current item to
    every item of the depth-first span from [first] to [last], both
    included, collapsed and hidden items too; it changes nothing else in
    any item, and leaves the items outside the span as they are.  The
    depth-first list of the items holds each item of the tree, and it is
    strictly increasing for the order in which the span is taken. *)
Theorem SelectItemRange_span (s : CustomTreeCtrl) (item1 item2 current : path)
    (d1 d2 cd : ItemData) :
  HasAGWFlag (vars s) TR_MULTIPLE || HasAGWFlag (vars s) TR_EXTENDED = true ->
  data_at s item1 = Some d1 -> data_at s item2 = Some d2 ->
  _current (vars s) = Some current -> data_at s current = Some cd ->
  let first := if _y d1 <? _y d2 then item1 else item2 in
  let last := if _y d1 <? _y d2 then item2 else item1 in
  path_le first last = true ->
  let s' := after (SelectItemRange item1 item2) s in
  outcome (SelectItemRange item1 item2) s = Ok tt /\
  vars s' = set_select_me (vars s) None /\
  (forall q,
     data_at s' q
     = (fun d => if in_span first last q then SetHilight d (IsSelected cd) else d)
         <$> data_at s q) /\
  (forall anchor, _anchor s = Some anchor ->
     StronglySorted path_lt (preorder anchor) /\
     (forall q, q ∈ preorder anchor <-> is_Some (GetItem anchor q))).
Proof.
  intros Hflag H1 H2 Hc Hcd first last Hle s'.
  unfold data_at, item_at in H1, H2, Hcd.
  destruct (_anchor s) as [anchor|] eqn:Ha; [|done]. cbn [mbind option_bind] in H1, H2, Hcd.
  destruct (GetItem anchor item1) as [it1|] eqn:Hit1; [|done].
  destruct (GetItem anchor item2) as [it2|] eqn:Hit2; [|done].
  destruct (GetItem anchor current) as [cit|] eqn:Hcit; [|done].
  injection H1 as <-. injection H2 as <-. injection Hcd as <-.
  assert (Hflag' : negb (HasAGWFlag (vars s) TR_MULTIPLE)
                   && negb (HasAGWFlag (vars s) TR_EXTENDED) = false).
  { rewrite <- negb_orb. by rewrite Hflag. }
  pose proof (SelectItemRange_run s anchor it1 it2 cit item1 item2 current
                Hflag' Ha Hit1 Hit2 Hc Hcit Hle) as Hrun.
  fold first last in Hrun.
  split; [unfold outcome; by rewrite Hrun|].
  split; [subst s'; unfold after; by rewrite Hrun|].
  split.
  { intros q. subst s'. unfold after. rewrite Hrun. cbn [fst].
    rewrite (data_at_tag_where _ _ _ (vars s) anchor q). by destruct s; simpl in *; subst. }
  intros anchor' [= <-]. split; [apply descendants_sorted|].
  intros q. unfold preorder. split.
  - intros [->|Hq]%elem_of_cons; [by eexists|].
    destruct (descendants_sound anchor [] q Hq) as (r & x & -> & Hx). by exists x.
  - intros [x Hx]. destruct q as [|k r]; [by left|]. right.
    by apply (descendants_complete anchor [] (k :: r) x).
Qed.

Lemma SelectItemRange_span_witness :
  let s' := after (SelectItemRange [0%nat] [1%nat]) range_example_selected in
  outcome (SelectItemRange [0%nat] [1%nat]) range_example_selected = Ok tt /\
  (IsSelected <$> data_at s' [0%nat]) = Some true /\
  (IsSelected <$> data_at s' [1%nat]) = Some true /\
  (IsSelected <$> data_at s' [2%nat]) = Some false /\
  (IsSelected <$> data_at s' []) = Some false.
Proof.
  destruct (SelectItemRange_span range_example_selected [0%nat] [1%nat] [0%nat]
              _ _ _ eq_refl eq_refl eq_refl eq_refl eq_refl eq_refl)
    as (H1 & _ & H2 & _).
  split; [exact H1|].
  rewrite !H2. repeat split; reflexivity.
Defined.

(** C6.  The claim fails on the code.  [SelectItemRange] gives the items
    of the span the selection state of the current item
    ([select = self._current.IsSelected()]) instead of selecting them:
    with a current item that is not selected, the two selected items of
    the span are not selected any more after the call.  Without a current
    item the call raises [AttributeError]. *)
Lemma SelectItemRange_deselects :
  let s := range_example (Some []) in
  let s' := after (SelectItemRange [0%nat] [1%nat]) s in
  (IsSelected <$> data_at s [0%nat]) = Some true /\
  (IsSelected <$> data_at s [1%nat]) = Some true /\
  outcome (SelectItemRange [0%nat] [1%nat]) s = Ok tt /\
  (IsSelected <$> data_at s' [0%nat]) = Some false /\
  (IsSelected <$> data_at s' [1%nat]) = Some false /\
  outcome (SelectItemRange [0%nat] [1%nat]) (range_example None) = Raise AttributeError.
Proof. vm_compute. repeat split; reflexivity. Qed.

(** ** Insertion into an empty control *)

Lemma CalculateLevel_hidden_root (v : CtrlVars) (d : ItemData) (y : Z) :
  HasAGWFlag v TR_HIDE_ROOT = true -> CalculateLevel v (Item d []) 0 y = (v, Item d [], y).
Proof. intros H. cbn [CalculateLevel for_children]. by rewrite H. Qed.

(** [AddRoot] in an empty control returns; the tree is then a root
    without children, and no event has been sent. *)
Lemma AddRoot_run (s : CustomTreeCtrl) (text : str) (ct_type image selImage : Z) :
  _anchor s = None ->
  has_newline text && negb (HasAGWFlag (vars s) TR_HAS_VARIABLE_ROW_HEIGHT) = false ->
  (ct_type <? 0) || (2 <? ct_type) = false ->
  exists v' d',
    AddRoot text ct_type image selImage s = (mkCtrl v' (Some (Item d' [])), Ok []) /\
    sent_frame (vars s) v' [].
Proof.
  intros Ha Ht Hc. unfold AddRoot. rewrite Ha, Ht, Hc.
  set (v := set_dirty (vars s) true).
  set (d := GenericTreeItem_init None text ct_type image selImage false).
  assert (Hv : sent_frame (vars s) v []).
  { subst v. unfold sent_frame. destruct (vars s); simpl. by rewrite app_nil_r. }
  assert (Hfin : forall v1 d1, sent_frame (vars s) v1 [] ->
    exists v' d',
      ((if negb (HasAGWFlag v TR_MULTIPLE)
        then mkCtrl (set_key_current (set_current (vars (mkCtrl v1 (Some (Item d1 []))))
                                        (Some [])) (Some []))
               (with_data (fun d => SetHilight d true)
                  <$> _anchor (mkCtrl v1 (Some (Item d1 []))))
        else mkCtrl v1 (Some (Item d1 []))), Ok (@nil nat))
      = (mkCtrl v' (Some (Item d' [])), Ok []) /\
      sent_frame (vars s) v' []).
  { intros v1 d1 H1. destruct (negb (HasAGWFlag v TR_MULTIPLE)).
    - eexists _, _. split; [reflexivity|]. cbn [vars].
      destruct H1 as (A & B & C). unfold sent_frame. destruct v1; simpl in *. done.
    - by exists v1, d1. }
  destruct (HasAGWFlag v TR_HIDE_ROOT) eqn:Hhide; [|by apply Hfin].
  set (s0 := mkCtrl v (Some (Item (Expand (SetHasPlus d true)) []))).
  assert (Hpos : exists v1, after CalculatePositions s0
                            = mkCtrl v1 (Some (Item (Expand (SetHasPlus d true)) [])) /\
                            sent_frame (vars s) v1 []).
  { destruct (truthy (_freezeCount v)) eqn:Hf.
    - rewrite (CalculatePositions_frozen s0) by exact Hf. cbn [_anchor s0 vars].
      eexists. split; [reflexivity|].
      destruct Hv as (A & B & C). unfold sent_frame. destruct v; simpl in *. done.
    - unfold after, CalculatePositions. cbn [_anchor s0 vars]. rewrite Hf.
      set (v0 := set_layouts v (S (layouts v))).
      assert (Hh0 : HasAGWFlag v0 TR_HIDE_ROOT = true)
        by (rewrite <- Hhide; apply HasAGWFlag_style; subst v0; by destruct v).
      assert (Hv0 : sent_frame (vars s) v0 []).
      { destruct Hv as (A & B & C). unfold sent_frame. subst v0. destruct v; simpl in *. done. }
      rewrite !(CalculateLevel_hidden_root v0 _ 2 Hh0).
      exists v0. split; [|done].
      by destruct (HasAGWFlag v0 TR_ALIGN_WINDOWS || HasAGWFlag v0 TR_ALIGN_WINDOWS_RIGHT). }
  destruct Hpos as (v1 & Hpos & Hv1). rewrite Hpos. by apply Hfin.
Qed.

(** A root and the trees below it inserted into an empty control, then
    the root deleted: the control is empty again, and one deletion event
    has been sent for each inserted item. *)
Lemma root_insert_then_delete (s : CustomTreeCtrl) (text : str)
    (ct_type image selImage : Z) (subs : list NodeSpec) :
  _anchor s = None ->
  valid_node (HasAGWFlag (vars s) TR_HAS_VARIABLE_ROW_HEIGHT)
    (Node text ct_type image selImage subs) = true ->
  let build := (_ <- AddRoot text ct_type image selImage ;; append_forest [] subs)%py in
  let built := after build s in
  let final := after (Delete []) built in
  outcome build s = Ok tt /\ GetCount s = 0%nat /\
  GetCount built
  = ((if HasAGWFlag (vars s) TR_HIDE_ROOT then 0 else 1) + forest_count subs)%nat /\
  sent (vars built) = sent (vars s) /\
  outcome (Delete []) built = Ok tt /\ _anchor final = None /\ GetCount final = 0%nat /\
  exists evs,
    sent (vars final) = sent (vars s) ++ evs /\
    length evs = node_count (Node text ct_type image selImage subs) /\
    Forall (fun e => evtType e = wxEVT_TREE_DELETE_ITEM) evs.
Proof.
  intros Ha Hvalid build built final. cbn [valid_node] in Hvalid.
  apply andb_true_iff in Hvalid as [Hvalid Hsubs].
  apply andb_true_iff in Hvalid as [Ht Hc]. apply negb_true_iff in Ht, Hc.
  destruct (AddRoot_run s text ct_type image selImage Ha Ht Hc) as (v1 & d1 & Hroot & Hv1).
  set (s1 := mkCtrl v1 (Some (Item d1 []))) in *.
  assert (Hall : Forall append_tree_spec subs)
    by (apply Forall_forall; intros n _; apply append_tree_run).
  destruct (append_trees_run subs Hall s1 [] (Item d1 []) eq_refl) as (v2 & Hrun & Hv2).
  { subst s1. cbn [vars]. destruct Hv1 as (A & _). by rewrite (HasAGWFlag_style _ _ _ A). }
  fold (append_forest [] subs) in Hrun.
  cbn [s1 _anchor vars data GetChildren alter_item app fmap option_fmap option_map] in Hrun, Hv2.
  set (root := Item d1 (List.map (realize d1) subs)) in *.
  assert (Hbuild : build s = (mkCtrl v2 (Some root), Ok tt)).
  { subst build. unfold bind. rewrite Hroot. exact Hrun. }
  assert (Hbuilt : built = mkCtrl v2 (Some root))
    by (subst built; unfold after; by rewrite Hbuild).
  destruct (Delete_run built [] root) as (v3 & Hdel & Hv3); [by rewrite Hbuilt|].
  assert (Hfinal : final = mkCtrl v3 None).
  { subst final. unfold after. rewrite Hdel. by rewrite Hbuilt. }
  pose proof (sent_frame_trans _ _ _ _ _ Hv1 Hv2) as Hv12. cbn [app] in Hv12.
  destruct Hv12 as (A12 & _ & S12). rewrite app_nil_r in S12.
  split; [unfold outcome; by rewrite Hbuild|].
  split; [unfold GetCount; by rewrite Ha|].
  split.
  { rewrite Hbuilt. rewrite (GetCount_style (vars s) v2) by done.
    unfold GetCount. cbn [vars _anchor]. subst root. rewrite GetChildrenCount_unfold.
    rewrite realize_forest_count. destruct (HasAGWFlag (vars s) TR_HIDE_ROOT); simpl; lia. }
  split; [by rewrite Hbuilt|].
  split; [unfold outcome; by rewrite Hdel|].
  split; [by rewrite Hfinal|].
  split; [by rewrite Hfinal|].
  exists (delete_event <$> (descendants [] root ++ [[]])).
  rewrite Hfinal. cbn [vars]. rewrite Hbuilt in Hv3. cbn [vars] in Hv3.
  destruct Hv3 as (_ & _ & S3). rewrite S3, S12.
  split; [done|]. split.
  - rewrite length_fmap, length_app, descendants_length. subst root.
    rewrite GetChildrenCount_unfold, realize_forest_count. cbn [node_count length].
    unfold forest_count. lia.
  - apply Forall_fmap, Forall_forall. done.
Qed.

(** C8.  Below an item of the tree, append a forest of [N] items (each
    item with [AppendItem], the items below it in turn), then call
    [Delete] once for each tree of the forest.  The insertions return and
    add [N] to the item count; the deletions return, the tree and the
    item count are what they were before the insertions, and exactly [N]
    events have been sent in all, each of them a deletion event.  In
    general, [Delete] of an item returns and sends one deletion event
    for each item of its subtree, the items below first and the item
    itself last, and nothing else.  In an empty control, a root and [N - 1]
    items appended below it, then [Delete] of the root: the control is
    empty again and [N] deletion events have been sent. *)
Theorem insert_then_delete (s : CustomTreeCtrl) (parent : path) (pit : GenericTreeItem)
    (ns : list NodeSpec) :
  item_at s parent = Some pit ->
  forallb (valid_node (HasAGWFlag (vars s) TR_HAS_VARIABLE_ROW_HEIGHT)) ns = true ->
  let first := parent ++ [length (GetChildren pit)] in
  let built := after (append_forest parent ns) s in
  let final := after (delete_times first (length ns)) built in
  outcome (append_forest parent ns) s = Ok tt /\
  GetCount built = (GetCount s + forest_count ns)%nat /\
  sent (vars built) = sent (vars s) /\
  outcome (delete_times first (length ns)) built = Ok tt /\
  _anchor final = _anchor s /\
  GetCount final = GetCount s /\
  (exists evs,
     sent (vars final) = sent (vars s) ++ evs /\ length evs = forest_count ns /\
     Forall (fun e => evtType e = wxEVT_TREE_DELETE_ITEM) evs) /\
  (forall s0 item it,
     item_at s0 item = Some it ->
     outcome (Delete item) s0 = Ok tt /\
     _anchor (after (Delete item) s0) = without_item item (_anchor s0) /\
     sent (vars (after (Delete item) s0))
     = sent (vars s0) ++ (delete_event <$> (descendants item it ++ [item])) /\
     length (descendants item it ++ [item]) = S (GetChildrenCount it)) /\
  (forall s0 text ct_type image selImage subs,
     _anchor s0 = None ->
     valid_node (HasAGWFlag (vars s0) TR_HAS_VARIABLE_ROW_HEIGHT)
       (Node text ct_type image selImage subs) = true ->
     let build := (_ <- AddRoot text ct_type image selImage ;; append_forest [] subs)%py in
     outcome build s0 = Ok tt /\
     outcome (Delete []) (after build s0) = Ok tt /\
     GetCount (after (Delete []) (after build s0)) = GetCount s0 /\
     exists evs,
       sent (vars (after (Delete []) (after build s0))) = sent (vars s0) ++ evs /\
       length evs = node_count (Node text ct_type image selImage subs) /\
       Forall (fun e => evtType e = wxEVT_TREE_DELETE_ITEM) evs).
Proof.
  intros Hit Hvalid first built final.
  assert (Hall : Forall append_tree_spec ns)
    by (apply Forall_forall; intros n _; apply append_tree_run).
  destruct (append_trees_run ns Hall s parent pit Hit Hvalid) as (v1 & Hrun & Hv1).
  fold (append_forest parent ns) in Hrun.
  assert (Hbuilt : built = mkCtrl v1
            (alter_item
               (fun _ => Item (data pit) (GetChildren pit ++ List.map (realize (data pit)) ns))
               parent <$> _anchor s))
    by (subst built; unfold after; by rewrite Hrun).
  assert (Hitb : item_at built parent
                 = Some (Item (data pit) (GetChildren pit ++ List.map (realize (data pit)) ns))).
  { rewrite Hbuilt, item_at_alter_item. by rewrite Hit. }
  destruct (delete_times_run _ built parent _ _ Hitb) as (v2 & evs & Hrun2 & Hv2 & Hlen & Hdel).
  rewrite length_map in Hrun2. fold first in Hrun2.
  assert (Hfinal : final = mkCtrl v2 (_anchor s)).
  { subst final. unfold after. rewrite Hrun2. cbn [fst]. f_equal.
    rewrite Hbuilt. cbn [_anchor]. rewrite alter_anchor_compose.
    rewrite (alter_anchor_ext _ (fun _ => pit) parent _ pit Hit) by (by destruct pit).
    by apply (alter_anchor_id parent _ pit). }
  destruct Hv1 as (A1 & H1 & S1). rewrite app_nil_r in S1.
  assert (Hvb : vars built = v1) by (by rewrite Hbuilt).
  rewrite Hvb in Hv2. destruct Hv2 as (A2 & H2 & S2).
  split; [unfold outcome; by rewrite Hrun|].
  split.
  { rewrite Hbuilt. rewrite (GetCount_style (vars s) v1) by done.
    unfold GetCount. cbn [vars _anchor]. unfold item_at in Hit.
    destruct (_anchor s) as [t|]; [|done]. simpl in Hit. cbn [fmap option_fmap option_map].
    rewrite (GetChildrenCount_alter_item parent t pit _ (forest_count ns) Hit).
    - destruct (negb _); lia.
    - destruct pit as [pd cs]. rewrite !GetChildrenCount_unfold. cbn [data GetChildren].
      by rewrite subtrees_count_app, realize_forest_count. }
  split; [by rewrite Hvb|].
  split; [unfold outcome; by rewrite Hrun2|].
  split; [by rewrite Hfinal|].
  split.
  { rewrite Hfinal. rewrite (GetCount_style (vars s) v2) by congruence. by destruct s. }
  split.
  { exists evs. rewrite Hfinal. cbn [vars]. rewrite S2, S1.
    by rewrite Hlen, realize_forest_count. }
  split.
  { intros s0 item it Hit0.
    destruct (Delete_run s0 item it Hit0) as (v' & Hrun0 & (_ & _ & S0)).
    unfold outcome, after. rewrite Hrun0. cbn [fst snd vars _anchor].
    repeat split; try done.
    rewrite length_app, descendants_length. simpl. lia. }
  intros s0 text ct_type image selImage subs Ha0 Hvalid0 build.
  destruct (root_insert_then_delete s0 text ct_type image selImage subs Ha0 Hvalid0)
    as (B1 & B2 & _ & _ & B3 & _ & B4 & B5).
  fold build in B1, B3, B4, B5.
  split; [exact B1|]. split; [exact B3|]. split; [by rewrite B4, B2|exact B5].
Qed.

Lemma insert_then_delete_witness :
  let built := after (append_forest [0%nat] small_forest) small_tree in
  let final := after (delete_times [0; 0]%nat 2) built in
  GetCount small_tree = 3%nat /\ GetCount built = 7%nat /\ GetCount final = 3%nat /\
  exists evs, sent (vars final) = evs /\ length evs = 4%nat.
Proof.
  destruct (insert_then_delete small_tree [0%nat] (new_item 1 []) small_forest eq_refl eq_refl)
    as (_ & H1 & _ & _ & _ & H2 & (evs & H3 & H4 & _) & _ & _).
  split; [reflexivity|]. split; [exact H1|]. split; [exact H2|].
  exists evs. split; [exact H3|exact H4].
Defined.

(** * Further properties *)

(** ** Nested freezing *)

Lemma repeat_Freeze_run (k : nat) :
  forall s : CustomTreeCtrl,
    let s' := after (repeat_call k Freeze) s in
    outcome (repeat_call k Freeze) s = Ok tt /\
    _freezeCount (vars s') = _freezeCount (vars s) + Z.of_nat k /\
    refreshes (vars s') = refreshes (vars s) /\ layouts (vars s') = layouts (vars s) /\
    _dirty (vars s') = _dirty (vars s) /\ _anchor s' = _anchor s.
Proof.
  induction k as [|k IH]; intros s.
  - unfold after, outcome. simpl. repeat split; try done. lia.
  - cbn [repeat_call]. unfold after, outcome, bind.
    change (Freeze s) with (mkCtrl (set_freezeCount (vars s) (_freezeCount (vars s) + 1))
                              (_anchor s), Ok tt).
    destruct (IH (mkCtrl (set_freezeCount (vars s) (_freezeCount (vars s) + 1)) (_anchor s)))
      as (H1 & H2 & H3 & H4 & H5 & H6).
    unfold after, outcome in *. cbn [vars _anchor] in *.
    rewrite H1, H2, H3, H4, H5, H6. destruct (vars s); simpl. repeat split; try done. lia.
Qed.

Lemma repeat_Thaw_run (k : nat) :
  forall s : CustomTreeCtrl,
    Z.of_nat k <= _freezeCount (vars s) ->
    let s' := after (repeat_call k Thaw) s in
    outcome (repeat_call k Thaw) s = Ok tt /\
    _freezeCount (vars s') = _freezeCount (vars s) - Z.of_nat k /\
    refreshes (vars s')
    = Nat.add (refreshes (vars s))
        (if (0 <? k)%nat && (_freezeCount (vars s) - Z.of_nat k =? 0) then 1%nat else 0%nat) /\
    layouts (vars s') = layouts (vars s) /\
    _dirty (vars s') = _dirty (vars s) /\ _anchor s' = _anchor s.
Proof.
  induction k as [|k IH]; intros s Hk.
  - unfold after, outcome. simpl. repeat split; try done; lia.
  - cbn [repeat_call]. unfold after, outcome, bind.
    rewrite Thaw_run by lia.
    set (s1 := mkCtrl _ (_anchor s)).
    assert (Hs1 : _freezeCount (vars s1) = _freezeCount (vars s) - 1 /\
                  refreshes (vars s1)
                  = Nat.add (refreshes (vars s))
                      (if _freezeCount (vars s) - 1 =? 0 then 1%nat else 0%nat) /\
                  layouts (vars s1) = layouts (vars s) /\
                  _dirty (vars s1) = _dirty (vars s) /\ _anchor s1 = _anchor s).
    { subst s1. cbn [vars _anchor]. unfold truthy. rewrite negb_involutive.
      destruct (_freezeCount (vars s) - 1 =? 0); destruct (vars s); simpl;
        repeat split; try done; lia. }
    destruct Hs1 as (F1 & R1 & L1 & D1 & A1).
    destruct (IH s1) as (H1 & H2 & H3 & H4 & H5 & H6); [lia|].
    unfold after, outcome in *.
    rewrite H1, H2, H3, H4, H5, H6, F1, R1, L1, D1, A1.
    repeat split; try done; try lia.
    replace (_freezeCount (vars s) - 1 - Z.of_nat k)
      with (_freezeCount (vars s) - Z.of_nat (S k)) by lia.
    cbn [Nat.ltb Nat.leb andb].
    destruct (Z.eqb_spec (_freezeCount (vars s) - 1) 0),
             (Z.eqb_spec (_freezeCount (vars s) - Z.of_nat (S k)) 0);
      destruct k; simpl; lia.
Qed.

(** Freezing [k] times and thawing [k] times brings the freeze count
    back; the control is repainted once if this thaws it completely, and
    not at all if it was frozen before.  The layout, the dirty flag and
    the items are untouched.  A [Thaw] of a control that is not frozen
    raises and changes nothing. *)
Theorem Freeze_Thaw_nested (s : CustomTreeCtrl) (k : nat) :
  0 <= _freezeCount (vars s) ->
  let m := (repeat_call k Freeze ;; repeat_call k Thaw)%py in
  let s' := after m s in
  outcome m s = Ok tt /\
  _freezeCount (vars s') = _freezeCount (vars s) /\
  refreshes (vars s')
  = Nat.add (refreshes (vars s))
      (if (0 <? k)%nat && (_freezeCount (vars s) =? 0) then 1%nat else 0%nat) /\
  layouts (vars s') = layouts (vars s) /\ _dirty (vars s') = _dirty (vars s) /\
  _anchor s' = _anchor s /\
  (_freezeCount (vars s) = 0 ->
   exists msg, Thaw s = (s, Raise (Exception msg))).
Proof.
  intros Hn m s'.
  destruct (repeat_Freeze_run k s) as (F1 & F2 & F3 & F4 & F5 & F6).
  destruct (repeat_Thaw_run k (after (repeat_call k Freeze) s)) as (T1 & T2 & T3 & T4 & T5 & T6);
    [lia|].
  assert (Hs' : s' = after (repeat_call k Thaw) (after (repeat_call k Freeze) s)).
  { subst s' m. unfold after, outcome, bind in *.
    destruct (repeat_call k Freeze s) as [s1 r1]. simpl in F1. by subst r1. }
  assert (Ho : outcome m s = Ok tt).
  { subst m. unfold after, outcome, bind in *.
    destruct (repeat_call k Freeze s) as [s1 r1]. simpl in F1. by subst r1. }
  rewrite Hs', T2, T3, T4, T5, T6, F2, F3, F4, F5, F6.
  replace (_freezeCount (vars s) + Z.of_nat k - Z.of_nat k) with (_freezeCount (vars s)) by lia.
  repeat split; try done.
  intros H0. eexists. unfold Thaw, bind, get_vars. rewrite H0. reflexivity.
Qed.

Lemma Freeze_Thaw_nested_witness :
  let m := (repeat_call 3 Freeze ;; repeat_call 3 Thaw)%py in
  outcome m radio_example = Ok tt /\
  _freezeCount (vars (after m radio_example)) = 0 /\
  refreshes (vars (after m radio_example)) = 1%nat.
Proof.
  destruct (Freeze_Thaw_nested radio_example 3) as (H1 & H2 & H3 & _).
  - vm_compute. discriminate.
  - exact (conj H1 (conj H2 H3)).
Defined.

(** ** Insertion: errors, position, state of the new item *)

Lemma AddRoot_rejects (s : CustomTreeCtrl) (text : str) (ct_type image selImage : Z) :
  _anchor s <> None \/ rejected (vars s) text ct_type false = true ->
  exists msg, AddRoot text ct_type image selImage s = (s, Raise (Exception msg)).
Proof.
  intros H. unfold AddRoot. destruct (_anchor s) as [t|]; [by eexists|].
  destruct H as [H|H]; [done|]. unfold rejected in H. cbn [andb] in H.
  rewrite orb_false_r in H.
  destruct (has_newline text && negb (HasAGWFlag (vars s) TR_HAS_VARIABLE_ROW_HEIGHT));
    [by eexists|].
  cbn [orb] in H. rewrite H. by eexists.
Qed.

(** Arguments that [DoInsertItem] rejects (a text with a line break in a
    control without [TR_HAS_VARIABLE_ROW_HEIGHT], a type that is not 0, 1
    or 2, a separator whose text is not blank) are rejected before
    anything is done, whatever the parent and the index: [DoInsertItem]
    and [PrependItem] raise, and the control is as before.
    [InsertItemByIndex] does the same below a parent; without a parent
    it is [AddRoot], which knows no separator: it raises and changes
    nothing when the control has a root or the text or the type is at
    fault, and makes the item the root otherwise.  [AppendItem], which
    makes no separator, raises and changes nothing when the text or the
    type is at fault, below an item of the tree or without a parent. *)
Theorem insertion_rejects (s : CustomTreeCtrl) (parentId : option path) (previous : Z)
    (text : str) (ct_type image selImage : Z) (separator : bool) :
  rejected (vars s) text ct_type separator = true ->
  (exists msg,
     DoInsertItem parentId previous text ct_type image selImage separator s
     = (s, Raise (Exception msg))) /\
  (exists msg,
     PrependItem parentId text ct_type image selImage separator s
     = (s, Raise (Exception msg))) /\
  (is_Some parentId \/ _anchor s <> None \/ rejected (vars s) text ct_type false = true ->
     exists msg,
       InsertItemByIndex parentId previous text ct_type image selImage separator s
       = (s, Raise (Exception msg))) /\
  (parentId = None -> _anchor s = None -> rejected (vars s) text ct_type false = false ->
     exists v' d',
       InsertItemByIndex parentId previous text ct_type image selImage separator s
       = (mkCtrl v' (Some (Item d' [])), Ok [])) /\
  (rejected (vars s) text ct_type false = true ->
   match parentId with Some parent => is_Some (item_at s parent) | None => True end ->
   exists msg,
     AppendItem parentId text ct_type image selImage s = (s, Raise (Exception msg))).
Proof.
  intros Hrej.
  assert (Hdo : forall pid prev sep, rejected (vars s) text ct_type sep = true ->
            exists msg, DoInsertItem pid prev text ct_type image selImage sep s
                        = (s, Raise (Exception msg))).
  { intros pid prev sep Hr. unfold rejected in Hr. unfold DoInsertItem, bind, get_vars.
    destruct (has_newline text && negb (HasAGWFlag (vars s) TR_HAS_VARIABLE_ROW_HEIGHT));
      [by eexists|].
    destruct ((ct_type <? 0) || (2 <? ct_type)) eqn:Hc; [by eexists|].
    apply orb_false_iff in Hc as [HB HC]. rewrite HB, HC in Hr. cbn [orb] in Hr.
    rewrite Hr. by eexists. }
  split; [by apply Hdo|]. split; [by apply Hdo|]. split; [|split].
  - intros H. unfold InsertItemByIndex. destruct parentId as [parent|]; [by apply Hdo|].
    apply AddRoot_rejects. destruct H as [[x Hx]|H]; [done|exact H].
  - intros -> Ha Hok. unfold InsertItemByIndex. unfold rejected in Hok. cbn [andb] in Hok.
    rewrite orb_false_r in Hok. apply orb_false_iff in Hok as [Hok Hc2].
    apply orb_false_iff in Hok as [Ht Hc1].
    destruct (AddRoot_run s text ct_type image selImage Ha Ht) as (v' & d' & Hrun & _);
      [by rewrite Hc1, Hc2|].
    by exists v', d'.
  - intros Hr Hp. unfold AppendItem. destruct parentId as [parent|].
    + destruct Hp as [pit Hit]. unfold bind, the_item. rewrite Hit. by apply Hdo.
    + apply AddRoot_rejects. by right.
Qed.

Lemma insertion_rejects_witness :
  let nbsp_x := [0xA0; 0x78]%N in
  (exists msg,
     DoInsertItem (Some []) 0 nbsp_x 0 (-1) (-1) true radio_example
     = (radio_example, Raise (Exception msg))) /\
  (exists msg,
     InsertItemByIndex None 0 nbsp_x 0 (-1) (-1) true radio_example
     = (radio_example, Raise (Exception msg))).
Proof.
  intros nbsp_x.
  destruct (insertion_rejects radio_example (Some []) 0 nbsp_x 0 (-1) (-1) true eq_refl)
    as (H1 & _).
  destruct (insertion_rejects radio_example None 0 nbsp_x 0 (-1) (-1) true eq_refl)
    as (_ & _ & H2 & _).
  split; [exact H1|]. apply H2. right. left. discriminate.
Defined.

(** A control has one root: [AddRoot], and every insertion without a
    parent, raises in a control that has a root, and changes nothing. *)
Theorem only_one_root (s : CustomTreeCtrl) (text : str) (ct_type image selImage : Z) :
  _anchor s <> None ->
  (exists msg, AddRoot text ct_type image selImage s = (s, Raise (Exception msg))) /\
  (exists msg, AppendItem None text ct_type image selImage s = (s, Raise (Exception msg))) /\
  (forall previous separator,
     exists msg,
       DoInsertItem None previous text ct_type image selImage separator s
       = (s, Raise (Exception msg))) /\
  (forall previous separator,
     exists msg,
       InsertItemByIndex None previous text ct_type image selImage separator s
       = (s, Raise (Exception msg))).
Proof.
  intros Ha.
  assert (Hroot : exists msg, AddRoot text ct_type image selImage s
                              = (s, Raise (Exception msg))).
  { unfold AddRoot. destruct (_anchor s); [by eexists|done]. }
  split; [exact Hroot|]. split; [exact Hroot|]. split; [|intros; exact Hroot].
  intros previous separator. unfold DoInsertItem, bind, get_vars.
  destruct (has_newline text && _); [by eexists|].
  destruct ((ct_type <? 0) || _); [by eexists|].
  destruct (separator && _); [by eexists|exact Hroot].
Qed.

Lemma only_one_root_witness :
  exists msg, AddRoot (str_of "again") 0 (-1) (-1) radio_example = (radio_example, Raise (Exception msg)).
Proof.
  refine (proj1 (only_one_root radio_example (str_of "again") 0 (-1) (-1) _)). discriminate.
Defined.

Lemma data_alter_item_elsewhere (f : GenericTreeItem -> GenericTreeItem) (p : path) :
  (forall it, data (f it) = data it) ->
  forall (q : path) (t : GenericTreeItem),
    path_prefix p q = false \/ q = p ->
    data <$> GetItem (alter_item f p t) q = data <$> GetItem t q.
Proof.
  intros Hf. induction p as [|i p IH]; intros q t Hq.
  - destruct Hq as [Hq| ->]; [done|]. simpl. by rewrite Hf.
  - destruct t as [d cs]. destruct q as [|j q]; [done|].
    cbn [alter_item GetItem GetChildren data].
    destruct (decide (j = i)) as [->|Hne].
    + rewrite list_lookup_alter_eq. destruct (cs !! i) as [c|]; [|done].
      cbn [fmap option_fmap option_map]. apply IH.
      destruct Hq as [Hq|Hq]; [left|right; congruence].
      cbn [path_prefix] in Hq. by rewrite Nat.eqb_refl in Hq.
    + by rewrite list_lookup_alter_ne.
Qed.

Lemma list_insert_at_lookup_lt {A} (k j : nat) (x : A) (l : list A) :
  (j < k)%nat -> (k <= length l)%nat -> list_insert_at k x l !! j = l !! j.
Proof.
  intros Hj Hk. unfold list_insert_at.
  rewrite lookup_app_l by (rewrite length_take; lia). by rewrite lookup_take_lt.
Qed.

Lemma list_insert_at_lookup_eq {A} (k : nat) (x : A) (l : list A) :
  (k <= length l)%nat -> list_insert_at k x l !! k = Some x.
Proof.
  intros Hk. unfold list_insert_at.
  rewrite lookup_app_r by (rewrite length_take; lia).
  rewrite length_take, Nat.min_l by lia. by rewrite Nat.sub_diag.
Qed.

Lemma list_insert_at_lookup_gt {A} (k j : nat) (x : A) (l : list A) :
  (k <= j)%nat -> (k <= length l)%nat -> list_insert_at k x l !! S j = l !! j.
Proof.
  intros Hj Hk. unfold list_insert_at.
  rewrite lookup_app_r by (rewrite length_take; lia).
  rewrite length_take, Nat.min_l by lia.
  replace (S j - k)%nat with (S (j - k)) by lia.
  change ((x :: drop k l) !! S (j - k)) with (drop k l !! (j - k)%nat).
  rewrite lookup_drop. f_equal. lia.
Qed.

Lemma insert_position_le (previous : Z) (len : nat) :
  (insert_position previous len <= len)%nat.
Proof. unfold insert_position. destruct (previous <? 0) eqn:H; lia. Qed.

(** [DoInsertItem] below an item of the tree, with arguments it accepts. *)
Lemma DoInsertItem_run (s : CustomTreeCtrl) (parent : path) (pit : GenericTreeItem)
    (previous : Z) (text : str) (ct_type image selImage : Z) (separator : bool) :
  item_at s parent = Some pit ->
  rejected (vars s) text ct_type separator = false ->
  fits_ssize_t previous (length (GetChildren pit)) = true ->
  let k := insert_position previous (length (GetChildren pit)) in
  DoInsertItem (Some parent) previous text ct_type image selImage separator s =
    (mkCtrl
       (renumber_refs (fun j => if (k <=? j)%nat then S j else j) parent
          (set_dirty (vars s) true))
       (alter_item
          (fun _ =>
             Item (data pit)
               (list_insert_at k
                  (Item (GenericTreeItem_init (Some (data pit)) text ct_type image selImage
                           separator) [])
                  (GetChildren pit)))
          parent <$> _anchor s),
     Ok (parent ++ [k])).
Proof.
  intros Hit Hrej Hfit k. unfold rejected in Hrej.
  apply orb_false_iff in Hrej as [Hrej Hs]. apply orb_false_iff in Hrej as [Hrej Hc2].
  apply orb_false_iff in Hrej as [Ht Hc1].
  unfold DoInsertItem, bind, get_vars. rewrite Ht, Hc1, Hc2, Hs. cbn [orb].
  unfold put_vars, the_item.
  assert (Hit' : item_at {| vars := set_dirty (vars s) true; _anchor := _anchor s |} parent
                 = Some pit) by exact Hit.
  rewrite Hit'. rewrite (Insert_run _ parent pit _ _ Hit' Hfit).
  unfold ret. cbn [vars _anchor]. fold k. f_equal. f_equal.
  unfold item_at in Hit. destruct (_anchor s) as [anchor|]; [|done]. simpl in Hit. simpl.
  f_equal. by apply (alter_item_ext_at _ _ _ _ pit Hit).
Qed.

Lemma subtrees_count_insert (k : nat) (x : GenericTreeItem) (cs : list GenericTreeItem) :
  subtrees_count (list_insert_at k x cs) = S (GetChildrenCount x + subtrees_count cs).
Proof.
  unfold list_insert_at. rewrite subtrees_count_app.
  change (x :: drop k cs) with ([x] ++ drop k cs). rewrite subtrees_count_app.
  rewrite <- (take_drop k cs) at 3. rewrite subtrees_count_app.
  unfold subtrees_count at 2. cbn [foldr]. lia.
Qed.

(** [DoInsertItem(parent, previous, ...)] with accepted arguments and an
    index that fits a C [ssize_t] returns the new item, placed among the
    children of [parent] where Python's [list.insert(previous, item)]
    puts it: at [previous] when that is an index of the list, at the end
    when it is larger, counted from the end (and not before the first
    place) when it is negative.  The children before that place keep
    their references, those from that place on move up by one, each with
    its subtree; the data of no other item changes; the control has one
    item more, is dirty, and no event has been sent.  With an index that
    does not fit (one below the range, or above it and above the number
    of children, as every index above the range is for a Python list),
    the call raises [OverflowError]: the control is marked dirty by then,
    and nothing else has changed. *)
Theorem DoInsertItem_places (s : CustomTreeCtrl) (parent : path) (pit : GenericTreeItem)
    (previous : Z) (text : str) (ct_type image selImage : Z) (separator : bool) :
  item_at s parent = Some pit ->
  rejected (vars s) text ct_type separator = false ->
  PY_SSIZE_T_MIN <= previous <= PY_SSIZE_T_MAX ->
  let len := length (GetChildren pit) in
  let k := insert_position previous len in
  let s' := after (DoInsertItem (Some parent) previous text ct_type image selImage separator) s in
  outcome (DoInsertItem (Some parent) previous text ct_type image selImage separator) s
  = Ok (parent ++ [k]) /\
  Z.of_nat k = (if previous <? 0 then Z.max 0 (previous + Z.of_nat len)
                else Z.min previous (Z.of_nat len)) /\
  item_at s' (parent ++ [k])
  = Some (Item (GenericTreeItem_init (Some (data pit)) text ct_type image selImage separator)
            []) /\
  (forall j r, (j < k)%nat -> item_at s' (parent ++ j :: r) = item_at s (parent ++ j :: r)) /\
  (forall j r, (k <= j)%nat -> item_at s' (parent ++ S j :: r) = item_at s (parent ++ j :: r)) /\
  (forall q, path_prefix parent q = false \/ q = parent -> data_at s' q = data_at s q) /\
  GetCount s' = S (GetCount s) /\
  sent (vars s') = sent (vars s) /\ _dirty (vars s') = true /\
  (forall index,
     index < PY_SSIZE_T_MIN \/ (PY_SSIZE_T_MAX < index /\ Z.of_nat len < index) ->
     DoInsertItem (Some parent) index text ct_type image selImage separator s
     = (mkCtrl (set_dirty (vars s) true) (_anchor s), Raise OverflowError)).
Proof.
  intros Hit Hrej Hfit len k s'.
  pose proof (DoInsertItem_run s parent pit previous text ct_type image selImage separator
                Hit Hrej (fits_ssize_t_range _ _ Hfit)) as Hrun.
  fold len k in Hrun. cbv zeta in Hrun.
  pose proof (insert_position_le previous len) as Hk. fold k in Hk.
  set (child := Item (GenericTreeItem_init (Some (data pit)) text ct_type image selImage
                        separator) []) in *.
  assert (Hs' : s' = (mkCtrl
       (renumber_refs (fun j => if (k <=? j)%nat then S j else j) parent
          (set_dirty (vars s) true))
       (alter_item (fun _ => Item (data pit) (list_insert_at k child (GetChildren pit)))
          parent <$> _anchor s)))
    by (subst s'; unfold after; by rewrite Hrun).
  assert (Hbelow : forall r,
            item_at s' (parent ++ r)
            = GetItem (Item (data pit) (list_insert_at k child (GetChildren pit))) r).
  { intros r. rewrite Hs'. by apply (item_at_alter_below s _ parent r pit). }
  assert (Hold : forall r, item_at s (parent ++ r) = GetItem pit r).
  { intros r. unfold item_at in *. destruct (_anchor s) as [t|]; [|done]. simpl in *.
    rewrite GetItem_app, Hit. done. }
  split; [unfold outcome; by rewrite Hrun|].
  split.
  { subst k. unfold insert_position. destruct (Z.ltb_spec previous 0); lia. }
  split.
  { rewrite Hbelow. cbn [GetItem GetChildren].
    by rewrite list_insert_at_lookup_eq. }
  split.
  { intros j r Hj. rewrite Hbelow, Hold. cbn [GetItem GetChildren].
    by rewrite list_insert_at_lookup_lt. }
  split.
  { intros j r Hj. rewrite Hbelow, Hold. cbn [GetItem GetChildren].
    by rewrite list_insert_at_lookup_gt. }
  split.
  { intros q Hq. rewrite Hs'. unfold data_at, item_at. cbn [_anchor].
    unfold item_at in Hit. destruct (_anchor s) as [t|]; [|done].
    cbn [fmap option_fmap option_map mbind option_bind] in *.
    rewrite (alter_item_ext_at _
               (fun it => Item (data it) (list_insert_at k child (GetChildren pit)))
               parent t pit Hit) by done.
    by apply (data_alter_item_elsewhere _ parent). }
  split.
  { rewrite Hs'. rewrite (GetCount_style (vars s)).
    2:{ unfold renumber_refs. by destruct (vars s). }
    unfold GetCount. cbn [vars _anchor]. unfold item_at in Hit.
    destruct (_anchor s) as [t|]; [|done]. simpl in Hit. cbn [fmap option_fmap option_map].
    rewrite (GetChildrenCount_alter_item parent t pit _ 1 Hit).
    - destruct (negb _); lia.
    - destruct pit as [pd cs]. rewrite !GetChildrenCount_unfold. cbn [data GetChildren].
      rewrite subtrees_count_insert. subst child. cbn [GetChildrenCount length foldr]. lia. }
  split; [rewrite Hs'; cbn [vars]; unfold renumber_refs; by destruct (vars s)|].
  split; [rewrite Hs'; cbn [vars]; unfold renumber_refs; by destruct (vars s)|].
  intros index Hout. unfold rejected in Hrej.
  apply orb_false_iff in Hrej as [Hrej Hs]. apply orb_false_iff in Hrej as [Hrej Hc2].
  apply orb_false_iff in Hrej as [Ht Hc1].
  unfold DoInsertItem, bind, get_vars. rewrite Ht, Hc1, Hc2, Hs. cbn [orb].
  unfold put_vars, the_item.
  assert (Hit' : item_at {| vars := set_dirty (vars s) true; _anchor := _anchor s |} parent
                 = Some pit) by exact Hit.
  rewrite Hit'. rewrite (Insert_overflow _ parent pit _ _ Hit'); [done|].
  unfold fits_ssize_t. apply andb_false_iff. fold len.
  destruct Hout as [Hlo|[Hhi Hlen]]; [left|right]; apply Z.leb_gt; lia.
Qed.

Lemma DoInsertItem_places_witness :
  let blank := [0x2003; 0xA0]%N in
  outcome (DoInsertItem (Some []) (-1) blank 0 (-1) (-1) true) radio_example = Ok [2%nat] /\
  GetCount (after (DoInsertItem (Some []) (-1) blank 0 (-1) (-1) true) radio_example)
  = S (GetCount radio_example) /\
  outcome (DoInsertItem (Some []) (2 ^ 63) blank 0 (-1) (-1) true) radio_example
  = Raise OverflowError.
Proof.
  intros blank.
  assert (Hfit : PY_SSIZE_T_MIN <= -1 <= PY_SSIZE_T_MAX) by (vm_compute; split; discriminate).
  destruct (DoInsertItem_places radio_example [] radio_example_root (-1) blank 0 (-1) (-1)
              true eq_refl eq_refl Hfit) as (H1 & _ & _ & _ & _ & _ & H2 & _ & _ & H3).
  split; [exact H1|]. split; [exact H2|].
  refine (f_equal snd (H3 (2 ^ 63) _)).
  right. vm_compute. split; reflexivity.
Defined.

(** The item [DoInsertItem] creates, when it accepts the arguments and
    the index fits a C [ssize_t], has the text and the type it was
    given; it is not checked, not selected, collapsed, shown, has no
    children, and it is enabled unless its parent is a radio button that
    is not checked. *)
Theorem new_item_state (s : CustomTreeCtrl) (parent : path) (pit : GenericTreeItem)
    (previous : Z) (text : str) (ct_type image selImage : Z) (separator : bool) :
  item_at s parent = Some pit ->
  rejected (vars s) text ct_type separator = false ->
  PY_SSIZE_T_MIN <= previous <= PY_SSIZE_T_MAX ->
  let m := DoInsertItem (Some parent) previous text ct_type image selImage separator in
  exists q d,
    outcome m s = Ok q /\ item_at (after m s) q = Some (Item d []) /\
    _text d = text /\ GetType d = ct_type /\ IsChecked d = 0 /\ Is3State d = false /\
    IsSelected d = false /\ IsExpanded d = false /\ IsHidden d = false /\
    IsEnabled d = negb (unchecked_radio (data pit)).
Proof.
  intros Hit Hrej Hfit m.
  pose proof (DoInsertItem_run s parent pit previous text ct_type image selImage separator
                Hit Hrej (fits_ssize_t_range _ _ Hfit)) as Hrun. cbv zeta in Hrun.
  eexists _, _. split; [subst m; unfold outcome; by rewrite Hrun|].
  split.
  { subst m. unfold after. rewrite Hrun. cbn [fst].
    rewrite (item_at_alter_below s _ parent _ pit _ Hit). cbn [GetItem GetChildren].
    rewrite list_insert_at_lookup_eq by apply insert_position_le. reflexivity. }
  unfold unchecked_radio. rewrite (IsChecked_checked (data pit)).
  unfold IsEnabled, IsHidden, IsChecked, GetValue, Is3State, GetType.
  cbn. repeat split; by destruct ((_type (data pit) =? 2) && negb (truthy _)).
Qed.

Lemma new_item_state_witness :
  exists q d,
    item_at (after (DoInsertItem (Some [1%nat]) 0 (str_of "below") 1 (-1) (-1) false) radio_example) q
    = Some (Item d []) /\ IsEnabled d = false.
Proof.
  destruct (new_item_state radio_example [1%nat] (new_item 2 [new_item 0 []]) 0
              (str_of "below") 1 (-1) (-1) false eq_refl eq_refl
              ltac:(vm_compute; split; discriminate))
    as (q & d & _ & H1 & _ & _ & _ & _ & _ & _ & _ & H2).
  exists q, d. split; [exact H1|exact H2].
Defined.

(** ** Deletion: what is removed, what is kept *)

Lemma subtrees_count_delete (k : nat) (x : GenericTreeItem) (cs : list GenericTreeItem) :
  cs !! k = Some x ->
  subtrees_count cs = S (GetChildrenCount x + subtrees_count (delete k cs)).
Proof.
  revert k. induction cs as [|c cs IH]; intros k Hk; [done|].
  destruct k as [|k]; cbn [lookup list_lookup] in Hk.
  - injection Hk as ->. change (delete 0%nat (x :: cs)) with cs.
    unfold subtrees_count. cbn [foldr]. lia.
  - specialize (IH k Hk). change (delete (S k) (c :: cs)) with (c :: delete k cs).
    unfold subtrees_count in *. cbn [foldr]. rewrite IH. lia.
Qed.

(** Replacing an item by one with [k] items less below it. *)
Lemma GetChildrenCount_alter_item_less (p : path) (t pit X : GenericTreeItem) (k : nat) :
  GetItem t p = Some pit ->
  GetChildrenCount pit = (GetChildrenCount X + k)%nat ->
  GetChildrenCount t = (GetChildrenCount (alter_item (fun _ => X) p t) + k)%nat.
Proof.
  intros Hp HX.
  rewrite <- (alter_item_id p t pit Hp) at 1.
  rewrite <- (alter_item_compose (fun _ => X) (fun _ => pit) p t).
  apply (GetChildrenCount_alter_item p _ X pit k); [|done].
  by rewrite GetItem_alter_item, Hp.
Qed.

(** The items that are not below the removed child are found again at
    their renumbered reference. *)
Lemma data_after_removal (parent : path) (k : nat) :
  forall (q : path) (t : GenericTreeItem),
    path_prefix (parent ++ [k]) q = false ->
    data <$> GetItem
               (alter_item (fun pit => Item (data pit) (delete k (GetChildren pit))) parent t)
               (after_removal parent k q)
    = data <$> GetItem t q.
Proof.
  unfold after_removal. induction parent as [|i parent IH]; intros q t Hq.
  - destruct t as [d cs]. destruct q as [|j q]; [done|].
    cbn [app path_prefix] in Hq. rewrite andb_true_r in Hq. apply Nat.eqb_neq in Hq.
    cbn [renumber alter_item GetItem GetChildren data].
    destruct (Nat.ltb_spec k j).
    + rewrite list_lookup_delete_ge by lia. by replace (S (pred j)) with j by lia.
    + by rewrite list_lookup_delete_lt by lia.
  - destruct t as [d cs]. destruct q as [|j q]; [done|].
    cbn [app path_prefix] in Hq. cbn [renumber].
    destruct (Nat.eqb_spec i j) as [->|Hne].
    + cbn [alter_item GetItem GetChildren data]. rewrite list_lookup_alter_eq.
      destruct (cs !! j) as [c|]; [|done]. cbn [fmap option_fmap option_map].
      by apply IH.
    + cbn [alter_item GetItem GetChildren data].
      by rewrite list_lookup_alter_ne by done.
Qed.

Lemma after_removal_not_below (parent q : path) (k : nat) :
  path_prefix parent q = false \/ q = parent -> after_removal parent k q = q.
Proof.
  unfold after_removal. revert q. induction parent as [|i parent IH]; intros q Hq.
  - destruct Hq as [Hq| ->]; [done|]. done.
  - destruct q as [|j q]; [done|]. cbn [renumber].
    destruct (Nat.eqb_spec i j) as [->|Hne]; [|done]. f_equal. apply IH.
    destruct Hq as [Hq|Hq]; [left|right; congruence].
    cbn [path_prefix] in Hq. by rewrite Nat.eqb_refl in Hq.
Qed.

(** What [DeleteChildren] does to the references the control keeps. *)
Lemma GenericTreeItem_DeleteChildren_refs (item : GenericTreeItem) :
  forall (v : CtrlVars) (here : path),
    let v' := GenericTreeItem_DeleteChildren v here item in
    _current v' = _current v /\ _key_current v' = _key_current v /\
    _dirty v' = _dirty v /\
    (_select_me v = None -> _select_me v' = None) /\
    (forall q, _select_me v = Some q -> path_prefix here q = false \/ q = here ->
               _select_me v' = Some q).
Proof.
  induction item as [d cs IH] using GenericTreeItem_ind. intros v here.
  cbn [GenericTreeItem_DeleteChildren].
  generalize 0%nat as n. revert v.
  induction IH as [|c rest Hc _ IHrest]; intros v n; [done|].
  set (v1 := SendDeleteEvent v (here ++ [n])).
  set (v2 := GenericTreeItem_DeleteChildren v1 (here ++ [n]) c).
  set (v3 := if ref_eqb (here ++ [n]) (_select_me v2) then set_select_me v2 None else v2).
  assert (H1 : _current v1 = _current v /\ _key_current v1 = _key_current v /\
               _dirty v1 = _dirty v /\ _select_me v1 = _select_me v)
    by (subst v1; unfold SendDeleteEvent, ProcessEvent; by destruct v).
  destruct H1 as (C1 & K1 & D1 & S1).
  destruct (Hc v1 (here ++ [n])) as (C2 & K2 & D2 & N2 & S2). fold v2 in C2, K2, D2, N2, S2.
  assert (H3 : _current v3 = _current v2 /\ _key_current v3 = _key_current v2 /\
               _dirty v3 = _dirty v2)
    by (subst v3; destruct (ref_eqb _ _); [by destruct v2|done]).
  destruct H3 as (C3 & K3 & D3).
  destruct (IHrest v3 (S n)) as (C4 & K4 & D4 & N4 & S4).
  split; [congruence|]. split; [congruence|]. split; [congruence|]. split.
  - intros Hn. apply N4. assert (Hv2 : _select_me v2 = None) by (apply N2; congruence).
    unfold v3. by rewrite Hv2.
  - intros q Hq Hb. apply S4; [|exact Hb].
    assert (Hq2 : _select_me v2 = Some q).
    { apply S2; [congruence|]. destruct Hb as [Hb| ->].
      - left. by apply path_prefix_app_false.
      - left. apply path_prefix_app_cons. }
    subst v3. rewrite Hq2. cbn [ref_eqb].
    destruct (path_eqb (here ++ [n]) q) eqn:He; [|done].
    apply path_eqb_eq in He as <-. destruct Hb as [Hb|Hb].
    + by rewrite path_prefix_app_r in Hb.
    + rewrite <- (app_nil_r here) in Hb at 2. by apply app_inv_head in Hb.
Qed.

Lemma Delete_unfold (s : CustomTreeCtrl) (item : path) (it : GenericTreeItem) :
  item_at s item = Some it ->
  Delete item s = remove_item item (mkCtrl (Delete_vars (vars s) item it) (_anchor s)).
Proof. intros Hit. unfold Delete, bind, the_item. by rewrite Hit. Qed.

Lemma Delete_vars_dirty (v : CtrlVars) (item : path) (it : GenericTreeItem) :
  _dirty (Delete_vars v item it) = true /\ _agwStyle (Delete_vars v item it) = _agwStyle v.
Proof.
  unfold Delete_vars.
  set (v0 := set_dirty v true).
  set (v1 := if IsDescendantOf item (_key_current v0) then _ else v0).
  set (v2 := if IsDescendantOf item (_select_me v1) then _ else v1).
  set (v3 := if IsDescendantOf item (_current v2) then _ else v2).
  assert (H0 : _dirty v0 = true /\ _agwStyle v0 = _agwStyle v) by (by destruct v).
  assert (H1 : _dirty v1 = _dirty v0 /\ _agwStyle v1 = _agwStyle v0)
    by (unfold v1; destruct (IsDescendantOf item (_key_current v0)); [by destruct v0|done]).
  assert (H2 : _dirty v2 = _dirty v1 /\ _agwStyle v2 = _agwStyle v1)
    by (unfold v2; destruct (IsDescendantOf item (_select_me v1)); [by destruct v1|done]).
  assert (H3 : _dirty v3 = _dirty v2 /\ _agwStyle v3 = _agwStyle v2)
    by (unfold v3; destruct (IsDescendantOf item (_current v2)); [by destruct v2|done]).
  destruct (GenericTreeItem_DeleteChildren_refs it v3 item) as (_ & _ & D4 & _).
  destruct (GenericTreeItem_DeleteChildren_events it v3 item) as (A4 & _).
  set (v4 := GenericTreeItem_DeleteChildren v3 item it) in *.
  assert (H5 : _dirty (SendDeleteEvent v4 item) = _dirty v4 /\
               _agwStyle (SendDeleteEvent v4 item) = _agwStyle v4)
    by (unfold SendDeleteEvent, ProcessEvent; by destruct v4).
  set (v5 := SendDeleteEvent v4 item) in *.
  assert (H6 : _dirty (if ref_eqb item (_select_me v5) then set_select_me v5 None else v5)
               = _dirty v5 /\
               _agwStyle (if ref_eqb item (_select_me v5) then set_select_me v5 None else v5)
               = _agwStyle v5)
    by (destruct (ref_eqb item (_select_me v5)); [by destruct v5|done]).
  destruct H0, H1, H2, H3, H5, H6. split; congruence.
Qed.

(** [Delete] of a child: the child and all that is below it are gone, the
    children after it move down by one, every other item is found again
    with its data, at the same reference if it is not a later child of
    the parent or below one; the item count goes down by the size of the
    removed subtree. *)
Theorem Delete_removes (s : CustomTreeCtrl) (parent : path) (k : nat)
    (pit it : GenericTreeItem) :
  item_at s parent = Some pit -> GetChildren pit !! k = Some it ->
  let item := parent ++ [k] in
  let s' := after (Delete item) s in
  outcome (Delete item) s = Ok tt /\
  length <$> (GetChildren <$> item_at s' parent) = Some (pred (length (GetChildren pit))) /\
  (forall j r, (j < k)%nat -> item_at s' (parent ++ j :: r) = item_at s (parent ++ j :: r)) /\
  (forall j r, (k <= j)%nat -> item_at s' (parent ++ j :: r) = item_at s (parent ++ S j :: r)) /\
  (forall q, path_prefix item q = false ->
             data_at s' (after_removal parent k q) = data_at s q) /\
  (forall q, path_prefix parent q = false \/ q = parent -> data_at s' q = data_at s q) /\
  GetCount s = (GetCount s' + S (GetChildrenCount it))%nat /\
  _dirty (vars s') = true.
Proof.
  intros Hpit Hit item s'.
  assert (Hitem : item_at s item = Some it) by (by apply (item_at_child s parent k pit it)).
  pose proof (Delete_unfold s item it Hitem) as Hrun.
  unfold remove_item in Hrun. subst item. rewrite GetParent_snoc in Hrun.
  cbn [vars _anchor] in Hrun.
  set (v' := renumber_refs _ parent _) in Hrun.
  assert (Hs' : s' = mkCtrl v'
            (alter_item (fun pit => Item (data pit) (delete k (GetChildren pit))) parent
               <$> _anchor s))
    by (subst s'; unfold after; by rewrite Hrun).
  destruct (Delete_vars_dirty (vars s) (parent ++ [k]) it) as [Hd Hstyle].
  assert (Hv' : _dirty v' = true /\ _agwStyle v' = _agwStyle (vars s)).
  { subst v'. unfold renumber_refs.
    destruct (Delete_vars (vars s) (parent ++ [k]) it); simpl in *. done. }
  assert (Hparent : item_at s' parent = Some (Item (data pit) (delete k (GetChildren pit)))).
  { rewrite Hs', item_at_alter_item. by rewrite Hpit. }
  assert (Hbelow : forall r,
            item_at s' (parent ++ r) = GetItem (Item (data pit) (delete k (GetChildren pit))) r).
  { intros r. unfold item_at in *. rewrite Hs' in *. cbn [_anchor] in *.
    destruct (_anchor s) as [t|]; [|done]. cbn [fmap option_fmap option_map mbind option_bind] in *.
    by rewrite GetItem_app, Hparent. }
  assert (Hold : forall r, item_at s (parent ++ r) = GetItem pit r).
  { intros r. unfold item_at in *. destruct (_anchor s) as [t|]; [|done]. simpl in *.
    by rewrite GetItem_app, Hpit. }
  split; [unfold outcome; by rewrite Hrun|].
  split.
  { rewrite Hparent. cbn [fmap option_fmap option_map GetChildren]. f_equal.
    rewrite length_delete by (by eexists). lia. }
  split.
  { intros j r Hj. rewrite Hbelow, Hold. cbn [GetItem GetChildren].
    by rewrite list_lookup_delete_lt. }
  split.
  { intros j r Hj. rewrite Hbelow, Hold. cbn [GetItem GetChildren].
    by rewrite list_lookup_delete_ge. }
  split.
  { intros q Hq. rewrite Hs'. unfold data_at, item_at. cbn [_anchor].
    destruct (_anchor s) as [t|]; [|done].
    cbn [fmap option_fmap option_map mbind option_bind].
    by apply data_after_removal. }
  split.
  { intros q Hq. rewrite Hs'. unfold data_at, item_at. cbn [_anchor].
    destruct (_anchor s) as [t|]; [|done].
    cbn [fmap option_fmap option_map mbind option_bind].
    by apply (data_alter_item_elsewhere _ parent). }
  split; [|rewrite Hs'; apply Hv'].
  rewrite Hs'. rewrite (GetCount_style (vars s) v') by apply Hv'.
  unfold GetCount. cbn [vars _anchor]. unfold item_at in Hpit.
  destruct (_anchor s) as [t|]; [|done]. simpl in Hpit. cbn [fmap option_fmap option_map].
  rewrite (alter_item_ext_at _ (fun _ => Item (data pit) (delete k (GetChildren pit)))
             parent t pit Hpit) by done.
  rewrite (GetChildrenCount_alter_item_less parent t pit
             (Item (data pit) (delete k (GetChildren pit))) (S (GetChildrenCount it)) Hpit).
  - destruct (negb _); lia.
  - destruct pit as [pd cs]. rewrite !GetChildrenCount_unfold. cbn [data GetChildren] in *.
    rewrite (subtrees_count_delete k it cs Hit). lia.
Qed.

Lemma Delete_removes_witness :
  outcome (Delete [0%nat]) radio_example = Ok tt /\
  GetCount radio_example = (GetCount (after (Delete [0%nat]) radio_example) + 2)%nat.
Proof.
  destruct (Delete_removes radio_example [] 0 radio_example_root
              (Item (set_checked (data (new_item 2 [])) 1) [new_item 0 []]) eq_refl eq_refl)
    as (H1 & _ & _ & _ & _ & _ & H2 & _).
  exact (conj H1 H2).
Defined.

Lemma ref_eqb_not_below (item : path) (r : option path) :
  (forall q, r = Some q -> path_prefix item q = false) -> ref_eqb item r = false.
Proof.
  destruct r as [q|]; [|done]. intros H. cbn [ref_eqb].
  destruct (path_eqb item q) eqn:He; [|done].
  apply path_eqb_prefix in He. by rewrite (H q eq_refl) in He.
Qed.

(** The references [Delete] has computed when it unlinks a child. *)
Lemma Delete_vars_refs (v : CtrlVars) (parent : path) (k : nat) (it : GenericTreeItem) :
  let item := parent ++ [k] in
  let v' := Delete_vars v item it in
  _current v' = (if IsDescendantOf item (_current v) then None else _current v) /\
  _key_current v' = (if IsDescendantOf item (_key_current v) then None else _key_current v) /\
  _select_me v'
  = (if IsDescendantOf item (_current v) || IsDescendantOf item (_select_me v)
     then Some parent else _select_me v).
Proof.
  intros item v'. subst v'. unfold Delete_vars. fold item.
  assert (Hpar : fst <$> GetParent item = Some parent)
    by (subst item; by rewrite GetParent_snoc).
  rewrite Hpar.
  set (v0 := set_dirty v true).
  set (v1 := if IsDescendantOf item (_key_current v0) then _ else v0).
  set (v2 := if IsDescendantOf item (_select_me v1) then _ else v1).
  set (v3 := if IsDescendantOf item (_current v2) then _ else v2).
  assert (H0 : _current v0 = _current v /\ _key_current v0 = _key_current v /\
               _select_me v0 = _select_me v) by (by destruct v).
  destruct H0 as (C0 & K0 & S0).
  assert (H1 : _current v1 = _current v /\
               _key_current v1
               = (if IsDescendantOf item (_key_current v) then None else _key_current v) /\
               _select_me v1 = _select_me v).
  { unfold v1. rewrite K0. destruct (IsDescendantOf item (_key_current v)).
    - rewrite <- C0, <- S0. by destruct v0.
    - done. }
  destruct H1 as (C1 & K1 & S1).
  assert (H2 : _current v2 = _current v /\ _key_current v2 = _key_current v1 /\
               _select_me v2
               = (if IsDescendantOf item (_select_me v) then Some parent else _select_me v)).
  { unfold v2. rewrite S1. destruct (IsDescendantOf item (_select_me v)).
    - rewrite <- C1. by destruct v1.
    - done. }
  destruct H2 as (C2 & K2 & S2).
  assert (H3 : _current v3 = (if IsDescendantOf item (_current v) then None else _current v) /\
               _key_current v3 = _key_current v1 /\
               _select_me v3
               = (if IsDescendantOf item (_current v) || IsDescendantOf item (_select_me v)
                  then Some parent else _select_me v)).
  { unfold v3. rewrite C2. destruct (IsDescendantOf item (_current v)).
    - rewrite <- K2. by destruct v2.
    - done. }
  destruct H3 as (C3 & K3 & S3).
  assert (Hnb : forall q, _select_me v3 = Some q -> path_prefix item q = false).
  { intros q Hq. rewrite S3 in Hq.
    destruct (IsDescendantOf item (_current v) || IsDescendantOf item (_select_me v)) eqn:Hb.
    - injection Hq as <-. subst item. apply path_prefix_app_cons.
    - apply orb_false_iff in Hb as [_ Hb]. rewrite Hq in Hb. exact Hb. }
  destruct (GenericTreeItem_DeleteChildren_refs it v3 item) as (C4 & K4 & _ & N4 & S4).
  set (v4 := GenericTreeItem_DeleteChildren v3 item it) in *.
  assert (S4' : _select_me v4 = _select_me v3).
  { destruct (_select_me v3) as [q|] eqn:Hq; [|by apply N4].
    apply S4; [done|]. left. by apply Hnb. }
  assert (H5 : _current (SendDeleteEvent v4 item) = _current v4 /\
               _key_current (SendDeleteEvent v4 item) = _key_current v4 /\
               _select_me (SendDeleteEvent v4 item) = _select_me v4)
    by (unfold SendDeleteEvent, ProcessEvent; by destruct v4).
  set (v5 := SendDeleteEvent v4 item) in *. destruct H5 as (C5 & K5 & S5).
  rewrite (ref_eqb_not_below item (_select_me v5)).
  2:{ intros q Hq. apply Hnb. congruence. }
  split; [congruence|]. split; congruence.
Qed.

(** [Delete] keeps no reference to what it deletes: a current item, a key
    item or an item to select that was in the deleted subtree is
    forgotten, the parent becoming the item to select when the current
    item or the item to select goes; the references the control still
    has afterwards denote items of the tree, with the data they had. *)
Theorem Delete_leaves_no_stale_reference (s : CustomTreeCtrl) (parent : path) (k : nat)
    (pit it : GenericTreeItem) :
  item_at s parent = Some pit -> GetChildren pit !! k = Some it ->
  ref_valid s (_current (vars s)) -> ref_valid s (_key_current (vars s)) ->
  ref_valid s (_select_me (vars s)) ->
  let item := parent ++ [k] in
  let s' := after (Delete item) s in
  ref_valid s' (_current (vars s')) /\ ref_valid s' (_key_current (vars s')) /\
  ref_valid s' (_select_me (vars s')) /\
  (IsDescendantOf item (_current (vars s)) = true ->
   _current (vars s') = None /\ _select_me (vars s') = Some parent) /\
  (IsDescendantOf item (_key_current (vars s)) = true -> _key_current (vars s') = None) /\
  (IsDescendantOf item (_select_me (vars s)) = true -> _select_me (vars s') = Some parent) /\
  (forall q, _current (vars s) = Some q -> path_prefix item q = false ->
     _current (vars s') = Some (after_removal parent k q) /\
     data_at s' (after_removal parent k q) = data_at s q).
Proof.
  intros Hpit Hit Vc Vk Vs item s'.
  assert (Hitem : item_at s item = Some it) by (by apply (item_at_child s parent k pit it)).
  pose proof (Delete_unfold s item it Hitem) as Hrun.
  unfold remove_item in Hrun. subst item. rewrite GetParent_snoc in Hrun.
  cbn [vars _anchor] in Hrun.
  destruct (Delete_vars_refs (vars s) parent k it) as (C & K & S).
  set (item := parent ++ [k]) in *.
  set (vd := Delete_vars (vars s) item it) in *.
  set (f := fun j => if (k <? j)%nat then pred j else j) in *.
  assert (Hs' : s' = mkCtrl (renumber_refs f parent vd)
            (alter_item (fun pit => Item (data pit) (delete k (GetChildren pit))) parent
               <$> _anchor s))
    by (subst s'; unfold after; by rewrite Hrun).
  assert (Hrefs : _current (vars s') = after_removal parent k <$> _current vd /\
                  _key_current (vars s') = after_removal parent k <$> _key_current vd /\
                  _select_me (vars s') = after_removal parent k <$> _select_me vd).
  { rewrite Hs'. cbn [vars]. unfold renumber_refs, after_removal. by destruct vd. }
  destruct Hrefs as (C' & K' & S').
  assert (Hdata : forall q, path_prefix item q = false ->
                            data_at s' (after_removal parent k q) = data_at s q).
  { intros q Hq. rewrite Hs'. unfold data_at, item_at. cbn [_anchor].
    destruct (_anchor s) as [t|]; [|done].
    cbn [fmap option_fmap option_map mbind option_bind]. by apply data_after_removal. }
  assert (Hvalid : forall q, path_prefix item q = false -> is_Some (item_at s q) ->
                             is_Some (item_at s' (after_removal parent k q))).
  { intros q Hq [x Hx]. specialize (Hdata q Hq). unfold data_at in Hdata.
    rewrite Hx in Hdata. destruct (item_at s' _); [by eexists|done]. }
  assert (Hparent : path_prefix item parent = false) by apply path_prefix_app_cons.
  assert (Vp : is_Some (item_at s parent)) by (by eexists).
  assert (Hkeep : forall r : option path,
            ref_valid s r ->
            ref_valid s' (after_removal parent k
                            <$> (if IsDescendantOf item r then None else r))).
  { intros r Vr q Hq. destruct r as [q0|]; [|done]. cbn [IsDescendantOf] in Hq.
    destruct (path_prefix item q0) eqn:Hb; [done|]. injection Hq as <-.
    apply Hvalid; [done|]. by apply Vr. }
  split; [rewrite C', C; by apply Hkeep|].
  split; [rewrite K', K; by apply Hkeep|].
  split.
  { rewrite S', S. intros q Hq.
    destruct (IsDescendantOf item (_current (vars s)) || IsDescendantOf item (_select_me (vars s)))
      eqn:Hb.
    - injection Hq as <-. by apply Hvalid.
    - apply orb_false_iff in Hb as [_ Hb].
      destruct (_select_me (vars s)) as [q0|] eqn:Hq0; [|done]. injection Hq as <-.
      apply Hvalid; [exact Hb|]. by apply Vs. }
  split.
  { intros Hb. rewrite C', C, S', S, Hb. cbn [orb fmap option_fmap option_map].
    split; [done|]. f_equal. apply after_removal_not_below. by right. }
  split; [intros Hb; by rewrite K', K, Hb|].
  split.
  { intros Hb. rewrite S', S, Hb, orb_true_r. cbn [fmap option_fmap option_map].
    f_equal. apply after_removal_not_below. by right. }
  intros q Hq Hnb. split; [|by apply Hdata].
  rewrite C', C, Hq. cbn [IsDescendantOf]. by rewrite Hnb.
Qed.

Lemma Delete_leaves_no_stale_reference_witness :
  let s := range_example (Some [1%nat]) in
  _current (vars (after (Delete [1%nat]) s)) = None /\
  _select_me (vars (after (Delete [1%nat]) s)) = Some [].
Proof.
  destruct (Delete_leaves_no_stale_reference (range_example (Some [1%nat])) [] 1
              (Item (Expand (set_y (data (new_item 0 [])) 2))
                 [laid_out 10 true; laid_out 20 true; laid_out 30 false])
              (laid_out 20 true) eq_refl eq_refl) as (_ & _ & _ & H & _).
  - intros q [= <-]. by eexists.
  - intros q H. discriminate H.
  - intros q H. discriminate H.
  - exact (H eq_refl).
Defined.

(** [DeleteChildren(item)]: the item stays, with its data and without
    children; one deletion event has been sent for each item that was
    below it, in depth-first order, and none for the item itself; the
    data of the other items is as before, and the item count has gone
    down by the number of items that were below the item. *)
Theorem DeleteChildren_empties (s : CustomTreeCtrl) (item : path) (it : GenericTreeItem) :
  item_at s item = Some it ->
  let s' := after (DeleteChildren item) s in
  outcome (DeleteChildren item) s = Ok tt /\
  item_at s' item = Some (Item (data it) []) /\
  sent (vars s') = sent (vars s) ++ (delete_event <$> descendants item it) /\
  (forall q, path_prefix item q = false \/ q = item -> data_at s' q = data_at s q) /\
  GetCount s = (GetCount s' + GetChildrenCount it)%nat /\
  _dirty (vars s') = true.
Proof.
  intros Hit s'.
  assert (Hrun : exists v',
    DeleteChildren item s
    = (mkCtrl v' (alter_item (fun _ => Item (data it) []) item <$> _anchor s), Ok tt) /\
    sent_frame (vars s) v' (delete_event <$> descendants item it) /\ _dirty v' = true).
  { unfold DeleteChildren, bind, the_item. rewrite Hit.
    unfold get_vars, put_vars, put_item. cbn [vars _anchor].
    set (v0 := set_dirty (vars s) true).
    set (v1 := if negb (ref_eqb item (_key_current v0)) && _ then _ else v0).
    set (v2 := if IsDescendantOf item (_select_me v1) then _ else v1).
    set (v3 := if negb (ref_eqb item (_current v2)) && _ then _ else v2).
    eexists. split; [reflexivity|].
    assert (H0 : sent_frame (vars s) v0 [] /\ _dirty v0 = true)
      by (unfold sent_frame; subst v0; destruct (vars s); simpl; by rewrite app_nil_r).
    assert (H1 : sent_frame v0 v1 [] /\ _dirty v1 = _dirty v0).
    { unfold v1. destruct (negb (ref_eqb item (_key_current v0)) && _);
        [|split; [apply sent_frame_refl|done]].
      unfold sent_frame. destruct v0; simpl. by rewrite app_nil_r. }
    assert (H2 : sent_frame v1 v2 [] /\ _dirty v2 = _dirty v1).
    { unfold v2. destruct (IsDescendantOf item (_select_me v1));
        [|split; [apply sent_frame_refl|done]].
      unfold sent_frame. destruct v1; simpl. by rewrite app_nil_r. }
    assert (H3 : sent_frame v2 v3 [] /\ _dirty v3 = _dirty v2).
    { unfold v3. destruct (negb (ref_eqb item (_current v2)) && _);
        [|split; [apply sent_frame_refl|done]].
      unfold sent_frame. destruct v2; simpl. by rewrite app_nil_r. }
    destruct H0 as [F0 D0], H1 as [F1 D1], H2 as [F2 D2], H3 as [F3 D3].
    destruct (GenericTreeItem_DeleteChildren_refs it v3 item) as (_ & _ & D4 & _).
    split; [|congruence].
    pose proof (sent_frame_trans _ _ _ _ _
                  (sent_frame_trans _ _ _ _ _ (sent_frame_trans _ _ _ _ _ F0 F1) F2) F3) as F03.
    exact (sent_frame_trans _ _ _ _ _ F03 (GenericTreeItem_DeleteChildren_events it v3 item)). }
  destruct Hrun as (v' & Hrun & (Hstyle & _ & Hsent) & Hdirty).
  assert (Hs' : s' = mkCtrl v' (alter_item (fun _ => Item (data it) []) item <$> _anchor s))
    by (subst s'; unfold after; by rewrite Hrun).
  split; [unfold outcome; by rewrite Hrun|].
  split; [rewrite Hs', item_at_alter_item; by rewrite Hit|].
  split; [by rewrite Hs'|].
  split.
  { intros q Hq. rewrite Hs'. unfold data_at, item_at. cbn [_anchor].
    unfold item_at in Hit. destruct (_anchor s) as [t|]; [|done].
    cbn [fmap option_fmap option_map mbind option_bind] in *.
    rewrite (alter_item_ext_at _ (fun x => Item (data x) []) item t it Hit) by done.
    by apply (data_alter_item_elsewhere _ item). }
  split; [|by rewrite Hs'].
  rewrite Hs'. rewrite (GetCount_style (vars s) v') by done.
  unfold GetCount. cbn [vars _anchor]. unfold item_at in Hit.
  destruct (_anchor s) as [t|]; [|done]. simpl in Hit. cbn [fmap option_fmap option_map].
  rewrite (GetChildrenCount_alter_item_less item t it (Item (data it) [])
             (GetChildrenCount it) Hit); [|done].
  destruct (negb _); lia.
Qed.

Lemma DeleteChildren_empties_witness :
  item_at (after (DeleteChildren [0%nat]) radio_example) [0%nat]
  = Some (Item (set_checked (data (new_item 2 [])) 1) []) /\
  sent (vars (after (DeleteChildren [0%nat]) radio_example)) = [delete_event [0; 0]%nat].
Proof.
  destruct (DeleteChildren_empties radio_example [0%nat]
              (Item (set_checked (data (new_item 2 [])) 1) [new_item 0 []]) eq_refl)
    as (_ & H1 & H2 & _).
  exact (conj H1 H2).
Defined.

(** [DeleteAllItems()] empties the control: no root, no item, no current
    item, key item or item to select; one deletion event has been sent
    for each item there was, the root last.  On an empty control it does
    nothing. *)
Theorem DeleteAllItems_empties (s : CustomTreeCtrl) :
  let s' := after DeleteAllItems s in
  outcome DeleteAllItems s = Ok tt /\ _anchor s' = None /\ GetCount s' = 0%nat /\
  (_anchor s = None -> s' = s) /\
  (forall anchor, _anchor s = Some anchor ->
     sent (vars s') = sent (vars s) ++ (delete_event <$> (descendants [] anchor ++ [[]])) /\
     length (descendants [] anchor ++ [[]]) = S (GetChildrenCount anchor) /\
     _current (vars s') = None /\ _key_current (vars s') = None /\
     _select_me (vars s') = None).
Proof.
  intros s'. subst s'. unfold after, outcome, DeleteAllItems.
  destruct (_anchor s) as [anchor|] eqn:Ha.
  2:{ cbn [fst snd]. rewrite Ha. repeat split; try done. unfold GetCount. by rewrite Ha. }
  assert (Hit : item_at s [] = Some anchor) by (unfold item_at; by rewrite Ha).
  rewrite (Delete_unfold s [] anchor Hit). unfold remove_item.
  change (GetParent []) with (@None (path * nat)). cbn [fst snd vars _anchor].
  split; [done|]. split; [done|]. split; [done|]. split; [done|].
  intros anchor' [= <-].
  destruct (Delete_run s [] anchor Hit) as (v' & Hrun & (_ & _ & Hsent)).
  rewrite (Delete_unfold s [] anchor Hit) in Hrun. unfold remove_item in Hrun.
  change (GetParent []) with (@None (path * nat)) in Hrun. cbn [vars _anchor] in Hrun.
  injection Hrun as Hv'. rewrite Hv'.
  split; [exact Hsent|].
  split; [rewrite length_app, descendants_length; simpl; lia|].
  rewrite <- Hv'. unfold Delete_vars.
  change (fst <$> GetParent []) with (@None path).
  set (v0 := set_dirty (vars s) true).
  set (v1 := if IsDescendantOf [] (_key_current v0) then _ else v0).
  set (v2 := if IsDescendantOf [] (_select_me v1) then _ else v1).
  set (v3 := if IsDescendantOf [] (_current v2) then _ else v2).
  assert (H1 : _key_current v1 = None).
  { unfold v1. destruct (_key_current v0) as [q|] eqn:Hq; cbn [IsDescendantOf path_prefix].
    - by destruct v0.
    - done. }
  assert (H2 : _key_current v2 = None /\ _select_me v2 = None).
  { unfold v2. destruct (_select_me v1) as [q|] eqn:Hq; cbn [IsDescendantOf path_prefix].
    - rewrite <- H1. by destruct v1.
    - done. }
  assert (H3 : _key_current v3 = None /\ _select_me v3 = None /\ _current v3 = None).
  { destruct H2 as [K2 S2]. unfold v3.
    destruct (_current v2) as [q|] eqn:Hq; cbn [IsDescendantOf path_prefix].
    - rewrite <- K2. by destruct v2.
    - done. }
  destruct H3 as (K3 & S3 & C3).
  destruct (GenericTreeItem_DeleteChildren_refs anchor v3 []) as (C4 & K4 & _ & N4 & _).
  set (v4 := GenericTreeItem_DeleteChildren v3 [] anchor) in *.
  specialize (N4 S3).
  assert (H5 : _current (SendDeleteEvent v4 []) = None /\
               _key_current (SendDeleteEvent v4 []) = None /\
               _select_me (SendDeleteEvent v4 []) = None).
  { assert (E : forall v, _current (SendDeleteEvent v []) = _current v /\
                            _key_current (SendDeleteEvent v []) = _key_current v /\
                            _select_me (SendDeleteEvent v []) = _select_me v)
      by (intros v; by destruct v).
    destruct (E v4) as (-> & -> & ->). rewrite C4, K4. done. }
  destruct H5 as (C5 & K5 & S5). rewrite S5. by cbn [ref_eqb].
Qed.

Lemma DeleteAllItems_empties_witness :
  _anchor (after DeleteAllItems radio_example) = None /\
  sent (vars (after DeleteAllItems radio_example))
  = sent (vars radio_example)
    ++ (delete_event <$> [[0]; [0; 0]; [1]; [1; 0]; [2]; []]%nat).
Proof.
  destruct (DeleteAllItems_empties radio_example) as (_ & H1 & _ & _ & H2).
  split; [exact H1|].
  exact (proj1 (H2 _ eq_refl)).
Defined.

(** ** Insertion and deletion compose *)

Lemma renumber_compose (f g : nat -> nat) (parent q : path) :
  renumber g parent (renumber f parent q) = renumber (fun j => g (f j)) parent q.
Proof.
  revert q. induction parent as [|i parent IH]; intros [|j q]; cbn [renumber]; try done.
  destruct (Nat.eqb_spec i j) as [->|Hne]; cbn [renumber].
  - by rewrite Nat.eqb_refl, IH.
  - by destruct (Nat.eqb_spec i j).
Qed.

Lemma renumber_id (f : nat -> nat) (parent q : path) :
  (forall j, f j = j) -> renumber f parent q = q.
Proof.
  intros Hf. revert q. induction parent as [|i parent IH]; intros [|j q]; cbn [renumber];
    try done.
  - by rewrite Hf.
  - destruct (i =? j)%nat; [|done]. by rewrite IH.
Qed.

Lemma renumber_avoids (f : nat -> nat) (k : nat) (parent q : path) :
  (forall j, f j <> k) -> path_prefix (parent ++ [k]) (renumber f parent q) = false.
Proof.
  intros Hf. revert q. induction parent as [|i parent IH]; intros [|j q];
    cbn [renumber app path_prefix]; try done.
  - destruct (Nat.eqb_spec k (f j)) as [E|]; [|done]. by destruct (Hf j).
  - destruct (Nat.eqb_spec i j) as [->|Hne]; cbn [path_prefix].
    + by rewrite Nat.eqb_refl, IH.
    + by destruct (Nat.eqb_spec i j).
Qed.

Lemma delete_list_insert_at {A} (k : nat) (x : A) (l : list A) :
  (k <= length l)%nat -> delete k (list_insert_at k x l) = l.
Proof.
  intros Hk. unfold list_insert_at.
  assert (Hlen : length (take k l) = k) by (rewrite length_take; lia).
  rewrite <- Hlen at 1. rewrite (delete_length_app (take k l) (drop k l) x).
  apply take_drop.
Qed.

(** The instance variables after the deletion of a childless item that no
    reference of the control denotes. *)
Lemma Delete_vars_outside (v : CtrlVars) (item : path) (d : ItemData) :
  IsDescendantOf item (_key_current v) = false ->
  IsDescendantOf item (_select_me v) = false ->
  IsDescendantOf item (_current v) = false ->
  Delete_vars v item (Item d []) = set_sent (set_dirty v true) (sent v ++ [delete_event item]).
Proof.
  intros Hk Hs Hc. unfold Delete_vars.
  change (_key_current (set_dirty v true)) with (_key_current v). rewrite Hk.
  change (_select_me (set_dirty v true)) with (_select_me v). rewrite Hs.
  change (_current (set_dirty v true)) with (_current v). rewrite Hc.
  cbn [GenericTreeItem_DeleteChildren].
  change (_select_me (SendDeleteEvent (set_dirty v true) item)) with (_select_me v).
  assert (ref_eqb item (_select_me v) = false) as ->.
  { destruct (_select_me v) as [q|]; [|done]. cbn [ref_eqb IsDescendantOf] in *.
    destruct (path_eqb item q) eqn:He; [|done].
    apply path_eqb_prefix in He. by rewrite Hs in He. }
  reflexivity.
Qed.

Lemma renumber_refs_back (ins del : nat -> nat) (parent : path) (v : CtrlVars) :
  (forall j, del (ins j) = j) ->
  renumber_refs del parent (renumber_refs ins parent v) = v.
Proof.
  intros Hdel.
  assert (Hback : forall r : option path,
            renumber del parent <$> (renumber ins parent <$> r) = r).
  { intros [q|]; [|done]. simpl. f_equal. rewrite renumber_compose.
    by apply renumber_id. }
  destruct v as [a1 a2 a3 a4 a5 a6 cur key sel a10 a11 a12 a13 a14 a15 a16 a17 a18 a19 a20 a21].
  pose proof (Hback cur) as B1. pose proof (Hback key) as B2. pose proof (Hback sel) as B3.
  unfold renumber_refs at 2. simpl. unfold renumber_refs. simpl.
  by rewrite B1, B2, B3.
Qed.

Lemma Delete_vars_fresh (v : CtrlVars) (parent : path) (k : nat) (ins del : nat -> nat)
    (d : ItemData) :
  (forall j, ins j <> k) -> (forall j, del (ins j) = j) ->
  renumber_refs del parent
    (Delete_vars (renumber_refs ins parent (set_dirty v true)) (parent ++ [k]) (Item d []))
  = set_sent (set_dirty v true) (sent v ++ [delete_event (parent ++ [k])]).
Proof.
  intros Hins Hdel.
  assert (Hout : forall r : option path,
            IsDescendantOf (parent ++ [k]) (renumber ins parent <$> r) = false).
  { intros [q|]; [|done]. simpl. by apply renumber_avoids. }
  set (w := renumber_refs ins parent (set_dirty v true)).
  rewrite (Delete_vars_outside w).
  - change (sent w) with (sent v).
    transitivity (set_sent (set_dirty (renumber_refs del parent w) true)
                    (sent v ++ [delete_event (parent ++ [k])])); [reflexivity|].
    unfold w. rewrite (renumber_refs_back ins del parent _ Hdel). by destruct v.
  - apply (Hout (_key_current v)).
  - apply (Hout (_select_me v)).
  - apply (Hout (_current v)).
Qed.

(** Inserting an item anywhere among the children of an item, with an
    index that fits a C [ssize_t], and deleting it again, by the
    reference [DoInsertItem] has returned, gives back the tree and the
    current item, key item and item to select; what remains is the one
    deletion event for the item, and the control marked for a new
    layout. *)
Theorem DoInsertItem_then_Delete (s : CustomTreeCtrl) (parent : path) (pit : GenericTreeItem)
    (previous : Z) (text : str) (ct_type image selImage : Z) (separator : bool) :
  item_at s parent = Some pit ->
  rejected (vars s) text ct_type separator = false ->
  PY_SSIZE_T_MIN <= previous <= PY_SSIZE_T_MAX ->
  let insert := DoInsertItem (Some parent) previous text ct_type image selImage separator in
  exists r, outcome insert s = Ok r /\
    outcome (Delete r) (after insert s) = Ok tt /\
    after (Delete r) (after insert s)
    = mkCtrl (set_sent (set_dirty (vars s) true) (sent (vars s) ++ [delete_event r]))
        (_anchor s).
Proof.
  intros Hit Hrej Hfit insert. subst insert.
  pose proof (DoInsertItem_run s parent pit previous text ct_type image selImage separator
                Hit Hrej (fits_ssize_t_range _ _ Hfit)) as Hrun.
  cbv zeta in Hrun.
  set (k := insert_position previous (length (GetChildren pit))) in *.
  set (new := Item (GenericTreeItem_init (Some (data pit)) text ct_type image selImage
                      separator) []) in *.
  set (ins := fun j : nat => if (k <=? j)%nat then S j else j) in *.
  assert (Hk : (k <= length (GetChildren pit))%nat) by apply insert_position_le.
  exists (parent ++ [k]). unfold outcome, after. rewrite Hrun. cbn [fst snd].
  split; [done|].
  set (s1 := mkCtrl _ _).
  assert (Hnew : item_at s1 (parent ++ [k]) = Some new).
  { unfold s1. rewrite (item_at_alter_below s _ parent [k] pit _ Hit).
    cbn [GetItem GetChildren]. by rewrite list_insert_at_lookup_eq by done. }
  rewrite (Delete_unfold s1 _ new Hnew). unfold remove_item. rewrite GetParent_snoc.
  cbn [fst snd vars _anchor]. split; [done|].
  f_equal.
  - unfold s1. cbn [vars]. apply Delete_vars_fresh.
    + intros j. unfold ins. destruct (Nat.leb_spec k j); lia.
    + intros j. unfold ins. destruct (Nat.leb_spec k j).
      * destruct (Nat.ltb_spec k (S j)); simpl; lia.
      * destruct (Nat.ltb_spec k j); lia.
  - unfold s1. cbn [_anchor]. rewrite alter_anchor_compose. cbn [data GetChildren].
    rewrite delete_list_insert_at by done.
    rewrite <- (alter_anchor_id parent (_anchor s) pit) at 2 by exact Hit.
    apply (alter_anchor_ext _ _ parent (_anchor s) pit Hit). apply item_eta.
Qed.

Lemma DoInsertItem_then_Delete_witness :
  let insert := DoInsertItem (Some [1%nat]) 0 (str_of "new") 1 (-1) (-1) false in
  exists r, outcome insert radio_example = Ok r /\
    _anchor (after (Delete r) (after insert radio_example)) = _anchor radio_example.
Proof.
  destruct (DoInsertItem_then_Delete radio_example [1%nat] (new_item 2 [new_item 0 []])
              0 (str_of "new") 1 (-1) (-1) false eq_refl eq_refl
              ltac:(vm_compute; split; discriminate)) as (r & H1 & _ & H3).
  exists r. split; [exact H1|]. exact (f_equal _anchor H3).
Defined.

(** ** Navigation *)

Lemma item_at_app (s : CustomTreeCtrl) (p q : path) :
  item_at s (p ++ q) = item_at s p ≫= (fun it => GetItem it q).
Proof. unfold item_at. destruct (_anchor s) as [t|]; simpl; [|done]. apply GetItem_app. Qed.

(** A valid reference below [p] goes through a child of [p]. *)
Lemma item_at_below (s : CustomTreeCtrl) (p r : path) (k : nat) (it : GenericTreeItem) :
  item_at s p = Some it -> is_Some (item_at s (p ++ k :: r)) ->
  (k < length (GetChildren it))%nat.
Proof.
  intros Hp. rewrite item_at_app, Hp. cbn [mbind option_bind GetItem].
  destruct (GetChildren it !! k) as [c|] eqn:Hk; [|by intros [? ?]].
  intros _. by apply lookup_lt_Some in Hk.
Qed.

Lemma item_at_parent (s : CustomTreeCtrl) (p : path) (k : nat) :
  is_Some (item_at s (p ++ [k])) ->
  exists pit, item_at s p = Some pit /\ (k < length (GetChildren pit))%nat.
Proof.
  intros H. destruct (item_at s p) as [pit|] eqn:Hp.
  - exists pit. split; [done|]. by apply (item_at_below s p [] k).
  - rewrite item_at_app, Hp in H. by destruct H.
Qed.

Lemma item_at_child_lt (s : CustomTreeCtrl) (p : path) (k : nat) (pit : GenericTreeItem) :
  item_at s p = Some pit -> (k < length (GetChildren pit))%nat ->
  is_Some (item_at s (p ++ [k])).
Proof.
  intros Hp Hk. destruct (lookup_lt_is_Some_2 (GetChildren pit) k Hk) as [c Hc].
  exists c. by apply (item_at_child s p k pit).
Qed.

Lemma path_le_total (p q : path) : path_le p q = false -> path_le q p = true.
Proof.
  revert q. induction p as [|i p IH]; intros [|j q]; cbn [path_le]; try done.
  intros [H1 H2]%orb_false_iff.
  destruct (Nat.ltb_spec i j); [done|]. destruct (Nat.ltb_spec j i); [done|].
  assert (i = j) as -> by lia. rewrite Nat.eqb_refl in *. cbn [andb orb] in *. by apply IH.
Qed.

Lemma path_after_not_below (p r q : path) :
  path_prefix p q = false -> path_after (p ++ r) q = path_after p q.
Proof.
  intros H. unfold path_after.
  by rewrite (path_le_app_not_prefix p r q H), (path_prefix_app_false p r q H), H.
Qed.

(** The loop of [GetNext] from the item [reverse rp] finds the first item
    of the tree that comes after that item and the items below it. *)
Lemma GetNext_up_spec (s : CustomTreeCtrl) (rp : list nat) :
  is_Some (item_at s (reverse rp)) ->
  match GetNext_up s rp with
  | Some q =>
      is_Some (item_at s q) /\ path_after (reverse rp) q = true /\
      forall r, is_Some (item_at s r) -> path_after (reverse rp) r = true ->
                path_le q r = true
  | None => forall r, is_Some (item_at s r) -> path_after (reverse rp) r = false
  end.
Proof.
  induction rp as [|i rp IH]; intros Hv.
  - cbn [GetNext_up]. change (reverse []) with (@nil nat).
    unfold GetNextSibling. change (GetParent []) with (@None (path * nat)).
    intros r _. unfold path_after. cbn [path_prefix]. by rewrite andb_false_r.
  - cbn [GetNext_up]. rewrite reverse_cons in *. set (parent := reverse rp) in *.
    destruct (item_at_parent s parent i Hv) as (pit & Hp & Hi).
    assert (Hbelow : forall r, is_Some (item_at s r) -> path_prefix parent r = true ->
                               path_after (parent ++ [i]) r = true ->
                               exists k r', r = parent ++ k :: r' /\ (i < k)%nat /\
                                            (k < length (GetChildren pit))%nat).
    { intros r Hr Hpre Haft. apply path_prefix_spec in Hpre as [r' ->].
      destruct r' as [|k r']; [by rewrite app_nil_r, path_after_above in Haft|].
      rewrite path_after_sibling in Haft. apply Nat.ltb_lt in Haft.
      exists k, r'. split; [done|]. split; [done|]. by apply (item_at_below s parent r' k). }
    unfold GetNextSibling. rewrite GetParent_snoc, Hp. cbn zeta.
    destruct (Nat.ltb_spec i (length (GetChildren pit))) as [_|]; [|lia]. cbn [negb].
    destruct (Nat.eqb_spec (S i) (length (GetChildren pit))) as [Hlast|Hmore].
    + assert (Hvp : is_Some (item_at s parent)) by (by rewrite Hp).
      specialize (IH Hvp). destruct (GetNext_up s rp) as [q|].
      * destruct IH as (Hq & Haft & Hmin). split; [done|].
        assert (Hnp : path_prefix parent q = false).
        { unfold path_after in Haft. apply andb_true_iff in Haft as [_ H].
          by apply negb_true_iff in H. }
        split; [by rewrite path_after_not_below|].
        intros r Hr Hr'. apply Hmin; [done|].
        destruct (path_prefix parent r) eqn:Hpre.
        -- destruct (Hbelow r Hr Hpre Hr') as (k & r' & _ & ? & ?). lia.
        -- by rewrite path_after_not_below in Hr'.
      * intros r Hr. destruct (path_after (parent ++ [i]) r) eqn:Haft; [|done].
        destruct (path_prefix parent r) eqn:Hpre.
        -- destruct (Hbelow r Hr Hpre Haft) as (k & r' & _ & ? & ?). lia.
        -- rewrite path_after_not_below in Haft by done. by rewrite (IH r Hr) in Haft.
    + split; [apply (item_at_child_lt s parent (S i) pit Hp); lia|].
      split.
      { rewrite (path_after_sibling parent [] i (S i)). apply Nat.ltb_lt. lia. }
      intros r Hr Haft. destruct (path_prefix parent r) eqn:Hpre.
      * destruct (Hbelow r Hr Hpre Haft) as (k & r' & -> & Hk & _).
        rewrite path_le_app. cbn [path_le].
        destruct (Nat.ltb_spec (S i) k); [done|]. assert (S i = k) as -> by lia.
        by rewrite Nat.eqb_refl.
      * rewrite path_le_app_not_prefix by done.
        unfold path_after in Haft. apply andb_true_iff in Haft as [Hle _].
        by rewrite path_le_app_not_prefix in Hle.
Qed.

(** The item [GetNext] returns is the least item after [item]. *)
Lemma GetNext_least (s : CustomTreeCtrl) (p : path) :
  is_Some (item_at s p) ->
  match GetNext s p with
  | Some q =>
      is_Some (item_at s q) /\ path_lt p q /\
      forall r, is_Some (item_at s r) -> path_lt p r -> path_le q r = true
  | None => forall r, is_Some (item_at s r) -> path_le r p = true
  end.
Proof.
  intros [it Hit]. unfold GetNext. rewrite Hit.
  destruct (Nat.ltb_spec 0 (length (GetChildren it))) as [Hc|Hc].
  - split; [by apply (item_at_child_lt s p 0 it)|].
    split; [apply path_lt_below|].
    intros r Hr [Hle Hne]. destruct (path_prefix p r) eqn:Hpre.
    + apply path_prefix_spec in Hpre as [r' ->]. rewrite path_le_app.
      destruct r' as [|k r']; [by rewrite app_nil_r in Hne|]. cbn [path_le].
      by destruct k.
    + by apply path_le_below.
  - assert (Hleaf : forall r, is_Some (item_at s r) -> path_prefix p r = true -> r = p).
    { intros r Hr Hpre. apply path_prefix_spec in Hpre as [r' ->].
      destruct r' as [|k r']; [by rewrite app_nil_r|].
      pose proof (item_at_below s p r' k it Hit Hr). lia. }
    assert (Hv : is_Some (item_at s (reverse (reverse p))))
      by (rewrite reverse_involutive; by exists it).
    pose proof (GetNext_up_spec s (reverse p) Hv) as Hup.
    rewrite reverse_involutive in Hup.
    destruct (GetNext_up s (reverse p)) as [q|].
    + destruct Hup as (Hq & Haft & Hmin). split; [done|].
      unfold path_after in Haft. apply andb_true_iff in Haft as [Hle Hnp].
      apply negb_true_iff in Hnp.
      split.
      { split; [done|]. intros ->.
        rewrite <- (app_nil_r q) in Hnp at 2. by rewrite path_prefix_app_r in Hnp. }
      intros r Hr [Hle' Hne]. apply Hmin; [done|]. unfold path_after. rewrite Hle'.
      destruct (path_prefix p r) eqn:Hpre; [|done]. by destruct Hne; rewrite (Hleaf r Hr Hpre).
    + intros r Hr. specialize (Hup r Hr). unfold path_after in Hup.
      apply andb_false_iff in Hup as [Hle|Hpre].
      * by apply path_le_total.
      * apply negb_false_iff in Hpre. rewrite (Hleaf r Hr Hpre). apply path_le_refl.
Qed.

Lemma path_le_antisym (p q : path) :
  path_le p q = true -> path_le q p = true -> p = q.
Proof.
  revert q. induction p as [|i p IH]; intros [|j q]; cbn [path_le]; try done.
  intros H1 H2.
  assert (i = j) as ->.
  { destruct (Nat.ltb_spec i j), (Nat.ltb_spec j i), (Nat.eqb_spec i j), (Nat.eqb_spec j i);
      cbn [orb andb] in *; try lia; done. }
  rewrite Nat.ltb_irrefl, Nat.eqb_refl in *. cbn [orb andb] in *.
  by rewrite (IH q H1 H2).
Qed.

Lemma StronglySorted_lookup {A} (R : A -> A -> Prop) (l : list A) :
  StronglySorted R l ->
  forall i j x y, l !! i = Some x -> l !! j = Some y -> (i < j)%nat -> R x y.
Proof.
  induction 1 as [|a l Hl IH Ha]; intros i j x y Hi Hj Hij; [done|].
  destruct j as [|j]; [lia|]. cbn [lookup list_lookup] in Hj. destruct i as [|i].
  - injection Hi as <-. rewrite Forall_forall in Ha. apply Ha.
    by apply list_elem_of_lookup_2 in Hj.
  - apply (IH i j); [done|done|lia].
Qed.

Lemma preorder_valid (anchor : GenericTreeItem) (q : path) :
  q ∈ preorder anchor <-> is_Some (GetItem anchor q).
Proof.
  unfold preorder. rewrite elem_of_cons. split.
  - intros [->|Hq]; [by eexists|].
    destruct (descendants_sound anchor [] q Hq) as (r & x & -> & Hx). by exists x.
  - intros [x Hx]. destruct q as [|k q]; [by left|]. right.
    by apply (descendants_complete anchor [] (k :: q) x).
Qed.

(** In the depth-first list of the items, an item comes before another
    exactly when its position does. *)
Lemma preorder_lt (anchor : GenericTreeItem) (i j : nat) (p q : path) :
  preorder anchor !! i = Some p -> preorder anchor !! j = Some q ->
  path_lt p q <-> (i < j)%nat.
Proof.
  intros Hi Hj.
  assert (Hsorted : StronglySorted path_lt (preorder anchor))
    by apply (descendants_sorted anchor []).
  split; [|by apply (StronglySorted_lookup _ _ Hsorted)].
  intros [Hle Hne]. destruct (Nat.lt_trichotomy i j) as [?|[->|Hji]]; [done| |].
  - rewrite Hi in Hj. by injection Hj.
  - pose proof (StronglySorted_lookup _ _ Hsorted j i q p Hj Hi Hji) as [Hqp _].
    by destruct Hne; apply path_le_antisym.
Qed.

(** A walk by [GetNext] follows the depth-first list of the items. *)
Lemma GetNext_walk (s : CustomTreeCtrl) (anchor : GenericTreeItem) (p : path) (i : nat) :
  _anchor s = Some anchor -> preorder anchor !! i = Some p ->
  GetNext s p = preorder anchor !! S i.
Proof.
  intros Ha Hi.
  assert (Hvalid : forall q, is_Some (item_at s q) <-> q ∈ preorder anchor).
  { intros q. rewrite preorder_valid. unfold item_at. by rewrite Ha. }
  assert (Hv : is_Some (item_at s p))
    by (apply Hvalid; by apply list_elem_of_lookup_2 in Hi).
  pose proof (GetNext_least s p Hv) as Hleast.
  destruct (GetNext s p) as [q|].
  - destruct Hleast as (Hq & Hlt & Hmin).
    apply Hvalid in Hq. apply list_elem_of_lookup_1 in Hq as [j Hj].
    pose proof (proj1 (preorder_lt anchor i j p q Hi Hj) Hlt) as Hij.
    destruct (preorder anchor !! S i) as [q'|] eqn:Hn.
    + pose proof (proj2 (preorder_lt anchor i (S i) p q' Hi Hn) ltac:(lia)) as Hpq'.
      assert (Hq' : is_Some (item_at s q'))
        by (apply Hvalid; by apply list_elem_of_lookup_2 in Hn).
      pose proof (Hmin q' Hq' Hpq') as Hle. f_equal.
      destruct (decide (j = S i)) as [->|Hne]; [congruence|].
      pose proof (proj2 (preorder_lt anchor (S i) j q' q Hn Hj) ltac:(lia)) as [Hle' _].
      by apply path_le_antisym.
    + apply lookup_ge_None in Hn. apply lookup_lt_Some in Hj. lia.
  - destruct (preorder anchor !! S i) as [q'|] eqn:Hn; [|done].
    pose proof (proj2 (preorder_lt anchor i (S i) p q' Hi Hn) ltac:(lia)) as [Hle Hne].
    assert (Hq' : is_Some (item_at s q'))
      by (apply Hvalid; by apply list_elem_of_lookup_2 in Hn).
    by destruct Hne; apply path_le_antisym; [|apply Hleast].
Qed.

(** [GetNext(item)] is the successor of the item in the depth-first order
    of the tree: an item of the tree that comes after [item], with no item
    of the tree between the two; it is [None] exactly when [item] is the
    last item of the tree.  So a walk from the root by [GetNext] visits
    the items in depth-first order, each once: the item that follows
    position [i] of that order is the item at position [i + 1]. *)
Theorem GetNext_successor (s : CustomTreeCtrl) (p : path) :
  is_Some (item_at s p) ->
  match GetNext s p with
  | Some q =>
      is_Some (item_at s q) /\ path_lt p q /\
      forall r, is_Some (item_at s r) -> path_lt p r -> path_le q r = true
  | None => forall r, is_Some (item_at s r) -> path_le r p = true
  end /\
  forall anchor i,
    _anchor s = Some anchor -> preorder anchor !! i = Some p ->
    GetNext s p = preorder anchor !! S i.
Proof.
  intros Hv. pose proof (GetNext_least s p Hv) as Hleast. split; [exact Hleast|].
  intros anchor i Ha Hi. by apply (GetNext_walk s anchor).
Qed.

Lemma GetNext_successor_witness :
  GetNext radio_example [0; 0]%nat = Some [1%nat] /\ GetNext radio_example [2%nat] = None /\
  path_lt [0; 0]%nat [1%nat] /\
  (forall r, is_Some (item_at radio_example r) -> path_le r [2%nat] = true).
Proof.
  pose proof (proj1 (GetNext_successor radio_example [0; 0]%nat (mk_is_Some _ _ eq_refl)))
    as H1.
  pose proof (proj1 (GetNext_successor radio_example [2%nat] (mk_is_Some _ _ eq_refl)))
    as H2.
  split; [reflexivity|]. split; [reflexivity|].
  split; [exact (proj1 (proj2 H1))|exact H2].
Defined.

Lemma GetNextSibling_snoc (s : CustomTreeCtrl) (parent : path) (i : nat)
    (pit : GenericTreeItem) :
  item_at s parent = Some pit -> (i < length (GetChildren pit))%nat ->
  GetNextSibling s (parent ++ [i])
  = if (S i =? length (GetChildren pit))%nat then None else Some (parent ++ [S i]).
Proof.
  intros Hp Hi. unfold GetNextSibling. rewrite GetParent_snoc, Hp. cbn zeta.
  by destruct (Nat.ltb_spec i (length (GetChildren pit))); [|lia].
Qed.

Lemma GetPrevSibling_snoc (s : CustomTreeCtrl) (parent : path) (i : nat)
    (pit : GenericTreeItem) :
  item_at s parent = Some pit -> (i < length (GetChildren pit))%nat ->
  GetPrevSibling s (parent ++ [i])
  = if (i =? 0)%nat then None else Some (parent ++ [pred i]).
Proof.
  intros Hp Hi. unfold GetPrevSibling. rewrite GetParent_snoc, Hp. cbn zeta.
  by destruct (Nat.ltb_spec i (length (GetChildren pit))); [|lia].
Qed.

Lemma valid_cases (s : CustomTreeCtrl) (p : path) :
  is_Some (item_at s p) ->
  p = [] \/
  exists parent i pit, p = parent ++ [i] /\ item_at s parent = Some pit /\
                       (i < length (GetChildren pit))%nat.
Proof.
  intros Hv. destruct (GetParent p) as [[parent i]|] eqn:Hg.
  - right. apply GetParent_Some in Hg as ->.
    destruct (item_at_parent s parent i Hv) as (pit & Hp & Hi). by exists parent, i, pit.
  - left. by apply GetParent_None.
Qed.

(** Siblings: the next sibling of an item of the tree, when there is one,
    is an item of the tree with the same parent, and its previous sibling
    is the item; and the other way round.  The first child of an item has
    no previous sibling and the last child no next sibling; an item has a
    first child exactly when it has a last child; the root has no
    siblings. *)
Theorem sibling_navigation (s : CustomTreeCtrl) (p : path) :
  is_Some (item_at s p) ->
  (forall q, GetNextSibling s p = Some q ->
     is_Some (item_at s q) /\ GetItemParent q = GetItemParent p /\
     GetPrevSibling s q = Some p) /\
  (forall q, GetPrevSibling s p = Some q ->
     is_Some (item_at s q) /\ GetItemParent q = GetItemParent p /\
     GetNextSibling s q = Some p) /\
  (forall c, (GetFirstChild s p).1 = Some c ->
     is_Some (item_at s c) /\ GetItemParent c = Some p /\ GetPrevSibling s c = None) /\
  (forall c, GetLastChild s p = Some c ->
     is_Some (item_at s c) /\ GetItemParent c = Some p /\ GetNextSibling s c = None) /\
  ((GetFirstChild s p).1 = None <-> GetLastChild s p = None) /\
  (p = [] -> GetNextSibling s p = None /\ GetPrevSibling s p = None).
Proof.
  intros Hv.
  assert (Hsib : (forall q, GetNextSibling s p = Some q ->
                    is_Some (item_at s q) /\ GetItemParent q = GetItemParent p /\
                    GetPrevSibling s q = Some p) /\
                 (forall q, GetPrevSibling s p = Some q ->
                    is_Some (item_at s q) /\ GetItemParent q = GetItemParent p /\
                    GetNextSibling s q = Some p)).
  { destruct (valid_cases s p Hv) as [->|(parent & i & pit & -> & Hp & Hi)]; [by split|].
    rewrite (GetNextSibling_snoc s parent i pit Hp Hi),
            (GetPrevSibling_snoc s parent i pit Hp Hi).
    unfold GetItemParent. rewrite GetParent_snoc. split; intros q.
    - destruct (Nat.eqb_spec (S i) (length (GetChildren pit))); [done|]. intros [= <-].
      split; [apply (item_at_child_lt s parent (S i) pit Hp); lia|].
      rewrite GetParent_snoc. split; [done|].
      by rewrite (GetPrevSibling_snoc s parent (S i) pit Hp) by lia.
    - destruct (Nat.eqb_spec i 0); [done|]. intros [= <-].
      split; [apply (item_at_child_lt s parent (pred i) pit Hp); lia|].
      rewrite GetParent_snoc. split; [done|].
      rewrite (GetNextSibling_snoc s parent (pred i) pit Hp) by lia.
      destruct (Nat.eqb_spec (S (pred i)) (length (GetChildren pit))); [lia|].
      do 3 f_equal. lia. }
  destruct Hsib as [Hnext Hprev]. split; [exact Hnext|]. split; [exact Hprev|].
  destruct Hv as [it Hit]. unfold GetFirstChild, GetNextChild, GetLastChild. rewrite Hit.
  split; [|split; [|split]].
  - intros c. destruct (Nat.ltb_spec 0 (length (GetChildren it))); [|done]. intros [= <-].
    split; [by apply (item_at_child_lt s p 0 it)|].
    unfold GetItemParent. rewrite GetParent_snoc. split; [done|].
    by rewrite (GetPrevSibling_snoc s p 0 it).
  - intros c. destruct (Nat.eqb_spec (length (GetChildren it)) 0); [done|]. intros [= <-].
    split; [apply (item_at_child_lt s p _ it Hit); lia|].
    unfold GetItemParent. rewrite GetParent_snoc. split; [done|].
    rewrite (GetNextSibling_snoc s p _ it Hit) by lia.
    by destruct (Nat.eqb_spec (S (pred (length (GetChildren it)))) (length (GetChildren it)));
      [|lia].
  - destruct (Nat.ltb_spec 0 (length (GetChildren it))),
             (Nat.eqb_spec (length (GetChildren it)) 0); try done; lia.
  - by intros ->.
Qed.

Lemma sibling_navigation_witness :
  GetNextSibling radio_example [0%nat] = Some [1%nat] /\
  GetPrevSibling radio_example [1%nat] = Some [0%nat].
Proof.
  destruct (sibling_navigation radio_example [0%nat] (mk_is_Some _ _ eq_refl)) as (H & _).
  split; [reflexivity|]. exact (proj2 (proj2 (H [1%nat] eq_refl))).
Defined.

(** [GetPrev(item)] is [None] for the root only; otherwise it is an item
    of the tree that comes before [item] in the depth-first order.  It is
    the item whose [GetNext] is [item] exactly when it is the parent of
    [item] or has no children: with a previous sibling whose last child
    has children of its own, [GetPrev] is not the inverse of [GetNext]. *)
Theorem GetPrev_before (s : CustomTreeCtrl) (p : path) :
  is_Some (item_at s p) ->
  match GetPrev s p with
  | None => p = []
  | Some q =>
      is_Some (item_at s q) /\ path_lt q p /\
      (GetNext s q = Some p <->
       GetItemParent p = Some q \/ GetChildren <$> item_at s q = Some [])
  end.
Proof.
  intros Hv. destruct (valid_cases s p Hv) as [->|(parent & i & pit & -> & Hp & Hi)]; [done|].
  unfold GetPrev. rewrite (GetPrevSibling_snoc s parent i pit Hp Hi).
  unfold GetItemParent. rewrite GetParent_snoc. cbn [fmap option_fmap option_map fst].
  destruct i as [|j]; cbn [Nat.eqb pred].
  - split; [by rewrite Hp|]. split; [apply path_lt_below|].
    split; [by left|]. intros _. unfold GetNext. rewrite Hp.
    by destruct (Nat.ltb_spec 0 (length (GetChildren pit))); [|lia].
  - destruct (item_at_child_lt s parent j pit Hp) as [pv Hpv]; [lia|]. rewrite Hpv.
    assert (Hup : GetNext_up s (j :: reverse parent) = Some (parent ++ [S j])).
    { cbn [GetNext_up]. rewrite <- reverse_snoc, reverse_involutive.
      rewrite (GetNextSibling_snoc s parent j pit Hp) by lia.
      by destruct (Nat.eqb_spec (S j) (length (GetChildren pit))); [lia|]. }
    destruct (Nat.ltb_spec 0 (length (GetChildren pv))) as [Hc|Hc].
    + unfold GetLastChild. rewrite Hpv.
      destruct (Nat.eqb_spec (length (GetChildren pv)) 0); [lia|].
      set (m := pred (length (GetChildren pv))).
      destruct (item_at_child_lt s (parent ++ [j]) m pv Hpv) as [lc Hlc]; [lia|].
      split; [by rewrite Hlc|].
      split; [rewrite <- app_assoc; apply path_lt_siblings; lia|].
      rewrite Hlc. cbn [fmap option_fmap option_map]. unfold GetNext. rewrite Hlc.
      destruct (Nat.ltb_spec 0 (length (GetChildren lc))) as [Hlcc|Hlcc].
      * split.
        -- intros [= H]. apply (f_equal length) in H. rewrite !length_app in H. simpl in H. lia.
        -- intros [[= H]|[= H]].
           ++ apply (f_equal length) in H. rewrite !length_app in H. simpl in H. lia.
           ++ rewrite H in Hlcc. simpl in Hlcc. lia.
      * split; [intros _; right; f_equal; destruct (GetChildren lc); [done|simpl in *; lia]|].
        intros _. rewrite !reverse_snoc. cbn [GetNext_up].
        rewrite <- !reverse_snoc, reverse_involutive.
        rewrite (GetNextSibling_snoc s (parent ++ [j]) m pv Hpv) by lia.
        destruct (Nat.eqb_spec (S m) (length (GetChildren pv))); [|lia].
        rewrite reverse_snoc. exact Hup.
    + split; [by rewrite Hpv|].
      split; [apply (path_lt_siblings parent [] [] j (S j)); lia|].
      rewrite Hpv. cbn [fmap option_fmap option_map].
      split; [intros _; right; f_equal; destruct (GetChildren pv); [done|simpl in *; lia]|].
      intros _. unfold GetNext. rewrite Hpv.
      destruct (Nat.ltb_spec 0 (length (GetChildren pv))); [lia|].
      by rewrite reverse_snoc.
Qed.

Lemma GetPrev_before_witness :
  GetPrev radio_example [1%nat] = Some [0; 0]%nat /\ path_lt [0; 0]%nat [1%nat] /\
  GetNext radio_example [0; 0]%nat = Some [1%nat].
Proof.
  pose proof (GetPrev_before radio_example [1%nat] (mk_is_Some _ _ eq_refl)) as H.
  split; [reflexivity|]. split; [exact (proj1 (proj2 H))|].
  apply (proj2 (proj2 H)). by right.
Defined.

(** ** The list of the selected items *)

Lemma FillArray_from_acc (F : path -> GenericTreeItem -> list path -> list path)
    (here : path) (cs : list GenericTreeItem) :
  Forall (fun c => forall here array, F here c array = array ++ F here c []) cs ->
  forall n array,
    FillArray_from F here n cs array = array ++ FillArray_from F here n cs [].
Proof.
  induction 1 as [|c rest Hc _ IH]; intros n array; cbn [FillArray_from].
  - by rewrite app_nil_r.
  - rewrite (IH (S n) (F (here ++ [n]) c array)), (IH (S n) (F (here ++ [n]) c [])).
    by rewrite (Hc (here ++ [n]) array), app_assoc.
Qed.

Lemma FillArray_acc (item : GenericTreeItem) :
  forall here array, FillArray here item array = array ++ FillArray here item [].
Proof.
  induction item as [d cs IH] using GenericTreeItem_ind. intros here array.
  cbn [FillArray]. cbv zeta.
  destruct ((0 <? length cs)%nat && IsExpanded d).
  - rewrite (FillArray_from_acc FillArray here cs IH 0 (if IsSelected d then _ else _)).
    rewrite (FillArray_from_acc FillArray here cs IH 0 (if IsSelected d then [] ++ _ else _)).
    destruct (IsSelected d); [|by rewrite app_nil_l].
    by rewrite app_nil_l, app_assoc.
  - destruct (IsSelected d); [done|by rewrite app_nil_r].
Qed.

Lemma FillArray_from_cons (here : path) (n : nat) (c : GenericTreeItem)
    (rest : list GenericTreeItem) :
  FillArray_from FillArray here n (c :: rest) []
  = FillArray (here ++ [n]) c [] ++ FillArray_from FillArray here (S n) rest [].
Proof.
  cbn [FillArray_from]. apply FillArray_from_acc.
  apply Forall_forall. intros x _. apply FillArray_acc.
Qed.

Lemma FillArray_unfold (here : path) (d : ItemData) (cs : list GenericTreeItem) :
  FillArray here (Item d cs) []
  = (if IsSelected d then [here] else [])
    ++ (if IsExpanded d then FillArray_from FillArray here 0%nat cs [] else []).
Proof.
  cbn [FillArray]. cbv zeta. rewrite app_nil_l.
  destruct cs as [|c rest].
  - cbn [length Nat.ltb Nat.leb andb FillArray_from]. by destruct (IsExpanded d); rewrite app_nil_r.
  - change (0 <? length (c :: rest))%nat with true. cbn [andb].
    destruct (IsExpanded d); [|by rewrite app_nil_r].
    apply FillArray_from_acc. apply Forall_forall. intros x _. apply FillArray_acc.
Qed.

Lemma FillArray_from_elem (here : path) (cs : list GenericTreeItem) :
  Forall (fun c => forall here q,
            q ∈ FillArray here c [] <-> exists r, q = here ++ r /\ listed c r = true) cs ->
  forall n q,
    q ∈ FillArray_from FillArray here n cs [] <->
    exists k c r, cs !! k = Some c /\ q = here ++ (n + k)%nat :: r /\ listed c r = true.
Proof.
  induction 1 as [|c rest Hc _ IH]; intros n q.
  - cbn [FillArray_from]. split; [by intros ?%elem_of_nil|]. by intros (k & c & r & ? & _).
  - rewrite FillArray_from_cons, elem_of_app, (Hc (here ++ [n]) q), (IH (S n) q). split.
    + intros [(r & -> & Hr)|(k & c' & r & Hk & -> & Hr)].
      * exists 0%nat, c, r. rewrite Nat.add_0_r, <- app_assoc. done.
      * exists (S k), c', r. split; [done|]. split; [|done]. do 2 f_equal. lia.
    + intros (k & c' & r & Hk & -> & Hr). destruct k as [|k].
      * left. injection Hk as <-. exists r. by rewrite Nat.add_0_r, <- app_assoc.
      * right. exists k, c', r. split; [done|]. split; [|done]. do 2 f_equal. lia.
Qed.

Lemma FillArray_elem (item : GenericTreeItem) :
  forall here q,
    q ∈ FillArray here item [] <-> exists r, q = here ++ r /\ listed item r = true.
Proof.
  induction item as [d cs IH] using GenericTreeItem_ind. intros here q.
  rewrite FillArray_unfold, elem_of_app. split.
  - intros [Hq|Hq].
    + destruct (IsSelected d) eqn:Hs; [|by apply elem_of_nil in Hq].
      apply list_elem_of_singleton in Hq as ->. exists []. by rewrite app_nil_r.
    + destruct (IsExpanded d) eqn:He; [|by apply elem_of_nil in Hq].
      apply (FillArray_from_elem here cs IH) in Hq as (k & c & r & Hk & -> & Hr).
      exists (k :: r). split; [done|]. cbn [listed data GetChildren]. by rewrite He, Hk.
  - intros ([|k r] & -> & Hr).
    + left. cbn [listed data] in Hr. rewrite Hr, app_nil_r. by apply list_elem_of_singleton.
    + right. cbn [listed data GetChildren] in Hr. apply andb_true_iff in Hr as [He Hr].
      rewrite He. destruct (cs !! k) as [c|] eqn:Hk; [|done].
      apply (FillArray_from_elem here cs IH). by exists k, c, r.
Qed.

Lemma FillArray_sorted (item : GenericTreeItem) :
  forall here, StronglySorted path_lt (FillArray here item []).
Proof.
  induction item as [d cs IH] using GenericTreeItem_ind. intros here.
  assert (Helem : Forall (fun c => forall here q,
            q ∈ FillArray here c [] <-> exists r, q = here ++ r /\ listed c r = true) cs)
    by (apply Forall_forall; intros c _; apply FillArray_elem).
  rewrite FillArray_unfold. apply StronglySorted_append.
  - destruct (IsSelected d); repeat constructor.
  - destruct (IsExpanded d); [|constructor].
    generalize 0%nat as n. induction IH as [|c rest Hc _ IHrest]; intros n; [constructor|].
    rewrite FillArray_from_cons. apply Forall_cons_1 in Helem as [_ Helem'].
    apply StronglySorted_append; [apply Hc|by apply IHrest|].
    intros x y Hx Hy. apply FillArray_elem in Hx as (r & -> & _).
    apply (FillArray_from_elem here rest Helem') in Hy as (k & c' & r' & _ & -> & _).
    rewrite <- app_assoc. apply path_lt_siblings. lia.
  - intros x y Hx Hy. destruct (IsSelected d); [|by apply elem_of_nil in Hx].
    apply list_elem_of_singleton in Hx as ->.
    destruct (IsExpanded d); [|by apply elem_of_nil in Hy].
    apply (FillArray_from_elem here cs Helem) in Hy as (k & c & r & _ & -> & _).
    apply path_lt_below.
Qed.

Lemma ancestors_expanded_spec (t : GenericTreeItem) (q : path) :
  ancestors_expanded t (reverse q) = true <->
  forall p k rest, q = p ++ k :: rest ->
    exists x, GetItem t p = Some x /\ IsExpanded (data x) = true.
Proof.
  induction q as [|i q IH] using rev_ind.
  - split; [|done]. intros _ p k rest H. by destruct p.
  - rewrite reverse_snoc. cbn [ancestors_expanded]. rewrite reverse_involutive. split.
    + intros H p k rest Hq.
      destruct (GetItem t q) as [parent|] eqn:Hpar; [|done].
      destruct (IsExpanded (data parent)) eqn:He; [|done]. cbn [negb] in H.
      destruct rest as [|j rest _] using rev_ind.
      * apply app_inj_tail in Hq as [<- _]. by exists parent.
      * rewrite app_comm_cons, app_assoc in Hq. apply app_inj_tail in Hq as [-> _].
        by apply (proj1 IH H p k rest).
    + intros H. destruct (H q i [] eq_refl) as (x & -> & ->). cbn [negb].
      apply IH. intros p k rest ->. apply (H p k (rest ++ [i])). by rewrite <- app_assoc.
Qed.

Lemma listed_spec (q : path) :
  forall t,
    listed t q = true <->
    (exists x, GetItem t q = Some x /\ IsSelected (data x) = true) /\
    forall p k rest, q = p ++ k :: rest ->
      exists x, GetItem t p = Some x /\ IsExpanded (data x) = true.
Proof.
  induction q as [|k r IH]; intros t; cbn [listed GetItem].
  - split.
    + intros H. split; [by exists t|]. intros p k rest Hq. by destruct p.
    + by intros [(x & [= <-] & H) _].
  - rewrite andb_true_iff. split.
    + intros [He Hl]. destruct (GetChildren t !! k) as [c|] eqn:Hk; [|done].
      apply IH in Hl as [Hsel Hpre]. split; [done|].
      intros p k' rest Hq. destruct p as [|k0 p].
      * by exists t.
      * injection Hq as <- ->. cbn [GetItem]. rewrite Hk. by apply (Hpre p k' rest).
    + intros [(x & Hx & Hsel) Hpre].
      destruct (Hpre [] k r eq_refl) as (t' & [= <-] & He). split; [done|].
      destruct (GetChildren t !! k) as [c|] eqn:Hk; [|done].
      apply IH. split; [by exists x|].
      intros p k' rest ->. specialize (Hpre (k :: p) k' rest eq_refl).
      cbn [GetItem] in Hpre. by rewrite Hk in Hpre.
Qed.

(** [GetSelections()] lists the items of the tree that are selected and
    have all their ancestors expanded, each once, in depth-first order:
    a selected item below a collapsed or hidden item is left out. *)
Theorem GetSelections_lists (s : CustomTreeCtrl) :
  (forall q, q ∈ GetSelections s <->
     exists t d, _anchor s = Some t /\ data_at s q = Some d /\ IsSelected d = true /\
                 ancestors_expanded t (reverse q) = true) /\
  StronglySorted path_lt (GetSelections s).
Proof.
  unfold GetSelections, data_at, item_at. destruct (_anchor s) as [t|]; cbn [mbind option_bind].
  2:{ split; [|constructor]. intros q. split; [by intros ?%elem_of_nil|].
      by intros (t & d & ? & _). }
  split; [|apply FillArray_sorted].
  intros q. rewrite (FillArray_elem t [] q). split.
  - intros (r & Hq & Hr). cbn [app] in Hq. subst r.
    apply listed_spec in Hr as [(x & Hx & Hsel) Hpre].
    exists t, (data x). split; [done|]. rewrite Hx. split; [done|]. split; [done|].
    by apply ancestors_expanded_spec.
  - intros (t' & d & [= <-] & Hd & Hsel & Hanc). exists q. split; [done|].
    apply listed_spec. split; [|by apply ancestors_expanded_spec].
    destruct (GetItem t q) as [x|]; [|done]. injection Hd as <-. by exists x.
Qed.

(** ** Selecting and deselecting all items *)

Lemma SetHilight_same (d : ItemData) : SetHilight d (IsSelected d) = d.
Proof. by destruct d. Qed.

Lemma SelectAllChildren_sub_set_all (item : GenericTreeItem) :
  SelectAllChildren_sub item = set_all true item.
Proof.
  induction item as [d cs IH] using GenericTreeItem_ind. cbn [SelectAllChildren_sub set_all].
  f_equal.
  - destruct (IsSelected d) eqn:Hs; [|done]. cbn [negb]. by rewrite <- Hs, SetHilight_same.
  - destruct cs as [|c rest]; [done|]. change (0 <? length (c :: rest))%nat with true. cbv iota.
    induction IH as [|x l Hx _ IHl]; [done|]. cbn [List.map]. by rewrite Hx, IHl.
Qed.

Lemma UnselectAllChildren_sub_set_all (item : GenericTreeItem) :
  UnselectAllChildren_sub item = set_all false item.
Proof.
  induction item as [d cs IH] using GenericTreeItem_ind.
  cbn [UnselectAllChildren_sub set_all]. f_equal.
  - destruct (IsSelected d) eqn:Hs; [done|]. by rewrite <- Hs, SetHilight_same.
  - destruct cs as [|c rest]; [done|]. change (0 <? length (c :: rest))%nat with true. cbv iota.
    induction IH as [|x l Hx _ IHl]; [done|]. cbn [List.map]. by rewrite Hx, IHl.
Qed.

Lemma GetItem_set_all (select : bool) (q : path) :
  forall t, GetItem (set_all select t) q = set_all select <$> GetItem t q.
Proof.
  induction q as [|k r IH]; intros [d cs]; [done|].
  cbn [set_all GetItem GetChildren].
  change (List.map (set_all select) cs) with (set_all select <$> cs).
  rewrite list_lookup_fmap. destruct (cs !! k) as [c|]; [|done]. apply IH.
Qed.

Lemma data_set_all (select : bool) (t : GenericTreeItem) :
  data (set_all select t) = SetHilight (data t) select.
Proof. by destruct t. Qed.

Lemma data_alter_item_outside (f : GenericTreeItem -> GenericTreeItem) (p : path) :
  forall (q : path) (t : GenericTreeItem),
    path_prefix p q = false ->
    data <$> GetItem (alter_item f p t) q = data <$> GetItem t q.
Proof.
  induction p as [|i p IH]; intros q [d cs] Hq; [done|].
  destruct q as [|j q]; [done|]. cbn [alter_item GetItem GetChildren data path_prefix] in *.
  destruct (decide (i = j)) as [->|Hne].
  - rewrite Nat.eqb_refl in Hq. rewrite list_lookup_alter_eq.
    destruct (cs !! j) as [c|]; [|done]. cbn [fmap option_fmap option_map]. by apply IH.
  - by rewrite list_lookup_alter_ne.
Qed.

(** The data of the items after the subtree of [item] has been given the
    selection state [select] throughout. *)
Lemma data_at_set_all (s : CustomTreeCtrl) (v' : CtrlVars) (select : bool) (item q : path)
    (it : GenericTreeItem) :
  item_at s item = Some it ->
  data_at (mkCtrl v' (alter_item (fun _ => set_all select it) item <$> _anchor s)) q
  = (fun d => if path_prefix item q then SetHilight d select else d) <$> data_at s q.
Proof.
  intros Hit. destruct (path_prefix item q) eqn:Hpre.
  - apply path_prefix_spec in Hpre as [r ->]. unfold data_at.
    rewrite (item_at_alter_below s v' item r it _ Hit), item_at_app, Hit.
    cbn [mbind option_bind]. rewrite GetItem_set_all.
    destruct (GetItem it r) as [x|]; [|done]. cbn [fmap option_fmap option_map].
    by rewrite data_set_all.
  - unfold data_at, item_at. cbn [_anchor]. destruct (_anchor s) as [t|]; [|done].
    cbn [fmap option_fmap option_map mbind option_bind].
    rewrite (data_alter_item_outside _ item q t Hpre).
    by destruct (GetItem t q).
Qed.

Lemma SelectAllChildren_run (s : CustomTreeCtrl) (item : path) (it : GenericTreeItem) :
  multiple_selection (vars s) = true -> item_at s item = Some it ->
  SelectAllChildren item s
  = (mkCtrl (vars s) (alter_item (fun _ => set_all true it) item <$> _anchor s), Ok tt).
Proof.
  intros Hm Hit. unfold multiple_selection in Hm. unfold SelectAllChildren, bind, get_vars.
  destruct (HasAGWFlag (vars s) TR_MULTIPLE), (HasAGWFlag (vars s) TR_EXTENDED); try done;
    cbn [negb andb]; rewrite (on_item_run _ _ s it Hit); cbn [fst snd];
    by rewrite SelectAllChildren_sub_set_all.
Qed.

(** With multiple selection enabled, [SelectAllChildren(item)] selects the
    item and every item below it, and [SelectAll()] every item of the
    tree; they change nothing else: the other items, the other fields of
    the items and the instance variables are as before.  Without multiple
    selection both raise and change nothing. *)
Theorem SelectAll_selects (s : CustomTreeCtrl) :
  (multiple_selection (vars s) = false ->
     SelectAll s
     = (s, Raise (Exception "SelectAll can be used only with multiple selection enabled.")) /\
     forall item,
       SelectAllChildren item s
       = (s, Raise (Exception
                      "SelectAllChildren can be used only with multiple selection enabled."))) /\
  (multiple_selection (vars s) = true ->
     (outcome SelectAll s = Ok tt /\ vars (after SelectAll s) = vars s /\
      forall q, data_at (after SelectAll s) q
                = (fun d => SetHilight d true) <$> data_at s q) /\
     forall item, is_Some (item_at s item) ->
       outcome (SelectAllChildren item) s = Ok tt /\
       vars (after (SelectAllChildren item) s) = vars s /\
       forall q, data_at (after (SelectAllChildren item) s) q
                 = (fun d => if path_prefix item q then SetHilight d true else d)
                     <$> data_at s q).
Proof.
  split.
  - unfold multiple_selection. intros [H1 H2]%orb_false_iff.
    unfold SelectAll, SelectAllChildren, bind, get_vars. by rewrite H1, H2.
  - intros Hm.
    assert (Hsub : forall item, is_Some (item_at s item) ->
       outcome (SelectAllChildren item) s = Ok tt /\
       vars (after (SelectAllChildren item) s) = vars s /\
       forall q, data_at (after (SelectAllChildren item) s) q
                 = (fun d => if path_prefix item q then SetHilight d true else d)
                     <$> data_at s q).
    { intros item [it Hit]. unfold outcome, after.
      rewrite (SelectAllChildren_run s item it Hm Hit). cbn [fst snd vars].
      split; [done|]. split; [done|]. intros q. by apply data_at_set_all. }
    split; [|exact Hsub].
    assert (Hrun : SelectAll s
                   = match _anchor s with Some _ => SelectAllChildren [] s | None => (s, Ok tt) end).
    { unfold SelectAll, bind, get_vars, GetRootItem. unfold multiple_selection in Hm.
      destruct (HasAGWFlag (vars s) TR_MULTIPLE), (HasAGWFlag (vars s) TR_EXTENDED); try done;
        cbn [negb andb]; by destruct (_anchor s). }
    unfold outcome, after. rewrite Hrun. destruct (_anchor s) as [t|] eqn:Ha.
    + assert (Hv : is_Some (item_at s [])) by (unfold item_at; rewrite Ha; by eexists).
      destruct (Hsub [] Hv) as (H1 & H2 & H3). split; [exact H1|]. split; [exact H2|].
      intros q. exact (H3 q).
    + cbn [fst snd]. split; [done|]. split; [done|]. intros q.
      unfold data_at, item_at. by rewrite Ha.
Qed.

Lemma SelectAll_selects_witness :
  data_at (after SelectAll (range_example None)) [2%nat]
  = (fun d => SetHilight d true) <$> data_at (range_example None) [2%nat].
Proof.
  exact (proj2 (proj2 (proj1 (proj2 (SelectAll_selects (range_example None)) eq_refl)))
           [2%nat]).
Defined.

Lemma Unselect_run (s : CustomTreeCtrl) :
  ref_valid s (_current (vars s)) ->
  Unselect s
  = (mkCtrl (set_select_me (set_current (vars s) None) None)
       (match _current (vars s) with
        | Some c => alter_item (with_data (fun d => SetHilight d false)) c <$> _anchor s
        | None => _anchor s
        end), Ok tt).
Proof.
  intros Hv. unfold Unselect, bind, get_vars.
  destruct (_current (vars s)) as [c|] eqn:Hc; [|done].
  destruct (Hv c eq_refl) as [it Hit]. rewrite (on_item_run _ _ s it Hit). cbn [fst snd].
  unfold put_vars. cbn [vars _anchor]. do 2 f_equal.
  apply (alter_anchor_ext _ _ c (_anchor s) it); [exact Hit|done].
Qed.

Lemma UnselectAll_run (s : CustomTreeCtrl) :
  ref_valid s (_current (vars s)) ->
  UnselectAll s
  = (mkCtrl (set_select_me (set_current (vars s) None) None) (set_all false <$> _anchor s),
     Ok tt).
Proof.
  intros Hv. unfold UnselectAll, bind, GetRootItem.
  destruct (_anchor s) as [t|] eqn:Ha.
  - assert (Hit : item_at s [] = Some t) by (unfold item_at; by rewrite Ha).
    unfold UnselectAllChildren. rewrite (on_item_run _ _ s t Hit). cbn [fst snd].
    rewrite UnselectAllChildren_sub_set_all, Ha.
    cbn [alter_item fmap option_fmap option_map].
    set (s1 := mkCtrl (vars s) (Some (set_all false t))).
    assert (Hv1 : ref_valid s1 (_current (vars s1))).
    { intros c Hc. destruct (Hv c Hc) as [x Hx]. unfold item_at in *. rewrite Ha in Hx.
      cbn [s1 _anchor mbind option_bind] in *. rewrite GetItem_set_all, Hx. by eexists. }
    rewrite (Unselect_run s1 Hv1). cbn [s1 vars _anchor]. do 2 f_equal.
    destruct (_current (vars s)) as [c|] eqn:Hc; [|done].
    destruct (Hv c eq_refl) as [x0 Hx0]. unfold item_at in Hx0. rewrite Ha in Hx0.
    cbn [mbind option_bind fmap option_fmap option_map] in *. f_equal.
    assert (Hx : GetItem (set_all false t) c = Some (set_all false x0))
      by (by rewrite GetItem_set_all, Hx0).
    rewrite (alter_item_ext_at _ (fun _ => set_all false x0) c _ _ Hx).
    + by apply alter_item_id.
    + destruct x0 as [d cs]. cbn [set_all]. unfold with_data. cbn [data GetChildren].
      by rewrite SetHilight_twice.
  - cbn [ret]. rewrite (Unselect_run s Hv).
    assert (Hnone : _current (vars s) = None).
    { destruct (_current (vars s)) as [c|] eqn:Hc; [|done].
      destruct (Hv c eq_refl) as [x Hx]. unfold item_at in Hx. by rewrite Ha in Hx. }
    by rewrite Hnone, Ha.
Qed.

(** [UnselectAll()], on a control whose current item, if any, is an item
    of the tree: afterwards no item is selected, there is no current item
    and no item to select, and [GetSelections()] is empty; the other
    fields of the items and the other instance variables are as before.
    [Unselect()] alone deselects the current item only. *)
Theorem UnselectAll_clears (s : CustomTreeCtrl) :
  ref_valid s (_current (vars s)) ->
  let s' := after UnselectAll s in
  outcome UnselectAll s = Ok tt /\
  vars s' = set_select_me (set_current (vars s) None) None /\
  (forall q, data_at s' q = (fun d => SetHilight d false) <$> data_at s q) /\
  GetSelections s' = [] /\
  outcome Unselect s = Ok tt /\
  vars (after Unselect s) = set_select_me (set_current (vars s) None) None /\
  (forall q, data_at (after Unselect s) q
             = (fun d => if ref_eqb q (_current (vars s)) then SetHilight d false else d)
                 <$> data_at s q).
Proof.
  intros Hv s'.
  assert (Hun : outcome Unselect s = Ok tt /\
    vars (after Unselect s) = set_select_me (set_current (vars s) None) None /\
    (forall q, data_at (after Unselect s) q
               = (fun d => if ref_eqb q (_current (vars s)) then SetHilight d false else d)
                   <$> data_at s q)).
  { unfold outcome, after. rewrite (Unselect_run s Hv). cbn [fst snd vars].
    split; [done|]. split; [done|]. intros q. unfold data_at, item_at. cbn [_anchor].
    destruct (_current (vars s)) as [c|]; cbn [ref_eqb].
    2:{ by destruct (_anchor s ≫= _). }
    destruct (_anchor s) as [t|]; [|done]. cbn [fmap option_fmap option_map mbind option_bind].
    destruct (path_eqb q c) eqn:He.
    - apply path_eqb_eq in He as ->. rewrite GetItem_alter_item.
      by destruct (GetItem t c).
    - destruct (path_prefix c q) eqn:Hpre.
      + apply path_prefix_spec in Hpre as [r ->]. destruct r as [|k r].
        { rewrite app_nil_r, path_eqb_refl in He. done. }
        rewrite !GetItem_app, GetItem_alter_item.
        destruct (GetItem t c) as [x|]; [|done]. cbn [fmap option_fmap option_map mbind option_bind].
        destruct x as [d cs]. cbn [with_data GetItem GetChildren data].
        destruct (cs !! k) as [c0|]; [|done]. by destruct (GetItem c0 r).
      + rewrite (data_alter_item_outside _ c q t Hpre). by destruct (GetItem t q). }
  subst s'. unfold outcome at 1, after at 1 2 3. rewrite (UnselectAll_run s Hv).
  cbn [fst snd vars].
  split; [done|]. split; [done|]. split; [|split; [|exact Hun]].
  - intros q. unfold data_at, item_at. cbn [_anchor].
    destruct (_anchor s) as [t|]; [|done]. cbn [fmap option_fmap option_map mbind option_bind].
    rewrite GetItem_set_all. destruct (GetItem t q) as [x|]; [|done].
    cbn [fmap option_fmap option_map]. by rewrite data_set_all.
  - unfold GetSelections. cbn [_anchor]. destruct (_anchor s) as [t|]; [|done].
    cbn [fmap option_fmap option_map].
    destruct (FillArray [] (set_all false t) []) as [|q l] eqn:Hl; [done|].
    assert (Hq : q ∈ FillArray [] (set_all false t) []) by (rewrite Hl; by left).
    apply FillArray_elem in Hq as (r & _ & Hr).
    apply listed_spec in Hr as [(x & Hx & Hsel) _].
    rewrite GetItem_set_all in Hx. destruct (GetItem t r) as [x0|]; [|done].
    injection Hx as <-. rewrite data_set_all in Hsel. by destruct (data x0).
Qed.

Lemma UnselectAll_clears_witness :
  GetSelections (after UnselectAll (range_example (Some [1%nat]))) = [] /\
  _current (vars (after UnselectAll (range_example (Some [1%nat])))) = None.
Proof.
  assert (Hv : ref_valid (range_example (Some [1%nat]))
                 (_current (vars (range_example (Some [1%nat])))))
    by (intros q [= <-]; by eexists).
  destruct (UnselectAll_clears (range_example (Some [1%nat])) Hv) as (_ & H2 & _ & H4 & _).
  split; [exact H4|]. by rewrite H2.
Defined.

(** ** What a layout pass changes *)

Lemma geometry_only_refl (d : ItemData) : geometry_only d d.
Proof. unfold geometry_only. by destruct d. Qed.

Lemma geometry_only_trans (d1 d2 d3 : ItemData) :
  geometry_only d1 d2 -> geometry_only d2 d3 -> geometry_only d1 d3.
Proof.
  unfold geometry_only. destruct d1, d2, d3. cbn. intros [= ] [= ]. subst. reflexivity.
Qed.

Lemma geometry_only_set (d : ItemData) (x y w h : Z) :
  geometry_only d (set_x d x) /\ geometry_only d (set_y d y) /\
  geometry_only d (set_width d w) /\ geometry_only d (set_height d h).
Proof. unfold geometry_only. by destruct d. Qed.

Lemma geometry_only_fields (d d' : ItemData) :
  geometry_only d d' ->
  _hidden d' = _hidden d /\ _isCollapsed d' = _isCollapsed d /\
  _hasHilight d' = _hasHilight d /\ _enabled d' = _enabled d /\
  _type d' = _type d /\ _checked d' = _checked d /\ _is3State d' = _is3State d /\
  _text d' = _text d.
Proof. unfold geometry_only. intros ->. by destruct d. Qed.

Lemma CalculateSize_geometry (v : CtrlVars) (d : ItemData) :
  geometry_only d (CalculateSize v d).2 /\ _lineHeight v <= _lineHeight (CalculateSize v d).1.
Proof.
  unfold CalculateSize.
  destruct (truthy (_freezeCount v)).
  { split; [apply geometry_only_refl|]. destruct v; simpl; lia. }
  destruct (IsHidden d); [split; [apply geometry_only_set; exact 0|cbn [fst]; lia]|].
  destruct (GetFullMultiLineTextExtent v _ _ _) as [text_w text_h].
  destruct (if negb (GetCurrentImage d =? _NO_IMAGE) then _ else _) as [image_w image_h].
  cbn [fst snd]. split.
  - eapply geometry_only_trans; [|apply geometry_only_set; exact 0].
    apply geometry_only_set; exact 0.
  - destruct (Z.ltb_spec (_lineHeight v)
                (if (if text_h + 2 <? image_h then image_h else text_h + 2) <? 30
                 then (if text_h + 2 <? image_h then image_h else text_h + 2) + 2
                 else (if text_h + 2 <? image_h then image_h else text_h + 2)
                      + (if text_h + 2 <? image_h then image_h else text_h + 2) / 10));
      [destruct v; simpl in *; lia|lia].
Qed.

Lemma CalculateLevel_geometry (item : GenericTreeItem) :
  forall (v : CtrlVars) (level y : Z),
    tree_rel geometry_only item (CalculateLevel v item level y).1.2 /\
    _lineHeight v <= _lineHeight (CalculateLevel v item level y).1.1.
Proof.
  induction item as [d cs IH] using GenericTreeItem_ind. intros v level y.
  assert (Hch : forall v1 d1 y1, geometry_only d d1 -> _lineHeight v <= _lineHeight v1 ->
    let r := (let '(vy, cs', _) :=
         for_children (R := Empty_set)
           (fun (vy : CtrlVars * Z) (_ : nat) (child : GenericTreeItem) =>
              let '(v2, child1, y2) := CalculateLevel vy.1 child (level + 1) vy.2 in
              ((v2, y2), child1, None))
           (v1, y1) 0%nat cs in
       (vy.1, Item d1 cs', vy.2)) in
    tree_rel geometry_only (Item d cs) r.1.2 /\ _lineHeight v <= _lineHeight r.1.1).
  { intros v1 d1 y1 Hd Hl.
    set (body := fun (vy : CtrlVars * Z) (_ : nat) (child : GenericTreeItem) => _).
    pose proof (for_children_length body cs (v1, y1) 0%nat) as Hlen.
    assert (Hnone : forall s' k c, (body s' k c).2 = None).
    { intros s' k c. unfold body. by destruct (CalculateLevel s'.1 c (level + 1) s'.2) as [[? ?] ?]. }
    pose proof (for_children_state body (fun vy => _lineHeight v <= _lineHeight vy.1) cs
                  (v1, y1) 0%nat) as Hst.
    pose proof (for_children_ran body (fun _ c c' => tree_rel geometry_only c c') cs
                  (v1, y1) 0%nat Hnone) as Hrel.
    destruct (for_children body (v1, y1) 0%nat cs) as [[vy cs'] stop]. cbn [fst snd] in *.
    split.
    - constructor; [done|]. apply Forall2_same_length_lookup. split; [done|].
      intros i c c' Hc Hc'. apply Hrel with (i := i); [|done|done].
      intros j cj s' Hj. unfold body. rewrite Forall_lookup in IH.
      destruct (IH j cj Hj s'.1 (level + 1) s'.2) as [Hr _].
      by destruct (CalculateLevel s'.1 cj (level + 1) s'.2) as [[? ?] ?].
    - apply Hst; [|done]. eapply Forall_impl; [exact IH|].
      intros c Hc [v2 y2] k Hs. unfold body. cbn [fst snd] in *.
      destruct (Hc v2 (level + 1) y2) as [_ Hle].
      destruct (CalculateLevel v2 c (level + 1) y2) as [[v3 c3] y3]. cbn [fst snd] in *. lia. }
  cbn [CalculateLevel].
  destruct (negb (HasAGWFlag v TR_HIDE_ROOT) || negb (level =? 0)).
  2:{ apply Hch; [apply geometry_only_refl|lia]. }
  destruct (CalculateSize_geometry v d) as [Hg Hl].
  destruct (CalculateSize v d) as [v1 d1]. cbn [fst snd] in Hg, Hl.
  set (d2 := set_y (set_x d1 _) y).
  assert (Hd2 : geometry_only d d2).
  { unfold d2. eapply geometry_only_trans; [exact Hg|].
    eapply geometry_only_trans; [|apply geometry_only_set; exact 0].
    apply geometry_only_set; exact 0. }
  assert (Hsame : tree_rel geometry_only (Item d cs) (Item d2 cs)).
  { constructor; [done|]. apply Forall2_same_length_lookup. split; [done|].
    intros i x x' Hx Hx'. assert (x = x') as -> by congruence.
    apply tree_rel_refl, geometry_only_refl. }
  destruct (IsHidden d2); [done|]. destruct (negb (IsExpanded d2)); [done|].
  by apply Hch.
Qed.

Lemma tree_rel_items_related (P : ItemData -> ItemData -> Prop) (s : CustomTreeCtrl)
    (v' : CtrlVars) (t t' : GenericTreeItem) :
  _anchor s = Some t -> tree_rel P t t' ->
  items_related (fun _ => P) s (mkCtrl v' (Some t')).
Proof.
  intros Ha Ht q. unfold data_at, item_at. rewrite Ha. cbn [_anchor mbind option_bind].
  destruct (GetItem t q) as [it|] eqn:Hq; cbn [fmap option_fmap option_map].
  - destruct (tree_rel_GetItem P q t t' it Ht Hq) as (it' & -> & Hrel).
    exists (data it'). split; [done|]. by apply tree_rel_data.
  - by rewrite (tree_rel_GetItem_None P q t t' Ht Hq).
Qed.

(** The roots of two controls are related, or both controls are empty. *)
Lemma CalculatePositions_tree (s : CustomTreeCtrl) :
  match _anchor s, _anchor (after CalculatePositions s) with
  | Some t, Some t' => tree_rel geometry_only t t'
  | None, None => True
  | _, _ => False
  end /\
  _lineHeight (vars s) <= _lineHeight (vars (after CalculatePositions s)) /\
  env_eq (set_layouts (vars s) (layouts (vars (after CalculatePositions s))))
    (vars (after CalculatePositions s)).
Proof.
  unfold after, CalculatePositions. destruct (_anchor s) as [anchor|] eqn:Ha.
  2:{ cbn [fst]. rewrite Ha. split; [done|]. split; [lia|].
      destruct (vars s). apply env_eq_refl. }
  destruct (truthy (_freezeCount (vars s))) eqn:Hf.
  { cbn [fst vars _anchor]. split; [apply tree_rel_refl, geometry_only_refl|]. split.
    - destruct (vars s); simpl; lia.
    - destruct (vars s). by repeat split. }
  set (v0 := set_layouts (vars s) (S (layouts (vars s)))).
  assert (H0 : _lineHeight v0 = _lineHeight (vars s)) by (unfold v0; by destruct (vars s)).
  destruct (CalculateLevel_geometry anchor v0 0 2) as [R1 L1].
  destruct (CalculateLevel_frame anchor v0 0 2) as [E1 _].
  destruct (CalculateLevel v0 anchor 0 2) as [[v1 a1] y1]. cbn [fst snd] in R1, L1, E1.
  assert (Henv : forall v2, env_eq v1 v2 ->
            env_eq (set_layouts (vars s) (layouts v2)) v2).
  { intros v2 E2. pose proof (env_eq_trans _ _ _ E1 E2) as E.
    assert (Hl2 : layouts v2 = layouts v0) by apply E. rewrite Hl2.
    assert (set_layouts (vars s) (layouts v0) = v0) as -> by (unfold v0; by destruct (vars s)).
    exact E. }
  destruct (HasAGWFlag v1 TR_ALIGN_WINDOWS || HasAGWFlag v1 TR_ALIGN_WINDOWS_RIGHT).
  - destruct (CalculateLevel_geometry a1 v1 0 2) as [R2 L2].
    destruct (CalculateLevel_frame a1 v1 0 2) as [E2 _].
    destruct (CalculateLevel v1 a1 0 2) as [[v2 a2] y2]. cbn [fst snd vars _anchor] in *.
    split; [|split; [lia|by apply Henv]].
    eapply tree_rel_trans; [apply geometry_only_trans|exact R1|exact R2].
  - cbn [fst snd vars _anchor] in *.
    split; [done|]. split; [lia|apply Henv, env_eq_refl].
Qed.

Lemma CalculatePositions_geometry (s : CustomTreeCtrl) :
  items_related (fun _ => geometry_only) s (after CalculatePositions s).
Proof.
  destruct (CalculatePositions_tree s) as (Ht & _).
  destruct (_anchor s) as [t|] eqn:Ha;
    destruct (_anchor (after CalculatePositions s)) as [t'|] eqn:Ha'; try done.
  - destruct (after CalculatePositions s) as [v' a']. cbn [_anchor] in Ha'. subst a'.
    by apply (tree_rel_items_related geometry_only s v' t t').
  - intros q. unfold data_at, item_at. by rewrite Ha, Ha'.
Qed.

Lemma FillArray_geometry (t : GenericTreeItem) :
  forall t', tree_rel geometry_only t t' ->
  forall here array, FillArray here t array = FillArray here t' array.
Proof.
  induction t as [d cs IH] using GenericTreeItem_ind. intros t' Ht.
  inversion Ht as [? d' ? cs' Hd Hcs]; subst. intros here array.
  destruct (geometry_only_fields d d' Hd) as (Hh & Hc & Hs & _).
  cbn [FillArray]. cbv zeta. unfold IsSelected, IsExpanded, IsHidden. rewrite Hh, Hc, Hs.
  rewrite <- (Forall2_length _ _ _ Hcs).
  destruct ((0 <? length cs)%nat && _); [|done].
  generalize (if _hasHilight d then array ++ [here] else array) as arr.
  generalize 0%nat as n. clear Ht.
  induction Hcs as [|c c' cs cs' Hcc _ IHcs]; intros n arr; [done|].
  apply Forall_cons_1 in IH as [IHc IHrest]. cbn [FillArray_from].
  rewrite (IHc c' Hcc). by apply IHcs.
Qed.

Lemma GetChildrenCount_geometry (t : GenericTreeItem) :
  forall t', tree_rel geometry_only t t' -> GetChildrenCount t' = GetChildrenCount t.
Proof.
  induction t as [d cs IH] using GenericTreeItem_ind. intros t' Ht.
  inversion Ht as [? d' ? cs' Hd Hcs]; subst. rewrite !GetChildrenCount_unfold. clear Ht.
  induction Hcs as [|c c' cs cs' Hcc _ IHcs]; [done|].
  apply Forall_cons_1 in IH as [IHc IHrest]. unfold subtrees_count in *. cbn [foldr].
  by rewrite (IHc c' Hcc), (IHcs IHrest).
Qed.

(** A layout pass changes nothing of the items but their cached position
    and size: the tree has the same items, with the same text, type,
    check, selection, enabling, hiding and expansion state, so that
    [GetCount()] and [GetSelections()] give what they gave before.  Of
    the instance variables it changes only the line height, which it
    never lowers, the count of layout passes, and the dirty flag, which
    it sets exactly when the control is frozen and has a root. *)
Theorem layout_changes_geometry_only (s : CustomTreeCtrl) :
  let s' := after CalculatePositions s in
  outcome CalculatePositions s = Ok tt /\
  items_related (fun _ => geometry_only) s s' /\
  GetCount s' = GetCount s /\ GetSelections s' = GetSelections s /\
  _lineHeight (vars s) <= _lineHeight (vars s') /\
  env_eq (set_layouts (vars s) (layouts (vars s'))) (vars s') /\
  _dirty (vars s')
  = _dirty (vars s) ||
    match _anchor s with Some _ => truthy (_freezeCount (vars s)) | None => false end.
Proof.
  intros s'. split; [apply CalculatePositions_Ok|].
  split; [apply CalculatePositions_geometry|].
  destruct (CalculatePositions_tree s) as (Ht & Hl & Henv). fold s' in Ht, Hl, Henv.
  assert (Hst : _agwStyle (vars s') = _agwStyle (vars s)).
  { destruct Henv as (H & _). rewrite H. by destruct (vars s). }
  assert (Hdirty : _dirty (vars s')
                   = _dirty (vars s) ||
                     match _anchor s with
                     | Some _ => truthy (_freezeCount (vars s))
                     | None => false
                     end).
  { destruct (_anchor s) as [t|] eqn:Ha.
    - destruct (truthy (_freezeCount (vars s))) eqn:Hf.
      + subst s'. rewrite (CalculatePositions_frozen s Hf), Ha. cbn [vars].
        rewrite orb_true_r. by destruct (vars s).
      + rewrite orb_false_r.
        destruct (CalculatePositions_unfrozen s Hf) as (_ & _ & _ & _ & Hd & _);
          [by rewrite Ha|exact Hd].
    - rewrite orb_false_r. subst s'. unfold after, CalculatePositions. by rewrite Ha. }
  split; [|split; [|split; [exact Hl|split; [exact Henv|exact Hdirty]]]].
  - unfold GetCount. rewrite (HasAGWFlag_style _ _ _ Hst).
    destruct (_anchor s) as [t|], (_anchor s') as [t'|]; try done.
    by rewrite (GetChildrenCount_geometry t t' Ht).
  - unfold GetSelections.
    destruct (_anchor s) as [t|], (_anchor s') as [t'|]; try done.
    by rewrite (FillArray_geometry t t' Ht).
Qed.

(** ** Hiding an item *)

Lemma data_at_with_data (s : CustomTreeCtrl) (v' : CtrlVars) (f : ItemData -> ItemData)
    (c q : path) :
  data_at (mkCtrl v' (alter_item (with_data f) c <$> _anchor s)) q
  = (fun d => if path_eqb q c then f d else d) <$> data_at s q.
Proof.
  unfold data_at, item_at. cbn [_anchor].
  destruct (_anchor s) as [t|]; [|done]. cbn [fmap option_fmap option_map mbind option_bind].
  destruct (path_eqb q c) eqn:He.
  - apply path_eqb_eq in He as ->. rewrite GetItem_alter_item. by destruct (GetItem t c).
  - destruct (path_prefix c q) eqn:Hpre.
    + apply path_prefix_spec in Hpre as [r ->]. destruct r as [|k r].
      { rewrite app_nil_r, path_eqb_refl in He. done. }
      rewrite !GetItem_app, GetItem_alter_item.
      destruct (GetItem t c) as [x|]; [|done]. cbn [fmap option_fmap option_map mbind option_bind].
      destruct x as [d cs]. unfold with_data. cbn [GetItem GetChildren data].
      destruct (cs !! k) as [c0|]; [|done]. by destruct (GetItem c0 r).
    + rewrite (data_alter_item_outside _ c q t Hpre). by destruct (GetItem t q).
Qed.

(** [HideItem(item, hide)] on an item that is already in the state asked
    for does nothing.  Otherwise it returns after one repaint request and
    no event; the item has the new state, and nothing else of the items
    has changed but their cached position and size.  An item that has
    been hidden is not visible, and hit testing returns neither the item
    nor any item below it. *)
Theorem HideItem_hides (s : CustomTreeCtrl) (item : path) (it : GenericTreeItem)
    (hide : bool) :
  item_at s item = Some it ->
  let s' := after (HideItem item hide) s in
  outcome (HideItem item hide) s = Ok tt /\
  (hide = IsHidden (data it) -> s' = s) /\
  (hide <> IsHidden (data it) ->
     refreshes (vars s') = S (refreshes (vars s)) /\ sent (vars s') = sent (vars s) /\
     items_related
       (fun q d d' => geometry_only (if path_eqb q item then Hide d hide else d) d') s s' /\
     (hide = true ->
        IsVisible s' item = Some false /\
        forall point k flags, HitTest s' point <> (Some (item ++ k), flags))).
Proof.
  intros Hit s'. subst s'. unfold outcome, after, HideItem, bind, the_item. rewrite Hit.
  destruct (Bool.eqb hide (IsHidden (data it))) eqn:Heq.
  { apply eqb_prop in Heq. cbn [ret fst snd]. by repeat split. }
  apply eqb_false_iff in Heq. unfold put_data.
  set (s1 := mkCtrl (vars s) _).
  assert (H1 : items_related
                 (fun q d d' => d' = if path_eqb q item then Hide d hide else d) s s1).
  { intros q. unfold s1. rewrite data_at_with_data.
    destruct (data_at s q) as [d|] eqn:Hd; [|done]. cbn [fmap option_fmap option_map].
    exists (if path_eqb q item then Hide (data it) hide else d). split; [done|].
    destruct (path_eqb q item) eqn:He; [|done]. apply path_eqb_eq in He as ->.
    unfold data_at in Hd. rewrite Hit in Hd. by injection Hd as <-. }
  pose proof (CalculatePositions_Ok s1) as HOk.
  pose proof (CalculatePositions_geometry s1) as H2.
  destruct (CalculatePositions_tree s1) as (_ & _ & Henv).
  unfold outcome, after in *.
  destruct (CalculatePositions s1) as [s2 r]. cbn [fst snd] in *. subst r.
  unfold Refresh, AdjustMyScrollbars, bind, get_vars, put_vars. cbn [vars _anchor].
  set (v3 := set_refreshes (vars s2) (S (refreshes (vars s2)))).
  assert (Hv3 : refreshes v3 = S (refreshes (vars s)) /\ sent v3 = sent (vars s) /\
                truthy (_freezeCount v3) = truthy (_freezeCount (vars s2))).
  { assert (Hr : refreshes (vars s2) = refreshes (vars s) /\ sent (vars s2) = sent (vars s)).
    { destruct Henv as (_ & _ & _ & _ & _ & _ & _ & _ & _ & _ & _ & _ & _ & _ & _ & _ & _
                        & Hr & Hs).
      rewrite Hr, Hs. unfold s1. cbn [vars]. by destruct (vars s). }
    destruct Hr as [Hr Hs]. unfold v3. rewrite <- Hr, <- Hs. by destruct (vars s2). }
  destruct Hv3 as (Hr3 & Hs3 & Hf3). rewrite Hf3.
  lazymatch goal with |- snd ?t = _ /\ _ => set (final := t) end.
  assert (Hfinal : final.2 = Ok tt /\ _anchor final.1 = _anchor s2 /\
                   refreshes (vars final.1) = S (refreshes (vars s)) /\
                   sent (vars final.1) = sent (vars s)).
  { unfold final. destruct (truthy (_freezeCount (vars s2))); cbn [ret fst snd vars _anchor].
    - rewrite <- Hr3, <- Hs3. by destruct v3.
    - done. }
  destruct Hfinal as (F1 & F2 & F3 & F4). clearbody final.
  assert (Hrel : items_related
            (fun q d d' => geometry_only (if path_eqb q item then Hide d hide else d) d')
            s final.1).
  { intros q. specialize (H1 q). specialize (H2 q).
    assert (Hd : data_at final.1 q = data_at s2 q) by (unfold data_at, item_at; by rewrite F2).
    rewrite Hd. destruct (data_at s q) as [d|].
    - destruct H1 as (d1 & Hd1 & ->). rewrite Hd1 in H2. exact H2.
    - by rewrite H1 in H2. }
  split; [exact F1|]. split; [done|]. intros _.
  split; [exact F3|]. split; [exact F4|]. split; [exact Hrel|].
  intros ->. specialize (Hrel item). unfold data_at in Hrel. rewrite Hit in Hrel.
  cbn [fmap option_fmap option_map] in Hrel. destruct Hrel as (d' & Hd' & Hg).
  rewrite path_eqb_refl in Hg. apply geometry_only_fields in Hg as (Hh & _).
  revert Hd'. unfold item_at. destruct (_anchor final.1) as [t'|] eqn:Ha'; [|done].
  cbn [mbind option_bind]. destruct (GetItem t' item) as [it'|] eqn:Hit'; [|done].
  intros [= <-]. split.
  - unfold IsVisible. rewrite Ha', Hit'. unfold IsHidden. by rewrite Hh.
  - intros point k flags H.
    destruct (HitTest_Some _ point _ flags H) as (anchor' & it'' & Ha'' & _ & Hs & _).
    rewrite Ha' in Ha''. injection Ha'' as <-.
    pose proof (path_shown_prefix _ _ _ _ Hs Hit') as Hno. unfold IsHidden in Hno.
    rewrite Hh in Hno. done.
Qed.

Lemma HideItem_hides_witness :
  IsVisible (after (HideItem [0%nat] true) radio_example) [0%nat] = Some false /\
  refreshes (vars (after (HideItem [0%nat] true) radio_example))
  = S (refreshes (vars radio_example)).
Proof.
  destruct (HideItem_hides radio_example [0%nat] _ true eq_refl) as (_ & _ & H).
  destruct (H ltac:(discriminate)) as (H1 & _ & _ & H4).
  split; [exact (proj1 (H4 eq_refl))|exact H1].
Defined.

(** ** Checking the items below an item *)

(** A loop whose body never stops relates the children one by one. *)
Lemma for_children_Forall2 {St R : Type}
    (body : St -> nat -> GenericTreeItem -> St * GenericTreeItem * option R)
    (Q : GenericTreeItem -> GenericTreeItem -> Prop) (cs : list GenericTreeItem) :
  Forall (fun c => forall s k, (body s k c).2 = None /\ Q c (body s k c).1.2) cs ->
  forall s n,
    (for_children body s n cs).2 = None /\ Forall2 Q cs (for_children body s n cs).1.2.
Proof.
  induction 1 as [|c rest Hc _ IH]; intros s n; cbn [for_children]; [by split|].
  destruct (Hc s n) as [Hnone HQ].
  destruct (body s n c) as [[s1 c1] stop]. cbn [fst snd] in *. subst stop.
  destruct (IH s1 (S n)) as [Hnone' HQ'].
  destruct (for_children body s1 (S n) rest) as [[s2 rest'] stop']. cbn [fst snd] in *.
  split; [done|]. by constructor.
Qed.

Lemma CheckItem2_exact (v : CtrlVars) (d : ItemData) (checked : Z) (torefresh : bool) :
  GetType d = 1 -> checked = 0 \/ checked = 1 ->
  (CheckItem2 v d checked torefresh).2 = None /\
  geometry_only (set_checked d checked) (CheckItem2 v d checked torefresh).1.2.
Proof.
  intros Hty Hc. unfold CheckItem2, Check. rewrite Hty. cbn [Z.eqb].
  assert (negb ((checked =? 1) || (checked =? 0)) = false) as -> by (by destruct Hc as [-> | ->]).
  destruct torefresh.
  - destruct (CalculateSize_geometry v (set_checked d checked)) as [Hg _].
    by destruct (CalculateSize v (set_checked d checked)) as [v' d'].
  - split; [done|apply geometry_only_refl].
Qed.

Lemma of_bool_01 (b : bool) : of_bool b = 0 \/ of_bool b = 1.
Proof. destruct b; [by right|by left]. Qed.

Lemma checked_from_rel (f : ItemData -> Z) (cs : list GenericTreeItem)
    (cs' : list GenericTreeItem) (d0 d : ItemData) (x : ItemData) :
  geometry_only d0 d ->
  Forall2 (fun c c' => tree_rel geometry_only
                         (checked_from f (check_data f (data c)) c) c') cs cs' ->
  tree_rel geometry_only (checked_from f d0 (Item x cs)) (Item d cs').
Proof.
  intros Hd Hcs. cbn [checked_from]. constructor; [done|].
  induction Hcs as [|c c' cs cs' Hc _ IH]; cbn [List.map]; by constructor.
Qed.

Lemma AutoCheckChild_from_exact (checked : Z) (item : GenericTreeItem) :
  checked = 0 \/ checked = 1 ->
  forall (v : CtrlVars) (d d0 : ItemData),
    geometry_only d0 d ->
    (AutoCheckChild_from v d item checked).2 = None /\
    tree_rel geometry_only (checked_from (fun _ => checked) d0 item)
      (AutoCheckChild_from v d item checked).1.2.
Proof.
  intros Hc. induction item as [x cs IH] using GenericTreeItem_ind. intros v d d0 Hd.
  cbn [AutoCheckChild_from]. cbv zeta.
  set (body := fun (v : CtrlVars) (_ : nat) (child : GenericTreeItem) => _).
  destruct (for_children_Forall2 body
              (fun c c' => tree_rel geometry_only
                 (checked_from (fun _ => checked) (check_data (fun _ => checked) (data c)) c) c')
              cs) with (s := v) (n := 0%nat) as [Hnone Hrel].
  { eapply Forall_impl; [exact IH|]. intros c Hch s k. unfold body, check_data.
    destruct ((GetType (data c) =? 1) && IsEnabled (data c)) eqn:Hg.
    - apply andb_prop in Hg as [Hty%Z.eqb_eq _].
      destruct (CheckItem2_exact s (data c) checked (IsExpanded d) Hty Hc) as [He Hgeo].
      destruct (CheckItem2 s (data c) checked (IsExpanded d)) as [[v1 cd] e].
      cbn [fst snd] in *. subst e. by apply Hch.
    - apply Hch, geometry_only_refl. }
  destruct (for_children body v 0%nat cs) as [[v' cs'] e]. cbn [fst snd] in *.
  split; [done|]. by apply checked_from_rel.
Qed.

Lemma AutoToggleChild_from_exact (item : GenericTreeItem) :
  forall (v : CtrlVars) (d d0 : ItemData),
    geometry_only d0 d ->
    (AutoToggleChild_from v d item).2 = None /\
    tree_rel geometry_only (checked_from (CheckChilds_value None) d0 item)
      (AutoToggleChild_from v d item).1.2.
Proof.
  induction item as [x cs IH] using GenericTreeItem_ind. intros v d d0 Hd.
  cbn [AutoToggleChild_from]. cbv zeta.
  set (body := fun (v : CtrlVars) (_ : nat) (child : GenericTreeItem) => _).
  destruct (for_children_Forall2 body
              (fun c c' => tree_rel geometry_only
                 (checked_from (CheckChilds_value None)
                    (check_data (CheckChilds_value None) (data c)) c) c')
              cs) with (s := v) (n := 0%nat) as [Hnone Hrel].
  { eapply Forall_impl; [exact IH|]. intros c Hch s k. unfold body, check_data.
    destruct ((GetType (data c) =? 1) && IsEnabled (data c)) eqn:Hg.
    - apply andb_prop in Hg as [Hty%Z.eqb_eq _].
      destruct (CheckItem2_exact s (data c) (of_bool (negb (truthy (IsChecked (data c)))))
                  (IsExpanded d) Hty (of_bool_01 _)) as [He Hgeo].
      destruct (CheckItem2 s (data c) _ (IsExpanded d)) as [[v1 cd] e].
      cbn [fst snd] in *. subst e. by apply Hch.
    - apply Hch, geometry_only_refl. }
  destruct (for_children body v 0%nat cs) as [[v' cs'] e]. cbn [fst snd] in *.
  split; [done|]. by apply checked_from_rel.
Qed.

Lemma lookup_map {A B} (f : A -> B) (l : list A) (k : nat) :
  List.map f l !! k = f <$> l !! k.
Proof. change (List.map f l) with (f <$> l). apply list_lookup_fmap. Qed.

Lemma GetItem_checked_from (f : ItemData -> Z) (r : path) :
  forall (it : GenericTreeItem) (d : ItemData),
    data <$> GetItem (checked_from f d it) r
    = (fun x => match r with [] => d | _ => check_data f (data x) end) <$> GetItem it r.
Proof.
  induction r as [|k r IH]; intros [x cs] d; [done|].
  cbn [checked_from GetItem GetChildren]. rewrite lookup_map.
  destruct (cs !! k) as [c|]; [|done]. cbn [fmap option_fmap option_map].
  rewrite IH. destruct r; [done|]. done.
Qed.

(** The data of the items after the subtree of [item] has been replaced
    by one related to [checked_from f d0 it]. *)
Lemma data_at_checked_from (s : CustomTreeCtrl) (v' : CtrlVars) (f : ItemData -> Z)
    (item : path) (it it' : GenericTreeItem) (d0 : ItemData) :
  item_at s item = Some it ->
  tree_rel geometry_only (checked_from f d0 it) it' ->
  items_related
    (fun q d d' =>
       geometry_only
         (if path_eqb q item then d0
          else if path_prefix item q then check_data f d else d) d')
    s (mkCtrl v' (alter_item (fun _ => it') item <$> _anchor s)).
Proof.
  intros Hit Hrel q. destruct (path_prefix item q) eqn:Hpre.
  - apply path_prefix_spec in Hpre as [r ->]. unfold data_at.
    rewrite (item_at_alter_below s v' item r it _ Hit), item_at_app, Hit.
    cbn [mbind option_bind].
    pose proof (GetItem_checked_from f r it d0) as Hspec.
    assert (Heqb : path_eqb (item ++ r) item = match r with [] => true | _ => false end).
    { destruct r as [|k r]; [by rewrite app_nil_r, path_eqb_refl|].
      destruct (path_eqb (item ++ k :: r) item) eqn:He; [|done].
      apply path_eqb_eq in He. rewrite <- (app_nil_r item) in He at 2.
      by apply app_inv_head in He. }
    rewrite Heqb.
    destruct (GetItem it r) as [x|] eqn:Hx; cbn [fmap option_fmap option_map] in *.
    + destruct (GetItem (checked_from f d0 it) r) as [y|] eqn:Hy; [|done].
      destruct (tree_rel_GetItem _ r _ _ y Hrel Hy) as (y' & -> & Hyy).
      exists (data y'). split; [done|]. apply tree_rel_data in Hyy.
      cbn [fmap option_fmap option_map] in Hspec. injection Hspec as Hspec.
      rewrite Hspec in Hyy. by destruct r.
    + destruct (GetItem (checked_from f d0 it) r) as [y|] eqn:Hy; [done|].
      by rewrite (tree_rel_GetItem_None _ r _ _ Hrel Hy).
  - assert (path_eqb q item = false) as ->.
    { destruct (path_eqb q item) eqn:He; [|done]. apply path_eqb_eq in He as ->.
      rewrite <- (app_nil_r item) in Hpre at 2. by rewrite path_prefix_app_r in Hpre. }
    unfold data_at, item_at. cbn [_anchor].
    destruct (_anchor s) as [t|]; [|done]. cbn [fmap option_fmap option_map mbind option_bind].
    pose proof (data_alter_item_outside (fun _ => it') item q t Hpre) as Hout.
    destruct (GetItem t q) as [x|]; cbn [fmap option_fmap option_map] in *.
    + destruct (GetItem (alter_item (fun _ => it') item t) q) as [y|]; [|done].
      exists (data x). split; [exact Hout|apply geometry_only_refl].
    + by destruct (GetItem (alter_item (fun _ => it') item t) q).
Qed.

(** [CheckChilds(item, checked)], for [checked] true or false, gives the
    value to every enabled check box below the item; for [checked = None]
    it toggles each of them.  The item itself, the items that are not
    check boxes or are disabled, and the items elsewhere keep their data;
    the items touched may get a new cached size.  No event is sent, and
    of the instance variables only the dirty flag and the line height may
    change. *)
Theorem CheckChilds_checks (s : CustomTreeCtrl) (item : path) (it : GenericTreeItem)
    (checked : option Z) :
  item_at s item = Some it ->
  match checked with Some c => c = 0 \/ c = 1 | None => True end ->
  let s' := after (CheckChilds item checked) s in
  outcome (CheckChilds item checked) s = Ok tt /\
  env_eq (vars s) (vars s') /\
  items_related
    (fun q d d' =>
       geometry_only
         (if path_prefix item q && negb (path_eqb q item)
          then check_data (CheckChilds_value checked) d else d) d') s s'.
Proof.
  intros Hit Hc s'. subst s'. unfold outcome, after, CheckChilds.
  rewrite (on_item_run _ _ s it Hit).
  assert (Hrun : exists v' it',
    (let '(v', it', e) :=
       match checked with
       | Some c => AutoCheckChild (vars s) it c
       | None => AutoToggleChild (vars s) it
       end in (v', it', as_result e)) = (v', it', Ok tt) /\
    env_eq (vars s) v' /\
    tree_rel geometry_only (checked_from (CheckChilds_value checked) (data it) it) it').
  { destruct checked as [c|].
    - unfold AutoCheckChild.
      destruct (AutoCheckChild_from_exact c it Hc (vars s) (data it) (data it)
                  (geometry_only_refl _)) as [He Hrel].
      destruct (AutoCheckChild_from_frame it c (vars s) (data it)) as (Henv & _).
      destruct (AutoCheckChild_from (vars s) (data it) it c) as [[v' it'] e].
      cbn [fst snd] in *. subst e. by exists v', it'.
    - unfold AutoToggleChild.
      destruct (AutoToggleChild_from_exact it (vars s) (data it) (data it)
                  (geometry_only_refl _)) as [He Hrel].
      destruct (AutoToggleChild_from_frame it (vars s) (data it)) as (Henv & _).
      destruct (AutoToggleChild_from (vars s) (data it) it) as [[v' it'] e].
      cbn [fst snd] in *. subst e. by exists v', it'. }
  destruct Hrun as (v' & it' & -> & Henv & Hrel). cbn [fst snd vars].
  split; [done|]. split; [done|].
  intros q. pose proof (data_at_checked_from s v' _ item it it' (data it) Hit Hrel q) as H.
  destruct (data_at s q) as [d|] eqn:Hd; [|exact H].
  destruct H as (d' & Hd' & Hg). exists d'. split; [exact Hd'|].
  destruct (path_eqb q item) eqn:He.
  - apply path_eqb_eq in He as ->. rewrite andb_false_r.
    unfold data_at in Hd. rewrite Hit in Hd. by injection Hd as <-.
  - by rewrite andb_true_r.
Qed.

Lemma CheckChilds_checks_witness :
  outcome (CheckChilds [] (Some 1)) three_state_example = Ok tt /\
  env_eq (vars three_state_example) (vars (after (CheckChilds [] (Some 1)) three_state_example)).
Proof.
  destruct (CheckChilds_checks three_state_example [] _ (Some 1) eq_refl (or_intror eq_refl))
    as (H1 & H2 & _).
  exact (conj H1 H2).
Defined.

(** ** Calls of [CheckItem] that check nothing *)

(** [CheckItem(item, checked)] does nothing at all on an item that is
    neither a check box nor a radio button, and on a checked radio button
    that is to be unchecked.  Otherwise it sends the ``checking'' event
    first; when the handler blocks it, nothing else happens: no item
    changes and no ``checked'' event follows.  When the handler lets it
    pass and the value is not one the item can take (other than 0 and 1,
    or other than 0, 1 and 2 for a 3-state check box), the call raises
    [AssertionError], again with no item changed and no ``checked''
    event. *)
Theorem CheckItem_refused (s : CustomTreeCtrl) (item : path) (it : GenericTreeItem)
    (checked : Z) :
  item_at s item = Some it ->
  let d := data it in
  let checking := mkTreeEvent wxEVT_TREE_ITEM_CHECKING item in
  let told := mkCtrl (set_sent (vars s) (sent (vars s) ++ [checking])) (_anchor s) in
  let radio_noop := (GetType d =? 2) && negb (truthy checked) && truthy (IsChecked d) in
  let bad_value :=
    if negb (GetType d =? 2) && Is3State d
    then negb ((checked =? 0) || (checked =? 1) || (checked =? 2))
    else negb ((checked =? 1) || (checked =? 0)) in
  (GetType d = 0 -> CheckItem item checked s = (s, Ok tt)) /\
  (radio_noop = true -> CheckItem item checked s = (s, Ok tt)) /\
  (GetType d <> 0 -> radio_noop = false ->
     handler (vars s) (sent (vars s)) checking = true ->
     CheckItem item checked s = (told, Ok tt)) /\
  (GetType d <> 0 -> radio_noop = false ->
     handler (vars s) (sent (vars s)) checking = false -> bad_value = true ->
     CheckItem item checked s = (told, Raise AssertionError)).
Proof.
  intros Hit d checking told radio_noop bad_value.
  assert (Htold : item_at told item = Some it) by exact Hit.
  split; [|split; [|split]].
  - intros H0. unfold CheckItem. unfold bind at 1. unfold the_item at 1. rewrite Hit.
    fold d. by rewrite H0.
  - unfold radio_noop. intros Hr. apply andb_prop in Hr as [Hr Hi].
    apply andb_prop in Hr as [H2 Hc].
    unfold CheckItem. unfold bind at 1. unfold the_item at 1. rewrite Hit. fold d.
    destruct (GetType d =? 0) eqn:H0; [done|]. by rewrite H2, Hc, Hi.
  - intros H0 Hr Hh.
    unfold CheckItem. unfold bind at 1. unfold the_item at 1. rewrite Hit. fold d.
    rewrite (proj2 (Z.eqb_neq _ _) H0).
    unfold radio_noop in Hr. destruct (GetType d =? 2) eqn:H2.
    + cbn [andb] in Hr. rewrite Hr. unfold bind at 1. unfold UnCheckRadioParent.
      unfold bind at 1. rewrite process_event_run. fold checking. by rewrite Hh.
    + unfold bind at 1. rewrite process_event_run. fold checking. by rewrite Hh.
  - intros H0 Hr Hh Hbad. unfold radio_noop in Hr. unfold bad_value in Hbad.
    unfold CheckItem. unfold bind at 1. unfold the_item at 1. rewrite Hit. fold d.
    rewrite (proj2 (Z.eqb_neq _ _) H0). destruct (GetType d =? 2) eqn:H2.
    + cbn [andb negb] in Hr, Hbad. rewrite Hr. unfold bind at 1. unfold UnCheckRadioParent.
      unfold bind at 1. rewrite process_event_run. fold checking told. rewrite Hh.
      unfold bind at 1. unfold the_item. rewrite Htold. unfold bind at 1.
      unfold lift, Check. fold d. by rewrite Hbad.
    + cbn [andb negb] in Hbad. unfold bind at 1. rewrite process_event_run.
      fold checking told. rewrite Hh. unfold bind at 1. unfold lift.
      destruct (Is3State d).
      * unfold Set3StateValue, CHK_UNCHECKED, CHK_CHECKED, CHK_UNDETERMINED.
        by rewrite Hbad.
      * unfold Check. by rewrite Hbad.
Qed.

Lemma CheckItem_refused_witness :
  CheckItem [1%nat] 0 veto_example = (veto_example, Ok tt) /\
  outcome (CheckItem [0%nat] 2) radio_example = Raise AssertionError.
Proof.
  destruct (CheckItem_refused veto_example [1%nat] _ 0 eq_refl) as (_ & H & _).
  destruct (CheckItem_refused radio_example [0%nat] _ 2 eq_refl) as (_ & _ & _ & H').
  split; [exact (H eq_refl)|].
  unfold outcome. by rewrite (H' ltac:(discriminate) eq_refl eq_refl eq_refl).
Defined.

(** ** The item found by hit testing *)

Lemma path_lt_nil_r (r : path) : ~ path_lt r [].
Proof. intros [Hle Hne]. by destruct r. Qed.

Lemma path_lt_cons (i j : nat) (a b : path) :
  path_lt (i :: a) (j :: b) -> (i < j)%nat \/ (i = j /\ path_lt a b).
Proof.
  intros [Hle Hne]. cbn [path_le] in Hle.
  destruct (Nat.ltb_spec i j); [by left|]. right. cbn [orb] in Hle.
  apply andb_prop in Hle as [Hij Hle]. apply Nat.eqb_eq in Hij as ->.
  split; [done|]. split; [done|]. by intros ->.
Qed.

(** [GenericTreeItem.HitTest] returns the first item, in depth-first
    order, among the items it may test, whose row contains the point. *)
Lemma GenericTreeItem_HitTest_first (item : GenericTreeItem) :
  forall (v : CtrlVars) (point : Z * Z) (here : path) (flags : Z) (level : nat),
    match (GenericTreeItem_HitTest v point here item flags level).1 with
    | Some (q, it) =>
        exists r, q = here ++ r /\ GetItem item r = Some it /\
          searched v level item r = true /\ in_row v point (data it) = true /\
          forall r' x, searched v level item r' = true -> GetItem item r' = Some x ->
                       path_lt r' r -> in_row v point (data x) = false
    | None =>
        forall r' x, searched v level item r' = true -> GetItem item r' = Some x ->
                     in_row v point (data x) = false
    end.
Proof.
  induction item as [d cs IH] using GenericTreeItem_ind.
  intros v point here flags level. cbn [GenericTreeItem_HitTest].
  destruct (IsHidden d) eqn:Hh.
  { cbn [fst]. intros r' x Hs. destruct r'; cbn [searched data] in Hs; by rewrite Hh in Hs. }
  set (loop := HitTest_children _).
  assert (Hloop : forall k n fl,
    (forall i c, k !! i = Some c -> cs !! (n + i)%nat = Some c) ->
    match (loop n k fl).1 with
    | Some (q, it) =>
        exists j c r, k !! j = Some c /\ q = here ++ (n + j)%nat :: r /\
          GetItem c r = Some it /\ searched v (S level) c r = true /\
          in_row v point (data it) = true /\
          (forall r' x, searched v (S level) c r' = true -> GetItem c r' = Some x ->
                        path_lt r' r -> in_row v point (data x) = false) /\
          (forall i c' r' x, (i < j)%nat -> k !! i = Some c' ->
                             searched v (S level) c' r' = true -> GetItem c' r' = Some x ->
                             in_row v point (data x) = false)
    | None =>
        forall i c' r' x, k !! i = Some c' ->
                          searched v (S level) c' r' = true -> GetItem c' r' = Some x ->
                          in_row v point (data x) = false
    end).
  { induction k as [|c k IHk]; intros n fl Hk; [done|]. unfold loop. cbn [HitTest_children].
    fold loop.
    pose proof (Hk 0%nat c eq_refl) as Hn. rewrite Nat.add_0_r in Hn.
    rewrite Forall_lookup in IH.
    pose proof (IH n c Hn v point (here ++ [n]) fl (S level)) as Hc.
    destruct (GenericTreeItem_HitTest v point (here ++ [n]) c fl (S level))
      as [[[q' it']|] fl'] eqn:Hhit; cbn [fst] in *.
    - destruct Hc as (r & -> & Hr & Hs & Hin & Hfirst).
      exists 0%nat, c, r. rewrite Nat.add_0_r, <- app_assoc.
      split; [done|]. split; [done|]. split; [done|]. split; [done|]. split; [done|].
      split; [exact Hfirst|]. intros i c' r' x Hi. lia.
    - assert (Hk' : forall i c0, k !! i = Some c0 -> cs !! (S n + i)%nat = Some c0).
      { intros i c0 Hi. replace (S n + i)%nat with (n + S i)%nat by lia. by apply Hk. }
      specialize (IHk (S n) fl' Hk').
      destruct (loop (S n) k fl').1 as [[q it]|].
      + destruct IHk as (j & c0 & r & Hj & -> & Hr & Hs & Hin & Hfirst & Hbefore).
        exists (S j), c0, r. split; [done|].
        split; [do 2 f_equal; lia|]. split; [done|]. split; [done|]. split; [done|].
        split; [exact Hfirst|]. intros i c' r' x Hi Hci. destruct i as [|i].
        * injection Hci as <-. apply Hc.
        * apply (Hbefore i c' r' x); [lia|done].
      + intros i c' r' x Hci. destruct i as [|i].
        * injection Hci as <-. apply Hc.
        * by apply (IHk i c' r' x). }
  assert (Hall : forall fl (self_clear : row_tested v level = true ->
                                         in_row v point d = false),
    negb (row_tested v level) || IsExpanded d = true ->
    match (loop 0%nat cs fl).1 with
    | Some (q, it) =>
        exists r, q = here ++ r /\ GetItem (Item d cs) r = Some it /\
          searched v level (Item d cs) r = true /\ in_row v point (data it) = true /\
          forall r' x, searched v level (Item d cs) r' = true ->
                       GetItem (Item d cs) r' = Some x ->
                       path_lt r' r -> in_row v point (data x) = false
    | None =>
        forall r' x, searched v level (Item d cs) r' = true ->
                     GetItem (Item d cs) r' = Some x -> in_row v point (data x) = false
    end).
  { intros fl Hself Hopen. specialize (Hloop cs 0%nat fl (fun i c H => H)).
    destruct (loop 0%nat cs fl).1 as [[q it]|].
    - destruct Hloop as (j & c & r & Hj & -> & Hr & Hs & Hin & Hfirst & Hbefore).
      exists (j :: r). cbn [Nat.add]. split; [done|]. cbn [GetItem GetChildren searched data].
      rewrite Hj, Hh, Hopen. split; [done|]. split; [done|]. split; [done|].
      intros r' x Hs' Hx Hlt. destruct r' as [|i r'].
      + cbn [searched data] in Hs'. rewrite Hh in Hs'. cbn [negb andb] in Hs'.
        cbn [GetItem] in Hx. injection Hx as <-. by apply Hself.
      + cbn [searched data GetChildren] in Hs'. cbn [GetItem GetChildren] in Hx.
        destruct (cs !! i) as [c'|] eqn:Hi; [|done].
        apply andb_prop in Hs' as [_ Hs']. apply andb_prop in Hs' as [_ Hs'].
        apply path_lt_cons in Hlt as [Hlt|[-> Hlt]].
        * by apply (Hbefore i c' r' x).
        * rewrite Hj in Hi. injection Hi as <-. by apply (Hfirst r' x).
    - intros r' x Hs' Hx. destruct r' as [|i r'].
      + cbn [searched data] in Hs'. rewrite Hh in Hs'. cbn [negb andb] in Hs'.
        cbn [GetItem] in Hx. injection Hx as <-. by apply Hself.
      + cbn [searched data GetChildren] in Hs'. cbn [GetItem GetChildren] in Hx.
        destruct (cs !! i) as [c'|] eqn:Hi; [|done].
        apply andb_prop in Hs' as [_ Hs']. apply andb_prop in Hs' as [_ Hs'].
        by apply (Hloop i c' r' x). }
  fold (row_tested v level). fold (in_row v point d).
  destruct (row_tested v level) eqn:Ht.
  - destruct (in_row v point d) eqn:Hin.
    + cbn [fst]. exists []. rewrite app_nil_r. cbn [GetItem searched data].
      rewrite Hh, Ht. split; [done|]. split; [done|]. split; [done|]. split; [done|].
      intros r' x _ _ Hlt. by apply path_lt_nil_r in Hlt.
    + destruct (IsExpanded d) eqn:He; cbn [negb].
      * by apply Hall.
      * cbn [fst]. intros r' x Hs Hx. destruct r' as [|i r'].
        -- cbn [GetItem] in Hx. by injection Hx as <-.
        -- cbn [searched data] in Hs. rewrite Hh, Ht, He in Hs. done.
  - apply Hall; [done|done].
Qed.

(** [HitTest(point)], for a point of the window of a control that has a
    root.  The item it returns is, in depth-first order, the first item
    whose row contains the point, among the items that are neither hidden
    nor below a hidden or collapsed item; it is enabled.  When it returns
    no item, either no such row contains the point and the flags are
    [TREE_HITTEST_NOWHERE], or the first item whose row does is
    disabled. *)
Theorem HitTest_first_row (s : CustomTreeCtrl) (point : Z * Z) (anchor : GenericTreeItem) :
  ~ beyond_size (vars s) point -> _anchor s = Some anchor ->
  let v := vars s in
  let pt := CalcUnscrolledPosition v point.1 point.2 in
  let first_in_row (q : path) (it : GenericTreeItem) :=
    GetItem anchor q = Some it /\ searched v 0 anchor q = true /\
    in_row v pt (data it) = true /\
    forall r x, searched v 0 anchor r = true -> GetItem anchor r = Some x ->
                path_lt r q -> in_row v pt (data x) = false in
  match HitTest s point with
  | (Some q, _) => exists it, first_in_row q it /\ IsItemEnabled (data it) = true
  | (None, flags) =>
      (flags = TREE_HITTEST_NOWHERE /\
       forall r x, searched v 0 anchor r = true -> GetItem anchor r = Some x ->
                   in_row v pt (data x) = false) \/
      exists q it, first_in_row q it /\ IsItemEnabled (data it) = false
  end.
Proof.
  intros Hin Ha v pt first_in_row. unfold beyond_size in Hin.
  assert (Hb : (point.1 <? 0) = false /\ ((GetSize (vars s)).1 <? point.1) = false /\
               (point.2 <? 0) = false /\ ((GetSize (vars s)).2 <? point.2) = false)
    by (repeat split; apply Z.ltb_ge; lia).
  unfold HitTest. destruct (GetSize (vars s)) as [w h]. cbn [fst snd] in Hb.
  destruct Hb as (-> & -> & -> & ->).
  change (truthy 0) with false. cbv iota. rewrite Ha. fold v. fold pt.
  pose proof (GenericTreeItem_HitTest_first anchor v pt [] 0 0%nat) as Hfirst.
  destruct (GenericTreeItem_HitTest v pt [] anchor 0 0%nat) as [[[q it]|] fl]; cbn [fst] in Hfirst.
  - destruct Hfirst as (r & -> & Hr & Hs & Hrow & Hmin). cbn [app].
    destruct (IsItemEnabled (data it)) eqn:He; cbn [negb].
    + exists it. by repeat split.
    + right. exists r, it. by repeat split.
  - left. by split.
Qed.

Lemma HitTest_first_row_witness :
  exists it, GetItem radio_example_root [] = Some it /\
             in_row (vars radio_example) (5, 5) (data it) = true.
Proof.
  assert (Hin : ~ beyond_size (vars radio_example) (5, 5))
    by (unfold beyond_size; simpl; lia).
  pose proof (HitTest_first_row radio_example (5, 5) radio_example_root Hin eq_refl) as H.
  destruct H as (it & (H1 & _ & H3 & _) & _). by exists it.
Defined.

(** ** Where the insertion methods put the new item *)

Lemma DoInsertItem_children (s : CustomTreeCtrl) (parent : path) (pit : GenericTreeItem)
    (previous : Z) (text : str) (ct_type image selImage : Z) (separator : bool) :
  item_at s parent = Some pit ->
  rejected (vars s) text ct_type separator = false ->
  fits_ssize_t previous (length (GetChildren pit)) = true ->
  let k := insert_position previous (length (GetChildren pit)) in
  exists s' pit',
    DoInsertItem (Some parent) previous text ct_type image selImage separator s
    = (s', Ok (parent ++ [k])) /\
    item_at s' parent = Some pit' /\
    length (GetChildren pit') = S (length (GetChildren pit)) /\
    (forall j, (j < k)%nat -> item_at s' (parent ++ [j]) = item_at s (parent ++ [j])) /\
    (forall j, (k <= j)%nat -> item_at s' (parent ++ [S j]) = item_at s (parent ++ [j])).
Proof.
  intros Hit Hrej Hfit k.
  pose proof (DoInsertItem_run s parent pit previous text ct_type image selImage separator
                Hit Hrej Hfit) as Hrun. cbv zeta in Hrun. fold k in Hrun.
  assert (Hk : (k <= length (GetChildren pit))%nat) by apply insert_position_le.
  set (new := Item (GenericTreeItem_init (Some (data pit)) text ct_type image selImage
                      separator) []) in *.
  eexists _, (Item (data pit) (list_insert_at k new (GetChildren pit))).
  split; [exact Hrun|]. split; [|split; [|split]].
  - rewrite item_at_alter_item. by rewrite Hit.
  - cbn [GetChildren]. unfold list_insert_at.
    rewrite length_app, length_take. cbn [length]. rewrite length_drop. lia.
  - intros j Hj. rewrite (item_at_alter_below s _ parent [j] pit _ Hit), item_at_app, Hit.
    cbn [mbind option_bind GetItem GetChildren].
    by rewrite list_insert_at_lookup_lt by lia.
  - intros j Hj. rewrite (item_at_alter_below s _ parent [S j] pit _ Hit), item_at_app, Hit.
    cbn [mbind option_bind GetItem GetChildren].
    by rewrite list_insert_at_lookup_gt by lia.
Qed.

(** Where the new item goes.  [AppendItem] makes it the last child of the
    parent and [PrependItem] the first; [InsertItemByItem] puts it right
    after the given child, which keeps its place, and makes it the first
    child when no previous item is given.  [InsertItemByItem] raises,
    changing nothing, when the previous item is not a child of the
    parent. *)
Theorem insertion_position (s : CustomTreeCtrl) (parent : path) (pit : GenericTreeItem)
    (text : str) (ct_type image selImage : Z) (separator : bool) :
  item_at s parent = Some pit ->
  rejected (vars s) text ct_type separator = false ->
  let n := length (GetChildren pit) in
  (separator = false ->
   exists s', AppendItem (Some parent) text ct_type image selImage s
              = (s', Ok (parent ++ [n])) /\
     GetLastChild s' parent = Some (parent ++ [n]) /\
     GetNextSibling s' (parent ++ [n]) = None) /\
  (exists s', PrependItem (Some parent) text ct_type image selImage separator s
              = (s', Ok (parent ++ [0%nat])) /\
     (GetFirstChild s' parent).1 = Some (parent ++ [0%nat]) /\
     GetPrevSibling s' (parent ++ [0%nat]) = None /\
     InsertItemByItem (Some parent) None text ct_type image selImage separator s
     = (s', Ok (parent ++ [0%nat]))) /\
  (forall k, (k < n)%nat ->
     exists s', InsertItemByItem (Some parent) (Some (parent ++ [k])) text ct_type image
                  selImage separator s
                = (s', Ok (parent ++ [S k])) /\
       GetNextSibling s' (parent ++ [k]) = Some (parent ++ [S k]) /\
       GetPrevSibling s' (parent ++ [S k]) = Some (parent ++ [k]) /\
       item_at s' (parent ++ [k]) = item_at s (parent ++ [k]) /\
       item_at s' (parent ++ [S (S k)]) = item_at s (parent ++ [S k])) /\
  (forall previous, (forall k, (k < n)%nat -> previous <> parent ++ [k]) ->
     InsertItemByItem (Some parent) (Some previous) text ct_type image selImage separator s
     = (s, Raise (Exception
                    "ERROR: Previous Item In CustomTreeCtrl.InsertItem() Is Not A Sibling"))).
Proof.
  intros Hit Hrej n.
  assert (Hby : forall idx : Z,
    bind (the_item parent) (fun pit0 =>
      bind (ret idx) (fun index =>
        DoInsertItem (Some parent) (index + 1) text ct_type image selImage separator)) s
    = DoInsertItem (Some parent) (idx + 1) text ct_type image selImage separator s).
  { intros idx. unfold bind at 1. unfold the_item. by rewrite Hit. }
  split; [|split; [|split]].
  - intros ->. unfold AppendItem. unfold bind. unfold the_item. rewrite Hit. fold n.
    destruct (DoInsertItem_children s parent pit (Z.of_nat n) text ct_type image selImage false
                Hit Hrej
                (fits_ssize_t_position (Z.of_nat n) (length (GetChildren pit))
                   ltac:(unfold n; lia)))
      as (s' & pit' & Hrun & Hp & Hlen & _).
    cbv zeta in Hrun. fold n in Hrun, Hlen. rewrite insert_position_end in Hrun.
    exists s'. split; [exact Hrun|]. split.
    + unfold GetLastChild. rewrite Hp, Hlen. done.
    + rewrite (GetNextSibling_snoc s' parent n pit' Hp) by lia. rewrite Hlen.
      by rewrite Nat.eqb_refl.
  - destruct (DoInsertItem_children s parent pit 0 text ct_type image selImage separator
                Hit Hrej
                (fits_ssize_t_position 0 (length (GetChildren pit)) ltac:(lia)))
      as (s' & pit' & Hrun & Hp & Hlen & _).
    cbv zeta in Hrun. fold n in Hrun, Hlen.
    assert (H0 : insert_position 0 n = 0%nat) by (unfold insert_position; simpl; lia).
    rewrite H0 in Hrun. exists s'. split; [exact Hrun|]. split; [|split].
    + unfold GetFirstChild, GetNextChild. rewrite Hp, Hlen. done.
    + by rewrite (GetPrevSibling_snoc s' parent 0 pit' Hp) by lia.
    + unfold InsertItemByItem. rewrite (Hby (-1)). exact Hrun.
  - intros k Hk.
    destruct (DoInsertItem_children s parent pit (Z.of_nat k + 1) text ct_type image selImage
                separator Hit Hrej
                (fits_ssize_t_position (Z.of_nat k + 1) (length (GetChildren pit))
                   ltac:(unfold n in Hk; lia)))
      as (s' & pit' & Hrun & Hp & Hlen & Hbefore & Hafter).
    cbv zeta in Hrun, Hbefore, Hafter. fold n in Hrun, Hlen, Hbefore, Hafter.
    assert (Hpos : insert_position (Z.of_nat k + 1) n = S k).
    { unfold insert_position. destruct (Z.ltb_spec (Z.of_nat k + 1) 0); lia. }
    rewrite Hpos in Hrun, Hbefore, Hafter.
    exists s'. split; [|split; [|split; [|split]]].
    + unfold InsertItemByItem. unfold bind at 1. unfold the_item. rewrite Hit.
      rewrite GetParent_snoc, path_eqb_refl. fold n.
      destruct (Nat.ltb_spec k n) as [_|]; [|lia]. cbn [andb]. unfold bind at 1.
      exact Hrun.
    + rewrite (GetNextSibling_snoc s' parent k pit' Hp) by lia. rewrite Hlen.
      by destruct (Nat.eqb_spec (S k) (S n)); [lia|].
    + by rewrite (GetPrevSibling_snoc s' parent (S k) pit' Hp) by lia.
    + apply Hbefore. lia.
    + apply Hafter. lia.
  - intros previous Hnot. unfold InsertItemByItem. unfold bind at 1. unfold the_item.
    rewrite Hit. destruct (GetParent previous) as [[p k]|] eqn:Hg; [|done].
    destruct (path_eqb p parent && (k <? length (GetChildren pit))%nat) eqn:Hc; [|done].
    apply andb_prop in Hc as [Hp Hk]. apply path_eqb_eq in Hp as ->.
    apply Nat.ltb_lt in Hk. apply GetParent_Some in Hg. by destruct (Hnot k Hk).
Qed.

Lemma insertion_position_witness :
  exists s', InsertItemByItem (Some []) (Some [0%nat]) (str_of "new") 1 (-1) (-1) false radio_example
             = (s', Ok [1%nat]) /\
    GetPrevSibling s' [1%nat] = Some [0%nat].
Proof.
  destruct (insertion_position radio_example [] radio_example_root (str_of "new") 1 (-1) (-1) false
              eq_refl eq_refl) as (_ & _ & H & _).
  destruct (H 0%nat ltac:(simpl; lia)) as (s' & H1 & _ & H3 & _).
  exists s'. exact (conj H1 H3).
Defined.

(** ** Checking a check box with the style [TR_AUTO_CHECK_CHILD] *)

Lemma checked_from_own_data (f : ItemData -> Z) (d0 : ItemData) (it : GenericTreeItem)
    (g : ItemData -> ItemData) :
  checked_from f d0 (with_data g it) = checked_from f d0 it.
Proof. by destruct it. Qed.

(** With the style [TR_AUTO_CHECK_CHILD] alone, [CheckItem(item, checked)]
    on a check box, for [checked] true or false and a ``checking'' event
    that is not blocked, gives the value to the item and to every enabled
    check box below it; the other items keep their data, and the items
    touched may get a new cached size.  Two events are sent, ``checking''
    and ``checked'', both for the item itself: the items below are checked
    silently. *)
Theorem CheckItem_checks_children (s : CustomTreeCtrl) (item : path) (it : GenericTreeItem)
    (checked : Z) :
  item_at s item = Some it ->
  GetType (data it) = 1 ->
  checked = 0 \/ checked = 1 ->
  HasAGWFlag (vars s) TR_AUTO_CHECK_CHILD = true ->
  HasAGWFlag (vars s) TR_AUTO_CHECK_PARENT = false ->
  HasAGWFlag (vars s) TR_AUTO_TOGGLE_CHILD = false ->
  handler (vars s) (sent (vars s)) (mkTreeEvent wxEVT_TREE_ITEM_CHECKING item) = false ->
  let s' := after (CheckItem item checked) s in
  outcome (CheckItem item checked) s = Ok tt /\
  sent (vars s')
  = sent (vars s) ++ [mkTreeEvent wxEVT_TREE_ITEM_CHECKING item;
                      mkTreeEvent wxEVT_TREE_ITEM_CHECKED item] /\
  env_eq_mod_sent (vars s) (vars s') /\
  items_related
    (fun q d d' =>
       geometry_only
         (if path_eqb q item then set_checked d checked
          else if path_prefix item q then check_data (fun _ => checked) d else d) d')
    s s'.
Proof.
  intros Hit Hty Hc Hchild Hparent Htoggle Hh s'. subst s'.
  set (d1 := set_checked (data it) checked).
  assert (Hd1 : (if Is3State (data it) then Set3StateValue (data it) checked
                 else Check (data it) checked) = Ok d1).
  { unfold Set3StateValue, Check, CHK_UNCHECKED, CHK_CHECKED, CHK_UNDETERMINED.
    destruct (Is3State (data it)); destruct Hc as [-> | ->]; cbn; try done;
      by destruct (_is3State (data it)). }
  assert (Hval : IsItemChecked d1 = checked).
  { unfold IsItemChecked, IsChecked, GetValue, Get3StateValue, d1.
    destruct (data it); cbn. by destruct _is3State0. }
  set (v1 := set_sent (vars s)
               (sent (vars s) ++ [mkTreeEvent wxEVT_TREE_ITEM_CHECKING item])).
  assert (Hst : _agwStyle v1 = _agwStyle (vars s)) by (unfold v1; by destruct (vars s)).
  set (it1 := with_data (fun _ => d1) it).
  set (s2 := mkCtrl v1 (alter_item (with_data (fun _ => d1)) item <$> _anchor s)).
  assert (Hit2 : item_at s2 item = Some it1).
  { unfold s2. rewrite item_at_alter_item. by rewrite Hit. }
  destruct (AutoCheckChild_from_exact checked it1 Hc v1 (data it1) d1 (geometry_only_refl _))
    as [He Hrel].
  destruct (AutoCheckChild_from_frame it1 checked v1 (data it1)) as (Henv & _).
  assert (Hrun : CheckItem item checked s
    = (mkCtrl (set_sent (AutoCheckChild_from v1 (data it1) it1 checked).1.1
                 (sent (AutoCheckChild_from v1 (data it1) it1 checked).1.1
                  ++ [mkTreeEvent wxEVT_TREE_ITEM_CHECKED item]))
         (alter_item (fun _ => (AutoCheckChild_from v1 (data it1) it1 checked).1.2) item
            <$> _anchor s), Ok tt)).
  { unfold CheckItem. unfold bind at 1. unfold the_item at 1. rewrite Hit, Hty.
    cbn [Z.eqb Pos.eqb]. unfold bind at 1. rewrite process_event_run, Hh.
    unfold bind at 1. unfold lift. rewrite Hd1.
    unfold bind at 1. unfold put_data. cbn [vars _anchor]. fold v1 s2.
    unfold bind at 1. unfold get_vars. cbn [vars s2].
    rewrite (HasAGWFlag_style _ _ _ Hst), Hchild.
    rewrite (HasAGWFlag_style _ _ _ Hst), Hparent.
    rewrite (HasAGWFlag_style _ _ _ Hst), Htoggle.
    unfold bind at 1. rewrite (on_item_run _ _ s2 it1 Hit2).
    fold (IsItemChecked (data it1)).
    assert (Hv1 : IsItemChecked (data it1) = checked) by (unfold it1; by destruct it).
    cbn [vars s2]. rewrite Hv1. unfold AutoCheckChild.
    destruct (AutoCheckChild_from v1 (data it1) it1 checked) as [[v3 it3] e].
    cbn [fst snd] in *. subst e. cbn [as_result].
    unfold bind at 1. cbn [ret]. unfold bind at 1. rewrite process_event_run.
    cbn [vars _anchor s2]. by rewrite alter_anchor_compose. }
  unfold outcome, after. rewrite Hrun. cbn [fst snd vars].
  destruct (AutoCheckChild_from v1 (data it1) it1 checked) as [[v3 it3] e].
  cbn [fst snd] in *.
  assert (Hsent3 : sent v3 = sent v1) by apply Henv.
  split; [done|]. split; [|split].
  - assert (sent (set_sent v3 (sent v3 ++ [mkTreeEvent wxEVT_TREE_ITEM_CHECKED item]))
            = sent v3 ++ [mkTreeEvent wxEVT_TREE_ITEM_CHECKED item]) as -> by (by destruct v3).
    rewrite Hsent3. unfold v1.
    assert (forall l, sent (set_sent (vars s) l) = l) as -> by (intros l; by destruct (vars s)).
    by rewrite <- app_assoc.
  - unfold env_eq_mod_sent.
    assert (Hv1 : env_eq (set_sent (vars s) []) (set_sent v1 []))
      by (unfold v1; destruct (vars s); by repeat split).
    assert (Hv3 : env_eq (set_sent v1 []) (set_sent v3 []))
      by (destruct v1, v3; unfold env_eq in *; cbn in *; destruct_and!; by repeat split).
    assert (Hfin : set_sent (set_sent v3 (sent v3 ++ [mkTreeEvent wxEVT_TREE_ITEM_CHECKED item]))
                     [] = set_sent v3 []) by (by destruct v3).
    rewrite Hfin. by eapply env_eq_trans.
  - unfold it1 in Hrel. rewrite checked_from_own_data in Hrel.
    intros q.
    pose proof (data_at_checked_from s
                  (set_sent v3 (sent v3 ++ [mkTreeEvent wxEVT_TREE_ITEM_CHECKED item]))
                  _ item it it3 d1 Hit Hrel q) as H.
    destruct (data_at s q) as [d|] eqn:Hd; [|exact H].
    destruct H as (d' & Hd' & Hg). exists d'. split; [exact Hd'|].
    destruct (path_eqb q item) eqn:Heq; [|done].
    apply path_eqb_eq in Heq as ->. unfold data_at in Hd. rewrite Hit in Hd.
    by injection Hd as <-.
Qed.

Lemma CheckItem_checks_children_witness :
  sent (vars (after (CheckItem [] 1) auto_check_example))
  = [mkTreeEvent wxEVT_TREE_ITEM_CHECKING []; mkTreeEvent wxEVT_TREE_ITEM_CHECKED []] /\
  _checked <$> data_at (after (CheckItem [] 1) auto_check_example) [0%nat] = Some 1.
Proof.
  destruct (CheckItem_checks_children auto_check_example [] _ 1 eq_refl eq_refl
              (or_intror eq_refl) eq_refl eq_refl eq_refl eq_refl) as (_ & H2 & _ & _).
  split; [exact H2|reflexivity].
Defined.

(** ** Checking the parents of a check box *)

Lemma geometry_only_check_fields (d d' : ItemData) :
  geometry_only d d' ->
  GetType d' = GetType d /\ IsEnabled d' = IsEnabled d /\ IsChecked d' = IsChecked d.
Proof. unfold geometry_only. intros ->. by destruct d. Qed.

Lemma strictly_above_snoc (q parent : path) (i : nat) :
  strictly_above q parent = true -> strictly_above q (parent ++ [i]) = true.
Proof.
  unfold strictly_above. intros [Hp Hne]%andb_prop. apply path_prefix_spec in Hp as [r ->].
  rewrite <- app_assoc, path_prefix_app_r. cbn [andb]. apply negb_true_iff.
  destruct (path_eqb q (q ++ r ++ [i])) eqn:He; [|done].
  apply path_eqb_eq in He. rewrite <- (app_nil_r q) in He at 1.
  apply app_inv_head in He. by destruct r.
Qed.

Lemma strictly_above_parent (parent : path) (i : nat) :
  strictly_above parent (parent ++ [i]) = true.
Proof.
  unfold strictly_above. rewrite path_prefix_app_r. cbn [andb]. apply negb_true_iff.
  destruct (path_eqb parent (parent ++ [i])) eqn:He; [|done].
  apply path_eqb_eq in He. rewrite <- (app_nil_r parent) in He at 1.
  by apply app_inv_head in He.
Qed.

Lemma AutoCheckParent_up_effect (checked : Z) (rp : list nat) :
  checked = 0 \/ checked = 1 ->
  forall s, is_Some (item_at s (reverse rp)) ->
    let s' := after (AutoCheckParent_up rp checked) s in
    outcome (AutoCheckParent_up rp checked) s = Ok tt /\
    env_eq (vars s) (vars s') /\
    items_related (AutoCheckParent_effect s' (reverse rp) checked) s s' /\
    forall i rp' d, rp = i :: rp' -> data_at s (reverse rp') = Some d ->
      GetType d = 1 -> children_agree s (reverse rp') checked ->
      _checked <$> data_at s' (reverse rp') = Some checked.
Proof.
  intros Hc. induction rp as [|i rp IH]; intros s Hv s'; subst s'.
  { unfold outcome, after. cbn [AutoCheckParent_up ret fst snd].
    split; [done|]. split; [apply env_eq_refl|]. split; [|done].
    intros q. destruct (data_at s q) as [d|]; [|done]. exists d. split; [done|].
    left. apply geometry_only_refl. }
  rewrite reverse_cons in *. set (parent := reverse rp) in *.
  destruct (item_at_parent s parent i Hv) as (pit & Hp & Hi).
  assert (Hstay : items_related (AutoCheckParent_effect s (parent ++ [i]) checked) s s).
  { intros q. destruct (data_at s q) as [d|]; [|done]. exists d. split; [done|].
    left. apply geometry_only_refl. }
  assert (Hrun : AutoCheckParent_up (i :: rp) checked s
    = (if negb (GetType (data pit) =? 1) then ret tt
       else if existsb
                 (fun child =>
                    (GetType (data child) =? 1) && IsEnabled (data child)
                    && negb (checked =? IsChecked (data child)))
                 (GetChildren pit)
       then ret tt
       else bind (on_item parent (fun v it =>
                    let '(v', d', e) := CheckItem2 v (data it) checked true in
                    (v', Item d' (GetChildren it), as_result e)))
                 (fun _ => AutoCheckParent_up rp checked)) s).
  { cbn [AutoCheckParent_up]. fold parent. unfold bind at 1. unfold the_item.
    by rewrite Hp. }
  unfold outcome, after. rewrite Hrun. clear Hrun.
  destruct (GetType (data pit) =? 1) eqn:Hty; cbn [negb].
  2:{ cbn [ret fst snd]. split; [done|]. split; [apply env_eq_refl|]. split; [done|].
      intros i0 rp' d [= <- <-]. fold parent. unfold data_at. rewrite Hp.
      intros [= <-] Hd. apply Z.eqb_neq in Hty. done. }
  apply Z.eqb_eq in Hty.
  destruct (existsb _ (GetChildren pit)) eqn:Hex.
  { cbn [ret fst snd]. split; [done|]. split; [apply env_eq_refl|]. split; [done|].
    intros i0 rp' d [= <- <-]. fold parent. intros _ _ Hagree.
    apply existsb_exists in Hex as (c & Hin & Hf).
    apply list_elem_of_In in Hin. apply list_elem_of_lookup_1 in Hin as [k Hk].
    apply andb_prop in Hf as [Hf Hne]. apply andb_prop in Hf as [Hct Hce].
    apply Z.eqb_eq in Hct. apply negb_true_iff, Z.eqb_neq in Hne.
    destruct Hne. symmetry. apply (Hagree k (data c)); [|done|done].
    unfold data_at. by rewrite (item_at_child s parent k pit c Hp Hk). }
  assert (Hagree : children_agree s parent checked).
  { intros k c Hk Hct Hce. unfold data_at in Hk. rewrite item_at_app, Hp in Hk.
    cbn [mbind option_bind GetItem] in Hk.
    destruct (GetChildren pit !! k) as [x|] eqn:Hx; [|done]. injection Hk as <-.
    assert (Hin : In x (GetChildren pit))
      by (apply list_elem_of_In; by apply list_elem_of_lookup_2 in Hx).
    destruct (checked =? IsChecked (data x)) eqn:He; [by apply Z.eqb_eq in He|].
    assert (existsb (fun child => (GetType (data child) =? 1) && IsEnabled (data child)
                                  && negb (checked =? IsChecked (data child)))
              (GetChildren pit) = true); [|congruence].
    apply existsb_exists. exists x. split; [done|].
    by rewrite Hct, Hce, He. }
  unfold bind. rewrite (on_item_run _ _ s pit Hp).
  destruct (CheckItem2_exact (vars s) (data pit) checked true Hty Hc) as [He Hgeo].
  destruct (CheckItem2_frame (vars s) (data pit) checked true) as (Henv1 & _ & _).
  destruct (CheckItem2 (vars s) (data pit) checked true) as [[v1 d1] e].
  cbn [fst snd] in *. subst e. cbn [as_result].
  set (s1 := mkCtrl v1 (alter_item (fun _ => Item d1 (GetChildren pit)) parent <$> _anchor s)).
  assert (Hs1 : forall q, data_at s1 q
                          = (fun d => if path_eqb q parent then d1 else d) <$> data_at s q).
  { intros q. unfold s1. rewrite <- (data_at_with_data s v1 (fun _ => d1) parent q).
    unfold data_at, item_at. cbn [_anchor]. do 2 f_equal.
    apply (alter_anchor_ext _ _ parent (_anchor s) pit Hp). done. }
  assert (Hv1 : is_Some (item_at s1 parent)).
  { unfold s1. rewrite item_at_alter_item, Hp. by eexists. }
  destruct (IH s1 Hv1) as (HOk & Henv & Hrel & _). fold parent in HOk, Henv, Hrel.
  unfold outcome, after in HOk, Henv, Hrel.
  destruct (AutoCheckParent_up rp checked s1) as [s' r]. cbn [fst snd] in *. subst r.
  assert (Hchildren : children_agree s' parent checked).
  { intros k c Hk Hct Hce. specialize (Hrel (parent ++ [k])). rewrite Hs1 in Hrel.
    assert (path_eqb (parent ++ [k]) parent = false) as Hne.
    { destruct (path_eqb (parent ++ [k]) parent) eqn:E; [|done].
      apply path_eqb_eq in E. rewrite <- (app_nil_r parent) in E at 2.
      by apply app_inv_head in E. }
    rewrite Hne in Hrel.
    destruct (data_at s (parent ++ [k])) as [c0|] eqn:Hc0;
      cbn [fmap option_fmap option_map] in Hrel; [|congruence].
    destruct Hrel as (c' & Hc' & Heff). rewrite Hk in Hc'. injection Hc' as <-.
    destruct Heff as [Hg|(Habove & _)].
    - destruct (geometry_only_check_fields _ _ Hg) as (T & E & C).
      rewrite C. apply (Hagree k c0 Hc0); congruence.
    - unfold strictly_above in Habove. apply andb_prop in Habove as [Hpre _].
      rewrite <- (app_nil_r parent) in Hpre at 2. rewrite path_prefix_app in Hpre. done. }
  assert (Hparent : exists d', data_at s' parent = Some d' /\
                               geometry_only (set_checked (data pit) checked) d').
  { specialize (Hrel parent). rewrite Hs1, path_eqb_refl in Hrel.
    unfold data_at at 1 in Hrel. rewrite Hp in Hrel. cbn [fmap option_fmap option_map] in Hrel.
    destruct Hrel as (d' & Hd' & Heff). exists d'. split; [done|].
    destruct Heff as [Hg|(Habove & _)].
    - by eapply geometry_only_trans.
    - unfold strictly_above in Habove. by rewrite path_eqb_refl, andb_false_r in Habove. }
  split; [done|]. split; [by eapply env_eq_trans|]. split.
  - intros q. specialize (Hrel q). rewrite Hs1 in Hrel.
    destruct (data_at s q) as [d|] eqn:Hd; cbn [fmap option_fmap option_map] in Hrel;
      [|exact Hrel].
    destruct (path_eqb q parent) eqn:Hq.
    + apply path_eqb_eq in Hq as ->. destruct Hparent as (d' & Hd' & Hg).
      exists d'. split; [done|]. right. unfold data_at in Hd. rewrite Hp in Hd.
      injection Hd as <-. split; [apply strictly_above_parent|]. by split.
    + destruct Hrel as (d' & Hd' & Heff). exists d'. split; [done|].
      destruct Heff as [Hg|(Habove & Ht & Hg & Hch)]; [by left|].
      right. split; [by apply strictly_above_snoc|]. by split.
  - intros i0 rp' d [= <- <-]. fold parent. intros _ _ _.
    destruct Hparent as (d' & -> & ->). cbn [fmap option_fmap option_map].
    by destruct (data pit).
Qed.

(** [AutoCheckParent(item, checked)], for [checked] true or false, only
    touches check boxes above the item: each one it changes gets the
    value, and afterwards all its enabled check box children have that
    value; every other item keeps its data, and no event is sent.  The
    parent of the item does get the value when it is a check box whose
    enabled check box children all have it. *)
Theorem AutoCheckParent_checks (s : CustomTreeCtrl) (item : path) (checked : Z) :
  is_Some (item_at s item) -> checked = 0 \/ checked = 1 ->
  let s' := after (AutoCheckParent item checked) s in
  outcome (AutoCheckParent item checked) s = Ok tt /\
  env_eq (vars s) (vars s') /\
  items_related (AutoCheckParent_effect s' item checked) s s' /\
  forall parent d, GetItemParent item = Some parent -> data_at s parent = Some d ->
    GetType d = 1 -> children_agree s parent checked ->
    _checked <$> data_at s' parent = Some checked.
Proof.
  intros Hv Hc s'. subst s'. unfold AutoCheckParent.
  assert (Hv' : is_Some (item_at s (reverse (reverse item))))
    by (by rewrite reverse_involutive).
  destruct (AutoCheckParent_up_effect checked (reverse item) Hc s Hv')
    as (HOk & Henv & Hrel & Hparent).
  rewrite reverse_involutive in Hrel.
  split; [exact HOk|]. split; [exact Henv|]. split; [exact Hrel|].
  intros parent d Hg. unfold GetItemParent, GetParent in Hg.
  destruct (reverse item) as [|i rp'] eqn:Hr; [done|]. injection Hg as <-.
  by apply (Hparent i rp').
Qed.

Lemma AutoCheckParent_checks_witness :
  outcome (AutoCheckParent [0%nat] 0) auto_check_example = Ok tt /\
  _checked <$> data_at (after (AutoCheckParent [0%nat] 0) auto_check_example) [] = Some 0.
Proof.
  destruct (AutoCheckParent_checks auto_check_example [0%nat] 0 (mk_is_Some _ _ eq_refl)
              (or_introl eq_refl)) as (H1 & _ & _ & _).
  split; [exact H1|reflexivity].
Defined.

(** ** The type of an item *)

(** [SetItemType(item, ct_type)] accepts any type, also one that
    [DoInsertItem] rejects.  It changes the type of the item and nothing
    else of the items but cached positions and sizes: the check value,
    the 3-state flag and the enabling of the item and of the items below
    it stay as they are, and so do its siblings, also when the item
    becomes a radio button.  It requests one repaint and sends no
    event. *)
Theorem SetItemType_only_type (s : CustomTreeCtrl) (item : path) (it : GenericTreeItem)
    (ct_type : Z) :
  item_at s item = Some it ->
  let s' := after (SetItemType item ct_type) s in
  outcome (SetItemType item ct_type) s = Ok tt /\
  refreshes (vars s') = S (refreshes (vars s)) /\ sent (vars s') = sent (vars s) /\
  items_related
    (fun q d d' => geometry_only (if path_eqb q item then SetType d ct_type else d) d') s s' /\
  GetType <$> data_at s' item = Some ct_type /\
  _checked <$> data_at s' item = Some (_checked (data it)).
Proof.
  intros Hit s'. subst s'. unfold outcome, after, SetItemType, bind, the_item. rewrite Hit.
  unfold put_data.
  set (s1 := mkCtrl (vars s) _).
  assert (H1 : items_related
                 (fun q d d' => d' = if path_eqb q item then SetType d ct_type else d) s s1).
  { intros q. unfold s1. rewrite data_at_with_data.
    destruct (data_at s q) as [d|] eqn:Hd; [|done]. cbn [fmap option_fmap option_map].
    exists (if path_eqb q item then SetType (data it) ct_type else d). split; [done|].
    destruct (path_eqb q item) eqn:He; [|done]. apply path_eqb_eq in He as ->.
    unfold data_at in Hd. rewrite Hit in Hd. by injection Hd as <-. }
  pose proof (CalculatePositions_Ok s1) as HOk.
  pose proof (CalculatePositions_geometry s1) as H2.
  destruct (CalculatePositions_tree s1) as (_ & _ & Henv).
  unfold outcome, after in *.
  destruct (CalculatePositions s1) as [s2 r]. cbn [fst snd] in *. subst r.
  unfold Refresh, bind, get_vars, put_vars. cbn [fst snd vars _anchor].
  assert (Hr : refreshes (vars s2) = refreshes (vars s) /\ sent (vars s2) = sent (vars s)).
  { destruct Henv as (_ & _ & _ & _ & _ & _ & _ & _ & _ & _ & _ & _ & _ & _ & _ & _ & _
                      & Hr & Hs).
    rewrite Hr, Hs. unfold s1. cbn [vars]. by destruct (vars s). }
  destruct Hr as [Hr Hs].
  assert (Hrel : items_related
            (fun q d d' => geometry_only (if path_eqb q item then SetType d ct_type else d) d')
            s (mkCtrl (set_refreshes (vars s2) (S (refreshes (vars s2)))) (_anchor s2))).
  { intros q. specialize (H1 q). specialize (H2 q).
    assert (Hd : data_at (mkCtrl (set_refreshes (vars s2) (S (refreshes (vars s2))))
                            (_anchor s2)) q = data_at s2 q) by done.
    rewrite Hd. destruct (data_at s q) as [d|].
    - destruct H1 as (d1 & Hd1 & ->). rewrite Hd1 in H2. exact H2.
    - by rewrite H1 in H2. }
  split; [done|]. split; [rewrite <- Hr; by destruct (vars s2)|].
  split; [rewrite <- Hs; by destruct (vars s2)|]. split; [exact Hrel|].
  specialize (Hrel item). unfold data_at at 1 in Hrel. rewrite Hit, path_eqb_refl in Hrel.
  cbn [fmap option_fmap option_map] in Hrel. destruct Hrel as (d' & -> & Hg).
  cbn [fmap option_fmap option_map]. unfold geometry_only in Hg. rewrite Hg.
  by destruct (data it).
Qed.

Lemma SetItemType_only_type_witness :
  GetType <$> data_at (after (SetItemType [1%nat] 7) radio_example) [1%nat] = Some 7 /\
  refreshes (vars (after (SetItemType [1%nat] 7) radio_example))
  = S (refreshes (vars radio_example)).
Proof.
  destruct (SetItemType_only_type radio_example [1%nat] _ 7 eq_refl)
    as (_ & H2 & _ & _ & H5 & _).
  exact (conj H5 H2).
Defined.

(** ** Visible items *)

Lemma GetNextVisible_list (s : CustomTreeCtrl) (anchor : GenericTreeItem) :
  _anchor s = Some anchor ->
  forall fuel j id,
    preorder anchor !! j = Some id -> (length (preorder anchor) <= j + fuel)%nat ->
    exists r, GetNextVisible fuel s id = Some r /\
      match r with
      | Some q =>
          exists j', (j < j')%nat /\ preorder anchor !! j' = Some q /\ is_visible s q = true /\
            forall k q', (j < k < j')%nat -> preorder anchor !! k = Some q' ->
                         is_visible s q' = false
      | None =>
          forall k q', (j < k)%nat -> preorder anchor !! k = Some q' ->
                       is_visible s q' = false
      end.
Proof.
  intros Ha. induction fuel as [|fuel IH]; intros j id Hj Hlen.
  { apply lookup_lt_Some in Hj. lia. }
  cbn [GetNextVisible]. rewrite (GetNext_walk s anchor id j Ha Hj).
  destruct (preorder anchor !! S j) as [id'|] eqn:Hn.
  - destruct (is_visible s id') eqn:Hvis.
    + exists (Some id'). split; [done|]. exists (S j). split; [lia|]. split; [done|].
      split; [done|]. intros k q' Hk. lia.
    + destruct (IH (S j) id' Hn ltac:(lia)) as (r & Hr & Hspec). exists r. split; [done|].
      destruct r as [q|].
      * destruct Hspec as (j' & Hj' & Hq & Hv & Hbetween). exists j'.
        split; [lia|]. split; [done|]. split; [done|].
        intros k q' Hk Hq'. destruct (decide (k = S j)) as [->|Hne].
        -- rewrite Hn in Hq'. by injection Hq' as <-.
        -- apply (Hbetween k q'); [lia|done].
      * intros k q' Hk Hq'. destruct (decide (k = S j)) as [->|Hne].
        -- rewrite Hn in Hq'. by injection Hq' as <-.
        -- apply (Hspec k q'); [lia|done].
  - exists None. split; [done|]. intros k q' Hk Hq'.
    apply lookup_ge_None in Hn. apply lookup_lt_Some in Hq'. lia.
Qed.

(** With enough iterations allowed, as many as there are items,
    [GetNextVisible(item)] returns the first visible item after the item
    in depth-first order: a visible item of the tree that comes after
    [item], with no visible item between the two; or [None] when no
    visible item comes after [item].  [GetFirstVisibleItem()] returns the
    first visible item of the tree in the same way. *)
Theorem GetNextVisible_first (s : CustomTreeCtrl) (item : path) (fuel : nat) :
  is_Some (item_at s item) -> (GetCount s < fuel)%nat ->
  let first_after (strict : bool) (r : option path) :=
    match r with
    | Some q =>
        is_Some (item_at s q) /\ is_visible s q = true /\
        (if strict then path_lt item q else True) /\
        forall q', is_Some (item_at s q') -> (if strict then path_lt item q' else True) ->
                   path_lt q' q -> is_visible s q' = false
    | None =>
        forall q', is_Some (item_at s q') -> (if strict then path_lt item q' else True) ->
                   is_visible s q' = false
    end in
  (exists r, GetNextVisible fuel s item = Some r /\ first_after true r) /\
  (exists r, GetFirstVisibleItem fuel s = Some r /\ first_after false r).
Proof.
  intros [it Hit] Hfuel first_after.
  destruct (_anchor s) as [anchor|] eqn:Ha; [|by unfold item_at in Hit; rewrite Ha in Hit].
  assert (Hvalid : forall q, is_Some (item_at s q) <-> q ∈ preorder anchor).
  { intros q. rewrite preorder_valid. unfold item_at. by rewrite Ha. }
  assert (Hlen : (length (preorder anchor) <= fuel)%nat).
  { unfold preorder. cbn [length]. rewrite descendants_length.
    unfold GetCount in Hfuel. rewrite Ha in Hfuel. destruct (negb _); lia. }
  assert (Hfrom : forall j id, preorder anchor !! j = Some id ->
    exists r, GetNextVisible fuel s id = Some r /\
      match r with
      | Some q =>
          is_Some (item_at s q) /\ is_visible s q = true /\ path_lt id q /\
          forall q', is_Some (item_at s q') -> path_lt id q' -> path_lt q' q ->
                     is_visible s q' = false
      | None =>
          forall q', is_Some (item_at s q') -> path_lt id q' -> is_visible s q' = false
      end).
  { intros j id Hj.
    destruct (GetNextVisible_list s anchor Ha fuel j id Hj ltac:(lia)) as (r & Hr & Hspec).
    exists r. split; [done|]. destruct r as [q|].
    - destruct Hspec as (j' & Hjj' & Hq & Hvis & Hbetween).
      split; [apply Hvalid; by apply list_elem_of_lookup_2 in Hq|]. split; [done|].
      split; [by apply (preorder_lt anchor j j' id q)|].
      intros q' Hq' Hlt1 Hlt2. apply Hvalid, list_elem_of_lookup_1 in Hq' as [k Hk].
      apply (Hbetween k q'); [|done]. split.
      + by apply (preorder_lt anchor j k id q').
      + by apply (preorder_lt anchor k j' q' q).
    - intros q' Hq' Hlt. apply Hvalid, list_elem_of_lookup_1 in Hq' as [k Hk].
      apply (Hspec k q'); [|done]. by apply (preorder_lt anchor j k id q'). }
  split.
  - assert (Hin : item ∈ preorder anchor) by (apply Hvalid; by exists it).
    apply list_elem_of_lookup_1 in Hin as [j Hj]. exact (Hfrom j item Hj).
  - unfold GetFirstVisibleItem. rewrite Ha.
    assert (Hroot : preorder anchor !! 0%nat = Some []) by done.
    assert (Hafter_root : forall q', q' <> [] -> path_lt [] q')
      by (intros q' Hne; split; [done|by intros <-]).
    assert (Hstep : GetFirstVisibleItem_loop fuel s (Some [])
                    = if is_visible s [] then Some (Some [])
                      else GetNextVisible fuel s []).
    { destruct fuel as [|fuel]; [lia|]. clear Hfuel Hlen Hfrom.
      cbn [GetFirstVisibleItem_loop]. destruct (is_visible s []) eqn:Hv0; [done|].
      assert (forall f id, is_visible s id = false ->
                GetFirstVisibleItem_loop f s (GetNext s id) = GetNextVisible (S f) s id) as Hgo.
      { induction f as [|f IHf]; intros id Hid; cbn [GetNextVisible].
        - destruct (GetNext s id) as [id'|]; cbn [GetFirstVisibleItem_loop]; [|done].
          by destruct (is_visible s id').
        - destruct (GetNext s id) as [id'|]; cbn [GetFirstVisibleItem_loop]; [|done].
          destruct (is_visible s id') eqn:Hv'; [done|]. by apply IHf. }
      by apply Hgo. }
    rewrite Hstep. destruct (is_visible s []) eqn:Hv0.
    + exists (Some []). split; [done|]. split; [apply Hvalid; by left|]. split; [done|].
      split; [done|]. intros q' _ _ Hlt. by apply path_lt_nil_r in Hlt.
    + destruct (Hfrom 0%nat [] Hroot) as (r & Hr & Hspec). exists r. split; [done|].
      destruct r as [q|].
      * destruct Hspec as (Hq & Hvis & Hlt & Hmin). split; [done|]. split; [done|].
        split; [done|]. intros q' Hq' _ Hlt'. destruct q' as [|k q']; [done|].
        apply Hmin; [done| |done]. by apply Hafter_root.
      * intros q' Hq' _. destruct q' as [|k q']; [done|]. apply Hspec; [done|].
        by apply Hafter_root.
Qed.

Lemma GetNextVisible_first_witness :
  exists r, GetNextVisible 10 radio_example [] = Some r.
Proof.
  destruct (GetNextVisible_first radio_example [] 10 (mk_is_Some _ _ eq_refl)
              ltac:(vm_compute; lia)) as ((r & Hr & _) & _).
  by exists r.
Defined.

(** ** The rows a layout pass computes *)

Lemma stacking_env (v v' : CtrlVars) : env_eq v v' -> stacking v -> stacking v'.
Proof.
  intros He (Hf & Hs & Hx). unfold stacking, extent_ok.
  rewrite (env_eq_freezeCount _ _ He), (HasAGWFlag_style _ _ _ (env_eq_agwStyle _ _ He)).
  split; [done|]. split; [done|].
  assert (GetFullMultiLineTextExtent v' = GetFullMultiLineTextExtent v) as -> by apply He.
  exact Hx.
Qed.

Lemma searched_style (v v' : CtrlVars) (r : path) :
  _agwStyle v' = _agwStyle v ->
  forall level item, searched v' level item r = searched v level item r.
Proof.
  intros Hst. induction r as [|k r IH]; intros level item; cbn [searched]; unfold row_tested;
    rewrite (HasAGWFlag_style _ _ _ Hst); [done|].
  destruct (GetChildren item !! k); [|done]. by rewrite IH.
Qed.

Lemma rows_stacked_style (v v' : CtrlVars) (level : nat) (item : GenericTreeItem)
    (lo hi : Z) :
  _agwStyle v' = _agwStyle v -> rows_stacked v level item lo hi ->
  rows_stacked v' level item lo hi.
Proof.
  intros Hst [H1 H2]. split.
  - intros r x. rewrite (searched_style v v' r Hst). apply H1.
  - intros r1 r2 x1 x2. rewrite (searched_style v v' r1 Hst), (searched_style v v' r2 Hst).
    apply H2.
Qed.

Lemma CalculateSize_row (v : CtrlVars) (d : ItemData) :
  stacking v -> IsHidden d = false ->
  0 < _height (CalculateSize v d).2 /\ IsHidden (CalculateSize v d).2 = false /\
  IsExpanded (CalculateSize v d).2 = IsExpanded d.
Proof.
  intros (Hf & _ & Hx) Hh.
  destruct (CalculateSize_geometry v d) as [Hg _].
  apply geometry_only_fields in Hg as (H1 & H2 & _).
  split; [|split; [unfold IsHidden in *; congruence|unfold IsExpanded, IsHidden; by rewrite H1, H2]].
  unfold CalculateSize. rewrite Hf, Hh. specialize (Hx (_isBold d) (_isItalic d) (_text d)).
  destruct (GetFullMultiLineTextExtent v _ _ _) as [text_w text_h]. cbn [snd] in Hx.
  destruct (if negb (GetCurrentImage d =? _NO_IMAGE) then _ else _) as [image_w image_h].
  cbn [snd].
  set (a := if text_h + 2 <? image_h then image_h else text_h + 2).
  assert (Ha : 2 <= a) by (unfold a; destruct (Z.ltb_spec (text_h + 2) image_h); lia).
  assert (Hh' : forall w t, _height (set_height (set_width d w) t) = t)
    by (intros; by destruct d).
  rewrite Hh'. destruct (Z.ltb_spec a 30); [lia|].
  pose proof (Z.div_pos a 10 ltac:(lia) ltac:(lia)). lia.
Qed.

Lemma GetLineHeight_variable (v : CtrlVars) (d : ItemData) :
  HasAGWFlag v TR_HAS_VARIABLE_ROW_HEIGHT = true -> GetLineHeight v d = _height d.
Proof. unfold HasAGWFlag, GetLineHeight. by intros ->. Qed.

Lemma row_tested_level (v : CtrlVars) (n : nat) :
  negb (HasAGWFlag v TR_HIDE_ROOT) || negb (Z.of_nat n =? 0) = row_tested v n.
Proof.
  unfold row_tested. destruct n as [|n]; [cbn; by destruct (HasAGWFlag v TR_HIDE_ROOT)|].
  rewrite orb_true_r. done.
Qed.

(** The loop of the layout pass over the children of an item. *)
Lemma CalculateLevel_kids (v : CtrlVars) (n : nat) (cs : list GenericTreeItem) :
  Forall (fun c => forall v1 m y, stacking v1 ->
            y <= (CalculateLevel v1 c (Z.of_nat m) y).2 /\
            rows_stacked v1 m (CalculateLevel v1 c (Z.of_nat m) y).1.2 y
              (CalculateLevel v1 c (Z.of_nat m) y).2) cs ->
  forall v1 y (k0 : nat), stacking v1 -> _agwStyle v1 = _agwStyle v ->
    let res := for_children (R := Empty_set)
                 (fun (vy : CtrlVars * Z) (_ : nat) (child : GenericTreeItem) =>
                    let '(v2, child1, y2) :=
                      CalculateLevel vy.1 child (Z.of_nat n + 1) vy.2 in
                    ((v2, y2), child1, None))
                 (v1, y) k0 cs in
    y <= res.1.1.2 /\ kids_stacked v n res.1.2 y res.1.1.2.
Proof.
  induction 1 as [|c rest Hc _ IH]; intros v1 y k0 Hs Hst; cbn [for_children].
  { cbn [fst snd]. split; [lia|]. split; intros; done. }
  cbn [fst snd]. replace (Z.of_nat n + 1) with (Z.of_nat (S n)) by lia.
  destruct (Hc v1 (S n) y Hs) as [Hle Hrows].
  pose proof (CalculateLevel_frame c v1 (Z.of_nat (S n)) y) as [Henv _].
  destruct (CalculateLevel v1 c (Z.of_nat (S n)) y) as [[v2 c1] y2]. cbn [fst snd] in *.
  assert (Hs2 : stacking v2) by (by apply (stacking_env v1)).
  assert (Hst2 : _agwStyle v2 = _agwStyle v)
    by (rewrite (env_eq_agwStyle _ _ Henv); exact Hst).
  specialize (IH v2 y2 (S k0) Hs2 Hst2). cbv zeta in IH.
  replace (Z.of_nat n + 1) with (Z.of_nat (S n)) in IH by lia.
  destruct (for_children _ (v2, y2) (S k0) rest) as [[vy rest'] stop]. cbn [fst snd] in *.
  destruct IH as (Hle' & Hin & Hcross).
  apply (rows_stacked_style v1 v) in Hrows; [|by rewrite Hst].
  destruct Hrows as [Hin1 Hord1].
  split; [lia|]. split.
  - intros k c' r x Hk Hsr Hx. destruct k as [|k].
    + injection Hk as <-. destruct (Hin1 r x Hsr Hx) as (? & ? & ?). lia.
    + destruct (Hin k c' r x Hk Hsr Hx) as (? & ? & ?). lia.
  - intros k1 k2 c1' c2' r1 r2 x1 x2 Hk1 Hk2 Hs1 Hs2' Hx1 Hx2 Hlt.
    apply path_lt_cons in Hlt as [Hlt|[-> Hlt]].
    + destruct k2 as [|k2]; [lia|]. destruct k1 as [|k1].
      * injection Hk1 as <-. destruct (Hin1 r1 x1 Hs1 Hx1) as (_ & _ & Hhi).
        destruct (Hin k2 c2' r2 x2 Hk2 Hs2' Hx2) as (Hlo & _). lia.
      * apply (Hcross k1 k2 c1' c2' r1 r2 x1 x2); try done.
        apply path_lt_siblings with (here := []). lia.
    + destruct k2 as [|k2].
      * injection Hk1 as <-. injection Hk2 as <-. by apply (Hord1 r1 r2 x1 x2).
      * apply (Hcross k2 k2 c1' c2' r1 r2 x1 x2); try done.
        destruct Hlt as [Hle2 Hne]. split.
        -- cbn [path_le]. by rewrite Nat.eqb_refl, Hle2, orb_true_r.
        -- by intros [= ->].
Qed.

(** A layout pass stacks the rows of the items below [item]. *)
Lemma CalculateLevel_rows (item : GenericTreeItem) :
  forall v n y, stacking v ->
    y <= (CalculateLevel v item (Z.of_nat n) y).2 /\
    rows_stacked v n (CalculateLevel v item (Z.of_nat n) y).1.2 y
      (CalculateLevel v item (Z.of_nat n) y).2.
Proof.
  induction item as [d cs IH] using GenericTreeItem_ind. intros v n y Hs.
  assert (Hch : forall v1 d1 y1 lo,
    stacking v1 -> _agwStyle v1 = _agwStyle v -> lo <= y1 ->
    IsHidden d1 = false -> negb (row_tested v n) || IsExpanded d1 = true ->
    (row_tested v n = true -> lo <= _y d1 /\ 0 < _height d1 /\ _y d1 + _height d1 <= y1) ->
    let res := (let '(vy, cs', _) :=
         for_children (R := Empty_set)
           (fun (vy : CtrlVars * Z) (_ : nat) (child : GenericTreeItem) =>
              let '(v2, child1, y2) := CalculateLevel vy.1 child (Z.of_nat n + 1) vy.2 in
              ((v2, y2), child1, None))
           (v1, y1) 0%nat cs in
       (vy.1, Item d1 cs', vy.2)) in
    lo <= res.2 /\ rows_stacked v n res.1.2 lo res.2).
  { intros v1 d1 y1 lo Hs1 Hst1 Hlo Hh1 Hopen Hself.
    pose proof (CalculateLevel_kids v n cs IH v1 y1 0%nat Hs1 Hst1) as Hk. cbv zeta in Hk.
    destruct (for_children _ (v1, y1) 0%nat cs) as [[vy cs'] stop]. cbn [fst snd] in *.
    destruct Hk as (Hle & Hin & Hcross). split; [lia|]. split.
    - intros r x Hsr Hx. destruct r as [|k r].
      + cbn [GetItem] in Hx. injection Hx as <-. cbn [searched data] in Hsr.
        apply andb_prop in Hsr as [_ Ht]. destruct (Hself Ht) as (? & ? & ?).
        cbn [data]. lia.
      + cbn [searched GetItem GetChildren data] in Hsr, Hx.
        destruct (cs' !! k) as [c|] eqn:Hc; [|done].
        apply andb_prop in Hsr as [_ Hsr]. apply andb_prop in Hsr as [_ Hsr].
        destruct (Hin k c r x Hc Hsr Hx) as (? & ? & ?). lia.
    - intros r1 r2 x1 x2 Hs1' Hs2' Hx1 Hx2 Hlt.
      destruct r2 as [|k2 r2]; [by apply path_lt_nil_r in Hlt|].
      cbn [searched GetItem GetChildren data] in Hs2', Hx2.
      destruct (cs' !! k2) as [c2|] eqn:Hc2; [|done].
      apply andb_prop in Hs2' as [_ Hs2']. apply andb_prop in Hs2' as [_ Hs2'].
      destruct r1 as [|k1 r1].
      + cbn [GetItem] in Hx1. injection Hx1 as <-. cbn [searched data] in Hs1'.
        apply andb_prop in Hs1' as [_ Ht]. destruct (Hself Ht) as (_ & _ & Hhi).
        destruct (Hin k2 c2 r2 x2 Hc2 Hs2' Hx2) as (Hlo2 & _). cbn [data]. lia.
      + cbn [searched GetItem GetChildren data] in Hs1', Hx1.
        destruct (cs' !! k1) as [c1|] eqn:Hc1; [|done].
        apply andb_prop in Hs1' as [_ Hs1']. apply andb_prop in Hs1' as [_ Hs1'].
        by apply (Hcross k1 k2 c1 c2 r1 r2 x1 x2). }
  cbn [CalculateLevel]. rewrite row_tested_level.
  destruct (row_tested v n) eqn:Ht.
  2:{ destruct (IsHidden d) eqn:Hh.
      - (* a root that is not shown and is hidden: nothing of it is tested *)
        pose proof (CalculateLevel_kids v n cs IH v y 0%nat Hs eq_refl) as Hk. cbv zeta in Hk.
        destruct (for_children _ (v, y) 0%nat cs) as [[vy cs'] stop]. cbn [fst snd] in *.
        destruct Hk as (Hle & _). split; [done|]. split.
        + intros r x Hsr. destruct r; cbn [searched data] in Hsr; by rewrite Hh in Hsr.
        + intros r1 r2 x1 x2 Hsr. destruct r1; cbn [searched data] in Hsr; by rewrite Hh in Hsr.
      - apply Hch; try done; by rewrite Ht. }
  pose proof (CalculateSize_env v d) as Henv.
  destruct (IsHidden d) eqn:Hh.
  - (* a hidden item keeps [y], and nothing below it is tested *)
    assert (Hhid : IsHidden (CalculateSize v d).2 = true).
    { destruct (CalculateSize_geometry v d) as [Hg _].
      apply geometry_only_fields in Hg as (H1 & _). unfold IsHidden in *. congruence. }
    destruct (CalculateSize v d) as [v1 d1]. cbn [fst snd] in *.
    assert (Hhid2 : IsHidden (set_y (set_x d1 (Z.of_nat n * _indent v + _indent v + _spacing v1)) y)
                    = true /\
                    IsHidden (set_y (set_x d1 (Z.of_nat n * _indent v + _spacing v1)) y) = true)
      by (by destruct d1).
    destruct (negb (HasAGWFlag v TR_HIDE_ROOT)); [rewrite (proj1 Hhid2)|rewrite (proj2 Hhid2)];
      cbn [fst snd]; (split; [lia|]); split.
    all: try (intros r x Hsr; destruct r; cbn [searched data] in Hsr;
              first [by rewrite (proj1 Hhid2) in Hsr|by rewrite (proj2 Hhid2) in Hsr]).
    all: intros r1 r2 x1 x2 Hsr; destruct r1; cbn [searched data] in Hsr;
         first [by rewrite (proj1 Hhid2) in Hsr|by rewrite (proj2 Hhid2) in Hsr].
  - destruct (CalculateSize_row v d Hs Hh) as (Hpos & Hh1 & He1).
    destruct (CalculateSize v d) as [v1 d1]. cbn [fst snd] in *.
    assert (Hs1 : stacking v1) by (by apply (stacking_env v)).
    assert (Hst1 : _agwStyle v1 = _agwStyle v) by (by apply env_eq_agwStyle).
    set (x0 := if negb (HasAGWFlag v TR_HIDE_ROOT) then _ else _).
    set (d2 := set_y (set_x d1 (x0 + _spacing v1)) y).
    assert (Hd2 : IsHidden d2 = false /\ IsExpanded d2 = IsExpanded d /\ _y d2 = y /\
                  _height d2 = _height d1).
    { unfold d2. rewrite <- He1, <- Hh1. by destruct d1. }
    destruct Hd2 as (Hh2 & He2 & Hy2 & Hht2). rewrite Hh2.
    rewrite (GetLineHeight_variable v1 d2 (proj1 (proj2 Hs1))), Hht2.
    destruct (IsExpanded d2) eqn:Hexp; cbn [negb].
    + apply Hch; [exact Hs1|exact Hst1|lia|exact Hh2|by rewrite Hexp, orb_true_r|].
      intros _. lia.
    + cbn [fst snd]. split; [lia|]. split.
      * intros r x Hsr Hx. destruct r as [|k r].
        -- cbn [GetItem] in Hx. injection Hx as <-. cbn [data]. lia.
        -- cbn [searched data] in Hsr. rewrite Ht, Hexp, Hh2 in Hsr. done.
      * intros r1 r2 x1 x2 _ Hsr _ _ Hlt.
        destruct r2 as [|k2 r2]; [by apply path_lt_nil_r in Hlt|].
        cbn [searched data] in Hsr. rewrite Ht, Hexp, Hh2 in Hsr. done.
Qed.

(** On a control that is not frozen, has the style
    [TR_HAS_VARIABLE_ROW_HEIGHT] and measures no text with a negative
    height, a layout pass stacks the rows of the items that hit testing
    may test, those that are neither hidden nor below a hidden or
    collapsed item: the rows do not start above 2, have a positive height,
    and follow each other in depth-first order without overlap.  So no
    point lies within the rows of two such items. *)
Theorem layout_rows_stacked (s : CustomTreeCtrl) (anchor : GenericTreeItem) :
  _anchor s = Some anchor -> stacking (vars s) ->
  let s' := after CalculatePositions s in
  exists anchor' hi,
    _anchor s' = Some anchor' /\ rows_stacked (vars s') 0 anchor' 2 hi /\
    forall point q1 q2 x1 x2,
      searched (vars s') 0 anchor' q1 = true -> searched (vars s') 0 anchor' q2 = true ->
      GetItem anchor' q1 = Some x1 -> GetItem anchor' q2 = Some x2 ->
      in_row (vars s') point (data x1) = true -> in_row (vars s') point (data x2) = true ->
      q1 = q2.
Proof.
  intros Ha Hs s'.
  assert (Hrows : exists anchor' hi,
    _anchor s' = Some anchor' /\ rows_stacked (vars s') 0 anchor' 2 hi /\ stacking (vars s')).
  { subst s'. unfold after, CalculatePositions. rewrite Ha.
    destruct Hs as (Hf & Hvar & Hx). rewrite Hf.
    set (v0 := set_layouts (vars s) (S (layouts (vars s)))).
    assert (Hs0 : stacking v0).
    { unfold stacking, extent_ok, v0. destruct (vars s). by repeat split. }
    pose proof (CalculateLevel_rows anchor v0 0%nat 2 Hs0) as [_ R1].
    pose proof (CalculateLevel_frame anchor v0 0 2) as [E1 _].
    change (Z.of_nat 0) with 0 in R1.
    destruct (CalculateLevel v0 anchor 0 2) as [[v1 a1] y1]. cbn [fst snd] in *.
    assert (Hs1 : stacking v1) by (by apply (stacking_env v0)).
    destruct (HasAGWFlag v1 TR_ALIGN_WINDOWS || HasAGWFlag v1 TR_ALIGN_WINDOWS_RIGHT).
    - pose proof (CalculateLevel_rows a1 v1 0%nat 2 Hs1) as [_ R2].
      pose proof (CalculateLevel_frame a1 v1 0 2) as [E2 _].
      change (Z.of_nat 0) with 0 in R2.
      destruct (CalculateLevel v1 a1 0 2) as [[v2 a2] y2]. cbn [fst snd vars _anchor] in *.
      exists a2, y2. split; [done|]. split; [|by apply (stacking_env v1)].
      apply (rows_stacked_style v1 v2); [by apply env_eq_agwStyle|done].
    - cbn [fst snd vars _anchor]. exists a1, y1. split; [done|]. split; [|done].
      apply (rows_stacked_style v0 v1); [by apply env_eq_agwStyle|done]. }
  destruct Hrows as (anchor' & hi & Ha' & [Hin Hord] & (_ & Hvar & _)).
  exists anchor', hi. split; [done|]. split; [by split|].
  intros point q1 q2 x1 x2 Hs1 Hs2 Hx1 Hx2 Hr1 Hr2.
  unfold in_row in Hr1, Hr2.
  rewrite (GetLineHeight_variable _ _ Hvar) in Hr1.
  rewrite (GetLineHeight_variable _ _ Hvar) in Hr2.
  apply andb_prop in Hr1 as [A1 B1]. apply andb_prop in Hr2 as [A2 B2].
  apply Z.ltb_lt in A1, B1, A2, B2.
  destruct (decide (q1 = q2)) as [|Hne]; [done|].
  destruct (path_le q1 q2) eqn:Hle.
  - pose proof (Hord q1 q2 x1 x2 Hs1 Hs2 Hx1 Hx2 (conj Hle Hne)). lia.
  - apply path_le_total in Hle.
    assert (Hne' : q2 <> q1) by congruence.
    pose proof (Hord q2 q1 x2 x1 Hs2 Hs1 Hx2 Hx1 (conj Hle Hne')). lia.
Qed.

Lemma layout_rows_stacked_witness :
  exists anchor' hi,
    _anchor (after CalculatePositions variable_rows_example) = Some anchor' /\
    rows_stacked (vars (after CalculatePositions variable_rows_example)) 0 anchor' 2 hi.
Proof.
  assert (Hs : stacking (vars variable_rows_example)).
  { split; [reflexivity|]. split; [reflexivity|]. intros bold italic text. simpl. lia. }
  destruct (layout_rows_stacked variable_rows_example _ eq_refl Hs)
    as (anchor' & hi & H1 & H2 & _).
  exists anchor', hi. exact (conj H1 H2).
Defined.

(** ** The undetermined state and [TR_AUTO_CHECK_CHILD] *)

(** [AutoCheckChild] with a value that is neither true nor false changes
    nothing, and fails at the first enabled check box it meets. *)
Lemma AutoCheckChild_from_bad (checked : Z) (item : GenericTreeItem) :
  checked <> 0 -> checked <> 1 ->
  forall (v : CtrlVars) (d : ItemData),
    (AutoCheckChild_from v d item checked).1.1 = v /\
    (AutoCheckChild_from v d item checked).1.2 = Item d (GetChildren item) /\
    ((AutoCheckChild_from v d item checked).2 = None \/
     (AutoCheckChild_from v d item checked).2 = Some AssertionError) /\
    ((exists k c, GetChildren item !! k = Some c /\ GetType (data c) = 1 /\
                  IsEnabled (data c) = true) ->
     (AutoCheckChild_from v d item checked).2 = Some AssertionError).
Proof.
  intros H0 H1. induction item as [x cs IH] using GenericTreeItem_ind. intros v d.
  cbn [AutoCheckChild_from GetChildren]. cbv zeta.
  set (body := fun (v : CtrlVars) (_ : nat) (child : GenericTreeItem) => _).
  assert (Hloop : forall n : nat,
    (for_children body v n cs).1.1 = v /\ (for_children body v n cs).1.2 = cs /\
    ((for_children body v n cs).2 = None \/
     (for_children body v n cs).2 = Some AssertionError) /\
    ((exists k c, cs !! k = Some c /\ GetType (data c) = 1 /\ IsEnabled (data c) = true) ->
     (for_children body v n cs).2 = Some AssertionError)).
  { induction IH as [|c rest Hc _ IHrest]; intros n; cbn [for_children].
    { cbn [fst snd]. repeat split; [by left|]. by intros (k & c & ? & _). }
    assert (Hbody : body v n c = (v, c, None) \/ body v n c = (v, c, Some AssertionError)).
    { unfold body. destruct ((GetType (data c) =? 1) && IsEnabled (data c)) eqn:Hg.
      - apply andb_prop in Hg as [Hty%Z.eqb_eq _]. right.
        unfold CheckItem2, Check. rewrite Hty. cbn [Z.eqb].
        assert (negb ((checked =? 1) || (checked =? 0)) = true) as ->.
        { apply negb_true_iff, orb_false_iff. split; by apply Z.eqb_neq. }
        by rewrite item_eta.
      - destruct (Hc v (data c)) as (E1 & E2 & E3 & _).
        destruct (AutoCheckChild_from v (data c) c checked) as [[v' c'] e].
        cbn [fst snd] in *. subst v' c'. rewrite item_eta.
        destruct E3 as [-> | ->]; [by left|by right]. }
    assert (Hfirst : GetType (data c) = 1 -> IsEnabled (data c) = true ->
                     body v n c = (v, c, Some AssertionError)).
    { intros Hty Hen. unfold body. rewrite Hty, Hen. cbn [Z.eqb andb].
      unfold CheckItem2, Check. rewrite Hty. cbn [Z.eqb].
      assert (negb ((checked =? 1) || (checked =? 0)) = true) as ->.
      { apply negb_true_iff, orb_false_iff. split; by apply Z.eqb_neq. }
      cbn [Pos.eqb andb]. by rewrite item_eta. }
    destruct Hbody as [Hb|Hb]; rewrite Hb.
    - destruct (IHrest (S n)) as (E1 & E2 & E3 & E4).
      destruct (for_children body v (S n) rest) as [[v' rest'] e]. cbn [fst snd] in *.
      subst v' rest'. split; [done|]. split; [done|]. split; [done|].
      intros (k & c' & Hk & Hty & Hen). destruct k as [|k].
      + injection Hk as <-. rewrite (Hfirst Hty Hen) in Hb. done.
      + apply E4. by exists k, c'.
    - cbn [fst snd]. split; [done|]. split; [done|]. split; [by right|done]. }
  destruct (Hloop 0%nat) as (E1 & E2 & E3 & E4).
  destruct (for_children body v 0%nat cs) as [[v' cs'] e]. cbn [fst snd] in *.
  subst v' cs'. by repeat split.
Qed.

(** With the style [TR_AUTO_CHECK_CHILD], setting a 3-state check box
    that has an enabled check box among its children to the undetermined
    state fails: [CheckItem(item, wx.CHK_UNDETERMINED)] raises
    [AssertionError], since the value is passed on to the children, which
    only take true or false.  The item has got the undetermined state by
    then and keeps it, nothing else has changed, and the ``checking''
    event is not followed by a ``checked'' event. *)
Theorem CheckItem_undetermined_raises (s : CustomTreeCtrl) (item : path)
    (it : GenericTreeItem) :
  item_at s item = Some it ->
  GetType (data it) = 1 -> Is3State (data it) = true ->
  HasAGWFlag (vars s) TR_AUTO_CHECK_CHILD = true ->
  handler (vars s) (sent (vars s)) (mkTreeEvent wxEVT_TREE_ITEM_CHECKING item) = false ->
  (exists k c, GetChildren it !! k = Some c /\ GetType (data c) = 1 /\
               IsEnabled (data c) = true) ->
  CheckItem item CHK_UNDETERMINED s
  = (mkCtrl (set_sent (vars s)
               (sent (vars s) ++ [mkTreeEvent wxEVT_TREE_ITEM_CHECKING item]))
       (alter_item (with_data (fun _ => set_checked (data it) CHK_UNDETERMINED)) item
          <$> _anchor s),
     Raise AssertionError).
Proof.
  intros Hit Hty H3 Hchild Hh Hex.
  set (d1 := set_checked (data it) CHK_UNDETERMINED).
  set (v1 := set_sent (vars s)
               (sent (vars s) ++ [mkTreeEvent wxEVT_TREE_ITEM_CHECKING item])).
  assert (Hst : _agwStyle v1 = _agwStyle (vars s)) by (unfold v1; by destruct (vars s)).
  set (it1 := with_data (fun _ => d1) it).
  set (s2 := mkCtrl v1 (alter_item (with_data (fun _ => d1)) item <$> _anchor s)).
  assert (Hit2 : item_at s2 item = Some it1).
  { unfold s2. rewrite item_at_alter_item. by rewrite Hit. }
  assert (Hval : IsItemChecked (data it1) = CHK_UNDETERMINED).
  { unfold it1, d1, IsItemChecked, IsChecked, GetValue, Get3StateValue, Is3State in *.
    destruct it as [d cs]. cbn [with_data data] in *. destruct d; cbn in *. by rewrite H3. }
  assert (Hex1 : exists k c, GetChildren it1 !! k = Some c /\ GetType (data c) = 1 /\
                             IsEnabled (data c) = true) by (unfold it1; by destruct it).
  destruct (AutoCheckChild_from_bad CHK_UNDETERMINED it1 ltac:(done) ltac:(done) v1 (data it1))
    as (E1 & E2 & _ & E4).
  specialize (E4 Hex1).
  unfold CheckItem. unfold bind at 1. unfold the_item at 1. rewrite Hit, Hty.
  cbn [Z.eqb Pos.eqb]. unfold bind at 1. rewrite process_event_run, Hh.
  unfold bind at 1. unfold lift. rewrite H3.
  change (Set3StateValue (data it) CHK_UNDETERMINED) with
    (if negb (_is3State (data it)) && true
     then Raise (Exception "Set3StateValue can only be used with 3-state checkbox items.")
     else Ok d1).
  unfold Is3State in H3. rewrite H3. cbn [negb andb].
  unfold bind at 1. unfold put_data. cbn [vars _anchor]. fold v1 s2.
  unfold bind at 1. unfold get_vars. cbn [vars s2].
  rewrite (HasAGWFlag_style _ _ _ Hst), Hchild.
  unfold bind at 1. rewrite (on_item_run _ _ s2 it1 Hit2).
  fold (IsItemChecked (data it1)). cbn [vars s2]. rewrite Hval. unfold AutoCheckChild.
  destruct (AutoCheckChild_from v1 (data it1) it1 CHK_UNDETERMINED) as [[v3 it3] e].
  cbn [fst snd] in *. subst v3 it3 e. cbn [as_result fst snd _anchor].
  rewrite item_eta. unfold s2 at 2. f_equal. f_equal. unfold s2. cbn [_anchor].
  rewrite alter_anchor_compose.
  by apply (alter_anchor_ext _ _ item (_anchor s) it Hit).
Qed.

Lemma CheckItem_undetermined_raises_witness :
  outcome (CheckItem [0%nat] CHK_UNDETERMINED) three_state_example = Raise AssertionError.
Proof.
  unfold outcome.
  by rewrite (CheckItem_undetermined_raises three_state_example [0%nat] _ eq_refl eq_refl
                eq_refl eq_refl eq_refl
                (ex_intro _ 0%nat (ex_intro _ _ (conj eq_refl (conj eq_refl eq_refl))))).
Defined.

(** ** Hidden items and the layout pass *)









